(** * ColumnDataCollection: a shallow embedding and its verified properties

    The development follows [column_data_collection.cpp]: the append driver,
    the per-physical-type copy functions, the scan index state machine,
    [Combine], the copy constructor and [ResultEquals].

    Conventions.
    - [idx_t] counters (row counts, indices into vectors) are natural
      numbers: they index rows that are held in memory, so the 64-bit bound
      is never reached.  The two [idx_t] fields of a stored [list_entry_t]
      are data and keep their 64-bit wrap-around ([idx_add]).
    - A raw pointer into an array is a function from the index to the
      element; memory that was never written reads as [None].
    - A call that throws, fails a [D_ASSERT] or has undefined behaviour
      returns [Fail]; state changes made before the failure are kept. *)

From Stdlib Require Import ZArith NArith Lia Bool.
From stdpp Require Import base list strings.

Set Default Proof Using "Type".
Set Warnings "-register-all".
Local Open Scope nat_scope.

(** ** Outcomes *)

Inductive Failure :=
| InternalException (msg : string)
| UndefinedBehaviour (what : string).

Inductive Res (A : Type) :=
| Ok (a : A)
| Fail (f : Failure)
| OutOfFuel.
Arguments Ok {A} a.
Arguments Fail {A} f.
Arguments OutOfFuel {A}.

(** Modelled from the spec: the macro [D_ASSERT] is declared outside the
    sources at hand; section 7 of the specification reports a violated
    contract as an internal error that ends the current operation. *)
Definition D_ASSERT (cond : bool) (text : string) : Res unit :=
  if cond then Ok tt else Fail (InternalException ("Assertion triggered: " +:+ text)).

(** ** Types *)

Inductive PhysicalType :=
| BOOL | INT8 | INT16 | INT32 | INT64 | INT128
| UINT8 | UINT16 | UINT32 | UINT64
| FLOAT | DOUBLE | INTERVAL | VARCHAR | STRUCT | LIST
| INVALID.

(** A logical type, as far as the collection looks at it: its physical
    type and, for the nested types, the child types. *)
Inductive LogicalType :=
| Primitive (p : PhysicalType)
| StructType (child_types : list (string * LogicalType))
| ListType (child_type : LogicalType).

Definition InternalType (t : LogicalType) : PhysicalType :=
  match t with
  | Primitive p => p
  | StructType _ => STRUCT
  | ListType _ => LIST
  end.

Definition PhysicalType_eqb (a b : PhysicalType) : bool :=
  match a, b with
  | BOOL, BOOL | INT8, INT8 | INT16, INT16 | INT32, INT32 | INT64, INT64
  | INT128, INT128 | UINT8, UINT8 | UINT16, UINT16 | UINT32, UINT32
  | UINT64, UINT64 | FLOAT, FLOAT | DOUBLE, DOUBLE | INTERVAL, INTERVAL
  | VARCHAR, VARCHAR | STRUCT, STRUCT | LIST, LIST | INVALID, INVALID => true
  | _, _ => false
  end.

(** [operator==] on logical types and on [vector<LogicalType>]. *)
Fixpoint LogicalType_eqb (a b : LogicalType) : bool :=
  match a, b with
  | Primitive p, Primitive q => PhysicalType_eqb p q
  | StructType l, StructType k =>
      (fix children (l k : list (string * LogicalType)) : bool :=
         match l, k with
         | [], [] => true
         | (n, t) :: l', (m, u) :: k' =>
             String.eqb n m && LogicalType_eqb t u && children l' k'
         | _, _ => false
         end) l k
  | ListType t, ListType u => LogicalType_eqb t u
  | _, _ => false
  end.

Fixpoint types_eqb (l k : list LogicalType) : bool :=
  match l, k with
  | [], [] => true
  | t :: l', u :: k' => LogicalType_eqb t u && types_eqb l' k'
  | _, _ => false
  end.

(** ** Values held by vectors *)

(** [idx_t] arithmetic on stored data: unsigned 64-bit. *)
Definition idx_add (a b : N) : N := ((a + b) mod 2 ^ 64)%N.

Record list_entry_t := { le_offset : N; le_length : N }.

(** Where the bytes of a string that is not inlined live: in memory of the
    caller, or in the string heap of a segment. *)
Inductive StringPointer :=
| CallerMemory (address : nat)
| HeapBlob (index : nat).

(** Modelled from the spec: [string_t] is declared outside the sources at
    hand; it is either inlined (the bytes are part of the value) or carries
    a length and a pointer. *)
Inductive string_t :=
| Inlined (bytes : list Byte.byte)
| Pointer (len : nat) (ptr : StringPointer).

Definition IsInlined (s : string_t) : bool :=
  match s with Inlined _ => true | Pointer _ _ => false end.

(** One slot of a vector's data array.  Fixed-width types (integers,
    floats, intervals, booleans) are kept as their bit pattern. *)
Inductive Cell :=
| CFixed (raw : Z)
| CString (s : string_t)
| CList (e : list_entry_t).

(** The selection vector, validity mask and data pointer of a vector. *)
Record UnifiedVectorFormat := {
  uvf_sel : nat -> nat;
  uvf_validity : option (nat -> bool);
  uvf_data : nat -> Cell
}.

Definition AllValid (v : option (nat -> bool)) : bool :=
  match v with None => true | Some _ => false end.

Definition RowIsValid (v : option (nat -> bool)) (idx : nat) : bool :=
  match v with None => true | Some mask => mask idx end.

Inductive Vector :=
| mkVector (vtype : LogicalType) (format : UnifiedVectorFormat)
           (list_size : nat) (children : list Vector).

Definition GetType (v : Vector) : LogicalType :=
  match v with mkVector t _ _ _ => t end.
Definition VectorFormat (v : Vector) : UnifiedVectorFormat :=
  match v with mkVector _ f _ _ => f end.
Definition GetListSize (v : Vector) : nat :=
  match v with mkVector _ _ n _ => n end.
Definition VectorChildren (v : Vector) : list Vector :=
  match v with mkVector _ _ _ c => c end.

(** Modelled from the spec: [Vector::ToUnifiedFormat] and [Vector::Flatten]
    belong to the vector container.  The first hands out the view of the
    vector; the second materialises the selection, so that row [i] of the
    data is row [i] of the vector. *)
Definition ToUnifiedFormat (count : nat) (v : Vector) : UnifiedVectorFormat :=
  VectorFormat v.

Definition Flatten (count : nat) (v : Vector) : Vector :=
  match v with
  | mkVector t f n c =>
      mkVector t
        {| uvf_sel := fun i => i;
           uvf_validity :=
             match uvf_validity f with
             | None => None
             | Some mask => Some (fun i => mask (uvf_sel f i))
             end;
           uvf_data := fun i => uvf_data f (uvf_sel f i) |}
        n c
  end.

Record DataChunk := {
  dc_data : list Vector;
  dc_size : nat;
  (* memory of the caller that non-inlined strings of the chunk point to *)
  dc_strings : nat -> list Byte.byte
}.

Definition GetTypes (input : DataChunk) : list LogicalType :=
  map GetType (dc_data input).

(** ** The segment *)

(** [VectorDataIndex] and [VectorChildIndex] are indices into the tables of
    the segment; an index that is not valid is [None]. *)
Record VectorMetaData := {
  block_id : nat;
  vd_offset : nat;
  vd_count : nat;
  child_index : option nat;
  next_data : option nat
}.

Record ChunkMetaData := {
  cm_vector_data : list nat;
  cm_count : nat
}.

(** The region of a block that holds one vector: the data slots and the
    validity bitmap behind them.  [None] is memory that was never written. *)
Record Block := {
  slots : nat -> option Cell;
  bits : nat -> option bool
}.

Record ColumnDataCollectionSegment := {
  seg_types : list LogicalType;
  seg_count : nat;
  chunk_data : list ChunkMetaData;
  vector_data : list VectorMetaData;
  child_indices : list nat;
  (* the blocks the allocator handed to this segment *)
  blocks : list Block;
  heap : list (list Byte.byte)
}.

Definition with_vector_data (f : list VectorMetaData -> list VectorMetaData)
    (seg : ColumnDataCollectionSegment) : ColumnDataCollectionSegment :=
  {| seg_types := seg_types seg; seg_count := seg_count seg;
     chunk_data := chunk_data seg; vector_data := f (vector_data seg);
     child_indices := child_indices seg; blocks := blocks seg;
     heap := heap seg |}.

Definition with_blocks (f : list Block -> list Block)
    (seg : ColumnDataCollectionSegment) : ColumnDataCollectionSegment :=
  {| seg_types := seg_types seg; seg_count := seg_count seg;
     chunk_data := chunk_data seg; vector_data := vector_data seg;
     child_indices := child_indices seg; blocks := f (blocks seg);
     heap := heap seg |}.

Definition with_heap (h : list (list Byte.byte))
    (seg : ColumnDataCollectionSegment) : ColumnDataCollectionSegment :=
  {| seg_types := seg_types seg; seg_count := seg_count seg;
     chunk_data := chunk_data seg; vector_data := vector_data seg;
     child_indices := child_indices seg; blocks := blocks seg;
     heap := h |}.

Definition with_child_indices (f : list nat -> list nat)
    (seg : ColumnDataCollectionSegment) : ColumnDataCollectionSegment :=
  {| seg_types := seg_types seg; seg_count := seg_count seg;
     chunk_data := chunk_data seg; vector_data := vector_data seg;
     child_indices := f (child_indices seg); blocks := blocks seg;
     heap := heap seg |}.

Definition with_chunk_data (f : list ChunkMetaData -> list ChunkMetaData)
    (seg : ColumnDataCollectionSegment) : ColumnDataCollectionSegment :=
  {| seg_types := seg_types seg; seg_count := seg_count seg;
     chunk_data := f (chunk_data seg); vector_data := vector_data seg;
     child_indices := child_indices seg; blocks := blocks seg;
     heap := heap seg |}.

Definition with_seg_count (n : nat)
    (seg : ColumnDataCollectionSegment) : ColumnDataCollectionSegment :=
  {| seg_types := seg_types seg; seg_count := n;
     chunk_data := chunk_data seg; vector_data := vector_data seg;
     child_indices := child_indices seg; blocks := blocks seg;
     heap := heap seg |}.

Definition set_count (n : nat) (vd : VectorMetaData) : VectorMetaData :=
  {| block_id := block_id vd; vd_offset := vd_offset vd; vd_count := n;
     child_index := child_index vd; next_data := next_data vd |}.

Definition set_child_index (c : option nat) (vd : VectorMetaData) : VectorMetaData :=
  {| block_id := block_id vd; vd_offset := vd_offset vd; vd_count := vd_count vd;
     child_index := c; next_data := next_data vd |}.

Definition set_next_data (n : option nat) (vd : VectorMetaData) : VectorMetaData :=
  {| block_id := block_id vd; vd_offset := vd_offset vd; vd_count := vd_count vd;
     child_index := child_index vd; next_data := n |}.

Definition empty_block : Block :=
  {| slots := fun _ => None; bits := fun _ => None |}.

(** Modelled from the spec: [ColumnDataCollectionSegment] is defined outside
    the sources at hand (section 4.2).  [AllocateVector] allocates one
    descriptor on a block of its own and, when a predecessor is given,
    links it as the predecessor's [next_data]. *)
Definition AllocateVector (prev_index : option nat)
    (seg : ColumnDataCollectionSegment) : nat * ColumnDataCollectionSegment :=
  let index := length (vector_data seg) in
  let vd := {| block_id := length (blocks seg); vd_offset := 0; vd_count := 0;
               child_index := None; next_data := None |} in
  let seg1 := with_blocks (fun b => b ++ [empty_block])
                (with_vector_data (fun v => v ++ [vd]) seg) in
  (index,
   match prev_index with
   | Some prev => with_vector_data (alter (set_next_data (Some index)) prev) seg1
   | None => seg1
   end).

(** Modelled from the spec: [GetVectorData] returns the descriptor behind an
    index; an index outside the table has no descriptor. *)
Definition GetVectorData (seg : ColumnDataCollectionSegment) (index : nat)
  : Res VectorMetaData :=
  match vector_data seg !! index with
  | Some vd => Ok vd
  | None => Fail (UndefinedBehaviour "vector_data index out of range")
  end.

(** Modelled from the spec: [AddChildIndex] and [GetChildIndex] maintain the
    table of child indices used by list vectors (one child) and by struct
    vectors (one child per field, stored side by side). *)
Definition AddChildIndex (index : nat) (seg : ColumnDataCollectionSegment)
  : nat * ColumnDataCollectionSegment :=
  (length (child_indices seg), with_child_indices (fun c => c ++ [index]) seg).

Definition GetChildIndex (seg : ColumnDataCollectionSegment)
    (index : nat) (child_entry : nat) : Res nat :=
  match child_indices seg !! (index + child_entry) with
  | Some i => Ok i
  | None => Fail (UndefinedBehaviour "child_indices index out of range")
  end.

(** Modelled from the spec: the string heap's [AddBlob] copies the bytes of
    a string into the heap and returns a [string_t] of the same length that
    points to the copy. *)
Definition GetString (memory : nat -> list Byte.byte)
    (heap : list (list Byte.byte)) (s : string_t) : list Byte.byte :=
  match s with
  | Inlined bytes => bytes
  | Pointer len (CallerMemory a) => take len (memory a)
  | Pointer len (HeapBlob k) => take len (default [] (heap !! k))
  end.

Definition AddBlob (memory : nat -> list Byte.byte)
    (heap : list (list Byte.byte)) (s : string_t)
  : string_t * list (list Byte.byte) :=
  let bytes := GetString memory heap s in
  (Pointer (length bytes) (HeapBlob (length heap)), heap ++ [bytes]).

(** Modelled from the spec: [GetDataPointer] of the allocator returns the
    region of a block; every vector has a block of its own, so the offset
    inside the block selects nothing further.  Pinning the block in the
    handle cache changes no stored value and is left out on the append
    path. *)
Definition GetDataPointer (seg : ColumnDataCollectionSegment)
    (block_id offset : nat) : Res Block :=
  match blocks seg !! block_id with
  | Some b => Ok b
  | None => Fail (UndefinedBehaviour "block id out of range")
  end.

(** [ValidityMask] operations on the bitmap of a block. *)
Definition SetAllValid (n : nat) (b : Block) : Block :=
  {| slots := slots b;
     bits := fun j => if j <? n then Some true else bits b j |}.

Definition SetInvalid (i : nat) (b : Block) : Block :=
  {| slots := slots b;
     bits := fun j => if j =? i then Some false else bits b j |}.

Definition store (i : nat) (c : Cell) (b : Block) : Block :=
  {| slots := fun j => if j =? i then Some c else slots b j;
     bits := bits b |}.

(** ** Computations on a segment *)

Definition SegM (A : Type) : Type :=
  ColumnDataCollectionSegment -> Res A * ColumnDataCollectionSegment.

Definition ret {A} (a : A) : SegM A := fun seg => (Ok a, seg).

Definition bind {A B} (m : SegM A) (k : A -> SegM B) : SegM B :=
  fun seg =>
    match m seg with
    | (Ok a, seg') => k a seg'
    | (Fail e, seg') => (Fail e, seg')
    | (OutOfFuel, seg') => (OutOfFuel, seg')
    end.

(** A read of the segment that may fail. *)
Definition reading {A} (f : ColumnDataCollectionSegment -> Res A) : SegM A :=
  fun seg => (f seg, seg).

(** A call that changes the segment and returns a value. *)
Definition calling {A} (f : ColumnDataCollectionSegment -> A * ColumnDataCollectionSegment)
  : SegM A :=
  fun seg => let '(a, seg') := f seg in (Ok a, seg').

Definition modifying (f : ColumnDataCollectionSegment -> ColumnDataCollectionSegment)
  : SegM unit :=
  fun seg => (Ok tt, f seg).

Definition failing {A} (e : Failure) : SegM A := fun seg => (Fail e, seg).

Declare Scope seg_scope.
Delimit Scope seg_scope with seg.
Notation "'do' x <- m ; k" := (bind m (fun x => k))
  (at level 10, x name, m at level 100, k at level 200,
   format "'[v' 'do'  x  <-  m ; '/' k ']'") : seg_scope.
Notation "m ;; k" := (bind m (fun _ => k))
  (at level 100, k at level 200, right associativity) : seg_scope.

(** ** Copy functions *)

(** The [OP] parameter of [TemplatedColumnDataCopy]. *)
Inductive ValueCopy :=
| StandardValueCopy
| StringValueCopy
| ListValueCopy
| StructValueCopy.

(** The function a [ColumnDataCopyFunction] points to.  The instances of
    [ColumnDataCopy<T>] for the fixed-width types differ in the width of the
    slot only. *)
Inductive column_data_copy_function_t :=
| ColumnDataCopy (T : PhysicalType)
| ColumnDataCopy_string_t
| ColumnDataCopy_list_entry_t
| ColumnDataCopyStruct.

Inductive ColumnDataCopyFunction :=
| mkCopyFunction (function : column_data_copy_function_t)
                 (child_functions : list ColumnDataCopyFunction).

Definition function (f : ColumnDataCopyFunction) : column_data_copy_function_t :=
  match f with mkCopyFunction fn _ => fn end.
Definition child_functions (f : ColumnDataCopyFunction) : list ColumnDataCopyFunction :=
  match f with mkCopyFunction _ c => c end.

(** [DConstants::INVALID_INDEX], the initial [child_list_size]. *)
Definition INVALID_INDEX : N := (2 ^ 64 - 1)%N.

(** [OP::Operation]: the value that is stored for an input value.  The
    string copy may add a blob to the heap of the segment. *)
Definition Operation (op : ValueCopy) (child_list_size : N)
    (memory : nat -> list Byte.byte) (heap : list (list Byte.byte))
    (input : Cell) : Cell * list (list Byte.byte) :=
  match op, input with
  | StringValueCopy, CString s =>
      if IsInlined s then (input, heap)
      else let '(s', heap') := AddBlob memory heap s in (CString s', heap')
  | ListValueCopy, CList e =>
      (CList {| le_offset := idx_add (le_offset e) child_list_size;
                le_length := le_length e |}, heap)
  | _, _ => (input, heap)
  end.

(** [OP::Assign]: [result_data[target_idx] = Operation(source_data[source_idx])];
    the struct copy has no data and assigns nothing. *)
Definition Assign (op : ValueCopy) (child_list_size : N)
    (memory : nat -> list Byte.byte) (source : nat -> Cell)
    (target_idx source_idx : nat)
    (st : Block * list (list Byte.byte)) : Block * list (list Byte.byte) :=
  match op with
  | StructValueCopy => st
  | _ =>
      let '(c, heap') := Operation op child_list_size memory (snd st) (source source_idx) in
      (store target_idx c (fst st), heap')
  end.

(** The build-time constant [STANDARD_VECTOR_SIZE]; the build that is meant
    is found by instance resolution. *)
Class VectorSize := STANDARD_VECTOR_SIZE : nat.

Section WithVectorSize.

Context `{VectorSize}.

(** The body of [for (idx_t i = 0; i < append_count; i++)] in
    [TemplatedColumnDataCopy], run for [n] further rows from row [i]. *)
Fixpoint copy_rows (op : ValueCopy) (child_list_size : N)
    (memory : nat -> list Byte.byte) (source_data : UnifiedVectorFormat)
    (current_count offset : nat) (n i : nat)
    (st : Block * list (list Byte.byte)) : Block * list (list Byte.byte) :=
  match n with
  | 0 => st
  | S n' =>
      let source_idx := uvf_sel source_data (offset + i) in
      let st' :=
        if RowIsValid (uvf_validity source_data) source_idx
        then Assign op child_list_size memory (uvf_data source_data)
               (current_count + i) source_idx st
        else (SetInvalid (current_count + i) (fst st), snd st) in
      copy_rows op child_list_size memory source_data current_count offset n' (S i) st'
  end.

(** The loop [while (remaining > 0)] of [TemplatedColumnDataCopy]. *)
Fixpoint TemplatedColumnDataCopy_loop (fuel : nat) (op : ValueCopy)
    (child_list_size : N) (memory : nat -> list Byte.byte)
    (source_data : UnifiedVectorFormat)
    (current_index offset remaining : nat)
    (seg : ColumnDataCollectionSegment) : Res unit * ColumnDataCollectionSegment :=
  if remaining =? 0 then (Ok tt, seg) else
  match fuel with
  | 0 => (OutOfFuel, seg)
  | S fuel' =>
    match GetVectorData seg current_index with
    | Fail e => (Fail e, seg)
    | OutOfFuel => (OutOfFuel, seg)
    | Ok current_segment =>
      let append_count := min (STANDARD_VECTOR_SIZE - vd_count current_segment) remaining in
      match GetDataPointer seg (block_id current_segment) (vd_offset current_segment) with
      | Fail e => (Fail e, seg)
      | OutOfFuel => (OutOfFuel, seg)
      | Ok base_ptr =>
        let result_validity :=
          if vd_count current_segment =? 0
          then SetAllValid STANDARD_VECTOR_SIZE base_ptr else base_ptr in
        let '(written, heap') :=
          copy_rows op child_list_size memory source_data
            (vd_count current_segment) offset append_count 0
            (result_validity, heap seg) in
        let seg1 :=
          with_vector_data
            (alter (set_count (vd_count current_segment + append_count)) current_index)
            (with_heap heap'
               (with_blocks (<[block_id current_segment := written]>) seg)) in
        let offset := offset + append_count in
        let remaining := remaining - append_count in
        if 0 <? remaining then
          let seg2 :=
            match next_data current_segment with
            | Some _ => seg1
            | None => snd (AllocateVector (Some current_index) seg1)
            end in
          match GetVectorData seg2 current_index with
          | Fail e => (Fail e, seg2)
          | OutOfFuel => (OutOfFuel, seg2)
          | Ok vd =>
            match next_data vd with
            | None =>
                (Fail (InternalException
                   "Assertion triggered: segment.GetVectorData(current_index).next_data.IsValid()"),
                 seg2)
            | Some next =>
                TemplatedColumnDataCopy_loop fuel' op child_list_size memory
                  source_data next offset remaining seg2
            end
          end
        else (Ok tt, seg1)
      end
    end
  end.

(** [TemplatedColumnDataCopy<OP>(meta_data, source_data, source, offset, count)].
    Every turn of the loop either writes a row or moves to a later
    descriptor, which bounds the number of turns. *)
Definition TemplatedColumnDataCopy (op : ValueCopy) (child_list_size : N)
    (memory : nat -> list Byte.byte) (vector_data_index : nat)
    (source_data : UnifiedVectorFormat) (offset count : nat)
    (seg : ColumnDataCollectionSegment) : Res unit * ColumnDataCollectionSegment :=
  TemplatedColumnDataCopy_loop (length (vector_data seg) + count) op
    child_list_size memory source_data vector_data_index offset count seg.

(** The loop of [ColumnDataCopyValidity] over the rows of the window. *)
Fixpoint invalidate_rows (source_data : UnifiedVectorFormat)
    (source_offset target_offset n i : nat) (validity : Block) : Block :=
  match n with
  | 0 => validity
  | S n' =>
      let idx := uvf_sel source_data (source_offset + i) in
      invalidate_rows source_data source_offset target_offset n' (S i)
        (if negb (RowIsValid (uvf_validity source_data) idx)
         then SetInvalid (target_offset + i) validity
         else validity)
  end.

(** [ColumnDataCopyValidity(source_data, target, source_offset, target_offset,
    copy_count)], on the block whose bitmap [target] points to. *)
Definition ColumnDataCopyValidity (source_data : UnifiedVectorFormat)
    (target : Block) (source_offset target_offset copy_count : nat) : Block :=
  let validity :=
    if target_offset =? 0
    then SetAllValid STANDARD_VECTOR_SIZE target   (* first time appending to this vector *)
    else target in
  if negb (AllValid (uvf_validity source_data))
  then invalidate_rows source_data source_offset target_offset copy_count 0 validity
  else validity.

Local Open Scope seg_scope.

(** The loop of [ColumnDataCopy<list_entry_t>] that adds up the counts of
    the child descriptors reachable through [next_data]. *)
Fixpoint current_list_size_loop (fuel : nat) (seg : ColumnDataCollectionSegment)
    (current_child_index : option nat) (current_list_size : nat) : Res nat :=
  match current_child_index with
  | None => Ok current_list_size
  | Some index =>
    match fuel with
    | 0 => OutOfFuel
    | S fuel' =>
      match GetVectorData seg index with
      | Ok child_vdata =>
          current_list_size_loop fuel' seg (next_data child_vdata)
            (current_list_size + vd_count child_vdata)
      | Fail e => Fail e
      | OutOfFuel => OutOfFuel
      end
    end
  end.

(** Modelled from the spec: [StructType::GetChildTypes] belongs to the type
    system; asking a type that is no struct for its fields violates its
    contract. *)
Definition GetChildTypes (t : LogicalType) : Res (list (string * LogicalType)) :=
  match t with
  | StructType child_types => Ok child_types
  | _ => Fail (InternalException "Assertion triggered: type.id() == LogicalTypeId::STRUCT")
  end.

Definition at_index {A} (l : list A) (i : nat) (what : string) : Res A :=
  match l !! i with
  | Some a => Ok a
  | None => Fail (UndefinedBehaviour what)
  end.

(** Calling [f.function(meta_data, source_data, source, offset, copy_count)]
    where [meta_data] names the copy function [f] itself and the descriptor
    [vector_data_index]: [ColumnDataCopy<T>], [ColumnDataCopy<string_t>],
    [ColumnDataCopy<list_entry_t>] and [ColumnDataCopyStruct]. *)
Fixpoint call_copy_function (f : ColumnDataCopyFunction)
    (memory : nat -> list Byte.byte) (vector_data_index : nat)
    (source_data : UnifiedVectorFormat) (source : Vector)
    (offset copy_count : nat) {struct f} : SegM unit :=
  match f with
  | mkCopyFunction (ColumnDataCopy _) _ =>
      TemplatedColumnDataCopy StandardValueCopy INVALID_INDEX memory
        vector_data_index source_data offset copy_count
  | mkCopyFunction ColumnDataCopy_string_t _ =>
      TemplatedColumnDataCopy StringValueCopy INVALID_INDEX memory
        vector_data_index source_data offset copy_count
  | mkCopyFunction ColumnDataCopy_list_entry_t children =>
      (* first append the child entries of the list *)
      do child_vector <- reading (fun _ => at_index (VectorChildren source) 0 "ListVector::GetEntry");
      let child_list_size := GetListSize source in
      let child_vector_data := ToUnifiedFormat child_list_size child_vector in
      do vd <- reading (fun seg => GetVectorData seg vector_data_index);
      (match child_index vd with
       | Some _ => ret tt
       | None =>
           do child_index <- calling (AllocateVector None);
           do entry <- calling (AddChildIndex child_index);
           modifying (with_vector_data
                        (alter (set_child_index (Some entry)) vector_data_index))
       end);;
      match children with
      | [] => failing (UndefinedBehaviour "child_functions[0]")
      | child_function :: _ =>
          do vd <- reading (fun seg => GetVectorData seg vector_data_index);
          do child_index <- reading (fun seg =>
            match child_index vd with
            | Some entry => GetChildIndex seg entry 0
            | None => Fail (UndefinedBehaviour "child index is not valid")
            end);
          (* figure out the current list size by traversing the set of child entries *)
          do current_list_size <- reading (fun seg =>
            current_list_size_loop (length (vector_data seg)) seg (Some child_index) 0);
          call_copy_function child_function memory child_index child_vector_data
            child_vector 0 child_list_size;;
          (* now copy the list entries *)
          TemplatedColumnDataCopy ListValueCopy (N.of_nat current_list_size) memory
            vector_data_index source_data offset copy_count
      end
  | mkCopyFunction ColumnDataCopyStruct children =>
      (* copy the NULL values for the main struct vector *)
      TemplatedColumnDataCopy StructValueCopy INVALID_INDEX memory
        vector_data_index source_data offset copy_count;;
      do child_types <- reading (fun _ => GetChildTypes (GetType source));
      (* now copy all the child vectors *)
      do vd <- reading (fun seg => GetVectorData seg vector_data_index);
      reading (fun _ => D_ASSERT (bool_decide (is_Some (child_index vd)))
                          "meta_data.GetVectorMetaData().child_index.IsValid()");;
      let child_vectors := VectorChildren source in
      (fix struct_children (fs : list ColumnDataCopyFunction) (child_idx n : nat)
           {struct fs} : SegM unit :=
         match n with
         | 0 => ret tt
         | S n' =>
           match fs with
           | [] => failing (UndefinedBehaviour "child_functions[child_idx]")
           | child_function :: fs' =>
               do vd <- reading (fun seg => GetVectorData seg vector_data_index);
               do child_index <- reading (fun seg =>
                 match child_index vd with
                 | Some entry => GetChildIndex seg entry child_idx
                 | None => Fail (UndefinedBehaviour "child index is not valid")
                 end);
               do child_vector <- reading (fun _ =>
                 at_index child_vectors child_idx "child_vectors[child_idx]");
               let child_data := ToUnifiedFormat copy_count child_vector in
               call_copy_function child_function memory child_index child_data
                 child_vector offset copy_count;;
               struct_children fs' (S child_idx) n'
           end
         end) children 0 (length child_types)
  end.

(** The loop of [ColumnDataCopyStruct] over the child vectors, by itself. *)
Definition struct_children_loop (memory : nat -> list Byte.byte)
    (vector_data_index : nat) (child_vectors : list Vector)
    (offset copy_count : nat) :
    list ColumnDataCopyFunction -> nat -> nat -> SegM unit :=
  fix struct_children (fs : list ColumnDataCopyFunction) (child_idx n : nat)
      {struct fs} : SegM unit :=
    match n with
    | 0 => ret tt
    | S n' =>
        match fs with
        | [] => failing (UndefinedBehaviour "child_functions[child_idx]")
        | child_function :: fs' =>
            do vd <- reading (fun seg => GetVectorData seg vector_data_index);
            do child_index <- reading (fun seg =>
              match child_index vd with
              | Some entry => GetChildIndex seg entry child_idx
              | None => Fail (UndefinedBehaviour "child index is not valid")
              end);
            do child_vector <- reading (fun _ =>
              at_index child_vectors child_idx "child_vectors[child_idx]");
            let child_data := ToUnifiedFormat copy_count child_vector in
            call_copy_function child_function memory child_index child_data
              child_vector offset copy_count;;
            struct_children fs' (S child_idx) n'
        end
    end.

(** [ColumnDataCollection::GetCopyFunction]. *)
Fixpoint GetCopyFunction (type : LogicalType) : Res ColumnDataCopyFunction :=
  match type with
  | Primitive p =>
      match p with
      | BOOL | INT8 | INT16 | INT32 | INT64 | INT128
      | UINT8 | UINT16 | UINT32 | UINT64 | FLOAT | DOUBLE | INTERVAL =>
          Ok (mkCopyFunction (ColumnDataCopy p) [])
      | VARCHAR => Ok (mkCopyFunction ColumnDataCopy_string_t [])
      | STRUCT =>
          Fail (InternalException "Assertion triggered: type.id() == LogicalTypeId::STRUCT")
      | LIST =>
          Fail (InternalException "Assertion triggered: type.id() == LogicalTypeId::LIST")
      | INVALID =>
          Fail (InternalException "Unsupported type for ColumnDataCollection::GetCopyFunction")
      end
  | StructType child_types =>
      match
        (fix fields (l : list (string * LogicalType)) : Res (list ColumnDataCopyFunction) :=
           match l with
           | [] => Ok []
           | kv :: l' =>
               match GetCopyFunction (snd kv) with
               | Ok f =>
                   match fields l' with
                   | Ok fs => Ok (f :: fs)
                   | Fail e => Fail e
                   | OutOfFuel => OutOfFuel
                   end
               | Fail e => Fail e
               | OutOfFuel => OutOfFuel
               end
           end) child_types
      with
      | Ok fs => Ok (mkCopyFunction ColumnDataCopyStruct fs)
      | Fail e => Fail e
      | OutOfFuel => OutOfFuel
      end
  | ListType child_type =>
      match GetCopyFunction child_type with
      | Ok child_function => Ok (mkCopyFunction ColumnDataCopy_list_entry_t [child_function])
      | Fail e => Fail e
      | OutOfFuel => OutOfFuel
      end
  end.

Definition IsComplexType (type : LogicalType) : bool :=
  match InternalType type with
  | STRUCT | LIST => true
  | _ => false
  end.

(** Modelled from the spec: [AllocateNewChunk] allocates one root descriptor
    per schema column, recursing into the children of list and struct
    columns, and appends an empty chunk to the list of chunks. *)
Fixpoint allocate_column (t : LogicalType) : SegM nat :=
  do index <- calling (AllocateVector None);
  match t with
  | Primitive _ => ret index
  | ListType child_type =>
      do child <- allocate_column child_type;
      do entry <- calling (AddChildIndex child);
      modifying (with_vector_data (alter (set_child_index (Some entry)) index));;
      ret index
  | StructType child_types =>
      do fields <-
        (fix fields (l : list (string * LogicalType)) : SegM (list nat) :=
           match l with
           | [] => ret []
           | kv :: l' =>
               do child <- allocate_column (snd kv);
               do rest <- fields l';
               ret (child :: rest)
           end) child_types;
      do base <- calling (fun seg =>
        (length (child_indices seg), with_child_indices (fun c => c ++ fields) seg));
      modifying (with_vector_data (alter (set_child_index (Some base)) index));;
      ret index
  end.

(** The loop of [allocate_column] over the fields of a struct, by itself. *)
Definition allocate_fields : list (string * LogicalType) -> SegM (list nat) :=
  fix fields (l : list (string * LogicalType)) : SegM (list nat) :=
    match l with
    | [] => ret []
    | kv :: l' =>
        do child <- allocate_column (snd kv);
        do rest <- fields l';
        ret (child :: rest)
    end.

Fixpoint allocate_columns (ts : list LogicalType) : SegM (list nat) :=
  match ts with
  | [] => ret []
  | t :: ts' =>
      do index <- allocate_column t;
      do rest <- allocate_columns ts';
      ret (index :: rest)
  end.

Definition AllocateNewChunk : SegM unit :=
  do types <- reading (fun seg => Ok (seg_types seg));
  do roots <- allocate_columns types;
  modifying (with_chunk_data
               (fun c => c ++ [{| cm_vector_data := roots; cm_count := 0 |}])).

(** ** The collection *)

Record ColumnDataCollection := {
  (* identity of the shared [ColumnDataAllocator] *)
  allocator : nat;
  types : list LogicalType;
  count : nat;
  finished_append : bool;
  (* a [unique_ptr] that was moved from is [None] *)
  segments : list (option ColumnDataCollectionSegment);
  copy_functions : list ColumnDataCopyFunction
}.

Definition Count (c : ColumnDataCollection) : nat := count c.
Definition ColumnCount (c : ColumnDataCollection) : nat := length (types c).
Definition Types (c : ColumnDataCollection) : list LogicalType := types c.

Definition with_segments (f : list (option ColumnDataCollectionSegment) ->
                              list (option ColumnDataCollectionSegment))
    (c : ColumnDataCollection) : ColumnDataCollection :=
  {| allocator := allocator c; types := types c; count := count c;
     finished_append := finished_append c; segments := f (segments c);
     copy_functions := copy_functions c |}.

Definition with_count (n : nat) (c : ColumnDataCollection) : ColumnDataCollection :=
  {| allocator := allocator c; types := types c; count := n;
     finished_append := finished_append c; segments := segments c;
     copy_functions := copy_functions c |}.

Definition with_finished_append (b : bool) (c : ColumnDataCollection)
  : ColumnDataCollection :=
  {| allocator := allocator c; types := types c; count := count c;
     finished_append := b; segments := segments c;
     copy_functions := copy_functions c |}.

Definition with_allocator (a : nat) (c : ColumnDataCollection)
  : ColumnDataCollection :=
  {| allocator := a; types := types c; count := count c;
     finished_append := finished_append c; segments := segments c;
     copy_functions := copy_functions c |}.

(** The loop of [Initialize] that pushes the copy function of every type. *)
Fixpoint push_copy_functions (ts : list LogicalType)
    (acc : list ColumnDataCopyFunction) : Res (list ColumnDataCopyFunction) :=
  match ts with
  | [] => Ok acc
  | type :: ts' =>
      match GetCopyFunction type with
      | Ok f => push_copy_functions ts' (acc ++ [f])
      | Fail e => Fail e
      | OutOfFuel => OutOfFuel
      end
  end.

(** [ColumnDataCollection::Initialize], on the object under construction. *)
Definition Initialize (types_p : list LogicalType) (this : ColumnDataCollection)
  : Res ColumnDataCollection :=
  match D_ASSERT (negb (bool_decide (types_p = []))) "!types.empty()" with
  | Ok _ =>
      match push_copy_functions types_p (copy_functions this) with
      | Ok fs =>
          Ok {| allocator := allocator this; types := types_p; count := 0;
                finished_append := false; segments := segments this;
                copy_functions := fs |}
      | Fail e => Fail e
      | OutOfFuel => OutOfFuel
      end
  | Fail e => Fail e
  | OutOfFuel => OutOfFuel
  end.

(** The members of a collection before a constructor body runs. *)
Definition uninitialized : ColumnDataCollection :=
  {| allocator := 0; types := []; count := 0; finished_append := false;
     segments := []; copy_functions := [] |}.

(** [ColumnDataCollection(shared_ptr<ColumnDataAllocator>, vector<LogicalType>)]. *)
Definition ColumnDataCollection_shared (allocator_p : nat)
    (types_p : list LogicalType) : Res ColumnDataCollection :=
  match Initialize types_p uninitialized with
  | Ok this => Ok (with_allocator allocator_p this)
  | Fail e => Fail e
  | OutOfFuel => OutOfFuel
  end.

(** The copy constructor [ColumnDataCollection(ColumnDataCollection &other)];
    the second component is [other] after the call. *)
Definition ColumnDataCollection_copy (other : ColumnDataCollection)
  : Res ColumnDataCollection * ColumnDataCollection :=
  match ColumnDataCollection_shared (allocator other) (types other) with
  | Ok this =>
      let other' := with_finished_append true other in
      match D_ASSERT (negb (bool_decide (types this = []))) "!types.empty()" with
      | Ok _ => (Ok this, other')
      | Fail e => (Fail e, other')
      | OutOfFuel => (OutOfFuel, other')
      end
  | Fail e => (Fail e, other)
  | OutOfFuel => (OutOfFuel, other)
  end.

Definition new_segment (types_p : list LogicalType) : ColumnDataCollectionSegment :=
  {| seg_types := types_p; seg_count := 0; chunk_data := []; vector_data := [];
     child_indices := []; blocks := []; heap := [] |}.

Definition CreateSegment (this : ColumnDataCollection) : ColumnDataCollection :=
  with_segments (fun s => s ++ [Some (new_segment (types this))]) this.

(** [ColumnDataAppendState]; the handle cache of [current_chunk_state] is
    left out (see [GetDataPointer]). *)
Record ColumnDataAppendState := {
  as_vector_data : list UnifiedVectorFormat
}.

Definition default_format : UnifiedVectorFormat :=
  {| uvf_sel := fun i => i; uvf_validity := None; uvf_data := fun _ => CFixed 0 |}.

(** Running a computation on [*segments.back()]. *)
Definition on_back_segment {A} (m : SegM A) (this : ColumnDataCollection)
  : Res A * ColumnDataCollection :=
  match last (segments this) with
  | None => (Fail (UndefinedBehaviour "segments.back() of an empty vector"), this)
  | Some None => (Fail (UndefinedBehaviour "null segment pointer"), this)
  | Some (Some seg) =>
      let '(r, seg') := m seg in
      (r, with_segments (<[length (segments this) - 1 := Some seg']>) this)
  end.

(** [ColumnDataCollection::InitializeAppend]. *)
Definition InitializeAppend (this : ColumnDataCollection)
    (state : ColumnDataAppendState)
  : Res unit * ColumnDataCollection * ColumnDataAppendState :=
  match D_ASSERT (negb (finished_append this)) "!finished_append" with
  | Ok _ =>
      let state' :=
        {| as_vector_data :=
             resize (length (types this)) default_format (as_vector_data state) |} in
      let this1 :=
        if bool_decide (segments this = []) then CreateSegment this else this in
      let '(r, this2) :=
        on_back_segment
          (do chunks <- reading (fun seg => Ok (chunk_data seg));
           if bool_decide (chunks = []) then AllocateNewChunk else ret tt)
          this1 in
      (r, this2, state')
  | Fail e => (Fail e, this, state)
  | OutOfFuel => (OutOfFuel, this, state)
  end.

(** The first loop of [Append]: flatten the complex columns and fetch the
    unified format of every column. *)
Fixpoint unify_columns (n vector_idx : nat) (input : DataChunk)
    (formats : list UnifiedVectorFormat)
  : Res (list Vector * list UnifiedVectorFormat) :=
  match n with
  | 0 => Ok (dc_data input, formats)
  | S n' =>
      match dc_data input !! vector_idx with
      | None => Fail (UndefinedBehaviour "input.data[vector_idx]")
      | Some v =>
          let v' := if IsComplexType (GetType v) then Flatten (dc_size input) v else v in
          if bool_decide (vector_idx < length formats) then
            unify_columns n' (S vector_idx)
              {| dc_data := <[vector_idx := v']> (dc_data input);
                 dc_size := dc_size input; dc_strings := dc_strings input |}
              (<[vector_idx := ToUnifiedFormat (dc_size input) v']> formats)
          else Fail (UndefinedBehaviour "state.vector_data[vector_idx]")
      end
  end.

(** The loop over the columns inside the append loop. *)
Fixpoint append_columns (n vector_idx : nat)
    (functions : list ColumnDataCopyFunction) (memory : nat -> list Byte.byte)
    (chunk_vector_data : list nat)
    (formats : list UnifiedVectorFormat) (data : list Vector)
    (offset append_amount : nat) : SegM unit :=
  match n with
  | 0 => ret tt
  | S n' =>
      do f <- reading (fun _ => at_index functions vector_idx "copy_functions[vector_idx]");
      do index <- reading (fun _ =>
        at_index chunk_vector_data vector_idx "chunk_data.vector_data[vector_idx]");
      do format <- reading (fun _ =>
        at_index formats vector_idx "state.vector_data[vector_idx]");
      do source <- reading (fun _ => at_index data vector_idx "input.data[vector_idx]");
      call_copy_function f memory index format source offset append_amount;;
      append_columns n' (S vector_idx) functions memory chunk_vector_data
        formats data offset append_amount
  end.

Definition add_chunk_count (n : nat) (c : ChunkMetaData) : ChunkMetaData :=
  {| cm_vector_data := cm_vector_data c; cm_count := cm_count c + n |}.

(** The loop [while (remaining > 0)] of [Append]. *)
Fixpoint Append_loop (fuel : nat) (column_count : nat)
    (functions : list ColumnDataCopyFunction) (memory : nat -> list Byte.byte)
    (formats : list UnifiedVectorFormat) (data : list Vector)
    (input_size remaining : nat) : SegM unit :=
  if remaining =? 0 then ret tt else
  match fuel with
  | 0 => fun seg => (OutOfFuel, seg)
  | S fuel' =>
      do chunk <- reading (fun seg =>
        match last (chunk_data seg) with
        | Some c => Ok c
        | None => Fail (UndefinedBehaviour "chunk_data.back() of an empty vector")
        end);
      let append_amount := min remaining (STANDARD_VECTOR_SIZE - cm_count chunk) in
      (if 0 <? append_amount then
         let offset := input_size - remaining in
         append_columns column_count 0 functions memory (cm_vector_data chunk)
           formats data offset append_amount;;
         modifying (fun seg =>
           with_chunk_data
             (alter (add_chunk_count append_amount) (length (chunk_data seg) - 1)) seg)
       else ret tt);;
      let remaining := remaining - append_amount in
      if 0 <? remaining then
        (* more to do: allocate a new chunk *)
        AllocateNewChunk;;
        Append_loop fuel' column_count functions memory formats data input_size remaining
      else ret tt
  end.

(** [ColumnDataCollection::Append(ColumnDataAppendState &, DataChunk &)]. *)
Definition Append (this : ColumnDataCollection) (state : ColumnDataAppendState)
    (input : DataChunk)
  : Res unit * ColumnDataCollection * ColumnDataAppendState :=
  match D_ASSERT (negb (finished_append this)) "!finished_append" with
  | Ok _ =>
    match D_ASSERT (types_eqb (types this) (GetTypes input)) "types == input.GetTypes()" with
    | Ok _ =>
      match unify_columns (length (types this)) 0 input (as_vector_data state) with
      | Ok (data, formats) =>
          let state' := {| as_vector_data := formats |} in
          let '(r, this1) :=
            on_back_segment
              (Append_loop (dc_size input + 1) (length (types this))
                 (copy_functions this) (dc_strings input) formats data
                 (dc_size input) (dc_size input);;
               modifying (fun seg => with_seg_count (seg_count seg + dc_size input) seg))
              this in
          match r with
          | Ok _ => (Ok tt, with_count (count this1 + dc_size input) this1, state')
          | _ => (r, this1, state')
          end
      | Fail e => (Fail e, this, state)
      | OutOfFuel => (OutOfFuel, this, state)
      end
    | Fail e => (Fail e, this, state)
    | OutOfFuel => (OutOfFuel, this, state)
    end
  | Fail e => (Fail e, this, state)
  | OutOfFuel => (OutOfFuel, this, state)
  end.

(** [ColumnDataCollection::Append(DataChunk &)]. *)
Definition Append_chunk (this : ColumnDataCollection) (input : DataChunk)
  : Res unit * ColumnDataCollection :=
  let '(r, this1, state) := InitializeAppend this {| as_vector_data := [] |} in
  match r with
  | Ok _ => let '(r', this2, _) := Append this1 state input in (r', this2)
  | _ => (r, this1)
  end.

(** ** Reading back *)

(** A value as [Vector::GetValue] returns it. *)
Inductive Value :=
| VNull
| VFixed (raw : Z)
| VString (bytes : list Byte.byte)
| VList (elements : list Value)
| VStruct (fields : list Value)
| VUninitialized.

(** The descriptors reachable from [index] through [next_data]. *)
Fixpoint chain (fuel : nat) (table : list VectorMetaData) (index : option nat)
  : list nat :=
  match index, fuel with
  | Some i, S fuel' =>
      match table !! i with
      | Some vd => i :: chain fuel' table (next_data vd)
      | None => []
      end
  | _, _ => []
  end.

(** The rows held by one descriptor: validity bit and data slot. *)
Definition descriptor_rows (seg : ColumnDataCollectionSegment) (i : nat)
  : list (option bool * option Cell) :=
  match vector_data seg !! i with
  | Some vd =>
      match blocks seg !! block_id vd with
      | Some b => map (fun j => (bits b j, slots b j)) (seq 0 (vd_count vd))
      | None => []
      end
  | None => []
  end.

(** The rows of a descriptor chain, head first. *)
Definition chain_rows (seg : ColumnDataCollectionSegment) (index : nat)
  : list (option bool * option Cell) :=
  concat (map (descriptor_rows seg)
            (chain (length (vector_data seg)) (vector_data seg) (Some index))).

Definition chain_validity (seg : ColumnDataCollectionSegment) (index : nat)
  : list (option bool) := map fst (chain_rows seg index).

Definition chain_slots (seg : ColumnDataCollectionSegment) (index : nat)
  : list (option Cell) := map snd (chain_rows seg index).

Definition scalar_value (heap : list (list Byte.byte))
    (row : option bool * option Cell) : Value :=
  match row with
  | (Some false, _) => VNull
  | (Some true, Some (CFixed raw)) => VFixed raw
  | (Some true, Some (CString s)) => VString (GetString (fun _ => []) heap s)
  | _ => VUninitialized
  end.

(** Row [i] of a struct: the values of the fields at row [i]. *)
Definition struct_value (fields : list (list Value)) (i : nat)
    (row : option bool * option Cell) : Value :=
  match fst row with
  | Some false => VNull
  | Some true => VStruct (map (fun column => default VUninitialized (column !! i)) fields)
  | None => VUninitialized
  end.

Definition list_value (child : list Value) (row : option bool * option Cell) : Value :=
  match row with
  | (Some false, _) => VNull
  | (Some true, Some (CList e)) =>
      VList (take (N.to_nat (le_length e)) (drop (N.to_nat (le_offset e)) child))
  | _ => VUninitialized
  end.

(** Modelled from the spec: [ReadChunk] walks the descriptor chain of a
    column and materialises list children recursively.  The values of the
    vector that starts at descriptor [index]: *)
Fixpoint read_vector (type : LogicalType) (seg : ColumnDataCollectionSegment)
    (index : nat) : list Value :=
  let rows := chain_rows seg index in
  let child_entry := default 0 (vd ← vector_data seg !! index; child_index vd) in
  match type with
  | Primitive _ => map (scalar_value (heap seg)) rows
  | ListType child_type =>
      let child :=
        match child_indices seg !! child_entry with
        | Some c => read_vector child_type seg c
        | None => []
        end in
      map (list_value child) rows
  | StructType child_types =>
      let fields :=
        (fix fields (l : list (string * LogicalType)) (child_idx : nat)
           : list (list Value) :=
           match l with
           | [] => []
           | kv :: l' =>
               match child_indices seg !! (child_entry + child_idx) with
               | Some c => read_vector (snd kv) seg c
               | None => []
               end :: fields l' (S child_idx)
           end) child_types 0 in
      imap (struct_value fields) rows
  end.

(** The loop of [read_vector] over the fields of a struct, by itself. *)
Definition read_fields (seg : ColumnDataCollectionSegment) (child_entry : nat) :
    list (string * LogicalType) -> nat -> list (list Value) :=
  fix fields (l : list (string * LogicalType)) (child_idx : nat)
      : list (list Value) :=
    match l with
    | [] => []
    | kv :: l' =>
        match child_indices seg !! (child_entry + child_idx) with
        | Some c => read_vector (snd kv) seg c
        | None => []
        end :: fields l' (S child_idx)
    end.

(** The chunk handed back by a scan: the values of every column. *)
Record ScanChunk := {
  sc_data : list (list Value);
  sc_size : nat
}.

Definition Reset_chunk : ScanChunk := {| sc_data := []; sc_size := 0 |}.

(** The block ids a read of descriptor chain [index] pins. *)
Definition chain_blocks (seg : ColumnDataCollectionSegment) (index : nat) : list nat :=
  omap (fun i => block_id <$> vector_data seg !! i)
    (chain (length (vector_data seg)) (vector_data seg) (Some index)).

(** Modelled from the spec: [ColumnDataCollectionSegment::ReadChunk] with the
    projection [column_ids]; the second component is the blocks it pins. *)
Definition ReadChunk (seg : ColumnDataCollectionSegment) (chunk_index : nat)
    (column_ids : list nat) : Res (ScanChunk * list nat) :=
  match chunk_data seg !! chunk_index with
  | None => Fail (InternalException "chunk index out of range")
  | Some chunk =>
      let roots := omap (fun c => cm_vector_data chunk !! c) column_ids in
      let column_types := omap (fun c => seg_types seg !! c) column_ids in
      Ok ({| sc_data := zip_with (fun t i => read_vector t seg i) column_types roots;
             sc_size := cm_count chunk |},
          concat (map (chain_blocks seg) roots))
  end.

(** ** Scan *)

Inductive ColumnDataScanProperties :=
| ALLOW_ZERO_COPY
| DISALLOW_ZERO_COPY.

Record ColumnDataScanState := {
  (* current_chunk_state.handles: the blocks that are pinned *)
  handles : list nat;
  segment_index : nat;
  chunk_index : nat;
  current_row_index : nat;
  next_row_index : nat;
  properties : ColumnDataScanProperties;
  column_ids : list nat
}.

(** [ColumnDataCollection::InitializeScan(state, column_ids, properties)]. *)
Definition InitializeScan_columns (this : ColumnDataCollection)
    (column_ids_p : list nat) (properties_p : ColumnDataScanProperties)
  : ColumnDataScanState :=
  {| handles := []; segment_index := 0; chunk_index := 0;
     current_row_index := 0; next_row_index := 0;
     properties := properties_p; column_ids := column_ids_p |}.

(** [ColumnDataCollection::InitializeScan(state, properties)]: all columns. *)
Definition InitializeScan (this : ColumnDataCollection)
    (properties_p : ColumnDataScanProperties) : ColumnDataScanState :=
  InitializeScan_columns this (seq 0 (length (types this))) properties_p.

(** What [NextScanIndex] hands back: [false] with the row index, or [true]
    with the chunk index, segment index and row index. *)
Inductive ScanIndex :=
| NoMoreData (row_index : nat)
| ScanAt (chunk_index segment_index row_index : nat).

(** The loop of [NextScanIndex] that skips exhausted segments; [true] when
    the state names a chunk. *)
Fixpoint NextScanIndex_loop (fuel : nat) (this : ColumnDataCollection)
    (state : ColumnDataScanState) : Res bool * ColumnDataScanState :=
  match segments this !! segment_index state with
  | None => (Fail (UndefinedBehaviour "segments[state.segment_index]"), state)
  | Some None => (Fail (UndefinedBehaviour "null segment pointer"), state)
  | Some (Some seg) =>
      if bool_decide (length (chunk_data seg) <= chunk_index state) then
        match fuel with
        | 0 => (OutOfFuel, state)
        | S fuel' =>
            (* exhausted all chunks of this segment: move to the next one *)
            let state' :=
              {| handles := []; segment_index := S (segment_index state);
                 chunk_index := 0; current_row_index := current_row_index state;
                 next_row_index := next_row_index state;
                 properties := properties state; column_ids := column_ids state |} in
            if bool_decide (length (segments this) <= segment_index state')
            then (Ok false, state')
            else NextScanIndex_loop fuel' this state'
        end
      else (Ok true, state)
  end.

(** [ColumnDataCollection::NextScanIndex]. *)
Definition NextScanIndex (this : ColumnDataCollection) (state : ColumnDataScanState)
  : Res ScanIndex * ColumnDataScanState :=
  let row_index := next_row_index state in
  let state0 :=
    {| handles := handles state; segment_index := segment_index state;
       chunk_index := chunk_index state; current_row_index := next_row_index state;
       next_row_index := next_row_index state;
       properties := properties state; column_ids := column_ids state |} in
  (* check if we still have collections to scan *)
  if bool_decide (length (segments this) <= segment_index state0)
  then (Ok (NoMoreData row_index), state0)
  else
    match NextScanIndex_loop (length (segments this)) this state0 with
    | (Ok false, state1) => (Ok (NoMoreData row_index), state1)
    | (Ok true, state1) =>
        match segments this !! segment_index state1 with
        | Some (Some seg) =>
            match chunk_data seg !! chunk_index state1 with
            | Some chunk =>
                (Ok (ScanAt (chunk_index state1) (segment_index state1) row_index),
                 {| handles := handles state1; segment_index := segment_index state1;
                    chunk_index := S (chunk_index state1);
                    current_row_index := current_row_index state1;
                    next_row_index := next_row_index state1 + cm_count chunk;
                    properties := properties state1; column_ids := column_ids state1 |})
            | None => (Fail (UndefinedBehaviour "chunk_data[state.chunk_index]"), state1)
            end
        | _ => (Fail (UndefinedBehaviour "segments[state.segment_index]"), state1)
        end
    | (Fail e, state1) => (Fail e, state1)
    | (OutOfFuel, state1) => (OutOfFuel, state1)
    end.

(** [ColumnDataCollection::Scan(ColumnDataScanState &, DataChunk &)]: the
    chunk that was read, or [None] when the scan is exhausted. *)
Definition Scan (this : ColumnDataCollection) (state : ColumnDataScanState)
  : Res (option ScanChunk) * ColumnDataScanState :=
  match NextScanIndex this state with
  | (Ok (NoMoreData _), state1) => (Ok None, state1)
  | (Ok (ScanAt chunk_idx segment_idx _), state1) =>
      (* found a chunk to scan -> scan it *)
      match segments this !! segment_idx with
      | Some (Some segment) =>
          match ReadChunk segment chunk_idx (column_ids state1) with
          | Ok (result, pinned) =>
              (Ok (Some result),
               {| handles := handles state1 ++ pinned;
                  segment_index := segment_index state1;
                  chunk_index := chunk_index state1;
                  current_row_index := current_row_index state1;
                  next_row_index := next_row_index state1;
                  properties := properties state1; column_ids := column_ids state1 |})
          | Fail e => (Fail e, state1)
          | OutOfFuel => (OutOfFuel, state1)
          end
      | _ => (Fail (UndefinedBehaviour "segments[segment_index]"), state1)
      end
  | (Fail e, state1) => (Fail e, state1)
  | (OutOfFuel, state1) => (OutOfFuel, state1)
  end.

(** ** Rows *)

Record ColumnDataRow := {
  row_chunk : ScanChunk;
  row_index : nat;
  base_index : nat
}.

(** [ColumnDataRow::GetValue]. *)
Definition ColumnDataRow_GetValue (row : ColumnDataRow) (column_index : nat)
  : Res Value :=
  match D_ASSERT (bool_decide (column_index < length (sc_data (row_chunk row))))
          "column_index < chunk.ColumnCount()" with
  | Ok _ =>
    match D_ASSERT (bool_decide (row_index row < sc_size (row_chunk row)))
            "row_index < chunk.size()" with
    | Ok _ =>
        match sc_data (row_chunk row) !! column_index with
        | Some column =>
            at_index column (row_index row) "Vector::GetValue out of range"
        | None => Fail (UndefinedBehaviour "chunk.data[column_index]")
        end
    | Fail e => Fail e
    | OutOfFuel => OutOfFuel
    end
  | Fail e => Fail e
  | OutOfFuel => OutOfFuel
  end.

(** The loop [while (true)] of the [ColumnDataRowCollection] constructor
    that reads all the chunks. *)
Fixpoint read_all_chunks (fuel : nat) (this : ColumnDataCollection)
    (scan_state : ColumnDataScanState) (chunks : list ScanChunk)
  : Res (list ScanChunk) :=
  match fuel with
  | 0 => OutOfFuel
  | S fuel' =>
      match Scan this scan_state with
      | (Ok None, _) => Ok chunks
      | (Ok (Some chunk), scan_state') =>
          read_all_chunks fuel' this scan_state' (chunks ++ [chunk])
      | (Fail e, _) => Fail e
      | (OutOfFuel, _) => OutOfFuel
      end
  end.

(** The loop that creates a [ColumnDataRow] for every row of every chunk. *)
Fixpoint create_rows (chunks : list ScanChunk) (base_row : nat) : list ColumnDataRow :=
  match chunks with
  | [] => []
  | chunk :: chunks' =>
      map (fun row_idx => {| row_chunk := chunk; row_index := row_idx;
                             base_index := base_row |})
          (seq 0 (sc_size chunk))
      ++ create_rows chunks' (base_row + sc_size chunk)
  end.

(** [ColumnDataCollection::ChunkCount]; a null segment cannot be asked. *)
Fixpoint ChunkCount_loop (segs : list (option ColumnDataCollectionSegment))
    (chunk_count : nat) : Res nat :=
  match segs with
  | [] => Ok chunk_count
  | Some segment :: segs' =>
      ChunkCount_loop segs' (chunk_count + length (chunk_data segment))
  | None :: _ => Fail (UndefinedBehaviour "null segment pointer")
  end.

Definition ChunkCount (this : ColumnDataCollection) : Res nat :=
  ChunkCount_loop (segments this) 0.

(** The number of chunks in the segments that are there: an upper bound for
    the number of scans that return a chunk. *)
Definition chunks_upper_bound (this : ColumnDataCollection) : nat :=
  sum_list (map (fun s => match s with
                          | Some segment => length (chunk_data segment)
                          | None => 0
                          end) (segments this)).

(** [ColumnDataRowCollection::ColumnDataRowCollection(collection)], that is
    [GetRows]: the rows of the collection. *)
Definition GetRows (this : ColumnDataCollection) : Res (list ColumnDataRow) :=
  if Count this =? 0 then Ok []
  else
    match read_all_chunks (S (chunks_upper_bound this)) this
            (InitializeScan this ALLOW_ZERO_COPY) [] with
    | Ok chunks => Ok (create_rows chunks 0)
    | Fail e => Fail e
    | OutOfFuel => OutOfFuel
    end.

(** [ColumnDataRowCollection::GetValue(column, index)]. *)
Definition GetValue (rows : list ColumnDataRow) (column index : nat) : Res Value :=
  match rows !! index with
  | Some row => ColumnDataRow_GetValue row column
  | None => Fail (UndefinedBehaviour "rows[index]")
  end.

(** ** Combine, Verify, Reset *)

(** Modelled from the spec: [ColumnDataCollectionSegment::Verify] checks that
    the counts of the chunks add up to the count of the segment. *)
Definition Segment_Verify (segment : ColumnDataCollectionSegment) : Res unit :=
  D_ASSERT (sum_list (map cm_count (chunk_data segment)) =? seg_count segment)
    "total_count == this->count".

Fixpoint Verify_loop (segs : list (option ColumnDataCollectionSegment))
    (total_segment_count : nat) : Res nat :=
  match segs with
  | [] => Ok total_segment_count
  | Some segment :: segs' =>
      match Segment_Verify segment with
      | Ok _ => Verify_loop segs' (total_segment_count + seg_count segment)
      | Fail e => Fail e
      | OutOfFuel => OutOfFuel
      end
  | None :: _ => Fail (UndefinedBehaviour "null segment pointer")
  end.

(** [ColumnDataCollection::Verify]; [DEBUG] tells whether the preprocessor
    symbol of that name is defined. *)
Definition Verify (DEBUG : bool) (this : ColumnDataCollection) : Res unit :=
  if DEBUG then
    match Verify_loop (segments this) 0 with
    | Ok total_segment_count =>
        D_ASSERT (total_segment_count =? count this) "total_segment_count == this->count"
    | Fail e => Fail e
    | OutOfFuel => OutOfFuel
    end
  else Ok tt.

(** [ColumnDataCollection::Combine]; the result is the outcome, [this] after
    the call and [other] after the call.  Moving a segment pointer out of
    [other.segments] leaves a null pointer in its place. *)
Definition Combine (DEBUG : bool) (this other : ColumnDataCollection)
  : Res unit * ColumnDataCollection * ColumnDataCollection :=
  if count other =? 0 then (Ok tt, this, other)
  else if negb (types_eqb (types this) (types other)) then
    (Fail (InternalException
             "Attempting to combine ColumnDataCollections with mismatching types"),
     this, other)
  else
    let this' :=
      with_segments (fun s => s ++ segments other)
        (with_count (count this + count other) this) in
    let other' := with_segments (map (fun _ => None)) other in
    (Verify DEBUG this', this', other').

(** [ColumnDataCollection::Reset]. *)
Definition Reset (this : ColumnDataCollection) : ColumnDataCollection :=
  with_segments (fun _ => []) (with_count 0 this).

(** ** ResultEquals *)

(** The text written to [error_message]; the formatted mismatch is kept as
    the arguments of the format string. *)
Inductive ErrorMessage :=
| Message (text : string)
| ValueMismatch (lvalue rvalue : Value) (r c : nat).

(** The loop over the columns of row [r] in [ResultEquals], from column [c]
    for [n] columns; [Some] is the mismatch that ends the comparison.
    [DefaultValuesAreEqual] is the equality of the value library. *)
Fixpoint compare_columns (DefaultValuesAreEqual : Value -> Value -> bool)
    (n c r : nat) (left_rows right_rows : list ColumnDataRow)
  : Res (option ErrorMessage) :=
  match n with
  | 0 => Ok None
  | S n' =>
      match GetValue left_rows c r with
      | Ok lvalue =>
          match GetValue left_rows c r with
          | Ok rvalue =>
              if negb (DefaultValuesAreEqual lvalue rvalue)
              then Ok (Some (ValueMismatch lvalue rvalue r c))
              else compare_columns DefaultValuesAreEqual n' (S c) r left_rows right_rows
          | Fail e => Fail e
          | OutOfFuel => OutOfFuel
          end
      | Fail e => Fail e
      | OutOfFuel => OutOfFuel
      end
  end.

Fixpoint compare_rows (DefaultValuesAreEqual : Value -> Value -> bool)
    (n r column_count : nat) (left_rows right_rows : list ColumnDataRow)
  : Res (option ErrorMessage) :=
  match n with
  | 0 => Ok None
  | S n' =>
      match compare_columns DefaultValuesAreEqual column_count 0 r left_rows right_rows with
      | Ok None => compare_rows DefaultValuesAreEqual n' (S r) column_count left_rows right_rows
      | other => other
      end
  end.

(** [ColumnDataCollection::ResultEquals(left, right, error_message)]: the
    boolean that is returned and [error_message] after the call. *)
Definition ResultEquals (DefaultValuesAreEqual : Value -> Value -> bool)
    (left right : ColumnDataCollection)
    (error_message : ErrorMessage) : Res (bool * ErrorMessage) :=
  if negb (ColumnCount left =? ColumnCount right)
  then Ok (false, Message "Column count mismatch")
  else if negb (Count left =? Count right)
  then Ok (false, Message "Row count mismatch")
  else
    match GetRows left with
    | Ok left_rows =>
        match GetRows right with
        | Ok right_rows =>
            match compare_rows DefaultValuesAreEqual (Count left) 0 (ColumnCount left)
                    left_rows right_rows with
            | Ok None => Ok (true, error_message)
            | Ok (Some message) => Ok (false, message)
            | Fail e => Fail e
            | OutOfFuel => OutOfFuel
            end
        | Fail e => Fail e
        | OutOfFuel => OutOfFuel
        end
    | Fail e => Fail e
    | OutOfFuel => OutOfFuel
    end.

(** ** The other constructors *)

(** [ColumnDataCollection(Allocator &allocator_p)], explicitly initialized
    without types; [allocator_p] names the allocator that is made. *)
Definition ColumnDataCollection_untyped (allocator_p : nat) : ColumnDataCollection :=
  {| allocator := allocator_p; types := []; count := 0; finished_append := false;
     segments := []; copy_functions := [] |}.

(** [ColumnDataCollection(ClientContext &, vector<LogicalType>,
    ColumnDataAllocatorType)] delegates to the constructor with a shared
    allocator, made from the context, and asserts the schema. *)
Definition ColumnDataCollection_context (allocator_p : nat)
    (types_p : list LogicalType) : Res ColumnDataCollection :=
  match ColumnDataCollection_shared allocator_p types_p with
  | Ok this =>
      match D_ASSERT (negb (bool_decide (types this = []))) "!types.empty()" with
      | Ok _ => Ok this
      | Fail e => Fail e
      | OutOfFuel => OutOfFuel
      end
  | Fail e => Fail e
  | OutOfFuel => OutOfFuel
  end.

(** ** Rows and chunks by position *)

(** [ColumnDataRow::RowIndex]. *)
Definition RowIndex (row : ColumnDataRow) : nat := base_index row + row_index row.

(** [ColumnDataRowCollection::operator[]]. *)
Definition ColumnDataRowCollection_at (rows : list ColumnDataRow) (i : nat)
  : Res ColumnDataRow :=
  at_index rows i "rows[i]".

(** [ColumnDataCollection::InitializeScanChunk(DataChunk &)]: the types the
    chunk is initialized with. *)
Definition InitializeScanChunk (this : ColumnDataCollection) : list LogicalType :=
  types this.

(** The loop of [InitializeScanChunk(ColumnDataScanState &, DataChunk &)]
    over the column ids of the state. *)
Fixpoint chunk_types_loop (types_p : list LogicalType) (ids : list nat)
    (chunk_types : list LogicalType) : Res (list LogicalType) :=
  match ids with
  | [] => Ok chunk_types
  | column_idx :: ids' =>
      match D_ASSERT (bool_decide (column_idx < length types_p))
              "column_idx < types.size()" with
      | Ok _ =>
          match types_p !! column_idx with
          | Some t => chunk_types_loop types_p ids' (chunk_types ++ [t])
          | None => Fail (UndefinedBehaviour "types[column_idx]")
          end
      | Fail e => Fail e
      | OutOfFuel => OutOfFuel
      end
  end.

(** [ColumnDataCollection::InitializeScanChunk(ColumnDataScanState &,
    DataChunk &)]: the types the chunk is initialized with. *)
Definition InitializeScanChunk_state (this : ColumnDataCollection)
    (state : ColumnDataScanState) : Res (list LogicalType) :=
  match D_ASSERT (negb (bool_decide (column_ids state = [])))
          "!state.column_ids.empty()" with
  | Ok _ => chunk_types_loop (types this) (column_ids state) []
  | Fail e => Fail e
  | OutOfFuel => OutOfFuel
  end.

(** Modelled from the spec: [ColumnDataCollectionSegment::FetchChunk] is a
    scan of a single chunk with all columns. *)
Definition Segment_FetchChunk (segment : ColumnDataCollectionSegment)
    (chunk_idx : nat) : Res ScanChunk :=
  match ReadChunk segment chunk_idx (seq 0 (length (seg_types segment))) with
  | Ok (result, _) => Ok result
  | Fail e => Fail e
  | OutOfFuel => OutOfFuel
  end.

(** The loop of [FetchChunk] over the segments. *)
Fixpoint FetchChunk_loop (segs : list (option ColumnDataCollectionSegment))
    (chunk_idx : nat) : Res ScanChunk :=
  match segs with
  | [] => Fail (InternalException "Failed to find chunk in ColumnDataCollection")
  | Some segment :: segs' =>
      if bool_decide (length (chunk_data segment) <= chunk_idx)
      then FetchChunk_loop segs' (chunk_idx - length (chunk_data segment))
      else Segment_FetchChunk segment chunk_idx
  | None :: _ => Fail (UndefinedBehaviour "null segment pointer")
  end.

(** [ColumnDataCollection::FetchChunk]. *)
Definition FetchChunk (this : ColumnDataCollection) (chunk_idx : nat) : Res ScanChunk :=
  match ChunkCount this with
  | Ok chunk_count =>
      match D_ASSERT (bool_decide (chunk_idx < chunk_count))
              "chunk_idx < ChunkCount()" with
      | Ok _ => FetchChunk_loop (segments this) chunk_idx
      | Fail e => Fail e
      | OutOfFuel => OutOfFuel
      end
  | Fail e => Fail e
  | OutOfFuel => OutOfFuel
  end.

(** ** Scanning into a chunk that is reused *)

(** Modelled from the spec: [DataChunk::Initialize] gives the chunk one
    empty vector per type, and [DataChunk::Reset] empties the vectors of the
    chunk. *)
Definition DataChunk_Initialize (chunk_types : list LogicalType) : ScanChunk :=
  {| sc_data := map (fun _ => []) chunk_types; sc_size := 0 |}.

Definition DataChunk_Reset (chunk : ScanChunk) : ScanChunk :=
  {| sc_data := map (fun _ => []) (sc_data chunk); sc_size := 0 |}.

(** [Scan(state, result)] with the chunk [result] of the caller: whether a
    chunk was read, the state and the chunk after the call. *)
Definition Scan_into (this : ColumnDataCollection) (state : ColumnDataScanState)
    (result : ScanChunk) : Res bool * ColumnDataScanState * ScanChunk :=
  match Scan this state with
  | (Ok (Some chunk), state') => (Ok true, state', chunk)
  | (Ok None, state') => (Ok false, state', DataChunk_Reset result)
  | (Fail e, state') => (Fail e, state', DataChunk_Reset result)
  | (OutOfFuel, state') => (OutOfFuel, state', DataChunk_Reset result)
  end.

(** ** The chunk iterator *)

(** [ColumnDataCollection::Chunks()]: the column ids of the helper. *)
Definition Chunks (this : ColumnDataCollection) : list nat :=
  seq 0 (ColumnCount this).

(** [ColumnDataChunkIterator]; [ci_collection] tells whether the collection
    pointer is set. *)
Record ColumnDataChunkIterator := {
  ci_collection : bool;
  ci_scan_state : ColumnDataScanState;
  ci_scan_chunk : ScanChunk;
  ci_row_index : nat
}.

(** The constructor of the chunk iterator; [scan_state0] is the scan state
    member before the body runs. *)
Definition ColumnDataChunkIterator_new (collection_p : option ColumnDataCollection)
    (column_ids_p : list nat) (scan_state0 : ColumnDataScanState)
  : Res ColumnDataChunkIterator :=
  match collection_p with
  | None =>
      Ok {| ci_collection := false; ci_scan_state := scan_state0;
            ci_scan_chunk := Reset_chunk; ci_row_index := 0 |}
  | Some collection =>
      let scan_state := InitializeScan_columns collection column_ids_p ALLOW_ZERO_COPY in
      match InitializeScanChunk_state collection scan_state with
      | Ok chunk_types =>
          match Scan_into collection scan_state (DataChunk_Initialize chunk_types) with
          | (Ok _, scan_state', chunk) =>
              Ok {| ci_collection := true; ci_scan_state := scan_state';
                    ci_scan_chunk := chunk; ci_row_index := 0 |}
          | (Fail e, _, _) => Fail e
          | (OutOfFuel, _, _) => OutOfFuel
          end
      | Fail e => Fail e
      | OutOfFuel => OutOfFuel
      end
  end.

(** [ColumnDataChunkIterator::Next], that is [operator++]; [collection] is
    the collection behind the pointer. *)
Definition ColumnDataChunkIterator_Next (collection : ColumnDataCollection)
    (it : ColumnDataChunkIterator) : Res ColumnDataChunkIterator :=
  if negb (ci_collection it) then Ok it
  else
    match Scan_into collection (ci_scan_state it) (ci_scan_chunk it) with
    | (Ok false, scan_state', chunk) =>
        Ok {| ci_collection := false; ci_scan_state := scan_state';
              ci_scan_chunk := chunk; ci_row_index := 0 |}
    | (Ok true, scan_state', chunk) =>
        Ok {| ci_collection := true; ci_scan_state := scan_state';
              ci_scan_chunk := chunk; ci_row_index := ci_row_index it + sc_size chunk |}
    | (Fail e, _, _) => Fail e
    | (OutOfFuel, _, _) => OutOfFuel
    end.

(** [ColumnDataChunkIterator::operator!=], for two iterators of one helper:
    their collection pointers are null or point to the same collection. *)
Definition ColumnDataChunkIterator_neq (a b : ColumnDataChunkIterator) : bool :=
  negb (eqb (ci_collection a) (ci_collection b))
  || negb (ci_row_index a =? ci_row_index b).

(** [ColumnDataChunkIterator::operator*]. *)
Definition ColumnDataChunkIterator_deref (it : ColumnDataChunkIterator) : ScanChunk :=
  ci_scan_chunk it.

(** ** The row iterator *)

(** [ColumnDataRowIterator]; [current_row] refers to the chunk
    [ri_scan_chunk] and holds [ri_row_index] and [ri_base_index]. *)
Record ColumnDataRowIterator := {
  ri_collection : bool;
  ri_scan_state : ColumnDataScanState;
  ri_scan_chunk : ScanChunk;
  ri_row_index : nat;
  ri_base_index : nat
}.

(** The constructor of the row iterator; [scan_state0] is the scan state
    member before the body runs. *)
Definition ColumnDataRowIterator_new (collection_p : option ColumnDataCollection)
    (scan_state0 : ColumnDataScanState) : Res ColumnDataRowIterator :=
  match collection_p with
  | None =>
      Ok {| ri_collection := false; ri_scan_state := scan_state0;
            ri_scan_chunk := Reset_chunk; ri_row_index := 0; ri_base_index := 0 |}
  | Some collection =>
      let scan_state := InitializeScan collection ALLOW_ZERO_COPY in
      match Scan_into collection scan_state
              (DataChunk_Initialize (InitializeScanChunk collection)) with
      | (Ok _, scan_state', chunk) =>
          Ok {| ri_collection := true; ri_scan_state := scan_state';
                ri_scan_chunk := chunk; ri_row_index := 0; ri_base_index := 0 |}
      | (Fail e, _, _) => Fail e
      | (OutOfFuel, _, _) => OutOfFuel
      end
  end.

(** [ColumnDataRowIterator::Next], that is [operator++]; [collection] is the
    collection behind the pointer. *)
Definition ColumnDataRowIterator_Next (collection : ColumnDataCollection)
    (it : ColumnDataRowIterator) : Res ColumnDataRowIterator :=
  if negb (ri_collection it) then Ok it
  else
    let row_index' := S (ri_row_index it) in
    if bool_decide (sc_size (ri_scan_chunk it) <= row_index') then
      let base_index' := ri_base_index it + sc_size (ri_scan_chunk it) in
      match Scan_into collection (ri_scan_state it) (ri_scan_chunk it) with
      | (Ok false, scan_state', chunk) =>
          (* exhausted collection: move iterator to nop state *)
          Ok {| ri_collection := false; ri_scan_state := scan_state';
                ri_scan_chunk := chunk; ri_row_index := 0; ri_base_index := 0 |}
      | (Ok true, scan_state', chunk) =>
          Ok {| ri_collection := true; ri_scan_state := scan_state';
                ri_scan_chunk := chunk; ri_row_index := 0;
                ri_base_index := base_index' |}
      | (Fail e, _, _) => Fail e
      | (OutOfFuel, _, _) => OutOfFuel
      end
    else
      Ok {| ri_collection := true; ri_scan_state := ri_scan_state it;
            ri_scan_chunk := ri_scan_chunk it; ri_row_index := row_index';
            ri_base_index := ri_base_index it |}.

(** [ColumnDataRowIterationHelper::begin] and [end]. *)
Definition Rows_begin (collection : ColumnDataCollection)
    (scan_state0 : ColumnDataScanState) : Res ColumnDataRowIterator :=
  ColumnDataRowIterator_new
    (if Count collection =? 0 then None else Some collection) scan_state0.

Definition Rows_end (scan_state0 : ColumnDataScanState) : Res ColumnDataRowIterator :=
  ColumnDataRowIterator_new None scan_state0.

(** [ColumnDataRowIterator::operator!=], for two iterators of one helper. *)
Definition ColumnDataRowIterator_neq (a b : ColumnDataRowIterator) : bool :=
  negb (eqb (ri_collection a) (ri_collection b))
  || negb (ri_row_index a =? ri_row_index b)
  || negb (ri_base_index a =? ri_base_index b).

(** [ColumnDataRowIterator::operator*]: the current row. *)
Definition ColumnDataRowIterator_deref (it : ColumnDataRowIterator) : ColumnDataRow :=
  {| row_chunk := ri_scan_chunk it; row_index := ri_row_index it;
     base_index := ri_base_index it |}.

(** The loop [for (auto &row : collection.Rows())]: the rows the body sees. *)
Fixpoint Rows_loop (fuel : nat) (collection : ColumnDataCollection)
    (it end_it : ColumnDataRowIterator) (seen : list ColumnDataRow)
  : Res (list ColumnDataRow) :=
  if ColumnDataRowIterator_neq it end_it then
    match fuel with
    | 0 => OutOfFuel
    | S fuel' =>
        match ColumnDataRowIterator_Next collection it with
        | Ok it' =>
            Rows_loop fuel' collection it' end_it
              (seen ++ [ColumnDataRowIterator_deref it])
        | Fail e => Fail e
        | OutOfFuel => OutOfFuel
        end
    end
  else Ok seen.

(** ** The parallel scan *)

(** [ColumnDataLocalScanState]: the pin cache and the properties of its
    chunk state, the segment it reads from and the row index. *)
Record ColumnDataLocalScanState := {
  l_handles : list nat;
  l_properties : ColumnDataScanProperties;
  current_segment_index : nat;
  l_current_row_index : nat
}.

(** [ColumnDataCollection::ScanAtIndex]; [state] is the scan state of the
    parallel state. *)
Definition ScanAtIndex (this : ColumnDataCollection) (state : ColumnDataScanState)
    (lstate : ColumnDataLocalScanState) (chunk_idx segment_idx row_idx : nat)
  : Res ScanChunk * ColumnDataLocalScanState :=
  let lstate1 :=
    if bool_decide (segment_idx <> current_segment_index lstate)
    then {| l_handles := []; l_properties := l_properties lstate;
            current_segment_index := segment_idx;
            l_current_row_index := l_current_row_index lstate |}
    else lstate in
  match segments this !! segment_idx with
  | Some (Some segment) =>
      let lstate2 :=
        {| l_handles := l_handles lstate1; l_properties := properties state;
           current_segment_index := current_segment_index lstate1;
           l_current_row_index := l_current_row_index lstate1 |} in
      match ReadChunk segment chunk_idx (column_ids state) with
      | Ok (result, pinned) =>
          (Ok result,
           {| l_handles := l_handles lstate2 ++ pinned;
              l_properties := l_properties lstate2;
              current_segment_index := current_segment_index lstate2;
              l_current_row_index := row_idx |})
      | Fail e => (Fail e, lstate2)
      | OutOfFuel => (OutOfFuel, lstate2)
      end
  | _ => (Fail (UndefinedBehaviour "segments[segment_index]"), lstate1)
  end.

(** [ColumnDataCollection::Scan(ColumnDataParallelScanState &,
    ColumnDataLocalScanState &, DataChunk &)]; [state] is the scan state of
    the parallel state, which the call reads and writes under the lock.  The
    chunk that was read, or [None] when the scan is exhausted. *)
Definition Scan_parallel (this : ColumnDataCollection) (state : ColumnDataScanState)
    (lstate : ColumnDataLocalScanState)
  : Res (option ScanChunk) * ColumnDataScanState * ColumnDataLocalScanState :=
  match NextScanIndex this state with
  | (Ok (NoMoreData _), state1) => (Ok None, state1, lstate)
  | (Ok (ScanAt chunk_idx segment_idx row_idx), state1) =>
      match ScanAtIndex this state1 lstate chunk_idx segment_idx row_idx with
      | (Ok result, lstate') => (Ok (Some result), state1, lstate')
      | (Fail e, lstate') => (Fail e, state1, lstate')
      | (OutOfFuel, lstate') => (OutOfFuel, state1, lstate')
      end
  | (Fail e, state1) => (Fail e, state1, lstate)
  | (OutOfFuel, state1) => (OutOfFuel, state1, lstate)
  end.

(** Calls of the parallel [Scan] by several threads, in the order in which
    they take the lock: call [k] is made by thread [workers !! k] with its
    own local state.  The outcome of every call, and the states at the
    end. *)
Fixpoint parallel_trace (this : ColumnDataCollection) (workers : list nat)
    (state : ColumnDataScanState) (lstates : list ColumnDataLocalScanState)
  : list (nat * Res (option ScanChunk)) * ColumnDataScanState
    * list ColumnDataLocalScanState :=
  match workers with
  | [] => ([], state, lstates)
  | w :: workers' =>
      match lstates !! w with
      | Some lstate =>
          let '(r, state', lstate') := Scan_parallel this state lstate in
          let '(rest, state'', lstates') :=
            parallel_trace this workers' state' (<[w := lstate']> lstates) in
          ((w, r) :: rest, state'', lstates')
      | None => parallel_trace this workers' state lstates
      end
  end.

(** The loop [for (auto &chunk : helper)] from the iterator [it] up to
    [end_it]: the chunks the body sees. *)
Fixpoint Chunks_loop (fuel : nat) (collection : ColumnDataCollection)
    (it end_it : ColumnDataChunkIterator) (seen : list ScanChunk)
  : Res (list ScanChunk) :=
  if ColumnDataChunkIterator_neq it end_it then
    match fuel with
    | 0 => OutOfFuel
    | S fuel' =>
        match ColumnDataChunkIterator_Next collection it with
        | Ok it' =>
            Chunks_loop fuel' collection it' end_it
              (seen ++ [ColumnDataChunkIterator_deref it])
        | Fail e => Fail e
        | OutOfFuel => OutOfFuel
        end
    end
  else Ok seen.
End WithVectorSize.

(** ** Scenarios

    Concrete collections in a build with [STANDARD_VECTOR_SIZE = 1024]. *)

Section Scenarios.

#[local] Instance standard_build : VectorSize := 1024.

(** A flat vector of fixed-width values; [None] is a null. *)
Definition fixed_vector (type : PhysicalType) (rows : list (option Z)) : Vector :=
  mkVector (Primitive type)
    {| uvf_sel := fun i => i;
       uvf_validity := Some (fun i => bool_decide (is_Some (default None (rows !! i))));
       uvf_data := fun i => CFixed (default 0%Z (default None (rows !! i))) |}
    0 [].

Definition fixed_chunk (type : PhysicalType) (rows : list (option Z)) : DataChunk :=
  {| dc_data := [fixed_vector type rows]; dc_size := length rows;
     dc_strings := fun _ => [] |}.

(** The int64 values [0 .. n-1] through a mask-free vector. *)
Definition counting_chunk (n : nat) : DataChunk :=
  {| dc_data :=
       [mkVector (Primitive INT64)
          {| uvf_sel := fun i => i; uvf_validity := None;
             uvf_data := fun i => CFixed (Z.of_nat i) |} 0 []];
     dc_size := n; dc_strings := fun _ => [] |}.

(** A collection with one column of [type], made by the constructor with a
    shared allocator; [uninitialized] stands in where the constructor throws. *)
Definition empty_collection (type : LogicalType) : ColumnDataCollection :=
  match ColumnDataCollection_shared 0 [type] with
  | Ok this => this
  | _ => uninitialized
  end.

(** The collection after appending the chunks in order. *)
Definition collection_of (type : LogicalType) (chunks : list DataChunk)
  : ColumnDataCollection :=
  fold_left (fun this chunk => snd (Append_chunk this chunk)) chunks
    (empty_collection type).

Definition int32_collection (rows : list (option Z)) : ColumnDataCollection :=
  collection_of (Primitive INT32) [fixed_chunk INT32 rows].

(** The values of column 0 that a full scan hands back. *)
Definition scanned_column (this : ColumnDataCollection) : Res (list (Res Value)) :=
  match GetRows this with
  | Ok rows => Ok (map (fun row => ColumnDataRow_GetValue row 0) rows)
  | Fail e => Fail e
  | OutOfFuel => OutOfFuel
  end.

(** A segment with one empty chunk for the schema [types_p]. *)
Definition first_chunk_segment (types_p : list LogicalType)
  : ColumnDataCollectionSegment :=
  (AllocateNewChunk (new_segment types_p)).2.

(** Fixed-width rows [7, null, 9] behind a validity mask. *)
Definition three_rows : UnifiedVectorFormat :=
  VectorFormat (fixed_vector INT32 [Some 7%Z; None; Some 9%Z]).

(** The strings ["a", "a string kept in memory of the caller", null]: the
    first inlined, the second behind a pointer. *)
Definition caller_memory (address : nat) : list Byte.byte :=
  match address with
  | 0 => String.list_byte_of_string "a string kept in memory of the caller"
  | _ => []
  end.

Definition string_rows : UnifiedVectorFormat :=
  {| uvf_sel := fun i => i;
     uvf_validity := Some (fun i => i <? 2);
     uvf_data := fun i =>
       match i with
       | 0 => CString (Inlined (String.list_byte_of_string "a"))
       | 1 => CString (Pointer 37 (CallerMemory 0))
       | _ => CString (Inlined [])
       end |}.

(** The lists [[1,2,3], [], [4,5]] over a child vector of five integers. *)
Definition list_vector : Vector :=
  mkVector (ListType (Primitive INT32))
    {| uvf_sel := fun i => i; uvf_validity := None;
       uvf_data := fun i =>
         match i with
         | 0 => CList {| le_offset := 0; le_length := 3 |}
         | 1 => CList {| le_offset := 3; le_length := 0 |}
         | _ => CList {| le_offset := 3; le_length := 2 |}
         end |}
    5
    [mkVector (Primitive INT32)
       {| uvf_sel := fun i => i; uvf_validity := None;
          uvf_data := fun i => CFixed (Z.of_nat (S i)) |} 0 []].

Definition list_copy_function : ColumnDataCopyFunction :=
  mkCopyFunction ColumnDataCopy_list_entry_t
    [mkCopyFunction (ColumnDataCopy INT32) []].

(** A chunk of two columns: the integers [0 .. n-1] and the strings of
    [string_rows], whose bytes are in [caller_memory]. *)
Definition mixed_chunk (n : nat) : DataChunk :=
  {| dc_data :=
       [mkVector (Primitive INT64)
          {| uvf_sel := fun i => i; uvf_validity := None;
             uvf_data := fun i => CFixed (Z.of_nat i) |} 0 [];
        mkVector (Primitive VARCHAR) string_rows 0 []];
     dc_size := n; dc_strings := caller_memory |}.

(** A collection whose first chunk holds no rows: a collection that was
    appended a chunk without rows, combined with a collection of [n] rows. *)
Definition behind_an_empty_chunk (n : nat) : ColumnDataCollection :=
  (Combine true (collection_of (Primitive INT64) [counting_chunk 0])
     (collection_of (Primitive INT64) [counting_chunk n])).1.2.
(** A chunk of two columns: a struct of an integer and of a struct of a
    string, whose second row is null, and the integers [0 .. n-1]. *)
Definition struct_chunk (n : nat) : DataChunk :=
  let counting :=
    mkVector (Primitive INT64)
      {| uvf_sel := fun i => i; uvf_validity := None;
         uvf_data := fun i => CFixed (Z.of_nat i) |} 0 [] in
  let names :=
    mkVector (StructType [("name", Primitive VARCHAR)])
      {| uvf_sel := fun i => i; uvf_validity := None; uvf_data := fun _ => CFixed 0 |} 0
      [mkVector (Primitive VARCHAR) string_rows 0 []] in
  {| dc_data :=
       [mkVector
          (StructType [("id", Primitive INT64);
                       ("tag", StructType [("name", Primitive VARCHAR)])])
          {| uvf_sel := fun i => i; uvf_validity := Some (fun i => negb (i =? 1));
             uvf_data := fun _ => CFixed 0 |} 0
          [counting; names];
        counting];
     dc_size := n; dc_strings := caller_memory |}.

End Scenarios.

(** Modelled from the spec: [Value::DefaultValuesAreEqual] belongs to the
    value library; two values are equal when they are built alike. *)
Fixpoint Value_eqb (a b : Value) : bool :=
  match a, b with
  | VNull, VNull => true
  | VFixed x, VFixed y => Z.eqb x y
  | VString x, VString y => bool_decide (map Byte.to_nat x = map Byte.to_nat y)
  | VList x, VList y | VStruct x, VStruct y =>
      (fix all2 (x y : list Value) : bool :=
         match x, y with
         | [], [] => true
         | v :: x', w :: y' => Value_eqb v w && all2 x' y'
         | _, _ => false
         end) x y
  | VUninitialized, VUninitialized => true
  | _, _ => false
  end.

(** ** Properties *)

Section Properties.

Context `{VectorSize}.

(** *** The predicates of the specification *)

(** What the constructors with a type list establish, and what [Append] and
    [Combine] keep: a schema that is not empty, with its copy functions. *)
Definition constructed (this : ColumnDataCollection) : Prop :=
  types this <> [] /\
  push_copy_functions (types this) [] = Ok (copy_functions this).

(** The row counts of the chunks of a segment. *)
Definition segment_counts (s : option ColumnDataCollectionSegment) : list nat :=
  match s with
  | Some segment => map cm_count (chunk_data segment)
  | None => []
  end.

(** The chunks of segment [segment_idx] from chunk [chunk_idx] on, each with
    the number of rows that precede it. *)
Fixpoint chunk_schedule (segment_idx chunk_idx row : nat) (counts : list nat)
  : list ScanIndex :=
  match counts with
  | [] => []
  | c :: counts' =>
      ScanAt chunk_idx segment_idx row
      :: chunk_schedule segment_idx (S chunk_idx) (row + c) counts'
  end.

(** Every (segment, chunk) pair in lexicographic order, each with the sum of
    the counts of the chunks before it. *)
Fixpoint schedule (segment_idx row : nat) (segs : list (list nat)) : list ScanIndex :=
  match segs with
  | [] => []
  | counts :: segs' =>
      chunk_schedule segment_idx 0 row counts
      ++ schedule (S segment_idx) (row + sum_list counts) segs'
  end.

(** The outcomes of [n] calls of [NextScanIndex], one after the other. *)
Fixpoint scan_trace (n : nat) (this : ColumnDataCollection)
    (state : ColumnDataScanState) : list (Res ScanIndex) :=
  match n with
  | 0 => []
  | S n' =>
      let '(r, state') := NextScanIndex this state in
      r :: scan_trace n' this state'
  end.

(** What is left of the schedule at a position. *)
Definition pending (segs : list (list nat)) (s j row : nat) : list ScanIndex :=
  match segs !! s with
  | Some counts =>
      chunk_schedule s j row (drop j counts)
      ++ schedule (S s) (row + sum_list (drop j counts)) (drop (S s) segs)
  | None => []
  end.

Definition pending_rows (segs : list (list nat)) (s j : nat) : nat :=
  match segs !! s with
  | Some counts => sum_list (drop j counts) + sum_list (concat (drop (S s) segs))
  | None => 0
  end.

Definition all_present (this : ColumnDataCollection) : Prop :=
  Forall (fun s : option ColumnDataCollectionSegment => is_Some s) (segments this).

Definition counts_of (this : ColumnDataCollection) : list (list nat) :=
  map segment_counts (segments this).

(** A computation that changes neither the chunks nor the counts and types
    of the segment. *)
Definition keeps_chunks {A} (m : SegM A) : Prop :=
  forall seg r seg',
    m seg = (r, seg') ->
    chunk_data seg' = chunk_data seg /\
    seg_count seg' = seg_count seg /\
    seg_types seg' = seg_types seg.

(** A computation that always returns and changes neither the chunks nor
    the counts and types of the segment. *)
Definition returns_keeping {A} (m : SegM A) : Prop :=
  forall seg, exists a seg',
    m seg = (Ok a, seg') /\
    chunk_data seg' = chunk_data seg /\
    seg_count seg' = seg_count seg /\
    seg_types seg' = seg_types seg.

Definition chunk_counts (seg : ColumnDataCollectionSegment) : list nat :=
  map cm_count (chunk_data seg).

(** How [remaining] rows fill a chunk that holds [c] rows and the chunks
    allocated behind it: every turn of the loop writes
    [min remaining (STANDARD_VECTOR_SIZE - c)] rows into the current chunk
    and goes on with an empty chunk when rows remain. *)
Inductive filled : nat -> nat -> list nat -> Prop :=
| filled_fits c remaining :
    0 < remaining -> remaining <= STANDARD_VECTOR_SIZE - c ->
    filled c remaining [c + remaining]
| filled_more c remaining l :
    STANDARD_VECTOR_SIZE - c < remaining ->
    filled 0 (remaining - (STANDARD_VECTOR_SIZE - c)) l ->
    filled c remaining ((c + (STANDARD_VECTOR_SIZE - c)) :: l).

(** All chunks but the last are full. *)
Definition full_but_last (counts : list nat) : Prop :=
  forall i n, counts !! i = Some n -> S i < length counts -> n = STANDARD_VECTOR_SIZE.

(** A descriptor in a table of [table_length] descriptors: it has the block
    of its own index, holds at most a vector of rows, and has a successor
    only when it is full; the successor was allocated later. *)
Record descriptor_ok (table_length i : nat) (vd : VectorMetaData) : Prop := {
  ok_block : block_id vd = i;
  ok_count : vd_count vd <= STANDARD_VECTOR_SIZE;
  ok_next : forall j, next_data vd = Some j ->
                      i < j < table_length /\ vd_count vd = STANDARD_VECTOR_SIZE
}.

(** The block of a descriptor: nothing was written behind its rows, and once
    it holds a row the bits behind its rows are set. *)
Definition block_ok (vd : VectorMetaData) (b : Block) : Prop :=
  (forall j, vd_count vd <= j -> slots b j = None) /\
  (0 < vd_count vd ->
   forall j, vd_count vd <= j < STANDARD_VECTOR_SIZE -> bits b j = Some true).

Record wf_segment (seg : ColumnDataCollectionSegment) : Prop := {
  wf_blocks : length (blocks seg) = length (vector_data seg);
  wf_descriptors :
    forall i vd, vector_data seg !! i = Some vd ->
                 descriptor_ok (length (vector_data seg)) i vd;
  wf_fresh :
    forall i vd b, vector_data seg !! i = Some vd -> blocks seg !! i = Some b ->
                   block_ok vd b
}.

(** The rows that [copy_rows] writes for [n] source rows from row [i] on:
    whether the row is valid and the cell that is stored, if any; and the
    heap afterwards. *)
Fixpoint stored_rows (op : ValueCopy) (child_list_size : N)
    (memory : nat -> list Byte.byte) (source_data : UnifiedVectorFormat)
    (offset n i : nat) (heap : list (list Byte.byte))
  : list (bool * option Cell) * list (list Byte.byte) :=
  match n with
  | 0 => ([], heap)
  | S n' =>
      let source_idx := uvf_sel source_data (offset + i) in
      if RowIsValid (uvf_validity source_data) source_idx then
        match op with
        | StructValueCopy =>
            let '(rest, heap') :=
              stored_rows op child_list_size memory source_data offset n' (S i) heap in
            ((true, None) :: rest, heap')
        | _ =>
            let '(c, heap1) :=
              Operation op child_list_size memory heap (uvf_data source_data source_idx) in
            let '(rest, heap') :=
              stored_rows op child_list_size memory source_data offset n' (S i) heap1 in
            ((true, Some c) :: rest, heap')
        end
      else
        let '(rest, heap') :=
          stored_rows op child_list_size memory source_data offset n' (S i) heap in
        ((false, None) :: rest, heap')
  end.

(** A stored row as it is read back from a block whose bits were set. *)
Definition as_read (row : bool * option Cell) : option bool * option Cell :=
  (Some (fst row), snd row).

Definition links_forward (table : list VectorMetaData) : Prop :=
  forall i vd j, table !! i = Some vd -> next_data vd = Some j ->
                 i < j < length table.

(** What a copy onto the chain of [cur] leaves alone. *)
Record copy_frame (cur : nat) (seg seg' : ColumnDataCollectionSegment) : Prop := {
  frame_length : length (vector_data seg) <= length (vector_data seg');
  frame_chunks : chunk_data seg' = chunk_data seg;
  frame_children : child_indices seg' = child_indices seg;
  frame_child_index :
    forall i vd, vector_data seg !! i = Some vd ->
      exists vd', vector_data seg' !! i = Some vd' /\ child_index vd' = child_index vd;
  frame_other :
    forall i, i < length (vector_data seg) ->
      i ∉ chain (length (vector_data seg)) (vector_data seg) (Some cur) ->
      vector_data seg' !! i = vector_data seg !! i /\
      blocks seg' !! i = blocks seg !! i
}.

(** Whether row [k] of the window is valid in the source. *)
Definition source_valid (src : UnifiedVectorFormat) (offset k : nat) : bool :=
  RowIsValid (uvf_validity src) (uvf_sel src (offset + k)).

(** A string of the caller: inlined, or a pointer into memory of the caller. *)
Definition caller_string (s : string_t) : Prop :=
  match s with
  | Inlined _ => True
  | Pointer _ (CallerMemory _) => True
  | Pointer _ (HeapBlob _) => False
  end.

(** The bytes of the string in row [k] of the window of the source. *)
Definition source_string (memory : nat -> list Byte.byte)
    (src : UnifiedVectorFormat) (offset k : nat) : list Byte.byte :=
  match uvf_data src (uvf_sel src (offset + k)) with
  | CString s => GetString memory [] s
  | _ => []
  end.

(** The strings of the window are strings of the caller. *)
Definition caller_strings (src : UnifiedVectorFormat) (offset count : nat) : Prop :=
  forall k, k < count -> source_valid src offset k = true ->
    exists s, uvf_data src (uvf_sel src (offset + k)) = CString s /\ caller_string s.

(** From [seg] to [seg']: descriptors stay in place, a child index that is
    set stays as it is, and the table of child indices is extended at its
    end. *)
Record extends (seg seg' : ColumnDataCollectionSegment) : Prop := {
  ext_length : length (vector_data seg) <= length (vector_data seg');
  ext_child_index :
    forall i vd, vector_data seg !! i = Some vd ->
      exists vd', vector_data seg' !! i = Some vd' /\
                  (child_index vd <> None -> child_index vd' = child_index vd);
  ext_children : child_indices seg `prefix_of` child_indices seg'
}.

(** A computation that, when it returns, leaves a well-formed segment
    well-formed and has only extended it. *)
Definition grows_wf {A} (m : SegM A) : Prop :=
  forall seg a seg',
    wf_segment seg -> m seg = (Ok a, seg') -> wf_segment seg' /\ extends seg seg'.

(** What [ListValueCopy::Operation] stores for a list entry: the offset is
    moved by [child_list_size], the length is kept. *)
Definition rebase (child_list_size : N) (c : Cell) : Cell :=
  match c with
  | CList e =>
      CList {| le_offset := idx_add (le_offset e) child_list_size;
               le_length := le_length e |}
  | _ => c
  end.

(** How a collection came about: constructed with a schema, then chunks
    appended and peers combined into it; a peer is a collection that came
    about in the same way and is not used after it was combined. *)
Inductive history :=
| Constructed (allocator_p : nat) (types_p : list LogicalType)
| Appended (before : history) (input : DataChunk)
| Combined (before peer : history).

(** The collection at the end of a history, when no call failed. *)
Fixpoint replay (DEBUG : bool) (h : history) : option ColumnDataCollection :=
  match h with
  | Constructed allocator_p types_p =>
      match ColumnDataCollection_shared allocator_p types_p with
      | Ok this => Some this
      | _ => None
      end
  | Appended before input =>
      match replay DEBUG before with
      | Some this =>
          match Append_chunk this input with
          | (Ok _, this') => Some this'
          | _ => None
          end
      | None => None
      end
  | Combined before peer =>
      match replay DEBUG before, replay DEBUG peer with
      | Some this, Some other =>
          match Combine DEBUG this other with
          | (Ok _, this', _) => Some this'
          | _ => None
          end
      | _, _ => None
      end
  end.

(** Every chunk that was appended, to the collection or to a peer that was
    combined into it. *)
Fixpoint appended_chunks (h : history) : list DataChunk :=
  match h with
  | Constructed _ _ => []
  | Appended before input => appended_chunks before ++ [input]
  | Combined before peer => appended_chunks before ++ appended_chunks peer
  end.

Definition keeps_wf {A} (m : SegM A) : Prop :=
  forall seg a seg', wf_segment seg -> m seg = (Ok a, seg') -> wf_segment seg'.

(** The descriptor [index] fits the type: a list descriptor names its child
    chain, a struct descriptor names a run of child indices, one per field,
    and the children fit the child types. *)
Inductive shaped_for (seg : ColumnDataCollectionSegment) : LogicalType -> nat -> Prop :=
| shaped_primitive p index vd :
    vector_data seg !! index = Some vd ->
    shaped_for seg (Primitive p) index
| shaped_list child_type index vd entry child :
    vector_data seg !! index = Some vd ->
    child_index vd = Some entry ->
    child_indices seg !! entry = Some child ->
    shaped_for seg child_type child ->
    shaped_for seg (ListType child_type) index
| shaped_struct child_types index vd base :
    vector_data seg !! index = Some vd ->
    child_index vd = Some base ->
    (forall j kv, child_types !! j = Some kv ->
       exists child,
         child_indices seg !! (base + j) = Some child /\
         shaped_for seg (snd kv) child) ->
    shaped_for seg (StructType child_types) index.

(** The vector has the type, and the child vectors the type asks for. *)
Inductive vector_shaped : LogicalType -> Vector -> Prop :=
| vector_primitive p v :
    GetType v = Primitive p -> vector_shaped (Primitive p) v
| vector_list child_type v child_vector :
    GetType v = ListType child_type ->
    VectorChildren v !! 0 = Some child_vector ->
    vector_shaped child_type child_vector ->
    vector_shaped (ListType child_type) v
| vector_struct child_types v :
    GetType v = StructType child_types ->
    (forall j kv, child_types !! j = Some kv ->
       exists child_vector,
         VectorChildren v !! j = Some child_vector /\
         vector_shaped (snd kv) child_vector) ->
    vector_shaped (StructType child_types) v.

(** What the induction on the type gives for a field or a list child: the
    copy function of the type returns on every well-formed segment whose
    descriptor fits the type. *)
Definition copy_returns (t : LogicalType) : Prop :=
  forall f memory index src source offset copy_count seg,
    GetCopyFunction t = Ok f ->
    wf_segment seg -> shaped_for seg t index -> vector_shaped t source ->
    exists seg',
      call_copy_function f memory index src source offset copy_count seg = (Ok tt, seg').

(** The segment has only new descriptors and new child indices behind the
    old ones. *)
Definition appends (seg seg' : ColumnDataCollectionSegment) : Prop :=
  vector_data seg `prefix_of` vector_data seg' /\
  child_indices seg `prefix_of` child_indices seg'.

(** What the induction on the type gives for a field or a list child: the
    descriptors that [allocate_column] adds fit the type. *)
Definition allocation_fits (t : LogicalType) : Prop :=
  forall seg index seg',
    wf_segment seg -> allocate_column t seg = (Ok index, seg') ->
    appends seg seg' /\ length (vector_data seg) <= index /\ shaped_for seg' t index.

(** A segment that [Append] can write to: well-formed, of the schema, and
    the root descriptors of its last chunk fit the types of the schema. *)
Definition ready (ts : list LogicalType) (seg : ColumnDataCollectionSegment) : Prop :=
  wf_segment seg /\ seg_types seg = ts /\
  exists chunk,
    last (chunk_data seg) = Some chunk /\
    Forall2 (shaped_for seg) ts (cm_vector_data chunk).

(** A segment that holds no chunk yet or is ready. *)
Definition usable (ts : list LogicalType) (seg : ColumnDataCollectionSegment) : Prop :=
  wf_segment seg /\ seg_types seg = ts /\
  forall chunk,
    last (chunk_data seg) = Some chunk ->
    Forall2 (shaped_for seg) ts (cm_vector_data chunk).

(** The collection takes an [Append(DataChunk &)]: it is not finished, has
    the copy functions of its schema, and its last segment is usable. *)
Definition appendable (this : ColumnDataCollection) : Prop :=
  finished_append this = false /\
  Forall2 (fun t f => GetCopyFunction t = Ok f) (types this) (copy_functions this) /\
  forall s, last (segments this) = Some s ->
            exists seg, s = Some seg /\ usable (types this) seg.

(** The collection after [InitializeAppend]: its last segment is ready. *)
Definition appending (this : ColumnDataCollection) : Prop :=
  finished_append this = false /\
  Forall2 (fun t f => GetCopyFunction t = Ok f) (types this) (copy_functions this) /\
  exists seg, last (segments this) = Some (Some seg) /\ ready (types this) seg.

(** A segment whose chunks add up to its count and hold at most a vector of
    rows each. *)
Definition segment_counted (s : option ColumnDataCollectionSegment) : Prop :=
  exists seg,
    s = Some seg /\
    sum_list (chunk_counts seg) = seg_count seg /\
    Forall (fun n => n <= STANDARD_VECTOR_SIZE) (chunk_counts seg).

Definition segment_rows (s : option ColumnDataCollectionSegment) : nat :=
  match s with
  | Some seg => seg_count seg
  | None => 0
  end.

(** The counts of the chunks, of the segments and of the collection agree. *)
Definition counted (this : ColumnDataCollection) : Prop :=
  Forall segment_counted (segments this) /\
  sum_list (map segment_rows (segments this)) = count this.

(** The schema of the collection at the end of a history. *)
Fixpoint history_types (h : history) : list LogicalType :=
  match h with
  | Constructed _ types_p => types_p
  | Appended before _ => history_types before
  | Combined before _ => history_types before
  end.

(** A history in which every call is within its contract: a collection is
    constructed with a schema that is not empty and has a copy function for
    every type, a chunk that is appended has the vectors of the schema, and
    a peer that is combined has the schema of the collection. *)
Fixpoint well_typed (h : history) : Prop :=
  match h with
  | Constructed _ types_p =>
      types_p <> [] /\
      Forall (fun t => exists f, GetCopyFunction t = Ok f) types_p
  | Appended before input =>
      well_typed before /\
      Forall2 vector_shaped (history_types before) (dc_data input)
  | Combined before peer =>
      well_typed before /\ well_typed peer /\
      history_types peer = history_types before
  end.

(** The chunk at a position of the schedule, read with the projection
    [ids]. *)
Definition read_at (this : ColumnDataCollection) (ids : list nat) (x : ScanIndex)
  : ScanChunk :=
  match x with
  | ScanAt chunk_idx segment_idx _ =>
      match segments this !! segment_idx with
      | Some (Some segment) =>
          match ReadChunk segment chunk_idx ids with
          | Ok (result, _) => result
          | _ => Reset_chunk
          end
      | _ => Reset_chunk
      end
  | NoMoreData _ => Reset_chunk
  end.

(** The chunks of a segment, read with the projection [ids], in order. *)
Definition segment_chunks (ids : list nat) (s : option ColumnDataCollectionSegment)
  : list ScanChunk :=
  match s with
  | Some segment =>
      map (fun chunk_idx =>
             match ReadChunk segment chunk_idx ids with
             | Ok (result, _) => result
             | _ => Reset_chunk
             end)
          (seq 0 (length (chunk_data segment)))
  | None => []
  end.

(** Every chunk of every segment of the collection, in order. *)
Definition scanned_chunks (this : ColumnDataCollection) (ids : list nat)
  : list ScanChunk :=
  concat (map (segment_chunks ids) (segments this)).

(** The outcomes of [n] calls of the serial [Scan], one after the other. *)
Fixpoint Scan_trace (n : nat) (this : ColumnDataCollection)
    (state : ColumnDataScanState) : list (Res (option ScanChunk)) :=
  match n with
  | 0 => []
  | S n' =>
      let '(r, state') := Scan this state in
      r :: Scan_trace n' this state'
  end.

(** A position of the schedule names a chunk that is there. *)
Definition valid_at (segs : list (list nat)) (x : ScanIndex) : Prop :=
  match x with
  | ScanAt chunk_idx segment_idx _ =>
      exists counts, segs !! segment_idx = Some counts /\ chunk_idx < length counts
  | NoMoreData _ => False
  end.

(** The number of rows at a position of the schedule. *)
Definition rows_at (segs : list (list nat)) (x : ScanIndex) : nat :=
  match x with
  | ScanAt chunk_idx segment_idx _ =>
      default 0 (counts ← segs !! segment_idx; counts !! chunk_idx)
  | NoMoreData _ => 0
  end.

(** A type the collection can hold: every leaf has one of the physical
    types that [GetCopyFunction] has a case for. *)
Fixpoint supported (t : LogicalType) : bool :=
  match t with
  | Primitive p =>
      match p with
      | STRUCT | LIST | INVALID => false
      | _ => true
      end
  | StructType child_types =>
      (fix fields (l : list (string * LogicalType)) : bool :=
         match l with
         | [] => true
         | kv :: l' => supported (snd kv) && fields l'
         end) child_types
  | ListType child_type => supported child_type
  end.

(** The copy function has the shape of the type: the copy function of the
    physical type at every leaf, one child function per field of a struct
    and one child function for the child of a list. *)
Inductive mirrors : LogicalType -> ColumnDataCopyFunction -> Prop :=
| mirrors_fixed p :
    p <> VARCHAR -> supported (Primitive p) = true ->
    mirrors (Primitive p) (mkCopyFunction (ColumnDataCopy p) [])
| mirrors_string :
    mirrors (Primitive VARCHAR) (mkCopyFunction ColumnDataCopy_string_t [])
| mirrors_struct child_types fs :
    Forall2 (fun (kv : string * LogicalType) f => mirrors (snd kv) f) child_types fs ->
    mirrors (StructType child_types) (mkCopyFunction ColumnDataCopyStruct fs)
| mirrors_list child_type f :
    mirrors child_type f ->
    mirrors (ListType child_type) (mkCopyFunction ColumnDataCopy_list_entry_t [f]).


(** *** Flat columns *)

(** The copy a column of physical type [p] is written with. *)
Definition flat_op (p : PhysicalType) : ValueCopy :=
  match p with
  | VARCHAR => StringValueCopy
  | _ => StandardValueCopy
  end.

(** A cell as a value: what [Vector::GetValue] of the input gives for a row
    that is valid. *)
Definition cell_value (memory : nat -> list Byte.byte) (c : Cell) : Value :=
  match c with
  | CFixed raw => VFixed raw
  | CString s => VString (GetString memory [] s)
  | CList _ => VUninitialized
  end.

(** Row [k] of a vector of the caller as a value. *)
Definition source_value (memory : nat -> list Byte.byte)
    (src : UnifiedVectorFormat) (k : nat) : Value :=
  if RowIsValid (uvf_validity src) (uvf_sel src k)
  then cell_value memory (uvf_data src (uvf_sel src k))
  else VNull.

(** A cell of a column of physical type [p]: a string of the caller in a
    string column, a fixed-width value in every other column. *)
Definition cell_typed (p : PhysicalType) (c : Cell) : Prop :=
  match c with
  | CFixed _ => p <> VARCHAR
  | CString s => p = VARCHAR /\ caller_string s
  | CList _ => False
  end.

(** The valid rows among the first [n] rows of the vector hold cells of the
    physical type [p]. *)
Definition column_typed (p : PhysicalType) (src : UnifiedVectorFormat) (n : nat) : Prop :=
  forall k, k < n -> RowIsValid (uvf_validity src) (uvf_sel src k) = true ->
            cell_typed p (uvf_data src (uvf_sel src k)).

(** A type without children that the collection supports. *)
Definition flat (t : LogicalType) : Prop :=
  exists p, t = Primitive p /\ supported t = true.

(** A chunk for the flat schema [ts]: every vector has the type of its
    column and holds cells of that type. *)
Definition chunk_typed (ts : list LogicalType) (input : DataChunk) : Prop :=
  Forall2 (fun t v =>
             exists p, t = Primitive p /\ GetType v = t /\
                       column_typed p (VectorFormat v) (dc_size input))
          ts (dc_data input).

(** The values of column [c] of a chunk of the caller. *)
Definition input_column (input : DataChunk) (c : nat) : list Value :=
  match dc_data input !! c with
  | Some v => map (source_value (dc_strings input) (VectorFormat v)) (seq 0 (dc_size input))
  | None => []
  end.

(** The descriptor [r] is a vector by itself that holds the values [vals],
    whatever is added to the heap later. *)
Definition holds (seg : ColumnDataCollectionSegment) (r : nat) (vals : list Value) : Prop :=
  exists vd,
    vector_data seg !! r = Some vd /\ next_data vd = None /\
    vd_count vd = length vals /\
    forall ext, map (scalar_value (heap seg ++ ext)) (descriptor_rows seg r) = vals.

(** The chunk of the segment holds the columns of [sc]. *)
Definition chunk_holds (ts : list LogicalType) (seg : ColumnDataCollectionSegment)
    (cm : ChunkMetaData) (sc : ScanChunk) : Prop :=
  sc_size sc = cm_count cm /\
  Forall2 (holds seg) (cm_vector_data cm) (sc_data sc) /\
  length (sc_data sc) = length ts /\
  Forall (fun column => length column = sc_size sc) (sc_data sc).

(** The segment of schema [ts] stores the chunks [chunks]. *)
Definition stores (ts : list LogicalType) (seg : ColumnDataCollectionSegment)
    (chunks : list ScanChunk) : Prop :=
  wf_segment seg /\ seg_types seg = ts /\
  Forall2 (chunk_holds ts seg) (chunk_data seg) chunks /\
  NoDup (concat (map cm_vector_data (chunk_data seg))).

(** Column [c] of a list of chunks, from the first chunk to the last. *)
Definition column_of (c : nat) (chunks : list ScanChunk) : list Value :=
  concat (map (fun chunk => default [] (sc_data chunk !! c)) chunks).

(** A history over flat columns whose chunks hold cells of the schema. *)
Fixpoint flat_history (h : history) : Prop :=
  match h with
  | Constructed _ types_p => types_p <> [] /\ Forall flat types_p
  | Appended before input =>
      flat_history before /\ chunk_typed (history_types before) input
  | Combined before peer =>
      flat_history before /\ flat_history peer /\
      history_types peer = history_types before
  end.

(** What the loops of [Append] find for every column of the flat schema
    [ts]: its copy function, the format and the vector of the column, whose
    first [size] rows hold cells of the type. *)
Definition columns_ready (ts : list LogicalType)
    (functions : list ColumnDataCopyFunction) (formats : list UnifiedVectorFormat)
    (data : list Vector) (size : nat) : Prop :=
  forall j t, ts !! j = Some t ->
    exists p f format source,
      t = Primitive p /\ supported t = true /\
      functions !! j = Some f /\ GetCopyFunction t = Ok f /\
      formats !! j = Some format /\ data !! j = Some source /\
      column_typed p format size.

(** The values of the rows [offset .. offset + amount - 1] of column [j]. *)
Definition window_values (memory : nat -> list Byte.byte)
    (formats : list UnifiedVectorFormat) (j offset amount : nat) : list Value :=
  match formats !! j with
  | Some format => map (source_value memory format) (seq offset amount)
  | None => []
  end.

(** A collection over flat columns that takes appends and whose segments
    store chunks as above. *)
Definition flat_stored (this : ColumnDataCollection) : Prop :=
  Forall flat (types this) /\
  finished_append this = false /\
  Forall2 (fun t f => GetCopyFunction t = Ok f) (types this) (copy_functions this) /\
  Forall (fun s => exists seg chunks, s = Some seg /\ stores (types this) seg chunks)
    (segments this).

(** The values of column [c] that a scan of all columns hands out, from the
    first chunk to the last. *)
Definition column_values (this : ColumnDataCollection) (c : nat) : list Value :=
  column_of c (scanned_chunks this (seq 0 (ColumnCount this))).

(** The rows that a loop over [Rows()] sees for a list of chunks: the rows
    of every chunk and, for a chunk without rows, the row at index 0. *)
Fixpoint visited_rows (chunks : list ScanChunk) (base_row : nat) : list ColumnDataRow :=
  match chunks with
  | [] => []
  | chunk :: chunks' =>
      map (fun row_idx => {| row_chunk := chunk; row_index := row_idx;
                             base_index := base_row |})
          (seq 0 (Nat.max 1 (sc_size chunk)))
      ++ visited_rows chunks' (base_row + sc_size chunk)
  end.
(** *** Columns of structs *)

(** A type without lists that the collection supports: a flat type, or a
    struct of such types. *)
Fixpoint plain (t : LogicalType) : bool :=
  match t with
  | Primitive p => supported (Primitive p)
  | StructType child_types =>
      (fix fields (l : list (string * LogicalType)) : bool :=
         match l with
         | [] => true
         | kv :: l' => plain (snd kv) && fields l'
         end) child_types
  | ListType _ => false
  end.

(** Row [k] of a vector of the caller of a plain type as a value: a struct
    is null where its own row is not valid, and the struct of the values of
    its child vectors at row [k] otherwise. *)
Fixpoint vector_value (memory : nat -> list Byte.byte) (t : LogicalType)
    (v : Vector) (k : nat) : Value :=
  match t with
  | Primitive _ => source_value memory (VectorFormat v) k
  | StructType child_types =>
      if RowIsValid (uvf_validity (VectorFormat v)) (uvf_sel (VectorFormat v) k)
      then VStruct
             ((fix fields (l : list (string * LogicalType)) (children : list Vector)
                 : list Value :=
                 match l, children with
                 | kv :: l', child :: children' =>
                     vector_value memory (snd kv) child k :: fields l' children'
                 | _, _ => []
                 end) child_types (VectorChildren v))
      else VNull
  | ListType _ => VUninitialized
  end.

(** The loop of [vector_value] over the fields of a struct, by itself. *)
Definition field_values (memory : nat -> list Byte.byte) (k : nat) :
    list (string * LogicalType) -> list Vector -> list Value :=
  fix fields (l : list (string * LogicalType)) (children : list Vector) : list Value :=
    match l, children with
    | kv :: l', child :: children' =>
        vector_value memory (snd kv) child k :: fields l' children'
    | _, _ => []
    end.

(** A vector of the caller of a plain type whose first [n] rows hold cells
    of the type; a struct vector is flat, with one child vector per field. *)
Inductive vector_typed (n : nat) : LogicalType -> Vector -> Prop :=
| typed_primitive p v :
    GetType v = Primitive p -> column_typed p (VectorFormat v) n ->
    vector_typed n (Primitive p) v
| typed_struct child_types v :
    GetType v = StructType child_types ->
    (forall k, k < n -> uvf_sel (VectorFormat v) k = k) ->
    Forall2 (fun (kv : string * LogicalType) child => vector_typed n (snd kv) child)
      child_types (VectorChildren v) ->
    vector_typed n (StructType child_types) v.

(** The rows of a struct: null where the row is not valid, and the struct
    of the values of the columns at the row otherwise. *)
Definition struct_values (valid : list bool) (columns : list (list Value)) : list Value :=
  imap (fun i (b : bool) =>
          if b
          then VStruct (map (fun column => default VUninitialized (column !! i)) columns)
          else VNull) valid.

(** A vector as it is stored: its descriptor, the descriptors it owns, and
    the values it holds. *)
Record StoredVector := {
  sv_root : nat;
  sv_nodes : list nat;
  sv_values : list Value
}.

(** The descriptor [r] is a vector of type [t] by itself that owns the
    descriptors [nodes] and holds the values [vals]: a flat vector as in
    [holds]; a struct vector has the validity of its rows, names a run of
    child indices, one per field, and the fields hold as many values as the
    struct has rows, in descriptors of their own. *)
Inductive vector_holds (seg : ColumnDataCollectionSegment) :
    LogicalType -> nat -> list nat -> list Value -> Prop :=
| vector_holds_flat p r vals :
    supported (Primitive p) = true -> holds seg r vals ->
    vector_holds seg (Primitive p) r [r] vals
| vector_holds_struct child_types r vd base valid children :
    vector_data seg !! r = Some vd -> next_data vd = None ->
    child_index vd = Some base -> vd_count vd = length valid ->
    map fst (descriptor_rows seg r) = map Some valid ->
    Forall2 (fun (kv : string * LogicalType) child =>
               vector_holds seg (snd kv) (sv_root child) (sv_nodes child)
                 (sv_values child) /\
               length (sv_values child) = length valid)
      child_types children ->
    (forall j child, children !! j = Some child ->
                     child_indices seg !! (base + j) = Some (sv_root child)) ->
    NoDup (r :: concat (map sv_nodes children)) ->
    vector_holds seg (StructType child_types) r (r :: concat (map sv_nodes children))
      (struct_values valid (map sv_values children)).

(** From [seg] to [seg']: the descriptors [nodes] and their blocks are as
    they were, and the table of child indices and the heap have only grown. *)
Definition retains (nodes : list nat) (seg seg' : ColumnDataCollectionSegment) : Prop :=
  (forall i, i ∈ nodes ->
     vector_data seg' !! i = vector_data seg !! i /\ blocks seg' !! i = blocks seg !! i) /\
  child_indices seg `prefix_of` child_indices seg' /\
  heap seg `prefix_of` heap seg'.

(** From [seg] to [seg']: only the descriptors [nodes] and their blocks may
    have changed, and the heap may have grown. *)
Definition changes (nodes : list nat) (seg seg' : ColumnDataCollectionSegment) : Prop :=
  chunk_data seg' = chunk_data seg /\ seg_types seg' = seg_types seg /\
  seg_count seg' = seg_count seg /\ child_indices seg' = child_indices seg /\
  length (vector_data seg') = length (vector_data seg) /\
  heap seg `prefix_of` heap seg' /\
  forall i, i ∉ nodes ->
    vector_data seg' !! i = vector_data seg !! i /\ blocks seg' !! i = blocks seg !! i.

(** What the induction on the type gives for a field: the copy function of
    the type, called with rows that fit the vector, returns and leaves the
    values of the rows behind the values that the vector held, in the
    descriptors that the vector owns. *)
Definition copy_appends (t : LogicalType) : Prop :=
  forall f memory r nodes vals source offset count seg,
    GetCopyFunction t = Ok f -> wf_segment seg ->
    vector_holds seg t r nodes vals ->
    vector_typed (offset + count) t source ->
    0 < count -> length vals + count <= STANDARD_VECTOR_SIZE ->
    exists seg',
      call_copy_function f memory r (VectorFormat source) source offset count seg
      = (Ok tt, seg') /\
      wf_segment seg' /\
      vector_holds seg' t r nodes
        (vals ++ map (vector_value memory t source) (seq offset count)) /\
      changes nodes seg seg'.

(** From [seg] to [seg']: descriptors, blocks and child indices were added
    behind the ones that are there, and nothing else has changed. *)
Definition grows (seg seg' : ColumnDataCollectionSegment) : Prop :=
  (forall i, i < length (vector_data seg) ->
     vector_data seg' !! i = vector_data seg !! i /\ blocks seg' !! i = blocks seg !! i) /\
  length (vector_data seg) <= length (vector_data seg') /\
  child_indices seg `prefix_of` child_indices seg' /\
  heap seg' = heap seg /\ chunk_data seg' = chunk_data seg /\
  seg_types seg' = seg_types seg /\ seg_count seg' = seg_count seg.

(** What the induction on the type gives for a field: [allocate_column]
    returns a vector of the type that holds no values, in descriptors that
    are new. *)
Definition allocation_holds (t : LogicalType) : Prop :=
  forall seg,
    wf_segment seg ->
    exists index seg' nodes,
      allocate_column t seg = (Ok index, seg') /\ wf_segment seg' /\
      vector_holds seg' t index nodes [] /\
      (forall i, i ∈ nodes ->
         length (vector_data seg) <= i < length (vector_data seg')) /\
      grows seg seg'.

(** *** Collections over plain columns *)

(** A chunk for the plain schema [ts]: every vector has the type of its
    column and holds cells of that type. *)
Definition plain_chunk (ts : list LogicalType) (input : DataChunk) : Prop :=
  Forall2 (vector_typed (dc_size input)) ts (dc_data input).

(** The values of column [c] of a chunk of the caller. *)
Definition chunk_column (input : DataChunk) (c : nat) : list Value :=
  match dc_data input !! c with
  | Some v => map (vector_value (dc_strings input) (GetType v) v) (seq 0 (dc_size input))
  | None => []
  end.

(** A history over plain columns whose chunks hold cells of the schema. *)
Fixpoint plain_history (h : history) : Prop :=
  match h with
  | Constructed _ types_p => types_p <> [] /\ Forall (fun t => plain t = true) types_p
  | Appended before input =>
      plain_history before /\ plain_chunk (history_types before) input
  | Combined before peer =>
      plain_history before /\ plain_history peer /\
      history_types peer = history_types before
  end.

(** The chunk of the segment holds the vectors [columns], one per column of
    the schema, each with as many values as the chunk has rows. *)
Definition chunk_stored (ts : list LogicalType) (seg : ColumnDataCollectionSegment)
    (cm : ChunkMetaData) (columns : list StoredVector) : Prop :=
  cm_vector_data cm = map sv_root columns /\
  Forall2 (fun t column =>
             vector_holds seg t (sv_root column) (sv_nodes column) (sv_values column) /\
             length (sv_values column) = cm_count cm)
    ts columns.

(** The segment of schema [ts] stores the chunks [chunks], in descriptors
    that no two vectors share. *)
Definition stores_plain (ts : list LogicalType) (seg : ColumnDataCollectionSegment)
    (chunks : list (list StoredVector)) : Prop :=
  wf_segment seg /\ seg_types seg = ts /\
  Forall2 (chunk_stored ts seg) (chunk_data seg) chunks /\
  NoDup (concat (map sv_nodes (concat chunks))).

(** Column [c] of a list of stored chunks, from the first chunk to the
    last. *)
Definition stored_column (c : nat) (chunks : list (list StoredVector)) : list Value :=
  concat (map (fun columns => default [] (sv_values <$> columns !! c)) chunks).

(** A stored chunk as a scan hands it out. *)
Definition scanned (cm : ChunkMetaData) (columns : list StoredVector) : ScanChunk :=
  {| sc_data := map sv_values columns; sc_size := cm_count cm |}.

(** A stored vector with more values. *)
Definition extend (column : StoredVector) (more : list Value) : StoredVector :=
  {| sv_root := sv_root column; sv_nodes := sv_nodes column;
     sv_values := sv_values column ++ more |}.

(** What the loops of [Append] find for every column of the plain schema
    [ts]: its copy function, the vector of the column, whose first [size]
    rows hold cells of the type, and the format of that vector. *)
Definition plain_ready (ts : list LogicalType)
    (functions : list ColumnDataCopyFunction) (formats : list UnifiedVectorFormat)
    (data : list Vector) (size : nat) : Prop :=
  forall j t, ts !! j = Some t ->
    exists f source,
      functions !! j = Some f /\ GetCopyFunction t = Ok f /\
      formats !! j = Some (VectorFormat source) /\ data !! j = Some source /\
      vector_typed size t source.

(** The values of the rows [offset .. offset + amount - 1] of column [j]. *)
Definition plain_window (memory : nat -> list Byte.byte) (ts : list LogicalType)
    (data : list Vector) (j offset amount : nat) : list Value :=
  match ts !! j, data !! j with
  | Some t, Some source => map (vector_value memory t source) (seq offset amount)
  | _, _ => []
  end.

(** A collection over plain columns that takes appends and whose segments
    store chunks as above. *)
Definition plain_stored (this : ColumnDataCollection) : Prop :=
  Forall (fun t => plain t = true) (types this) /\
  finished_append this = false /\
  Forall2 (fun t f => GetCopyFunction t = Ok f) (types this) (copy_functions this) /\
  Forall (fun s => exists seg chunks, s = Some seg /\ stores_plain (types this) seg chunks)
    (segments this).

(** The numbers of rows of the descriptors of the chain of [index], head
    first. *)
Definition chain_counts (seg : ColumnDataCollectionSegment) (index : nat) : list nat :=
  omap (fun i => vd_count <$> vector_data seg !! i)
    (chain (length (vector_data seg)) (vector_data seg) (Some index)).

(** *** List columns *)

(** Row [k] of a list vector of the caller over a flat child vector as a
    value: null where the row is not valid, and otherwise the list of the
    values of the child rows that the entry of the row names. *)
Definition list_source_value (memory : nat -> list Byte.byte) (source : Vector)
    (k : nat) : Value :=
  let src := VectorFormat source in
  if RowIsValid (uvf_validity src) (uvf_sel src k) then
    match uvf_data src (uvf_sel src k), VectorChildren source !! 0 with
    | CList e, Some child_vector =>
        VList (map (source_value memory (VectorFormat child_vector))
                 (seq (N.to_nat (le_offset e)) (N.to_nat (le_length e))))
    | _, _ => VUninitialized
    end
  else VNull.

(** The rows [cw_offset .. cw_offset + cw_count - 1] of a vector of the
    caller: what one turn of the append loop copies for a column. *)
Record CopyWindow := {
  cw_source : Vector;
  cw_offset : nat;
  cw_count : nat
}.

(** The calls of the copy function [f] for the descriptor [index] that the
    turns of the append loop make, one after the other. *)
Fixpoint copy_windows (f : ColumnDataCopyFunction) (memory : nat -> list Byte.byte)
    (index : nat) (windows : list CopyWindow) : SegM unit :=
  match windows with
  | [] => ret tt
  | w :: windows' =>
      bind (call_copy_function f memory index (VectorFormat (cw_source w)) (cw_source w)
              (cw_offset w) (cw_count w))
           (fun _ => copy_windows f memory index windows')
  end.

(** A window of a list vector over a child vector of physical type [p]:
    there are rows to copy, the child vector holds cells of the type, and
    the entries of the valid rows name rows of the child vector. *)
Definition list_window (p : PhysicalType) (w : CopyWindow) : Prop :=
  let src := VectorFormat (cw_source w) in
  0 < cw_count w /\
  exists child_vector,
    VectorChildren (cw_source w) !! 0 = Some child_vector /\
    column_typed p (VectorFormat child_vector) (GetListSize (cw_source w)) /\
    forall k, cw_offset w <= k < cw_offset w + cw_count w ->
      RowIsValid (uvf_validity src) (uvf_sel src k) = true ->
      exists e, uvf_data src (uvf_sel src k) = CList e /\
                (le_offset e + le_length e <= N.of_nat (GetListSize (cw_source w)))%N.

(** The descriptor [index] is a list vector by itself that holds the lists
    [vals] over the child values [child_vals]: it names a child chain behind
    it that holds [child_vals], whatever is added to the heap later, and its
    entries read as [vals], whatever is added to the child chain later. *)
Definition list_holds (seg : ColumnDataCollectionSegment) (index : nat)
    (vals child_vals : list Value) : Prop :=
  exists vd entry child,
    vector_data seg !! index = Some vd /\ next_data vd = None /\
    child_index vd = Some entry /\ child_indices seg !! entry = Some child /\
    index < child < length (vector_data seg) /\
    vd_count vd = length vals /\
    (forall ext, map (scalar_value (heap seg ++ ext)) (chain_rows seg child) = child_vals) /\
    (forall more, map (list_value (child_vals ++ more)) (descriptor_rows seg index) = vals).

(** *** Equality of type lists *)

Lemma PhysicalType_eqb_eq p q : PhysicalType_eqb p q = true <-> p = q.
Proof. destruct p, q; simpl; split; congruence. Qed.

Lemma LogicalType_eqb_eq : forall a b, LogicalType_eqb a b = true <-> a = b.
Proof.
  fix IH 1.
  intros [p|l|t] [q|k|u]; simpl; try (split; congruence).
  - rewrite PhysicalType_eqb_eq. split; congruence.
  - revert k. induction l as [|[n t] l IHl]; intros [|[m u] k];
      try (split; congruence).
    rewrite !andb_true_iff, String.eqb_eq, (IH t u), IHl.
    split.
    + intros [[-> ->] E]. congruence.
    + intros E. inversion E. subst. auto.
  - rewrite (IH t u). split; congruence.
Qed.

Lemma types_eqb_eq l k : types_eqb l k = true <-> l = k.
Proof.
  revert k. induction l as [|t l IHl]; intros [|u k]; simpl;
    try (split; congruence).
  rewrite andb_true_iff, LogicalType_eqb_eq, IHl. split.
  - intros [-> ->]. reflexivity.
  - intros E. inversion E. auto.
Qed.

Lemma types_eqb_neq l k : types_eqb l k = false <-> l <> k.
Proof.
  rewrite <- types_eqb_eq. destruct (types_eqb l k); split; congruence.
Qed.

(** *** Construction *)

Lemma Initialize_constructed types_p this :
  ColumnDataCollection_shared 0 types_p = Ok this -> constructed this.
Proof.
  unfold ColumnDataCollection_shared, Initialize, D_ASSERT.
  case_bool_decide as Hnil; simpl; [discriminate|].
  destruct (push_copy_functions types_p []) as [fs| |] eqn:E; try discriminate.
  intros [= E']. subst this. split; simpl; auto.
Qed.

(** C10, as the code has it.  For a source with a schema, as the
    constructors with a type list make it, the copy constructor returns a
    collection that has the allocator, the schema and the copy functions of
    [other] and holds no rows and no segments; [other] keeps its count and
    its segments and has [finished_append] set.  For a source without types,
    as the constructor without a type list makes it, the assertion of
    [Initialize] ends the constructor that the copy constructor delegates
    to: no collection is made, and [other] stays as it is, [finished_append]
    included. *)
Theorem copy_constructor_shares_and_stays_empty (other : ColumnDataCollection) :
  (constructed other ->
   exists this other',
     ColumnDataCollection_copy other = (Ok this, other') /\
     allocator this = allocator other /\
     Types this = Types other /\
     copy_functions this = copy_functions other /\
     Count this = 0 /\
     segments this = [] /\
     Count other' = Count other /\
     segments other' = segments other /\
     finished_append other' = true) /\
  (types other = [] ->
   ColumnDataCollection_copy other =
   (Fail (InternalException "Assertion triggered: !types.empty()"), other)).
Proof.
  split.
  - intros [Hne Hfs].
    unfold ColumnDataCollection_copy, ColumnDataCollection_shared, Initialize, D_ASSERT.
    case_bool_decide as Hnil; [contradiction|]. simpl.
    rewrite Hfs. simpl.
    case_bool_decide as Hnil'; [contradiction|]. simpl.
    eexists _, _. split; [reflexivity|]. simpl. repeat split; reflexivity.
  - intros Hnil.
    unfold ColumnDataCollection_copy, ColumnDataCollection_shared, Initialize, D_ASSERT.
    rewrite Hnil. reflexivity.
Qed.

(** *** Schema mismatch *)

Lemma Append_mismatch this state input :
  types this <> GetTypes input ->
  exists msg, Append this state input = (Fail (InternalException msg), this, state).
Proof.
  intros Hne. apply types_eqb_neq in Hne.
  unfold Append, D_ASSERT. rewrite Hne.
  destruct (finished_append this); simpl; eexists; reflexivity.
Qed.

Lemma Combine_mismatch DEBUG this other :
  types this <> types other -> count other <> 0 ->
  exists msg, Combine DEBUG this other = (Fail (InternalException msg), this, other).
Proof.
  intros Hne Hcount. apply types_eqb_neq in Hne.
  unfold Combine. destruct (Nat.eqb_spec (count other) 0) as [E|_]; [contradiction|].
  rewrite Hne. simpl. eexists; reflexivity.
Qed.

Lemma Combine_empty_peer DEBUG this other :
  count other = 0 -> Combine DEBUG this other = (Ok tt, this, other).
Proof. intros E. unfold Combine. rewrite E. reflexivity. Qed.

(** *** Combine *)

Lemma Combine_count DEBUG this other this' other' :
  Combine DEBUG this other = (Ok tt, this', other') ->
  Count this' = Count this + Count other.
Proof.
  unfold Combine, Count.
  destruct (Nat.eqb_spec (count other) 0) as [E|_].
  - intros [= <- <-]. lia.
  - destruct (negb _); [discriminate|]. intros [= _ <- _]. reflexivity.
Qed.

Lemma Combine_segments DEBUG this other this' other' :
  Combine DEBUG this other = (Ok tt, this', other') ->
  count other <> 0 ->
  segments this' = segments this ++ segments other.
Proof.
  unfold Combine.
  destruct (Nat.eqb_spec (count other) 0) as [E|_]; [contradiction|].
  destruct (negb _); [discriminate|]. intros [= _ <- _] _. reflexivity.
Qed.

(** [Combine] never writes [other.count]. *)
Lemma Combine_peer_count DEBUG this other r this' other' :
  Combine DEBUG this other = (r, this', other') -> Count other' = Count other.
Proof.
  unfold Combine.
  destruct (count other =? 0); [by intros [= _ _ <-]|].
  destruct (negb _); by intros [= _ _ <-].
Qed.

(** *** ResultEquals *)

(** The comparison never looks at the rows of the right-hand side. *)
Lemma compare_columns_right eq n c r left_rows right_rows right_rows' :
  compare_columns eq n c r left_rows right_rows =
  compare_columns eq n c r left_rows right_rows'.
Proof.
  revert c. induction n as [|n IH]; intros c; simpl; [reflexivity|].
  destruct (GetValue left_rows c r); try reflexivity.
  destruct (negb _); [reflexivity|]. apply IH.
Qed.

Lemma compare_rows_right eq n r columns left_rows right_rows right_rows' :
  compare_rows eq n r columns left_rows right_rows =
  compare_rows eq n r columns left_rows right_rows'.
Proof.
  revert r. induction n as [|n IH]; intros r; simpl; [reflexivity|].
  rewrite (compare_columns_right eq columns 0 r left_rows right_rows right_rows').
  destruct (compare_columns _ _ _ _ _ _) as [[m|]| |]; try reflexivity. apply IH.
Qed.

(** With equal shapes, and rows that can be read on both sides, comparing
    [left] with [right] gives what comparing [left] with itself gives. *)
Lemma ResultEquals_right_is_left eq left right message right_rows :
  ColumnCount left = ColumnCount right -> Count left = Count right ->
  GetRows right = Ok right_rows ->
  ResultEquals eq left right message = ResultEquals eq left left message.
Proof.
  intros Hc Hn Hr. unfold ResultEquals.
  rewrite <- Hc, <- Hn, !Nat.eqb_refl. simpl. rewrite Hr.
  destruct (GetRows left) as [left_rows| |]; try reflexivity.
  by rewrite (compare_rows_right eq _ _ _ left_rows right_rows left_rows).
Qed.

(** *** The scan index state machine *)

Lemma pending_start segs : pending segs 0 0 0 = schedule 0 0 segs.
Proof. unfold pending. destruct segs as [|counts segs]; simpl; [done|]. by rewrite drop_0. Qed.

Lemma pending_next segs s j row counts :
  segs !! s = Some counts -> length counts <= j ->
  pending segs s j row = pending segs (S s) 0 row /\
  pending_rows segs s j = pending_rows segs (S s) 0.
Proof.
  intros Hs Hj. unfold pending, pending_rows. rewrite Hs.
  rewrite (drop_ge counts j) by lia. simpl.
  rewrite Nat.add_0_r.
  destruct (segs !! S s) as [counts'|] eqn:Hs'.
  - rewrite (drop_S _ _ _ Hs'). simpl. rewrite drop_0. split; [done|].
    rewrite sum_list_with_app. lia.
  - apply lookup_ge_None in Hs'. rewrite (drop_ge segs (S s)) by lia. done.
Qed.

Lemma pending_here segs s j row counts c :
  segs !! s = Some counts -> counts !! j = Some c ->
  pending segs s j row = ScanAt j s row :: pending segs s (S j) (row + c) /\
  pending_rows segs s j = c + pending_rows segs s (S j).
Proof.
  intros Hs Hj. unfold pending, pending_rows. rewrite Hs.
  rewrite (drop_S _ _ _ Hj). simpl. split; [|lia].
  by rewrite Nat.add_assoc.
Qed.

Lemma pending_end segs s j row :
  length segs <= s -> pending segs s j row = [] /\ pending_rows segs s j = 0.
Proof.
  intros Hs. unfold pending, pending_rows.
  by rewrite (proj2 (lookup_ge_None segs s) Hs).
Qed.

Lemma counts_of_lookup this s seg :
  segments this !! s = Some (Some seg) ->
  counts_of this !! s = Some (map cm_count (chunk_data seg)).
Proof. intros E. unfold counts_of. by rewrite list_lookup_fmap, E. Qed.

(** The loop of [NextScanIndex] skips the segments that are used up and
    stops at the next chunk, or behind the last segment. *)
Lemma NextScanIndex_loop_spec this :
  all_present this ->
  forall fuel state,
    segment_index state < length (segments this) ->
    length (segments this) - segment_index state <= fuel ->
    exists b state1,
      NextScanIndex_loop fuel this state = (Ok b, state1) /\
      next_row_index state1 = next_row_index state /\
      pending (counts_of this) (segment_index state1) (chunk_index state1)
        (next_row_index state)
      = pending (counts_of this) (segment_index state) (chunk_index state)
          (next_row_index state) /\
      pending_rows (counts_of this) (segment_index state1) (chunk_index state1)
      = pending_rows (counts_of this) (segment_index state) (chunk_index state) /\
      segment_index state <= segment_index state1 /\
      (segment_index state1 = segment_index state -> state1 = state) /\
      (segment_index state1 <> segment_index state -> handles state1 = []) /\
      (if b then
         exists seg chunk,
           segments this !! segment_index state1 = Some (Some seg) /\
           chunk_data seg !! chunk_index state1 = Some chunk
       else length (segments this) <= segment_index state1).
Proof.
  intros Hpresent fuel.
  induction fuel as [|fuel IH]; intros state Hlt Hfuel; [lia|].
  destruct (lookup_lt_is_Some_2 _ _ Hlt) as [s Hs].
  assert (exists seg, s = Some seg) as [seg ->].
  { eapply Forall_lookup_1 in Hpresent as [seg ?]; eauto. }
  simpl. rewrite Hs.
  case_bool_decide as Hchunks.
  - pose proof (counts_of_lookup _ _ _ Hs) as Hcounts.
    destruct (pending_next (counts_of this) (segment_index state) (chunk_index state)
                (next_row_index state) _ Hcounts) as [Hp Hr].
    { by rewrite length_map. }
    case_bool_decide as Hend.
    + eexists false, _. split; [reflexivity|]. simpl.
      repeat split; auto; try lia.
    + destruct (IH {| handles := []; segment_index := S (segment_index state);
                      chunk_index := 0; current_row_index := current_row_index state;
                      next_row_index := next_row_index state;
                      properties := properties state;
                      column_ids := column_ids state |})
        as (b & state1 & E & Hrow & Hp1 & Hr1 & Hle & Hsame & Hcleared & Hb);
        simpl in *; [lia|lia|].
      exists b, state1. rewrite E. split; [reflexivity|].
      split; [done|]. split; [congruence|]. split; [congruence|].
      split; [lia|]. split; [intros; lia|]. split; [|done].
      intros _.
      destruct (decide (segment_index state1 = S (segment_index state))) as [E'|E'].
      * by rewrite (Hsame E').
      * by apply Hcleared.
  - exists true, state. split; [reflexivity|].
    repeat split; auto; try congruence.
    destruct (lookup_lt_is_Some_2 (chunk_data seg) (chunk_index state)) as [chunk ?];
      [lia|]. eauto.
Qed.

Lemma schedule_nil_rows s row segs :
  schedule s row segs = [] -> sum_list (concat segs) = 0.
Proof.
  revert s row. induction segs as [|counts segs IH]; intros s row; simpl; [done|].
  intros E. apply app_eq_nil in E as [E1 E2].
  destruct counts; [|discriminate]. simpl. eauto.
Qed.

Lemma pending_nil_rows segs s j row :
  pending segs s j row = [] -> pending_rows segs s j = 0.
Proof.
  unfold pending, pending_rows. destruct (segs !! s) as [counts|]; [|done].
  intros E. apply app_eq_nil in E as [E1 E2].
  destruct (drop j counts); [|discriminate]. simpl in *.
  by rewrite (schedule_nil_rows _ _ _ E2).
Qed.

(** One call of [NextScanIndex]: it hands out the head of what is pending and
    leaves the rest pending; with nothing pending it returns false and
    stays there.  The pin cache is emptied exactly when the segment
    changes. *)
Lemma NextScanIndex_step this state :
  all_present this ->
  exists r state',
    NextScanIndex this state = (Ok r, state') /\
    (segment_index state' = segment_index state -> handles state' = handles state) /\
    (segment_index state' <> segment_index state -> handles state' = []) /\
    next_row_index state' + pending_rows (counts_of this) (segment_index state') (chunk_index state')
    = next_row_index state + pending_rows (counts_of this) (segment_index state) (chunk_index state) /\
    match pending (counts_of this) (segment_index state) (chunk_index state)
            (next_row_index state) with
    | [] =>
        r = NoMoreData (next_row_index state) /\
        pending (counts_of this) (segment_index state') (chunk_index state')
          (next_row_index state') = []
    | x :: rest =>
        r = x /\
        pending (counts_of this) (segment_index state') (chunk_index state')
          (next_row_index state') = rest
    end.
Proof.
  intros Hpresent. unfold NextScanIndex.
  case_bool_decide as Hend; simpl in Hend.
  - eexists _, _. split; [reflexivity|]. simpl.
    destruct (pending_end (counts_of this) (segment_index state) (chunk_index state)
                (next_row_index state)) as [-> _].
    { unfold counts_of. by rewrite length_map. }
    repeat split; auto; congruence.
  - destruct (NextScanIndex_loop_spec this Hpresent (length (segments this))
                {| handles := handles state; segment_index := segment_index state;
                   chunk_index := chunk_index state;
                   current_row_index := next_row_index state;
                   next_row_index := next_row_index state;
                   properties := properties state; column_ids := column_ids state |})
      as (b & state1 & E & Hrow & Hp & Hr & Hle & Hsame & Hcleared & Hb);
      simpl in *; [lia|lia|].
    rewrite E. destruct b.
    + destruct Hb as (seg & chunk & Hs & Hc). rewrite Hs, Hc.
      eexists _, _. split; [reflexivity|]. simpl.
      destruct (pending_here (counts_of this) (segment_index state1) (chunk_index state1)
                  (next_row_index state) _ (cm_count chunk) (counts_of_lookup _ _ _ Hs))
        as [Hhere Hrows].
      { by rewrite list_lookup_fmap, Hc. }
      rewrite <- Hp, Hhere, Hrow. rewrite <- Hr, Hrows.
      split; [|split; [|split; [lia|done]]].
      * intros E'. by rewrite (Hsame E').
      * done.
    + eexists _, _. split; [reflexivity|].
      destruct (pending_end (counts_of this) (segment_index state1) (chunk_index state1)
                  (next_row_index state)) as [Hnil Hzero].
      { unfold counts_of. by rewrite length_map. }
      rewrite <- Hp, Hnil, Hrow. rewrite <- Hr.
      split; [|split; [|split; [lia|done]]].
      * intros E'. by rewrite (Hsame E').
      * done.
Qed.

Lemma scan_trace_pending this :
  all_present this ->
  forall n state,
    scan_trace n this state =
    map Ok (take n (pending (counts_of this) (segment_index state) (chunk_index state)
                      (next_row_index state)))
    ++ replicate
         (n - length (pending (counts_of this) (segment_index state) (chunk_index state)
                        (next_row_index state)))
         (Ok (NoMoreData
                (next_row_index state
                 + pending_rows (counts_of this) (segment_index state) (chunk_index state)))).
Proof.
  intros Hpresent n. induction n as [|n IH]; intros state; [done|].
  simpl.
  destruct (NextScanIndex_step this state Hpresent)
    as (r & state' & E & _ & _ & Hrows & Hp).
  rewrite E, IH, Hrows.
  destruct (pending _ _ _ (next_row_index state)) as [|x rest] eqn:Hpending.
  - destruct Hp as [-> ->]. simpl.
    rewrite (pending_nil_rows _ _ _ _ Hpending), Nat.add_0_r, Nat.sub_0_r.
    by rewrite take_nil.
  - destruct Hp as [-> ->]. done.
Qed.

(** C8. From the state that [InitializeScan] produces, [n] calls of
    [NextScanIndex] hand out the first [n] entries of the schedule (every
    (segment, chunk) pair once, in lexicographic order, each with the sum of
    the counts of the chunks before it) and return false, with the total row
    count, on every call after the schedule is used up.  Any call empties
    the pin cache when it moves to another segment and keeps it
    otherwise. *)
Theorem NextScanIndex_yields_every_chunk_once (this : ColumnDataCollection)
    (column_ids_p : list nat) (properties_p : ColumnDataScanProperties) :
  all_present this ->
  (forall n,
      scan_trace n this (InitializeScan_columns this column_ids_p properties_p) =
      map Ok (take n (schedule 0 0 (counts_of this)))
      ++ replicate (n - length (schedule 0 0 (counts_of this)))
           (Ok (NoMoreData (sum_list (concat (counts_of this)))))) /\
  (forall state, exists r state',
      NextScanIndex this state = (Ok r, state') /\
      (segment_index state' <> segment_index state -> handles state' = []) /\
      (segment_index state' = segment_index state -> handles state' = handles state)).
Proof.
  intros Hpresent. split.
  - intros n. rewrite (scan_trace_pending this Hpresent). simpl.
    rewrite pending_start. do 3 f_equal.
    unfold pending_rows. destruct (counts_of this) as [|counts segs]; simpl; [done|].
    by rewrite drop_0, sum_list_with_app.
  - intros state.
    destruct (NextScanIndex_step this state Hpresent)
      as (r & state' & E & Hsame & Hcleared & _).
    eauto.
Qed.

(** *** What the copy functions leave alone *)

Lemma keeps_ret {A} (a : A) : keeps_chunks (ret a).
Proof. by intros seg r seg' [= <- <-]. Qed.

Lemma keeps_failing {A} e : keeps_chunks (@failing A e).
Proof. by intros seg r seg' [= <- <-]. Qed.

Lemma keeps_reading {A} (f : ColumnDataCollectionSegment -> Res A) :
  keeps_chunks (reading f).
Proof. by intros seg r seg' [= <- <-]. Qed.

Lemma keeps_bind {A B} (m : SegM A) (k : A -> SegM B) :
  keeps_chunks m -> (forall a, keeps_chunks (k a)) -> keeps_chunks (bind m k).
Proof.
  intros Hm Hk seg r seg'. unfold bind.
  destruct (m seg) as [[a|e|] seg1] eqn:E; intros E'.
  - destruct (Hm _ _ _ E) as (E1 & E2 & E3).
    destruct (Hk _ _ _ _ E') as (F1 & F2 & F3). repeat split; congruence.
  - injection E' as <- <-. by eapply Hm.
  - injection E' as <- <-. by eapply Hm.
Qed.

Lemma keeps_calling {A} (f : ColumnDataCollectionSegment -> A * ColumnDataCollectionSegment) :
  (forall seg, chunk_data (f seg).2 = chunk_data seg /\
               seg_count (f seg).2 = seg_count seg /\
               seg_types (f seg).2 = seg_types seg) ->
  keeps_chunks (calling f).
Proof.
  intros Hf seg r seg'. unfold calling. specialize (Hf seg).
  destruct (f seg) as [a seg1]. by intros [= <- <-].
Qed.

Lemma keeps_modifying f :
  (forall seg, chunk_data (f seg) = chunk_data seg /\
               seg_count (f seg) = seg_count seg /\
               seg_types (f seg) = seg_types seg) ->
  keeps_chunks (modifying f).
Proof. intros Hf seg r seg' [= <- <-]. apply Hf. Qed.

Lemma keeps_AllocateVector prev : keeps_chunks (calling (AllocateVector prev)).
Proof. apply keeps_calling. intros seg. by destruct prev. Qed.

Lemma keeps_AddChildIndex index : keeps_chunks (calling (AddChildIndex index)).
Proof. by apply keeps_calling. Qed.

Create HintDb keeps.

#[local] Hint Resolve keeps_ret keeps_failing keeps_reading keeps_bind
  keeps_AllocateVector keeps_AddChildIndex : keeps.

Lemma keeps_TemplatedColumnDataCopy_loop fuel op cls memory source_data :
  forall current_index offset remaining,
    keeps_chunks (TemplatedColumnDataCopy_loop fuel op cls memory source_data
                    current_index offset remaining).
Proof.
  induction fuel as [|fuel IH]; intros current_index offset remaining seg r seg'; simpl.
  - destruct (remaining =? 0); by intros [= <- <-].
  - destruct (remaining =? 0); [by intros [= <- <-]|].
    destruct (GetVectorData seg current_index) as [cur|e|]; try by intros [= <- <-].
    destruct (GetDataPointer seg _ _) as [base|e|]; try by intros [= <- <-].
    destruct (copy_rows _ _ _ _ _ _ _ _ _) as [written heap'].
    destruct (0 <? _); [|by intros [= <- <-]].
    match goal with |- context [GetVectorData ?s current_index] => set (seg2 := s) end.
    assert (chunk_data seg2 = chunk_data seg /\ seg_count seg2 = seg_count seg /\
            seg_types seg2 = seg_types seg) as (E1 & E2 & E3).
    { subst seg2. by destruct (next_data cur). }
    destruct (GetVectorData seg2 current_index) as [vd|e|];
      try (intros [= <- <-]; done).
    destruct (next_data vd) as [next|]; [|intros [= <- <-]; done].
    intros E. apply IH in E as (F1 & F2 & F3). repeat split; congruence.
Qed.

Lemma keeps_TemplatedColumnDataCopy op cls memory index source_data offset count :
  keeps_chunks (TemplatedColumnDataCopy op cls memory index source_data offset count).
Proof. intros seg. apply keeps_TemplatedColumnDataCopy_loop. Qed.

#[local] Hint Resolve keeps_TemplatedColumnDataCopy : keeps.

Lemma keeps_call_copy_function :
  forall f memory index source_data source offset copy_count,
    keeps_chunks (call_copy_function f memory index source_data source offset copy_count).
Proof.
  fix IH 1.
  intros [[T| | |] children] memory index source_data source offset copy_count; simpl.
  - auto with keeps.
  - auto with keeps.
  - apply keeps_bind; [auto with keeps|]. intros child_vector.
    apply keeps_bind; [auto with keeps|]. intros vd.
    apply keeps_bind.
    { destruct (child_index vd); [auto with keeps|].
      apply keeps_bind; [auto with keeps|]. intros ci.
      apply keeps_bind; [auto with keeps|]. intros entry.
      by apply keeps_modifying. }
    intros _. destruct children as [|child_function children]; [auto with keeps|].
    apply keeps_bind; [auto with keeps|]. intros vd'.
    apply keeps_bind; [auto with keeps|]. intros ci.
    apply keeps_bind; [auto with keeps|]. intros size.
    apply keeps_bind; [apply IH|]. auto with keeps.
  - apply keeps_bind; [auto with keeps|]. intros _.
    apply keeps_bind; [auto with keeps|]. intros child_types.
    apply keeps_bind; [auto with keeps|]. intros vd.
    apply keeps_bind; [auto with keeps|]. intros _.
    generalize 0 at 1. generalize (length child_types).
    induction children as [|child_function children IHc]; intros n child_idx.
    + destruct n; auto with keeps.
    + destruct n; [auto with keeps|].
      apply keeps_bind; [auto with keeps|]. intros vd'.
      apply keeps_bind; [auto with keeps|]. intros ci.
      apply keeps_bind; [auto with keeps|]. intros child_vector.
      apply keeps_bind; [apply IH|]. intros _. apply IHc.
Qed.

Lemma keeps_append_columns n :
  forall vector_idx functions memory roots formats data offset append_amount,
    keeps_chunks (append_columns n vector_idx functions memory roots formats data
                    offset append_amount).
Proof.
  induction n as [|n IH]; intros; simpl; [auto with keeps|].
  do 4 (apply keeps_bind; [auto with keeps|]; intros ?).
  apply keeps_bind; [apply keeps_call_copy_function|]. intros _. apply IH.
Qed.

Lemma bind_Ok_inv {A B} (m : SegM A) (k : A -> SegM B) seg b seg' :
  bind m k seg = (Ok b, seg') ->
  exists a seg1, m seg = (Ok a, seg1) /\ k a seg1 = (Ok b, seg').
Proof.
  unfold bind. destruct (m seg) as [[a|e|] seg1]; try discriminate. eauto.
Qed.

(** *** Allocating a chunk *)

Lemma returns_ret {A} (a : A) : returns_keeping (ret a).
Proof. intros seg. by eexists _, _. Qed.

Lemma returns_bind {A B} (m : SegM A) (k : A -> SegM B) :
  returns_keeping m -> (forall a, returns_keeping (k a)) -> returns_keeping (bind m k).
Proof.
  intros Hm Hk seg. unfold bind.
  destruct (Hm seg) as (a & seg1 & -> & E1 & E2 & E3).
  destruct (Hk a seg1) as (b & seg2 & -> & F1 & F2 & F3).
  eexists _, _. split; [reflexivity|]. repeat split; congruence.
Qed.

Lemma returns_calling {A} (f : ColumnDataCollectionSegment -> A * ColumnDataCollectionSegment) :
  (forall seg, chunk_data (f seg).2 = chunk_data seg /\
               seg_count (f seg).2 = seg_count seg /\
               seg_types (f seg).2 = seg_types seg) ->
  returns_keeping (calling f).
Proof.
  intros Hf seg. unfold calling. specialize (Hf seg).
  destruct (f seg) as [a seg1]. by eexists _, _.
Qed.

Lemma returns_modifying f :
  (forall seg, chunk_data (f seg) = chunk_data seg /\
               seg_count (f seg) = seg_count seg /\
               seg_types (f seg) = seg_types seg) ->
  returns_keeping (modifying f).
Proof. intros Hf seg. eexists _, _. split; [reflexivity|]. apply Hf. Qed.

Lemma allocate_column_returns : forall t, returns_keeping (allocate_column t).
Proof.
  fix IH 1. intros [p|child_types|child_type]; simpl.
  - apply returns_bind; [by apply returns_calling|]. intros index. apply returns_ret.
  - apply returns_bind; [by apply returns_calling|]. intros index.
    apply returns_bind.
    { induction child_types as [|kv l IHl]; [apply returns_ret|].
      apply returns_bind; [apply IH|]. intros child.
      apply returns_bind; [apply IHl|]. intros rest. apply returns_ret. }
    intros fields.
    apply returns_bind; [by apply returns_calling|]. intros base.
    apply returns_bind; [by apply returns_modifying|]. intros _. apply returns_ret.
  - apply returns_bind; [by apply returns_calling|]. intros index.
    apply returns_bind; [apply IH|]. intros child.
    apply returns_bind; [by apply returns_calling|]. intros entry.
    apply returns_bind; [by apply returns_modifying|]. intros _. apply returns_ret.
Qed.

Lemma allocate_columns_returns ts : returns_keeping (allocate_columns ts).
Proof.
  induction ts as [|t ts IH]; simpl; [apply returns_ret|].
  apply returns_bind; [apply allocate_column_returns|]. intros index.
  apply returns_bind; [apply IH|]. intros rest. apply returns_ret.
Qed.

(** [AllocateNewChunk] returns, with one more chunk that holds no rows. *)
Lemma AllocateNewChunk_chunks seg :
  exists roots seg',
    AllocateNewChunk seg = (Ok tt, seg') /\
    chunk_data seg' = chunk_data seg ++ [{| cm_vector_data := roots; cm_count := 0 |}] /\
    seg_count seg' = seg_count seg /\
    seg_types seg' = seg_types seg.
Proof.
  unfold AllocateNewChunk, bind, reading, modifying.
  destruct (allocate_columns_returns (seg_types seg) seg)
    as (roots & seg1 & -> & E1 & E2 & E3).
  eexists roots, _. split; [reflexivity|]. simpl. rewrite E1. done.
Qed.

(** *** The append loop *)

Lemma alter_last {A} (f : A -> A) (l : list A) (x : A) :
  alter f (length (l ++ [x]) - 1) (l ++ [x]) = l ++ [f x].
Proof.
  rewrite length_app. simpl.
  replace (length l + 1 - 1) with (length l + 0) by lia.
  by rewrite alter_app_r.
Qed.

Lemma last_Some_app {A} (l : list A) (x : A) :
  last l = Some x -> exists pre, l = pre ++ [x].
Proof. intros E. apply last_Some in E as [pre ->]. eauto. Qed.

Lemma Append_loop_Ok fuel column_count functions memory formats data input_size :
  forall remaining seg seg',
    Append_loop fuel column_count functions memory formats data input_size remaining seg
    = (Ok tt, seg') ->
    seg_count seg' = seg_count seg /\
    seg_types seg' = seg_types seg /\
    (remaining = 0 -> chunk_data seg' = chunk_data seg) /\
    (0 < remaining ->
     exists pre c l,
       chunk_counts seg = pre ++ [c] /\
       chunk_counts seg' = pre ++ l /\
       filled c remaining l).
Proof.
  induction fuel as [|fuel IH]; intros remaining seg seg'; simpl.
  - destruct (Nat.eqb_spec remaining 0) as [->|Hpos]; [|discriminate].
    intros [= <-]. repeat split; auto. lia.
  - destruct (Nat.eqb_spec remaining 0) as [->|Hpos].
    { intros [= <-]. repeat split; auto. lia. }
    intros E.
    apply bind_Ok_inv in E as (chunk0 & seg0 & Echunk & E).
    unfold reading in Echunk.
    destruct (last (chunk_data seg)) as [chunk|] eqn:Hlast; [|discriminate].
    injection Echunk as <- <-.
    apply last_Some_app in Hlast as [pre Hpre].
    apply bind_Ok_inv in E as ([] & seg1 & Ecopy & E).
    set (append_amount := min remaining (STANDARD_VECTOR_SIZE - cm_count chunk)) in *.
    assert (chunk_data seg1 = pre ++ [add_chunk_count append_amount chunk] /\
            seg_count seg1 = seg_count seg /\ seg_types seg1 = seg_types seg)
      as (Hchunks1 & Hcount1 & Htypes1).
    { destruct (Nat.ltb_spec 0 append_amount) as [Hamount|Hamount].
      - apply bind_Ok_inv in Ecopy as ([] & seg05 & Ecols & Emod).
        apply keeps_append_columns in Ecols as (E1 & E2 & E3).
        injection Emod as <-. simpl. rewrite E1, Hpre, alter_last. done.
      - injection Ecopy as <-. split; [|done].
        rewrite Hpre. do 2 f_equal. destruct chunk as [roots n]. unfold add_chunk_count.
        simpl. f_equal. lia. }
    destruct (Nat.ltb_spec 0 (remaining - append_amount)) as [Hmore|Hdone].
    + apply bind_Ok_inv in E as ([] & seg2 & Ealloc & E).
      destruct (AllocateNewChunk_chunks seg1) as (roots & seg2' & Ealloc' & F1 & F2 & F3).
      rewrite Ealloc' in Ealloc. injection Ealloc as <-.
      apply IH in E as (G1 & G2 & _ & G4).
      destruct (G4 Hmore) as (pre2 & c2 & l2 & Hsplit & Hcounts' & Hfilled).
      split; [congruence|]. split; [congruence|]. split; [lia|]. intros _.
      unfold chunk_counts in *. rewrite F1, Hchunks1 in Hsplit.
      rewrite !map_app in Hsplit. simpl in Hsplit.
      apply app_inj_tail in Hsplit as [<- <-].
      exists (map cm_count pre), (cm_count chunk), ((cm_count chunk + append_amount) :: l2).
      rewrite Hpre, map_app. split; [done|]. split.
      { rewrite Hcounts', <- app_assoc. done. }
      assert (append_amount = STANDARD_VECTOR_SIZE - cm_count chunk) as Hfull by lia.
      rewrite Hfull in *. apply filled_more; [lia|done].
    + injection E as <-.
      split; [done|]. split; [done|]. split; [lia|]. intros _.
      exists (map cm_count pre), (cm_count chunk), [cm_count chunk + append_amount].
      unfold chunk_counts. rewrite Hpre, Hchunks1, !map_app. simpl.
      split; [done|]. split; [done|].
      assert (append_amount = remaining) as Hall by lia.
      assert (remaining <= STANDARD_VECTOR_SIZE - cm_count chunk) by lia.
      rewrite Hall. apply filled_fits; lia.
Qed.

Lemma filled_sum c remaining l :
  filled c remaining l -> sum_list l = c + remaining.
Proof. induction 1; simpl; lia. Qed.

Lemma filled_bounded c remaining l :
  filled c remaining l -> c <= STANDARD_VECTOR_SIZE ->
  Forall (fun n => n <= STANDARD_VECTOR_SIZE) l.
Proof.
  induction 1; intros Hc.
  - repeat constructor. lia.
  - constructor; [lia|]. apply IHfilled. lia.
Qed.

Lemma filled_full_but_last c remaining l :
  filled c remaining l -> c <= STANDARD_VECTOR_SIZE -> full_but_last l.
Proof.
  induction 1; intros Hc i n Hi Hlen; simpl in *.
  - lia.
  - destruct i as [|i]; simpl in *.
    + injection Hi as <-. lia.
    + apply (IHfilled ltac:(lia) i n Hi). lia.
Qed.

Lemma filled_nonempty c remaining l : filled c remaining l -> l <> [].
Proof. by destruct 1. Qed.

(** *** Append *)

(** What a call of [Append] that returns has done: the loop has run on the
    last segment, whose count and the count of the collection have grown by
    the size of the input; nothing else has changed. *)
Lemma Append_Ok_inv this state input this' state' :
  Append this state input = (Ok tt, this', state') ->
  exists pre seg seg1 data formats,
    segments this = pre ++ [Some seg] /\
    Append_loop (dc_size input + 1) (length (types this)) (copy_functions this)
      (dc_strings input) formats data (dc_size input) (dc_size input) seg
    = (Ok tt, seg1) /\
    segments this' = pre ++ [Some (with_seg_count (seg_count seg1 + dc_size input) seg1)] /\
    count this' = count this + dc_size input /\
    types this' = types this /\
    copy_functions this' = copy_functions this /\
    allocator this' = allocator this /\
    finished_append this' = finished_append this.
Proof.
  unfold Append, D_ASSERT.
  destruct (negb (finished_append this)); [|discriminate].
  destruct (types_eqb _ _); [|discriminate].
  destruct (unify_columns _ _ _ _) as [[data formats]| |]; try discriminate.
  unfold on_back_segment.
  destruct (last (segments this)) as [[seg|]|] eqn:Hlast; try discriminate.
  apply last_Some_app in Hlast as [pre Hpre].
  destruct (bind _ _ seg) as [r seg2] eqn:E.
  destruct r as [[]| |]; try discriminate.
  intros [= <- <-].
  apply bind_Ok_inv in E as ([] & seg1 & Eloop & Emod). injection Emod as <-.
  exists pre, seg, seg1, data, formats. simpl.
  split; [done|]. split; [done|]. split; [|done].
  rewrite Hpre, length_app. simpl.
  replace (length pre + 1 - 1) with (length pre + 0) by lia.
  by rewrite insert_app_r.
Qed.

(** Each [Append] that returns adds [input.size()] to the count of the
    collection and to the count of the last segment. *)
Lemma Append_counts this state input this' state' :
  Append this state input = (Ok tt, this', state') ->
  Count this' = Count this + dc_size input /\
  exists seg seg',
    last (segments this) = Some (Some seg) /\
    last (segments this') = Some (Some seg') /\
    seg_count seg' = seg_count seg + dc_size input /\
    length (segments this') = length (segments this).
Proof.
  intros E. apply Append_Ok_inv in E
    as (pre & seg & seg1 & data & formats & Hpre & Eloop & Hpre' & Hcount & _).
  split; [done|]. rewrite Hpre, Hpre'.
  eexists _, _. rewrite !last_snoc. split; [done|]. split; [done|].
  apply Append_loop_Ok in Eloop as (E1 & _). simpl.
  rewrite !length_app. simpl. split; [lia|done].
Qed.

(** The chunks of the last segment after an [Append] that returns. *)
Lemma Append_chunks this state input this' state' :
  Append this state input = (Ok tt, this', state') ->
  exists pre seg seg',
    segments this = pre ++ [Some seg] /\
    segments this' = pre ++ [Some seg'] /\
    (dc_size input = 0 -> chunk_counts seg' = chunk_counts seg) /\
    (0 < dc_size input ->
     exists before c l,
       chunk_counts seg = before ++ [c] /\
       chunk_counts seg' = before ++ l /\
       filled c (dc_size input) l).
Proof.
  intros E. apply Append_Ok_inv in E
    as (pre & seg & seg1 & data & formats & Hpre & Eloop & Hpre' & _).
  exists pre, seg, (with_seg_count (seg_count seg1 + dc_size input) seg1).
  split; [done|]. split; [done|].
  apply Append_loop_Ok in Eloop as (_ & _ & Hzero & Hpos).
  split.
  - intros E. unfold chunk_counts. simpl. by rewrite Hzero.
  - intros Hsize. destruct (Hpos Hsize) as (before & c & l & ? & ? & ?).
    exists before, c, l. done.
Qed.

(** *** The rows one call stores *)

#[local] Opaque Operation.

Lemma stored_rows_length op cls memory src offset n :
  forall i heap, length (stored_rows op cls memory src offset n i heap).1 = n.
Proof.
  induction n as [|n IH]; intros i heap; simpl; [done|].
  destruct (RowIsValid _ _).
  - destruct op;
      repeat match goal with
             | |- context [Operation ?a ?b ?c ?d ?e] => destruct (Operation a b c d e)
             | |- context [stored_rows ?a ?b ?c ?d ?e ?f ?g ?h] =>
                 specialize (IH g h); destruct (stored_rows a b c d e f g h)
             end; simpl in *; lia.
  - specialize (IH (S i) heap). destruct (stored_rows _ _ _ _ _ _ _ _). simpl in *. lia.
Qed.

(** Storing [n + m] rows is storing [n] rows and then [m] rows. *)
Lemma stored_rows_app op cls memory src offset n m :
  forall i heap,
    stored_rows op cls memory src offset (n + m) i heap =
    let '(rows1, heap1) := stored_rows op cls memory src offset n i heap in
    let '(rows2, heap2) := stored_rows op cls memory src offset m (i + n) heap1 in
    (rows1 ++ rows2, heap2).
Proof.
  induction n as [|n IH]; intros i heap; simpl.
  - rewrite Nat.add_0_r. by destruct (stored_rows _ _ _ _ _ m i heap).
  - rewrite Nat.add_succ_r.
    destruct (RowIsValid _ _).
    + destruct op; simpl;
        repeat match goal with
               | |- context [Operation ?a ?b ?c ?d ?e] => destruct (Operation a b c d e)
               end;
        rewrite IH; simpl;
        repeat match goal with
               | |- context [stored_rows ?a ?b ?c ?d ?e ?f ?g ?h] =>
                   destruct (stored_rows a b c d e f g h)
               end; done.
    + rewrite IH. simpl.
      repeat match goal with
             | |- context [stored_rows ?a ?b ?c ?d ?e ?f ?g ?h] =>
                 destruct (stored_rows a b c d e f g h)
             end; done.
Qed.

(** What the row loop does to the block: it leaves the rows outside the
    window alone and stores the rows of [stored_rows] inside; the heap is
    the heap of [stored_rows]. *)
Lemma copy_rows_spec op cls memory src cur offset n :
  forall i b heap,
    let '(b', heap') := copy_rows op cls memory src cur offset n i (b, heap) in
    let '(rows, heap'') := stored_rows op cls memory src offset n i heap in
    heap' = heap'' /\
    (forall j, j < cur + i \/ cur + i + n <= j ->
               slots b' j = slots b j /\ bits b' j = bits b j) /\
    (forall k (row : bool * option Cell), rows !! k = Some row ->
       bits b' (cur + i + k) = (if fst row then bits b (cur + i + k) else Some false) /\
       slots b' (cur + i + k) =
         match snd row with Some c => Some c | None => slots b (cur + i + k) end).
Proof.
  induction n as [|n IH]; intros i b heap; simpl.
  - split; [done|]. split; [done|]. intros k row. by rewrite lookup_nil.
  - assert (forall b1 heap1 (row : bool * option Cell) rest heap2,
      (forall j, j <> (cur + i) -> slots b1 j = slots b j /\ bits b1 j = bits b j) ->
      bits b1 (cur + i) = (if fst row then bits b (cur + i) else Some false) ->
      slots b1 (cur + i) = match snd row with Some c => Some c | None => slots b (cur + i) end ->
      stored_rows op cls memory src offset n (S i) heap1 = (rest, heap2) ->
      let '(b', heap') := copy_rows op cls memory src cur offset n (S i) (b1, heap1) in
      heap' = heap2 /\
      (forall j, j < cur + i \/ cur + i + S n <= j ->
                 slots b' j = slots b j /\ bits b' j = bits b j) /\
      (forall k (row' : bool * option Cell), (row :: rest) !! k = Some row' ->
         bits b' (cur + i + k) = (if fst row' then bits b (cur + i + k) else Some false) /\
         slots b' (cur + i + k) =
           match snd row' with Some c => Some c | None => slots b (cur + i + k) end))
      as Hstep.
    { intros b1 heap1 row rest heap2 Hother Hbits Hslots Hrest.
      specialize (IH (S i) b1 heap1). rewrite Hrest in IH.
      destruct (copy_rows _ _ _ _ _ _ n (S i) (b1, heap1)) as [b' heap'].
      destruct IH as (Hheap & Hframe & Hrows).
      split; [done|]. split.
      - intros j Hj. destruct (Hframe j ltac:(lia)) as [-> ->].
        apply Hother. lia.
      - intros [|k] row' Hk; simpl in Hk.
        + injection Hk as <-. rewrite Nat.add_0_r.
          destruct (Hframe (cur + i) ltac:(lia)) as [-> ->].
          done.
        + destruct (Hrows k row' Hk) as [Hb Hs].
          replace (cur + i + S k) with (cur + S i + k) by lia.
          rewrite Hb, Hs.
          destruct (Hother (cur + S i + k) ltac:(lia)) as [-> ->].
          done. }
    destruct (RowIsValid _ _).
    + destruct op; simpl;
        repeat match goal with
               | |- context [Operation ?a ?b ?c ?d ?e] => destruct (Operation a b c d e)
               end;
        match goal with
        | |- context [stored_rows ?a ?b ?c ?d ?e ?f ?g ?h] =>
            destruct (stored_rows a b c d e f g h) as [rest heap2] eqn:Hrest
        end;
        (eapply (Hstep _ _ (true, _)); [| | |exact Hrest]; simpl;
         [intros j Hj; destruct (Nat.eqb_spec j (cur + i)); [lia|done]
         | done
         | try done; by rewrite Nat.eqb_refl ]).
    + destruct (stored_rows _ _ _ _ _ n (S i) heap) as [rest heap2] eqn:Hrest.
      eapply (Hstep _ _ (false, None)); [| | |exact Hrest]; simpl.
      * intros j Hj. destruct (Nat.eqb_spec j (cur + i)); [lia|done].
      * by rewrite Nat.eqb_refl.
      * done.
Qed.

(** *** Descriptor chains *)

Lemma wf_links_forward seg : wf_segment seg -> links_forward (vector_data seg).
Proof.
  intros Hwf i vd j Hi Hj.
  by destruct (ok_next _ _ _ (wf_descriptors _ Hwf i vd Hi) j Hj).
Qed.

(** With links that point forward the walk ends before the fuel does. *)
Lemma chain_fuel table :
  links_forward table ->
  forall fuel fuel' i,
    length table - i <= fuel -> length table - i <= fuel' ->
    chain fuel table (Some i) = chain fuel' table (Some i).
Proof.
  intros Hlinks fuel. induction fuel as [|fuel IH]; intros fuel' i Hf Hf'.
  - assert (table !! i = None) as Hnone by (apply lookup_ge_None; lia).
    destruct fuel'; simpl; [done|]. by rewrite Hnone.
  - destruct fuel' as [|fuel'].
    + assert (table !! i = None) as Hnone by (apply lookup_ge_None; lia).
      simpl. by rewrite Hnone.
    + simpl. destruct (table !! i) as [vd|] eqn:Hi; [|done].
      f_equal. destruct (next_data vd) as [j|] eqn:Hj.
      * destruct (Hlinks i vd j Hi Hj). apply IH; lia.
      * by destruct fuel, fuel'.
Qed.

Lemma chain_unfold table i vd :
  links_forward table -> table !! i = Some vd ->
  chain (length table) table (Some i) =
  i :: match next_data vd with
       | Some j => chain (length table) table (Some j)
       | None => []
       end.
Proof.
  intros Hlinks Hi.
  transitivity (chain (S (length table)) table (Some i));
    [apply chain_fuel; [done|lia|lia]|].
  simpl. rewrite Hi. f_equal.
  destruct (next_data vd) as [j|]; [done|]. by destruct (length table).
Qed.

Lemma chain_lower_bound table fuel :
  links_forward table ->
  forall i k, k ∈ chain fuel table (Some i) -> i <= k.
Proof.
  intros Hlinks. induction fuel as [|fuel IH]; intros i k; simpl.
  - by intros ?%elem_of_nil.
  - destruct (table !! i) as [vd|] eqn:Hi; [|by intros ?%elem_of_nil].
    intros [->|Hk]%elem_of_cons; [lia|].
    destruct (next_data vd) as [j|] eqn:Hj.
    + destruct (Hlinks i vd j Hi Hj). apply IH in Hk. lia.
    + destruct fuel; by apply elem_of_nil in Hk.
Qed.

Lemma chain_rows_unfold seg i vd :
  wf_segment seg -> vector_data seg !! i = Some vd ->
  chain_rows seg i =
  descriptor_rows seg i ++
  match next_data vd with
  | Some j => chain_rows seg j
  | None => []
  end.
Proof.
  intros Hwf Hi. unfold chain_rows.
  rewrite (chain_unfold _ i vd (wf_links_forward _ Hwf) Hi). simpl.
  by destruct (next_data vd).
Qed.

(** Rows of a descriptor depend on its entry in the table and on its block. *)
Lemma descriptor_rows_ext seg seg' i :
  vector_data seg' !! i = vector_data seg !! i ->
  (forall vd, vector_data seg !! i = Some vd ->
              blocks seg' !! block_id vd = blocks seg !! block_id vd) ->
  descriptor_rows seg' i = descriptor_rows seg i.
Proof.
  intros Hvd Hb. unfold descriptor_rows. rewrite Hvd.
  destruct (vector_data seg !! i) as [vd|]; [|done]. by rewrite (Hb vd).
Qed.

(** *** One turn of the copy loop *)

(** Writing [a] rows behind the rows of descriptor [cur]. *)
Lemma write_window op cls memory src seg cur vd b offset a written heap' :
  wf_segment seg ->
  vector_data seg !! cur = Some vd -> blocks seg !! cur = Some b ->
  a <= STANDARD_VECTOR_SIZE - vd_count vd ->
  copy_rows op cls memory src (vd_count vd) offset a 0
    (if vd_count vd =? 0 then SetAllValid STANDARD_VECTOR_SIZE b else b, heap seg)
  = (written, heap') ->
  let seg1 :=
    with_vector_data (alter (set_count (vd_count vd + a)) cur)
      (with_heap heap' (with_blocks (<[block_id vd := written]>) seg)) in
  wf_segment seg1 /\
  descriptor_rows seg1 cur =
    descriptor_rows seg cur
    ++ map as_read (stored_rows op cls memory src offset a 0 (heap seg)).1 /\
  heap seg1 = (stored_rows op cls memory src offset a 0 (heap seg)).2 /\
  vector_data seg1 !! cur = Some (set_count (vd_count vd + a) vd) /\
  (forall i, i <> cur ->
             vector_data seg1 !! i = vector_data seg !! i /\
             blocks seg1 !! i = blocks seg !! i).
Proof.
  intros Hwf Hcur Hb Ha Hcopy seg1.
  pose proof (wf_descriptors _ Hwf cur vd Hcur) as [Hblock Hcount Hnext].
  pose proof (wf_fresh _ Hwf cur vd b Hcur Hb) as [Hslots Hbits].
  pose proof (lookup_lt_Some _ _ _ Hcur) as Hlt.
  pose proof (copy_rows_spec op cls memory src (vd_count vd) offset a 0
                (if vd_count vd =? 0 then SetAllValid STANDARD_VECTOR_SIZE b else b)
                (heap seg)) as Hspec.
  rewrite Hcopy in Hspec.
  destruct (stored_rows op cls memory src offset a 0 (heap seg)) as [rows heap''] eqn:Hrows.
  destruct Hspec as (Hheap & Hframe & Hnew).
  assert (length rows = a) as Hlen.
  { pose proof (stored_rows_length op cls memory src offset a 0 (heap seg)) as L.
    by rewrite Hrows in L. }
  assert (vector_data seg1 !! cur = Some (set_count (vd_count vd + a) vd)) as Hcur1.
  { subst seg1. simpl. by rewrite list_lookup_alter_eq, Hcur. }
  assert (blocks seg1 !! cur = Some written) as Hb1.
  { subst seg1. simpl. rewrite Hblock. apply list_lookup_insert_eq.
    rewrite (wf_blocks _ Hwf). done. }
  assert (forall i, i <> cur ->
            vector_data seg1 !! i = vector_data seg !! i /\
            blocks seg1 !! i = blocks seg !! i) as Hother.
  { intros i Hi. subst seg1. simpl. rewrite Hblock.
    by rewrite list_lookup_alter_ne, list_lookup_insert_ne. }
  (* the bits in front of the window are set *)
  assert (forall j, vd_count vd <= j < STANDARD_VECTOR_SIZE ->
            bits (if vd_count vd =? 0 then SetAllValid STANDARD_VECTOR_SIZE b else b) j
            = Some true) as Hset.
  { intros j Hj. destruct (Nat.eqb_spec (vd_count vd) 0) as [E|E].
    - simpl. destruct (Nat.ltb_spec j STANDARD_VECTOR_SIZE); [done|lia].
    - apply Hbits; lia. }
  assert (forall j, slots (if vd_count vd =? 0 then SetAllValid STANDARD_VECTOR_SIZE b else b) j
                    = slots b j) as Hsame_slots.
  { intros j. by destruct (vd_count vd =? 0). }
  split; [|split; [|split; [|split]]]; try done.
  - (* well-formed *)
    assert (length (vector_data seg1) = length (vector_data seg)) as Hlength.
    { subst seg1. simpl. by rewrite length_alter. }
    constructor.
    + rewrite Hlength. subst seg1. simpl. rewrite length_insert. apply Hwf.
    + intros i vd' Hi. rewrite Hlength.
      destruct (decide (i = cur)) as [->|Hne].
      * rewrite Hcur1 in Hi. injection Hi as <-.
        constructor; simpl; [done|lia|].
        intros j Hj. destruct (Hnext j Hj). split; [done|lia].
      * destruct (Hother i Hne) as [E1 _]. rewrite E1 in Hi.
        apply (wf_descriptors _ Hwf i vd' Hi).
    + intros i vd' b' Hi Hb'.
      destruct (decide (i = cur)) as [->|Hne].
      * rewrite Hcur1 in Hi. injection Hi as <-.
        rewrite Hb1 in Hb'. injection Hb' as <-.
        split; simpl.
        -- intros j Hj. destruct (Hframe j ltac:(lia)) as [-> _].
           rewrite Hsame_slots. apply Hslots. lia.
        -- intros _ j Hj. destruct (Hframe j ltac:(lia)) as [_ ->].
           apply Hset. lia.
      * destruct (Hother i Hne) as [E1 E2]. rewrite E1 in Hi. rewrite E2 in Hb'.
        apply (wf_fresh _ Hwf i vd' b' Hi Hb').
  - (* rows *)
    unfold descriptor_rows. rewrite Hcur1, Hcur. simpl. rewrite Hblock, Hb.
    rewrite list_lookup_insert_eq by (by rewrite (wf_blocks _ Hwf)).
    rewrite seq_app, map_app. f_equal.
    + apply map_ext_in. intros j Hj%in_seq.
      destruct (Hframe j ltac:(lia)) as [-> ->]. rewrite Hsame_slots.
      destruct (Nat.eqb_spec (vd_count vd) 0); [lia|done].
    + apply list_eq. intros k. rewrite !list_lookup_fmap.
      destruct (rows !! k) as [row|] eqn:Hk.
      * pose proof (lookup_lt_Some _ _ _ Hk).
        rewrite lookup_seq_lt by lia. simpl.
        destruct (Hnew k row Hk) as [Eb Es]. rewrite Nat.add_0_r in Eb, Es.
        rewrite Eb, Es, Hset, Hsame_slots, Hslots by lia.
        unfold as_read. by destruct row as [[] []].
      * apply lookup_ge_None in Hk. rewrite lookup_seq_ge by lia. done.
Qed.

(** Tables that agree on a chain have that chain in common. *)
Lemma chain_agree table table' :
  links_forward table -> links_forward table' ->
  forall n i,
    length table - i <= n -> i < length table ->
    (forall k, k ∈ chain (length table) table (Some i) -> table' !! k = table !! k) ->
    chain (length table') table' (Some i) = chain (length table) table (Some i).
Proof.
  intros Hlinks Hlinks' n. induction n as [|n IH]; intros i Hn Hi Hsame; [lia|].
  destruct (lookup_lt_is_Some_2 _ _ Hi) as [vd Hvd].
  rewrite (chain_unfold table i vd Hlinks Hvd) in Hsame |- *.
  assert (table' !! i = Some vd) as Hvd'.
  { rewrite Hsame; [done|]. apply elem_of_cons. auto. }
  rewrite (chain_unfold table' i vd Hlinks' Hvd'). f_equal.
  destruct (next_data vd) as [j|] eqn:Hj; [|done].
  destruct (Hlinks i vd j Hvd Hj).
  apply IH; [lia|lia|]. intros k Hk. apply Hsame. apply elem_of_cons. auto.
Qed.

Lemma chain_rows_agree seg seg' i :
  wf_segment seg -> wf_segment seg' -> i < length (vector_data seg) ->
  (forall k, k ∈ chain (length (vector_data seg)) (vector_data seg) (Some i) ->
             vector_data seg' !! k = vector_data seg !! k /\
             blocks seg' !! k = blocks seg !! k) ->
  chain_rows seg' i = chain_rows seg i.
Proof.
  intros Hwf Hwf' Hi Hsame. unfold chain_rows.
  rewrite (chain_agree _ _ (wf_links_forward _ Hwf) (wf_links_forward _ Hwf')
             (length (vector_data seg)) i); [|lia|done|by intros k Hk; apply Hsame].
  f_equal. apply map_ext_in. intros k Hk%list_elem_of_In.
  destruct (Hsame k Hk) as [E1 E2].
  apply descriptor_rows_ext; [done|].
  intros vd Hvd. rewrite (ok_block _ _ _ (wf_descriptors _ Hwf k vd Hvd)). done.
Qed.

(** Reading [m] rows from row [i + a] on is reading them from row [i] on
    behind an offset that is [a] larger. *)
Lemma stored_rows_shift op cls memory src offset a m :
  forall i heap,
    stored_rows op cls memory src (offset + a) m i heap =
    stored_rows op cls memory src offset m (i + a) heap.
Proof.
  induction m as [|m IH]; intros i heap; simpl; [done|].
  replace (offset + a + i) with (offset + (i + a)) by lia.
  destruct (RowIsValid _ _).
  - destruct op;
      repeat match goal with
             | |- context [Operation ?a ?b ?c ?d ?e] => destruct (Operation a b c d e)
             end; by rewrite IH.
  - by rewrite IH.
Qed.

(** *** Allocating a successor *)

Lemma allocate_successor seg cur vd :
  wf_segment seg -> vector_data seg !! cur = Some vd ->
  next_data vd = None -> vd_count vd = STANDARD_VECTOR_SIZE ->
  let seg2 := (AllocateVector (Some cur) seg).2 in
  let k := length (vector_data seg) in
  wf_segment seg2 /\
  vector_data seg2 !! cur = Some (set_next_data (Some k) vd) /\
  vector_data seg2 !! k =
    Some {| block_id := k; vd_offset := 0; vd_count := 0;
            child_index := None; next_data := None |} /\
  blocks seg2 !! k = Some empty_block /\
  length (vector_data seg2) = S k /\
  (forall i, i <> cur -> i < k -> vector_data seg2 !! i = vector_data seg !! i) /\
  (forall i, i < k -> blocks seg2 !! i = blocks seg !! i) /\
  heap seg2 = heap seg /\ chunk_data seg2 = chunk_data seg /\
  child_indices seg2 = child_indices seg.
Proof.
  intros Hwf Hcur Hnone Hfull seg2 k.
  pose proof (lookup_lt_Some _ _ _ Hcur) as Hlt.
  pose proof (wf_blocks _ Hwf) as Hblocks.
  assert (vector_data seg2 =
          alter (set_next_data (Some k)) cur
            (vector_data seg ++
             [{| block_id := k; vd_offset := 0; vd_count := 0;
                 child_index := None; next_data := None |}])) as Htable.
  { subst seg2 k. simpl. by rewrite Hblocks. }
  assert (blocks seg2 = blocks seg ++ [empty_block]) as Hblocks2 by done.
  assert (vector_data seg2 !! cur = Some (set_next_data (Some k) vd)) as Hcur2.
  { rewrite Htable, list_lookup_alter_eq, lookup_app_l, Hcur by done. done. }
  assert (vector_data seg2 !! k =
          Some {| block_id := k; vd_offset := 0; vd_count := 0;
                  child_index := None; next_data := None |}) as Hk2.
  { rewrite Htable, list_lookup_alter_ne by (subst k; lia).
    rewrite lookup_app_r by (subst k; lia).
    by replace (k - length (vector_data seg)) with 0 by (subst k; lia). }
  assert (forall i, i <> cur -> i < k ->
                    vector_data seg2 !! i = vector_data seg !! i) as Hother.
  { intros i Hi Hik. rewrite Htable, list_lookup_alter_ne by done.
    by rewrite lookup_app_l. }
  assert (forall i, i < k -> blocks seg2 !! i = blocks seg !! i) as Hbother.
  { intros i Hik. rewrite Hblocks2. rewrite lookup_app_l; [done|]. by rewrite Hblocks. }
  assert (blocks seg2 !! k = Some empty_block) as Hbk.
  { rewrite Hblocks2, lookup_app_r by (subst k; lia).
    by replace (k - length (blocks seg)) with 0 by (subst k; lia). }
  assert (length (vector_data seg2) = S k) as Hlen2.
  { rewrite Htable, length_alter, length_app. simpl. subst k. lia. }
  split; [|repeat split; done].
  constructor.
  - rewrite Hlen2, Hblocks2, length_app. simpl. subst k. lia.
  - intros i vd' Hi. rewrite Hlen2.
    destruct (decide (i = cur)) as [->|Hne].
    + rewrite Hcur2 in Hi. injection Hi as <-.
      destruct (wf_descriptors _ Hwf cur vd Hcur) as [? ? ?].
      constructor; simpl; [done|done|].
      intros j [= <-]. split; [lia|done].
    + destruct (decide (i = k)) as [->|Hnk].
      * rewrite Hk2 in Hi. injection Hi as <-.
        constructor; simpl; [done|lia|done].
      * pose proof (lookup_lt_Some _ _ _ Hi) as Hilt. rewrite Hlen2 in Hilt.
        rewrite Hother in Hi by lia.
        destruct (wf_descriptors _ Hwf i vd' Hi) as [? ? Hn].
        constructor; [done|done|]. intros j Hj. destruct (Hn j Hj). split; [subst k; lia|done].
  - intros i vd' b' Hi Hb'.
    destruct (decide (i = cur)) as [->|Hne].
    + rewrite Hcur2 in Hi. injection Hi as <-. rewrite Hbother in Hb' by done.
      apply (wf_fresh _ Hwf cur vd b' Hcur Hb').
    + destruct (decide (i = k)) as [->|Hnk].
      * rewrite Hk2 in Hi. injection Hi as <-.
        rewrite Hbk in Hb'. injection Hb' as <-.
        split; simpl; [done|lia].
      * pose proof (lookup_lt_Some _ _ _ Hi) as Hilt. rewrite Hlen2 in Hilt.
        rewrite Hother in Hi by lia. rewrite Hbother in Hb' by lia.
        apply (wf_fresh _ Hwf i vd' b' Hi Hb').
Qed.

(** *** The copy loop *)

Lemma GetVectorData_Some seg i vd :
  vector_data seg !! i = Some vd -> GetVectorData seg i = Ok vd.
Proof. intros E. unfold GetVectorData. by rewrite E. Qed.

Lemma GetDataPointer_Some seg i offset b :
  blocks seg !! i = Some b -> GetDataPointer seg i offset = Ok b.
Proof. intros E. unfold GetDataPointer. by rewrite E. Qed.

Lemma TemplatedColumnDataCopy_loop_spec op cls memory src :
  0 < STANDARD_VECTOR_SIZE ->
  forall fuel cur offset remaining seg vd,
    wf_segment seg -> vector_data seg !! cur = Some vd ->
    remaining + (if vd_count vd <? STANDARD_VECTOR_SIZE then 0
                 else length (vector_data seg) - cur) <= fuel ->
    exists seg',
      TemplatedColumnDataCopy_loop fuel op cls memory src cur offset remaining seg
      = (Ok tt, seg') /\
      wf_segment seg' /\
      copy_frame cur seg seg' /\
      chain_rows seg' cur =
        chain_rows seg cur
        ++ map as_read (stored_rows op cls memory src offset remaining 0 (heap seg)).1 /\
      heap seg' = (stored_rows op cls memory src offset remaining 0 (heap seg)).2.
Proof.
  intros Hpos fuel.
  induction fuel as [|fuel IH]; intros cur offset remaining seg vd Hwf Hcur Hfuel.
  - assert (remaining = 0) as -> by lia. exists seg. simpl.
    split; [done|]. split; [done|]. split; [|by rewrite app_nil_r].
    constructor; eauto.
  - destruct (Nat.eqb_spec remaining 0) as [->|Hrem].
    { exists seg. simpl. split; [done|]. split; [done|].
      split; [|by rewrite app_nil_r]. constructor; eauto. }
    cbn [TemplatedColumnDataCopy_loop].
    destruct (Nat.eqb_spec remaining 0) as [?|_]; [done|].
    pose proof (wf_descriptors _ Hwf cur vd Hcur) as [Hblock Hcount Hnext].
    pose proof (lookup_lt_Some _ _ _ Hcur) as Hlt.
    destruct (lookup_lt_is_Some_2 (blocks seg) cur) as [b Hb];
      [by rewrite (wf_blocks _ Hwf)|].
    rewrite (GetVectorData_Some _ _ _ Hcur).
    rewrite (GetDataPointer_Some seg (block_id vd) (vd_offset vd) b) by (by rewrite Hblock).
    set (a := min (STANDARD_VECTOR_SIZE - vd_count vd) remaining).
    destruct (copy_rows _ _ _ _ _ _ _ _ _) as [written heap'] eqn:Hcopy.
    destruct (write_window op cls memory src seg cur vd b offset a written heap'
                Hwf Hcur Hb ltac:(lia) Hcopy)
      as (Hwf1 & Hrows1 & Hheap1 & Hcur1 & Hother1).
    set (seg1 := with_vector_data _ _) in *.
    assert (length (vector_data seg1) = length (vector_data seg)) as Hlen1.
    { subst seg1. simpl. by rewrite length_alter. }
    assert (chunk_data seg1 = chunk_data seg /\ child_indices seg1 = child_indices seg)
      as [Hchunks1 Hchildren1] by done.
    destruct (stored_rows op cls memory src offset a 0 (heap seg))
      as [rows_a heap_a] eqn:Hstored_a. cbn [fst snd] in Hrows1, Hheap1.
    destruct (Nat.ltb_spec 0 (remaining - a)) as [Hmore|Hdone].
    + (* rows remain: the descriptor is full now *)
      assert (vd_count vd + a = STANDARD_VECTOR_SIZE) as Hfull by lia.
      assert (stored_rows op cls memory src offset remaining 0 (heap seg) =
              let '(rows2, heap2) :=
                stored_rows op cls memory src (offset + a) (remaining - a) 0 heap_a in
              (rows_a ++ rows2, heap2)) as Hsplit.
      { replace remaining with (a + (remaining - a)) at 1 by lia.
        rewrite stored_rows_app, Hstored_a. by rewrite stored_rows_shift. }
      destruct (next_data vd) as [next|] eqn:Hnext_vd.
      * (* an existing successor *)
        destruct (Hnext next eq_refl) as [Hrange Hwas_full].
        rewrite (GetVectorData_Some _ _ _ Hcur1). cbn [next_data set_count].
        rewrite Hnext_vd.
        destruct (lookup_lt_is_Some_2 (vector_data seg) next) as [vdn Hvdn]; [lia|].
        destruct (Hother1 next ltac:(lia)) as [Hvdn1 _]. rewrite Hvdn in Hvdn1.
        destruct (IH next (offset + a) (remaining - a) seg1 vdn Hwf1 Hvdn1)
          as (seg' & Eloop & Hwf' & Hframe' & Hrows' & Hheap').
        { rewrite Hlen1. destruct (vd_count vdn <? _); destruct (Nat.ltb_spec (vd_count vd) STANDARD_VECTOR_SIZE); lia. }
        exists seg'. split; [done|]. split; [done|].
        assert (forall k, k ∈ chain (length (vector_data seg)) (vector_data seg) (Some next) ->
                          vector_data seg1 !! k = vector_data seg !! k /\
                          blocks seg1 !! k = blocks seg !! k) as Hchain1.
        { intros k Hk. apply Hother1.
          apply (chain_lower_bound _ _ (wf_links_forward _ Hwf)) in Hk. lia. }
        assert (chain (length (vector_data seg1)) (vector_data seg1) (Some next) =
                chain (length (vector_data seg)) (vector_data seg) (Some next)) as Hsame_chain.
        { apply (chain_agree _ _ (wf_links_forward _ Hwf) (wf_links_forward _ Hwf1)
                   (length (vector_data seg))); [lia|lia|].
          intros k Hk. by apply Hchain1. }
        assert (cur ∉ chain (length (vector_data seg1)) (vector_data seg1) (Some next)) as Hnot.
        { intros Hin. apply (chain_lower_bound _ _ (wf_links_forward _ Hwf1)) in Hin. lia. }
        destruct (frame_other _ _ _ Hframe' cur ltac:(lia) Hnot) as [Hcur' Hbcur'].
        rewrite Hcur1 in Hcur'.
        split; [|split].
        -- constructor.
           ++ rewrite <- Hlen1. apply Hframe'.
           ++ rewrite (frame_chunks _ _ _ Hframe'). done.
           ++ rewrite (frame_children _ _ _ Hframe'). done.
           ++ intros i vdi Hi.
              destruct (decide (i = cur)) as [->|Hne].
              ** rewrite Hcur in Hi. injection Hi as <-.
                 eexists. split; [exact Hcur'|done].
              ** destruct (Hother1 i Hne) as [Hi1 _]. rewrite Hi in Hi1.
                 apply (frame_child_index _ _ _ Hframe' i vdi Hi1).
           ++ intros i Hi Hnotin.
              rewrite (chain_unfold _ cur vd (wf_links_forward _ Hwf) Hcur), Hnext_vd in Hnotin.
              apply not_elem_of_cons in Hnotin as [Hne Hnotin].
              destruct (Hother1 i Hne) as [<- <-].
              apply (frame_other _ _ _ Hframe'); [lia|]. by rewrite Hsame_chain.
        -- rewrite (chain_rows_unfold seg' cur _ Hwf' Hcur'). simpl. rewrite Hnext_vd.
           rewrite (chain_rows_unfold seg cur vd Hwf Hcur), Hnext_vd.
           rewrite Hrows', Hheap1, Hsplit.
           destruct (stored_rows _ _ _ _ (offset + a) _ _ _) as [rows2 heap2]. simpl.
           rewrite (chain_rows_agree seg seg1 next Hwf Hwf1 ltac:(lia) Hchain1).
           rewrite (descriptor_rows_ext seg1 seg' cur); [|by rewrite Hcur', Hcur1|].
           2:{ intros vd1. rewrite Hcur1. intros [= <-]. cbn [block_id set_count].
               by rewrite Hblock. }
           rewrite Hrows1, map_app, <- !app_assoc. f_equal.
           assert (a = 0) as Ha0 by lia.
           assert (rows_a = []) as ->.
           { pose proof (stored_rows_length op cls memory src offset a 0 (heap seg)) as L.
             rewrite Hstored_a, Ha0 in L. by destruct rows_a. }
           done.
        -- rewrite Hheap', Hheap1, Hsplit.
           by destruct (stored_rows _ _ _ _ (offset + a) _ _ _).
      * (* allocate the successor *)
        destruct (allocate_successor seg1 cur _ Hwf1 Hcur1 Hnext_vd Hfull)
          as (Hwf2 & Hcur2 & Hk2 & Hbk2 & Hlen2 & Hother2 & Hbother2 & Hheap2 &
              Hchunks2 & Hchildren2).
        set (seg2 := (AllocateVector (Some cur) seg1).2) in *.
        set (k := length (vector_data seg1)) in *.
        rewrite (GetVectorData_Some _ _ _ Hcur2). cbn [next_data set_next_data].
        destruct (IH k (offset + a) (remaining - a) seg2 _ Hwf2 Hk2)
          as (seg' & Eloop & Hwf' & Hframe' & Hrows' & Hheap').
        { cbn [vd_count]. destruct (Nat.ltb_spec 0 STANDARD_VECTOR_SIZE); [|lia].
          destruct (Nat.ltb_spec (vd_count vd) STANDARD_VECTOR_SIZE); lia. }
        exists seg'. split; [done|]. split; [done|].
        assert (chain (length (vector_data seg2)) (vector_data seg2) (Some k) = [k])
          as Hchain2.
        { by rewrite (chain_unfold _ k _ (wf_links_forward _ Hwf2) Hk2). }
        assert (forall i, i < k -> vector_data seg' !! i = vector_data seg2 !! i /\
                                   blocks seg' !! i = blocks seg2 !! i) as Hbelow.
        { intros i Hi. apply (frame_other _ _ _ Hframe'); [lia|].
          rewrite Hchain2. intros ?%list_elem_of_singleton. lia. }
        destruct (Hbelow cur ltac:(lia)) as [Hcur' Hbcur']. rewrite Hcur2 in Hcur'.
        split; [|split].
        -- constructor.
           ++ pose proof (frame_length _ _ _ Hframe'). lia.
           ++ rewrite (frame_chunks _ _ _ Hframe'). congruence.
           ++ rewrite (frame_children _ _ _ Hframe'). congruence.
           ++ intros i vdi Hi.
              destruct (decide (i = cur)) as [->|Hne].
              ** rewrite Hcur in Hi. injection Hi as <-.
                 eexists. split; [exact Hcur'|done].
              ** pose proof (lookup_lt_Some _ _ _ Hi).
                 destruct (Hbelow i ltac:(lia)) as [-> _].
                 rewrite Hother2 by lia. destruct (Hother1 i Hne) as [-> _]. eauto.
           ++ intros i Hi Hnotin.
              rewrite (chain_unfold _ cur vd (wf_links_forward _ Hwf) Hcur), Hnext_vd in Hnotin.
              apply not_elem_of_cons in Hnotin as [Hne _].
              destruct (Hbelow i ltac:(lia)) as [-> ->].
              rewrite Hother2, Hbother2 by lia. by apply Hother1.
        -- rewrite (chain_rows_unfold seg' cur _ Hwf' Hcur'). cbn [next_data set_next_data].
           rewrite (chain_rows_unfold seg cur vd Hwf Hcur), Hnext_vd, app_nil_r.
           rewrite Hrows', Hheap2, Hheap1, Hsplit.
           destruct (stored_rows _ _ _ _ (offset + a) _ _ _) as [rows2 heap2]. simpl.
           assert (chain_rows seg2 k = []) as ->.
           { rewrite (chain_rows_unfold seg2 k _ Hwf2 Hk2). cbn [next_data].
             unfold descriptor_rows. rewrite Hk2. cbn [block_id vd_count]. rewrite Hbk2.
             done. }
           assert (descriptor_rows seg' cur = descriptor_rows seg1 cur) as ->.
           { unfold descriptor_rows. rewrite Hcur', Hcur1. cbn [block_id vd_count set_next_data set_count].
             rewrite Hblock, Hbcur', Hbother2 by lia. done. }
           by rewrite Hrows1, map_app, <- app_assoc.
        -- rewrite Hheap', Hheap2, Hheap1, Hsplit.
           by destruct (stored_rows _ _ _ _ (offset + a) _ _ _).
    + (* all rows are written *)
      assert (a = remaining) as Ha by lia.
      assert (next_data vd = None) as Hnone.
      { destruct (next_data vd) as [j|] eqn:Hj; [|done].
        destruct (Hnext j eq_refl). lia. }
      exists seg1. split; [done|]. split; [done|].
      rewrite <- Ha, Hstored_a. cbn [fst snd].
      split; [|split; [|done]].
      * constructor.
        -- lia.
        -- done.
        -- done.
        -- intros i vdi Hi. destruct (decide (i = cur)) as [->|Hne].
           ++ rewrite Hcur in Hi. injection Hi as <-. eexists. split; [exact Hcur1|done].
           ++ destruct (Hother1 i Hne) as [-> _]. eauto.
        -- intros i Hi Hnotin.
           rewrite (chain_unfold _ cur vd (wf_links_forward _ Hwf) Hcur) in Hnotin.
           apply not_elem_of_cons in Hnotin as [Hne _]. by apply Hother1.
      * rewrite (chain_rows_unfold seg1 cur _ Hwf1 Hcur1). cbn [next_data set_count].
        rewrite (chain_rows_unfold seg cur vd Hwf Hcur), Hnone, !app_nil_r. done.
Qed.

(** [TemplatedColumnDataCopy] on a well-formed segment returns; the rows of
    the chain are the rows from before and the rows of the window behind
    them. *)
Lemma TemplatedColumnDataCopy_spec op cls memory src index offset count seg :
  0 < STANDARD_VECTOR_SIZE ->
  wf_segment seg -> index < length (vector_data seg) ->
  exists seg',
    TemplatedColumnDataCopy op cls memory index src offset count seg = (Ok tt, seg') /\
    wf_segment seg' /\
    copy_frame index seg seg' /\
    chain_rows seg' index =
      chain_rows seg index
      ++ map as_read (stored_rows op cls memory src offset count 0 (heap seg)).1 /\
    heap seg' = (stored_rows op cls memory src offset count 0 (heap seg)).2.
Proof.
  intros Hpos Hwf Hindex.
  destruct (lookup_lt_is_Some_2 _ _ Hindex) as [vd Hvd].
  apply (TemplatedColumnDataCopy_loop_spec op cls memory src Hpos _ _ _ _ _ vd Hwf Hvd).
  destruct (_ <? _); lia.
Qed.

Lemma stored_rows_valid op cls memory src offset n :
  forall i heap,
    map fst (stored_rows op cls memory src offset n i heap).1 =
    map (source_valid src offset) (seq i n).
Proof.
  induction n as [|n IH]; intros i heap; simpl; [done|].
  unfold source_valid at 1.
  destruct (RowIsValid _ _).
  - destruct op;
      repeat match goal with
             | |- context [Operation ?a ?b ?c ?d ?e] => destruct (Operation a b c d e)
             end;
      match goal with
      | |- context [stored_rows ?a ?b ?c ?d ?e ?f ?g ?h] =>
          specialize (IH g h); destruct (stored_rows a b c d e f g h)
      end; simpl in *; by f_equal.
  - specialize (IH (S i) heap). destruct (stored_rows _ _ _ _ _ _ _ _).
    simpl in *. by f_equal.
Qed.

(** *** Validity *)

Lemma invalidate_rows_spec src source_offset target_offset n :
  forall i b,
    let b' := invalidate_rows src source_offset target_offset n i b in
    slots b' = slots b /\
    (forall j, j < target_offset + i \/ target_offset + i + n <= j ->
               bits b' j = bits b j) /\
    (forall k, k < n ->
       bits b' (target_offset + i + k) =
         if source_valid src source_offset (i + k)
         then bits b (target_offset + i + k) else Some false).
Proof.
  induction n as [|n IH]; intros i b; simpl.
  - split; [done|]. split; [done|]. intros; lia.
  - specialize (IH (S i)
      (if negb (RowIsValid (uvf_validity src) (uvf_sel src (source_offset + i)))
       then SetInvalid (target_offset + i) b else b)).
    simpl in IH. destruct IH as (Hslots & Hframe & Hrows).
    assert (forall j, j <> target_offset + i ->
      bits (if negb (RowIsValid (uvf_validity src) (uvf_sel src (source_offset + i)))
            then SetInvalid (target_offset + i) b else b) j = bits b j) as Hother.
    { intros j Hj. destruct (negb _); [|done]. simpl.
      destruct (Nat.eqb_spec j (target_offset + i)); [lia|done]. }
    split; [|split].
    + rewrite Hslots. by destruct (negb _).
    + intros j Hj. rewrite Hframe by lia. apply Hother. lia.
    + intros [|k] Hk.
      * rewrite !Nat.add_0_r, Hframe by lia. unfold source_valid.
        destruct (RowIsValid _ _); simpl; [done|]. by rewrite Nat.eqb_refl.
      * replace (target_offset + i + S k) with (target_offset + S i + k) by lia.
        replace (i + S k) with (S i + k) by lia.
        rewrite Hrows by lia. rewrite Hother by lia. done.
Qed.

(** [ColumnDataCopyValidity] on a bitmap whose bits behind the rows are set:
    the bits of the window are the validity of the source rows, the bits in
    front of the window stay, and the bits behind it stay set. *)
Lemma ColumnDataCopyValidity_spec src target source_offset target_offset copy_count :
  target_offset + copy_count <= STANDARD_VECTOR_SIZE ->
  (0 < target_offset ->
   forall j, target_offset <= j < STANDARD_VECTOR_SIZE -> bits target j = Some true) ->
  let target' := ColumnDataCopyValidity src target source_offset target_offset copy_count in
  (forall k, k < copy_count ->
     bits target' (target_offset + k) = Some (source_valid src source_offset k)) /\
  (forall j, j < target_offset -> bits target' j = bits target j) /\
  (forall j, target_offset + copy_count <= j < STANDARD_VECTOR_SIZE ->
     bits target' j = Some true) /\
  slots target' = slots target.
Proof.
  intros Hfit Hset. unfold ColumnDataCopyValidity.
  set (validity := if target_offset =? 0 then SetAllValid _ target else target).
  assert (forall j, target_offset <= j < STANDARD_VECTOR_SIZE -> bits validity j = Some true)
    as Hvalid.
  { intros j Hj. subst validity. destruct (Nat.eqb_spec target_offset 0) as [E|E].
    - simpl. destruct (Nat.ltb_spec j STANDARD_VECTOR_SIZE); [done|lia].
    - apply Hset; lia. }
  assert (forall j, j < target_offset -> bits validity j = bits target j) as Hfront.
  { intros j Hj. subst validity. destruct (Nat.eqb_spec target_offset 0); [lia|done]. }
  assert (slots validity = slots target) as Hslots.
  { subst validity. by destruct (target_offset =? 0). }
  destruct (uvf_validity src) as [mask|] eqn:Hmask; simpl.
  - destruct (invalidate_rows_spec src source_offset target_offset copy_count 0 validity)
      as (Hs & Hframe & Hrows).
    rewrite Nat.add_0_r in *.
    split; [|split; [|split]].
    + intros k Hk. rewrite (Hrows k Hk). simpl.
      destruct (source_valid _ _ _); [apply Hvalid; lia|done].
    + intros j Hj. rewrite Hframe by lia. by apply Hfront.
    + intros j Hj. rewrite Hframe by lia. apply Hvalid. lia.
    + congruence.
  - split; [|split; [|split]]; try done.
    + intros k Hk. unfold source_valid. rewrite Hmask. simpl. apply Hvalid. lia.
    + intros j Hj. apply Hvalid. lia.
Qed.

(** C7. [TemplatedColumnDataCopy] on a well-formed segment returns and keeps
    the segment well-formed: the bits behind the rows of a descriptor that
    holds rows are set.  The validity bits of the chain are the bits from
    before with, behind them, the validity of the source rows of the window:
    a null stays a null and a valid row stays valid.  [ColumnDataCopyValidity]
    does the same to a bitmap. *)
Theorem validity_is_copied_bit_by_bit (op : ValueCopy) (cls : N)
    (memory : nat -> list Byte.byte) (src : UnifiedVectorFormat)
    (index offset count : nat) (seg : ColumnDataCollectionSegment) :
  0 < STANDARD_VECTOR_SIZE ->
  wf_segment seg -> index < length (vector_data seg) ->
  (exists seg',
     TemplatedColumnDataCopy op cls memory index src offset count seg = (Ok tt, seg') /\
     wf_segment seg' /\
     chain_validity seg' index =
       chain_validity seg index
       ++ map (fun k => Some (source_valid src offset k)) (seq 0 count)) /\
  (forall target source_offset target_offset copy_count,
     target_offset + copy_count <= STANDARD_VECTOR_SIZE ->
     (0 < target_offset ->
      forall j, target_offset <= j < STANDARD_VECTOR_SIZE -> bits target j = Some true) ->
     let target' :=
       ColumnDataCopyValidity src target source_offset target_offset copy_count in
     (forall k, k < copy_count ->
        bits target' (target_offset + k) = Some (source_valid src source_offset k)) /\
     (forall j, j < target_offset -> bits target' j = bits target j) /\
     (forall j, target_offset + copy_count <= j < STANDARD_VECTOR_SIZE ->
        bits target' j = Some true)).
Proof.
  intros Hpos Hwf Hindex. split.
  - destruct (TemplatedColumnDataCopy_spec op cls memory src index offset count seg
                Hpos Hwf Hindex) as (seg' & E & Hwf' & _ & Hrows & _).
    exists seg'. split; [done|]. split; [done|].
    unfold chain_validity. rewrite Hrows, map_app. f_equal.
    rewrite map_map. simpl.
    rewrite <- (map_map fst Some), stored_rows_valid. by rewrite map_map.
  - intros target source_offset target_offset copy_count Hfit Hset.
    destruct (ColumnDataCopyValidity_spec src target source_offset target_offset
                copy_count Hfit Hset) as (? & ? & ? & _).
    done.
Qed.

(** *** Strings *)

#[local] Transparent Operation.

Lemma caller_string_heap memory heap heap' s :
  caller_string s -> GetString memory heap s = GetString memory heap' s.
Proof. by destruct s as [|len []]. Qed.

(** The string that [AddBlob] returns reads as the input, whatever is added
    to the heap later and whatever becomes of the memory of the caller. *)
Lemma AddBlob_bytes memory memory' heap s ext :
  GetString memory' ((AddBlob memory heap s).2 ++ ext) (AddBlob memory heap s).1
  = GetString memory heap s.
Proof.
  unfold AddBlob. simpl.
  rewrite <- app_assoc, lookup_app_r by lia.
  replace (length heap - length heap) with 0 by lia. simpl.
  by rewrite firstn_all.
Qed.

Lemma Operation_heap op cls memory heap c :
  heap `prefix_of` (Operation op cls memory heap c).2.
Proof.
  destruct op, c as [raw|s|e]; simpl; try done.
  destruct (IsInlined s); simpl; [done|]. by eexists.
Qed.

Lemma stored_rows_heap op cls memory src offset n :
  forall i heap,
    heap `prefix_of` (stored_rows op cls memory src offset n i heap).2.
Proof.
  induction n as [|n IH]; intros i heap; [done|].
  cbn [stored_rows].
  destruct (RowIsValid _ _).
  - destruct op;
      try match goal with
          | |- context [Operation ?a ?b ?c ?d ?e] =>
              pose proof (Operation_heap a b c d e) as Hop;
              destruct (Operation a b c d e) as [c1 heap1]
          end;
      match goal with
      | |- context [stored_rows ?a ?b ?c ?d ?e ?f ?g ?h] =>
          specialize (IH g h); destruct (stored_rows a b c d e f g h)
      end; cbn [fst snd] in *; try done; by etransitivity.
  - specialize (IH (S i) heap). by destruct (stored_rows _ _ _ _ _ _ _ _).
Qed.

(** The rows that the string copy stores: a valid row holds a string that
    reads as the string of the source row, whatever the heap grows to. *)
Lemma stored_rows_strings cls memory memory' src offset n :
  forall i heap k (row : bool * option Cell),
    (stored_rows StringValueCopy cls memory src offset n i heap).1 !! k = Some row ->
    fst row = source_valid src offset (i + k) /\
    (fst row = true ->
     forall s, uvf_data src (uvf_sel src (offset + (i + k))) = CString s ->
               caller_string s ->
     exists s',
       snd row = Some (CString s') /\
       forall ext,
         GetString memory'
           ((stored_rows StringValueCopy cls memory src offset n i heap).2 ++ ext) s'
         = GetString memory heap s).
Proof.
  induction n as [|n IH]; intros i heap k row; cbn [stored_rows].
  { cbn [fst]. by rewrite lookup_nil. }
  destruct (RowIsValid _ _) eqn:Hvalid.
  - destruct (Operation StringValueCopy cls memory heap
                (uvf_data src (uvf_sel src (offset + i)))) as [c heap1] eqn:Hop.
    pose proof (stored_rows_heap StringValueCopy cls memory src offset n (S i) heap1)
      as [more Hmore].
    specialize (IH (S i) heap1).
    destruct (stored_rows StringValueCopy cls memory src offset n (S i) heap1)
      as [rest heap2] eqn:Hrest. cbn [fst snd] in *.
    destruct k as [|k]; cbn [lookup list_lookup].
    + intros [= <-]. rewrite Nat.add_0_r. cbn [fst snd]. split; [by unfold source_valid|].
      intros _ s Hs Hcaller. rewrite Hs in Hop. simpl in Hop.
      destruct (IsInlined s) eqn:Hinl.
      * injection Hop as <- <-. exists s. split; [done|]. intros ext.
        destruct s; [done|discriminate].
      * injection Hop as <- <-. eexists. split; [done|]. intros ext.
        rewrite Hmore, <- app_assoc.
        apply (AddBlob_bytes memory memory' heap s (more ++ ext)).
    + intros Hk. destruct (IH k row Hk) as [Hfst Hsnd].
      replace (i + S k) with (S i + k) by lia. split; [done|].
      intros Htrue s Hs Hcaller.
      destruct (Hsnd Htrue s Hs Hcaller) as (s' & Hs' & Hbytes).
      exists s'. split; [done|]. intros ext. rewrite Hbytes.
      by apply caller_string_heap.
  - specialize (IH (S i) heap).
    destruct (stored_rows StringValueCopy cls memory src offset n (S i) heap)
      as [rest heap2] eqn:Hrest. cbn [fst snd] in *.
    destruct k as [|k]; cbn [lookup list_lookup].
    + intros [= <-]. rewrite Nat.add_0_r. cbn [fst snd]. split; [by unfold source_valid|done].
    + intros Hk. destruct (IH k row Hk) as [Hfst Hsnd].
      by replace (i + S k) with (S i + k) by lia.
Qed.

(** C9. [StringValueCopy::Operation] hands back an inlined string as it is
    and the result of [AddBlob] otherwise; the string that [AddBlob] returns
    reads byte for byte as the input, whatever is added to the heap later
    and whatever becomes of the memory of the caller.  After a string copy
    the rows of the window read back, through the heap of the segment and
    without the memory of the caller, as the bytes of the source strings,
    and as null where the source row is null; the heap only grows. *)
Theorem strings_are_stored_byte_for_byte :
  (forall cls memory heap s,
      Operation StringValueCopy cls memory heap (CString s) =
      if IsInlined s then (CString s, heap)
      else (CString (AddBlob memory heap s).1, (AddBlob memory heap s).2)) /\
  (forall memory memory' heap s ext,
      GetString memory' ((AddBlob memory heap s).2 ++ ext) (AddBlob memory heap s).1
      = GetString memory heap s) /\
  (forall cls memory src index offset count seg,
      0 < STANDARD_VECTOR_SIZE ->
      wf_segment seg -> index < length (vector_data seg) ->
      caller_strings src offset count ->
      exists seg',
        TemplatedColumnDataCopy StringValueCopy cls memory index src offset count seg
        = (Ok tt, seg') /\
        heap seg `prefix_of` heap seg' /\
        forall k, k < count ->
          exists row,
            chain_rows seg' index !! (length (chain_rows seg index) + k) = Some row /\
            forall ext,
              scalar_value (heap seg' ++ ext) row =
              if source_valid src offset k
              then VString (source_string memory src offset k)
              else VNull).
Proof.
  split; [|split].
  - intros cls memory heap s. simpl. by destruct (IsInlined s).
  - intros. apply AddBlob_bytes.
  - intros cls memory src index offset count seg Hpos Hwf Hindex Hcaller.
    destruct (TemplatedColumnDataCopy_spec StringValueCopy cls memory src index offset
                count seg Hpos Hwf Hindex) as (seg' & E & Hwf' & _ & Hrows & Hheap).
    exists seg'. split; [done|]. split.
    { rewrite Hheap. apply stored_rows_heap. }
    intros k Hk.
    pose proof (stored_rows_length StringValueCopy cls memory src offset count 0 (heap seg))
      as Hlen.
    destruct (lookup_lt_is_Some_2
                (stored_rows StringValueCopy cls memory src offset count 0 (heap seg)).1 k)
      as [row Hrow]; [lia|].
    exists (as_read row). split.
    { rewrite Hrows, lookup_app_r by lia.
      replace (length (chain_rows seg index) + k - length (chain_rows seg index))
        with k by lia.
      by rewrite list_lookup_fmap, Hrow. }
    intros ext.
    destruct (stored_rows_strings cls memory (fun _ => []) src offset count 0 (heap seg)
                k row Hrow) as [Hfst Hsnd].
    simpl in Hfst, Hsnd. rewrite <- Hfst.
    destruct row as [[] c]; simpl in *; [|done].
    destruct (Hcaller k Hk (eq_sym Hfst)) as (s & Hs & Hcs).
    destruct (Hsnd eq_refl s Hs Hcs) as (s' & -> & Hbytes).
    rewrite Hheap, Hbytes. unfold source_string. rewrite Hs.
    f_equal. by apply caller_string_heap.
Qed.

(** *** Segments only grow *)

Lemma extends_refl seg : extends seg seg.
Proof. constructor; eauto. Qed.

Lemma extends_trans seg1 seg2 seg3 :
  extends seg1 seg2 -> extends seg2 seg3 -> extends seg1 seg3.
Proof.
  intros [L1 C1 P1] [L2 C2 P2]. constructor.
  - lia.
  - intros i vd Hi. destruct (C1 i vd Hi) as (vd2 & Hi2 & E2).
    destruct (C2 i vd2 Hi2) as (vd3 & Hi3 & E3).
    exists vd3. split; [done|]. intros Hsome.
    rewrite E3; rewrite E2; done.
  - by etransitivity.
Qed.

Lemma copy_frame_extends cur seg seg' : copy_frame cur seg seg' -> extends seg seg'.
Proof.
  intros [L Ch Ci Cx _]. constructor; [done| |by rewrite Ci].
  intros i vd Hi. destruct (Cx i vd Hi) as (vd' & ? & ?). eauto.
Qed.

(** A copy onto a descriptor that is not there returns only when there is
    nothing to copy. *)
Lemma TemplatedColumnDataCopy_out_of_range op cls memory src index offset count seg seg' :
  length (vector_data seg) <= index ->
  TemplatedColumnDataCopy op cls memory index src offset count seg = (Ok tt, seg') ->
  seg' = seg.
Proof.
  intros Hindex. unfold TemplatedColumnDataCopy.
  destruct count as [|count].
  - destruct (length (vector_data seg) + 0); simpl; by intros [= <-].
  - rewrite Nat.add_succ_r. cbn [TemplatedColumnDataCopy_loop Nat.eqb].
    unfold GetVectorData. rewrite (proj2 (lookup_ge_None _ _) Hindex). discriminate.
Qed.

Lemma TemplatedColumnDataCopy_wf op cls memory src index offset count seg seg' :
  0 < STANDARD_VECTOR_SIZE -> wf_segment seg ->
  TemplatedColumnDataCopy op cls memory index src offset count seg = (Ok tt, seg') ->
  wf_segment seg' /\ extends seg seg'.
Proof.
  intros Hpos Hwf E.
  destruct (Nat.lt_ge_cases index (length (vector_data seg))) as [Hindex|Hindex].
  - destruct (TemplatedColumnDataCopy_spec op cls memory src index offset count seg
                Hpos Hwf Hindex) as (seg'' & E' & Hwf' & Hframe & _).
    rewrite E in E'. injection E' as <-. split; [done|].
    by eapply copy_frame_extends.
  - apply TemplatedColumnDataCopy_out_of_range in E as ->; [|done].
    split; [done|apply extends_refl].
Qed.

(** Allocating a descriptor without a predecessor. *)
Lemma allocate_fresh seg :
  wf_segment seg ->
  let seg' := (AllocateVector None seg).2 in
  wf_segment seg' /\ extends seg seg' /\
  (AllocateVector None seg).1 = length (vector_data seg) /\
  vector_data seg' =
    vector_data seg ++
    [{| block_id := length (vector_data seg); vd_offset := 0; vd_count := 0;
        child_index := None; next_data := None |}] /\
  blocks seg' = blocks seg ++ [empty_block] /\
  child_indices seg' = child_indices seg /\ heap seg' = heap seg.
Proof.
  intros Hwf seg'.
  assert (vector_data seg' =
          vector_data seg ++
          [{| block_id := length (vector_data seg); vd_offset := 0; vd_count := 0;
              child_index := None; next_data := None |}]) as Htable.
  { subst seg'. simpl. by rewrite (wf_blocks _ Hwf). }
  assert (blocks seg' = blocks seg ++ [empty_block]) as Hblocks by done.
  split; [|split; [|done]].
  - constructor.
    + rewrite Htable, Hblocks, !length_app. simpl. rewrite (wf_blocks _ Hwf). done.
    + intros i vd Hi. rewrite Htable in Hi |- *. rewrite length_app. simpl.
      apply lookup_app_Some in Hi as [Hi|[Hge Hi]].
      * destruct (wf_descriptors _ Hwf i vd Hi) as [? ? Hn].
        constructor; [done|done|]. intros j Hj. destruct (Hn j Hj). split; [lia|done].
      * apply list_lookup_singleton_Some in Hi as [Hi <-].
        constructor; simpl; [lia|lia|done].
    + intros i vd b Hi Hb. rewrite Htable in Hi. rewrite Hblocks in Hb.
      apply lookup_app_Some in Hi as [Hi|[Hge Hi]].
      * pose proof (lookup_lt_Some _ _ _ Hi).
        rewrite lookup_app_l in Hb by (by rewrite (wf_blocks _ Hwf)).
        apply (wf_fresh _ Hwf i vd b Hi Hb).
      * apply list_lookup_singleton_Some in Hi as [Hi <-].
        rewrite lookup_app_r in Hb by (rewrite (wf_blocks _ Hwf); lia).
        apply list_lookup_singleton_Some in Hb as [_ <-].
        split; simpl; [done|lia].
  - constructor.
    + rewrite Htable, length_app. lia.
    + intros i vd Hi. exists vd. rewrite Htable. split; [|done].
      by apply lookup_app_l_Some.
    + done.
Qed.

Lemma wf_with_child_indices f seg :
  wf_segment seg -> wf_segment (with_child_indices f seg).
Proof. intros [? ? ?]. by constructor. Qed.

Lemma wf_set_child_index c index seg :
  wf_segment seg ->
  wf_segment (with_vector_data (alter (set_child_index c) index) seg).
Proof.
  intros Hwf. constructor; simpl.
  - rewrite length_alter. apply Hwf.
  - intros i vd Hi. rewrite length_alter.
    destruct (decide (i = index)) as [->|Hne].
    + rewrite list_lookup_alter_eq in Hi.
      destruct (vector_data seg !! index) as [vd0|] eqn:H0; [|done].
      injection Hi as <-. destruct (wf_descriptors _ Hwf index vd0 H0). by constructor.
    + rewrite list_lookup_alter_ne in Hi by done. by apply Hwf.
  - intros i vd b Hi Hb.
    destruct (decide (i = index)) as [->|Hne].
    + rewrite list_lookup_alter_eq in Hi.
      destruct (vector_data seg !! index) as [vd0|] eqn:H0; [|done].
      injection Hi as <-. apply (wf_fresh _ Hwf index vd0 b H0 Hb).
    + rewrite list_lookup_alter_ne in Hi by done. by eapply (wf_fresh _ Hwf).
Qed.

(** Setting a child index that was not set. *)
Lemma extends_set_child_index c index seg vd :
  vector_data seg !! index = Some vd -> child_index vd = None ->
  extends seg (with_vector_data (alter (set_child_index c) index) seg).
Proof.
  intros Hvd Hnone. constructor; simpl.
  - by rewrite length_alter.
  - intros i vdi Hi. destruct (decide (i = index)) as [->|Hne].
    + rewrite list_lookup_alter_eq, Hvd. simpl. eexists. split; [done|].
      rewrite Hvd in Hi. injection Hi as <-. by rewrite Hnone.
    + rewrite list_lookup_alter_ne by done. eauto.
  - done.
Qed.

Lemma extends_add_child_indices l seg :
  extends seg (with_child_indices (fun c => c ++ l) seg).
Proof. constructor; simpl; eauto. by eexists. Qed.

Lemma grows_ret {A} (a : A) : grows_wf (ret a).
Proof. intros seg a' seg' Hwf [= <- <-]. split; [done|apply extends_refl]. Qed.

Lemma grows_failing {A} e : grows_wf (@failing A e).
Proof. by intros seg a seg' Hwf. Qed.

Lemma grows_reading {A} (f : ColumnDataCollectionSegment -> Res A) :
  grows_wf (reading f).
Proof.
  intros seg a seg' Hwf. unfold reading. intros [= _ <-].
  split; [done|apply extends_refl].
Qed.

Lemma grows_bind {A B} (m : SegM A) (k : A -> SegM B) :
  grows_wf m -> (forall a, grows_wf (k a)) -> grows_wf (bind m k).
Proof.
  intros Hm Hk seg b seg' Hwf E.
  apply bind_Ok_inv in E as (a & seg1 & E1 & E2).
  destruct (Hm _ _ _ Hwf E1) as [Hwf1 Hext1].
  destruct (Hk a _ _ _ Hwf1 E2) as [Hwf2 Hext2].
  split; [done|]. by eapply extends_trans.
Qed.

Lemma grows_TemplatedColumnDataCopy op cls memory index src offset count :
  0 < STANDARD_VECTOR_SIZE ->
  grows_wf (TemplatedColumnDataCopy op cls memory index src offset count).
Proof.
  intros Hpos seg [] seg' Hwf E. by eapply TemplatedColumnDataCopy_wf.
Qed.

(** Allocating the child of a list descriptor that has none. *)
Lemma allocate_list_child index seg vd :
  wf_segment seg -> vector_data seg !! index = Some vd -> child_index vd = None ->
  forall r seg',
    bind (calling (AllocateVector None)) (fun child =>
      bind (calling (AddChildIndex child)) (fun entry =>
        modifying (with_vector_data (alter (set_child_index (Some entry)) index))))
      seg = (r, seg') ->
    r = Ok tt /\ wf_segment seg' /\ extends seg seg' /\
    vector_data seg' !! index =
      Some (set_child_index (Some (length (child_indices seg))) vd) /\
    child_indices seg' = child_indices seg ++ [length (vector_data seg)] /\
    vector_data seg' !! length (vector_data seg) =
      Some {| block_id := length (vector_data seg); vd_offset := 0; vd_count := 0;
              child_index := None; next_data := None |} /\
    blocks seg' !! length (vector_data seg) = Some empty_block /\
    heap seg' = heap seg.
Proof.
  intros Hwf Hvd Hnone r seg'.
  destruct (allocate_fresh seg Hwf) as (Hwf1 & Hext1 & Hidx & Htable1 & Hblocks1 & Hch1 & Hheap1).
  unfold bind, calling, modifying.
  destruct (AllocateVector None seg) as [child seg1] eqn:Ealloc. simpl in *. subst child.
  intros [= <- <-].
  pose proof (lookup_lt_Some _ _ _ Hvd) as Hlt.
  assert (vector_data seg1 !! index = Some vd) as Hvd1.
  { rewrite Htable1. by apply lookup_app_l_Some. }
  split; [done|]. split; [|split; [|split; [|split; [|split; [|split]]]]].
  - apply wf_set_child_index. by apply wf_with_child_indices.
  - eapply extends_trans; [exact Hext1|].
    eapply extends_trans; [apply (extends_add_child_indices [length (vector_data seg)])|].
    by eapply extends_set_child_index.
  - simpl. rewrite list_lookup_alter_eq, Hvd1. simpl. by rewrite Hch1.
  - simpl. by rewrite Hch1.
  - simpl. rewrite list_lookup_alter_ne by lia. rewrite Htable1.
    rewrite lookup_app_r by lia. by rewrite Nat.sub_diag.
  - simpl. rewrite Hblocks1, lookup_app_r by (rewrite (wf_blocks _ Hwf); lia).
    by rewrite (wf_blocks _ Hwf), Nat.sub_diag.
  - done.
Qed.

(** Every copy function keeps a well-formed segment well-formed and only
    extends it. *)
Lemma grows_call_copy_function :
  0 < STANDARD_VECTOR_SIZE ->
  forall f memory index src source offset copy_count,
    grows_wf (call_copy_function f memory index src source offset copy_count).
Proof.
  intros Hpos. fix IH 1.
  intros [[T| | |] children] memory index src source offset copy_count; simpl.
  - by apply grows_TemplatedColumnDataCopy.
  - by apply grows_TemplatedColumnDataCopy.
  - apply grows_bind; [apply grows_reading|]. intros child_vector.
    intros seg [] seg' Hwf E.
    apply bind_Ok_inv in E as (vd' & seg0 & Evd & E).
    unfold reading, GetVectorData in Evd.
    destruct (vector_data seg !! index) as [vd|] eqn:Hvd; [|discriminate].
    injection Evd as <- <-.
    apply bind_Ok_inv in E as ([] & seg1 & Ealloc & E).
    assert (wf_segment seg1 /\ extends seg seg1) as [Hwf1 Hext1].
    { destruct (child_index vd) as [entry|] eqn:Hci.
      - injection Ealloc as <-. split; [done|apply extends_refl].
      - destruct (allocate_list_child index seg vd Hwf Hvd Hci _ _ Ealloc)
          as (_ & ? & ? & _). done. }
    destruct children as [|child_function children]; [discriminate|].
    match type of E with
    | ?m seg1 = _ => assert (grows_wf m) as Hcont
    end.
    { apply grows_bind; [apply grows_reading|]. intros vd'.
      apply grows_bind; [apply grows_reading|]. intros child.
      apply grows_bind; [apply grows_reading|]. intros current_list_size.
      apply grows_bind; [apply IH|]. intros _.
      by apply grows_TemplatedColumnDataCopy. }
    destruct (Hcont _ _ _ Hwf1 E) as [Hwf' Hext'].
    split; [done|]. by eapply extends_trans.
  - apply grows_bind; [by apply grows_TemplatedColumnDataCopy|]. intros _.
    apply grows_bind; [apply grows_reading|]. intros child_types.
    apply grows_bind; [apply grows_reading|]. intros vd.
    apply grows_bind; [apply grows_reading|]. intros _.
    generalize 0 at 1. generalize (length child_types).
    induction children as [|child_function children IHc]; intros n child_idx.
    + destruct n; [apply grows_ret|apply grows_failing].
    + destruct n; [apply grows_ret|].
      apply grows_bind; [apply grows_reading|]. intros vd'.
      apply grows_bind; [apply grows_reading|]. intros child.
      apply grows_bind; [apply grows_reading|]. intros child_vector.
      apply grows_bind; [apply IH|]. intros _. apply IHc.
Qed.

(** *** Lists *)

Lemma Operation_list cls memory heap c :
  Operation ListValueCopy cls memory heap c = (rebase cls c, heap).
Proof. by destruct c. Qed.

Lemma stored_rows_list cls memory src offset n :
  forall i heap,
    stored_rows ListValueCopy cls memory src offset n i heap =
    (map (fun k =>
            (source_valid src offset k,
             if source_valid src offset k
             then Some (rebase cls (uvf_data src (uvf_sel src (offset + k))))
             else None))
         (seq i n),
     heap).
Proof.
  induction n as [|n IH]; intros i heap; [done|].
  cbn [stored_rows seq map]. unfold source_valid at 1 2.
  destruct (RowIsValid _ _); rewrite ?Operation_list, IH; done.
Qed.

Lemma descriptor_rows_length seg i vd :
  wf_segment seg -> vector_data seg !! i = Some vd ->
  length (descriptor_rows seg i) = vd_count vd.
Proof.
  intros Hwf Hi. unfold descriptor_rows. rewrite Hi.
  rewrite (ok_block _ _ _ (wf_descriptors _ Hwf i vd Hi)).
  destruct (lookup_lt_is_Some_2 (blocks seg) i) as [b ->].
  { rewrite (wf_blocks _ Hwf). by eapply lookup_lt_Some. }
  by rewrite length_map, length_seq.
Qed.

(** The loop that adds up the counts of a chain finds the number of rows
    of the chain. *)
Lemma current_list_size_loop_spec seg :
  wf_segment seg ->
  forall fuel i acc n,
    length (vector_data seg) - i <= fuel ->
    current_list_size_loop fuel seg (Some i) acc = Ok n ->
    i < length (vector_data seg) /\ n = acc + length (chain_rows seg i).
Proof.
  intros Hwf fuel. induction fuel as [|fuel IH]; intros i acc n Hfuel; [done|].
  simpl. unfold GetVectorData.
  destruct (vector_data seg !! i) as [vd|] eqn:Hi; [|done].
  pose proof (lookup_lt_Some _ _ _ Hi) as Hlt.
  rewrite (chain_rows_unfold seg i vd Hwf Hi), length_app,
    (descriptor_rows_length seg i vd Hwf Hi).
  destruct (next_data vd) as [j|] eqn:Hj.
  - destruct (wf_links_forward _ Hwf i vd j Hi Hj).
    intros E. apply IH in E as [_ ->]; [|lia]. split; [done|lia].
  - destruct fuel; simpl; intros [= <-]; split; (done || lia).
Qed.

(** A list copy that returns has gone through these steps.  The child
    descriptor chain is the one the list descriptor names, or a new, empty
    one when it names none.  The whole child vector is appended to that
    chain first.  Then the list entries of the window are stored behind the
    entries of the list descriptor chain: each valid entry with its offset
    moved by [child_list_size], the number of rows the child chain held
    before this append, and with its length as it was; the move is the sum
    itself unless it passes the 64-bit range. *)
Lemma list_copy_steps
    (child_function : ColumnDataCopyFunction) (rest : list ColumnDataCopyFunction)
    (memory : nat -> list Byte.byte) (index : nat) (src : UnifiedVectorFormat)
    (source child_vector : Vector) (offset copy_count : nat)
    (seg seg' : ColumnDataCollectionSegment) (vd : VectorMetaData) :
  0 < STANDARD_VECTOR_SIZE ->
  wf_segment seg ->
  vector_data seg !! index = Some vd ->
  VectorChildren source !! 0 = Some child_vector ->
  call_copy_function (mkCopyFunction ColumnDataCopy_list_entry_t (child_function :: rest))
    memory index src source offset copy_count seg = (Ok tt, seg') ->
  exists seg0 child seg1,
    match child_index vd with
    | Some entry => seg0 = seg /\ child_indices seg !! entry = Some child
    | None => child = length (vector_data seg) /\ chain_rows seg0 child = []
    end /\
    call_copy_function child_function memory child
      (ToUnifiedFormat (GetListSize source) child_vector) child_vector
      0 (GetListSize source) seg0 = (Ok tt, seg1) /\
    let child_list_size := N.of_nat (length (chain_rows seg0 child)) in
    TemplatedColumnDataCopy ListValueCopy child_list_size memory index src
      offset copy_count seg1 = (Ok tt, seg') /\
    chain_slots seg' index =
      chain_slots seg1 index
      ++ map (fun k =>
                if source_valid src offset k
                then Some (rebase child_list_size (uvf_data src (uvf_sel src (offset + k))))
                else None)
           (seq 0 copy_count) /\
    forall e,
      rebase child_list_size (CList e) =
        CList {| le_offset := idx_add (le_offset e) child_list_size;
                 le_length := le_length e |} /\
      ((le_offset e + child_list_size < 2 ^ 64)%N ->
       idx_add (le_offset e) child_list_size = (le_offset e + child_list_size)%N).
Proof.
  intros Hpos Hwf Hvd Hchild E.
  cbn [call_copy_function] in E.
  apply bind_Ok_inv in E as (child_vector' & seg_a & Ea & E).
  unfold reading, at_index in Ea. rewrite Hchild in Ea. injection Ea as <- <-.
  apply bind_Ok_inv in E as (vd' & seg_b & Eb & E).
  unfold reading in Eb. rewrite (GetVectorData_Some _ _ _ Hvd) in Eb.
  injection Eb as <- <-.
  apply bind_Ok_inv in E as ([] & seg0 & Ealloc & E).
  apply bind_Ok_inv in E as (vd0 & seg_c & Ec & E).
  unfold reading in Ec. injection Ec as Ec <-.
  apply bind_Ok_inv in E as (child & seg_d & Ed & E).
  unfold reading in Ed. injection Ed as Ed <-.
  apply bind_Ok_inv in E as (current_list_size & seg_e & Ee & E).
  unfold reading in Ee. injection Ee as Ee <-.
  apply bind_Ok_inv in E as ([] & seg1 & Echild & E).
  assert (wf_segment seg0 /\
          match child_index vd with
          | Some entry => seg0 = seg /\ child_indices seg !! entry = Some child
          | None => child = length (vector_data seg) /\ chain_rows seg0 child = []
          end) as [Hwf0 Hcase].
  { destruct (child_index vd) as [entry|] eqn:Hci.
    - injection Ealloc as <-. split; [done|]. split; [done|].
      rewrite (GetVectorData_Some _ _ _ Hvd) in Ec. injection Ec as <-.
      rewrite Hci in Ed. unfold GetChildIndex in Ed. rewrite Nat.add_0_r in Ed.
      destruct (child_indices seg !! entry); [|discriminate]. by injection Ed as <-.
    - destruct (allocate_list_child index seg vd Hwf Hvd Hci _ _ Ealloc)
        as (_ & Hwf0 & _ & Hidx0 & Hchildren0 & Hnew & Hbnew & _).
      split; [done|].
      rewrite (GetVectorData_Some _ _ _ Hidx0) in Ec. injection Ec as <-.
      cbn [child_index set_child_index] in Ed. unfold GetChildIndex in Ed.
      rewrite Nat.add_0_r, Hchildren0 in Ed.
      rewrite lookup_app_r, Nat.sub_diag in Ed by lia. cbn in Ed.
      injection Ed as <-. split; [done|].
      rewrite (chain_rows_unfold seg0 _ _ Hwf0 Hnew). cbn [next_data].
      unfold descriptor_rows. rewrite Hnew. cbn [block_id vd_count]. by rewrite Hbnew. }
  destruct (current_list_size_loop_spec seg0 Hwf0 (length (vector_data seg0)) child 0
              current_list_size ltac:(lia) Ee) as [Hchild_lt ->].
  cbn [Nat.add] in E.
  destruct (grows_call_copy_function Hpos _ _ _ _ _ _ _ _ _ _ Hwf0 Echild)
    as [Hwf1 Hext1].
  assert (index < length (vector_data seg1)) as Hindex1.
  { unfold GetVectorData in Ec.
    destruct (vector_data seg0 !! index) eqn:G'; [|discriminate].
    apply lookup_lt_Some in G'. pose proof (ext_length _ _ Hext1). lia. }
  destruct (TemplatedColumnDataCopy_spec ListValueCopy
              (N.of_nat (length (chain_rows seg0 child))) memory src index offset
              copy_count seg1 Hpos Hwf1 Hindex1) as (seg'' & E' & _ & _ & Hrows & _).
  rewrite E in E'. injection E' as <-.
  exists seg0, child, seg1.
  split; [done|]. split; [done|]. split; [done|]. split.
  - unfold chain_slots. rewrite Hrows, map_app, stored_rows_list. f_equal.
    simpl. rewrite !map_map. done.
  - intros e. split; [done|]. intros Hrange. unfold idx_add.
    by apply N.mod_small.
Qed.

(** *** Counts *)

Lemma on_back_segment_count {A} (m : SegM A) this r this' :
  on_back_segment m this = (r, this') ->
  count this' = count this /\ types this' = types this /\
  copy_functions this' = copy_functions this /\
  finished_append this' = finished_append this /\
  allocator this' = allocator this.
Proof.
  unfold on_back_segment.
  destruct (last (segments this)) as [[seg|]|]; try by intros [= <- <-].
  destruct (m seg) as [r' seg']. by intros [= <- <-].
Qed.

Lemma InitializeAppend_count this state r this' state' :
  InitializeAppend this state = (r, this', state') ->
  count this' = count this /\ types this' = types this /\
  copy_functions this' = copy_functions this.
Proof.
  unfold InitializeAppend, D_ASSERT.
  destruct (negb (finished_append this)); [|by intros [= <- <- <-]].
  destruct (on_back_segment _ _) as [r' this2] eqn:E.
  apply on_back_segment_count in E as (E1 & E2 & E3 & _).
  intros [= <- <- <-]. rewrite E1, E2, E3.
  by destruct (bool_decide (segments this = [])).
Qed.

Lemma Append_chunk_count this input this' :
  Append_chunk this input = (Ok tt, this') ->
  Count this' = Count this + dc_size input /\ types this' = types this.
Proof.
  unfold Append_chunk.
  destruct (InitializeAppend this _) as [[r this1] state] eqn:Einit.
  apply InitializeAppend_count in Einit as (E1 & E2 & _).
  destruct r as [[]| |]; try discriminate.
  destruct (Append this1 state input) as [[r' this2] state'] eqn:Eappend.
  intros [= -> <-].
  apply Append_Ok_inv in Eappend as (_ & _ & _ & _ & _ & _ & _ & _ & Hcount & Htypes & _).
  unfold Count. split; congruence.
Qed.

Lemma replay_count DEBUG h this :
  replay DEBUG h = Some this ->
  Count this = sum_list (map dc_size (appended_chunks h)).
Proof.
  revert this. induction h as [a ts|before IH input|before IH1 peer IH2]; intros this; simpl.
  - unfold ColumnDataCollection_shared, Initialize.
    destruct (D_ASSERT _ _); try discriminate.
    destruct (push_copy_functions _ _); try discriminate. by intros [= <-].
  - destruct (replay DEBUG before) as [this0|]; [|discriminate].
    destruct (Append_chunk this0 input) as [[[]| |] this'] eqn:E; try discriminate.
    intros [= <-]. apply Append_chunk_count in E as [-> _].
    rewrite map_app, sum_list_with_app, (IH this0 eq_refl). simpl. lia.
  - destruct (replay DEBUG before) as [this0|]; [|discriminate].
    destruct (replay DEBUG peer) as [other|]; [|discriminate].
    destruct (Combine DEBUG this0 other) as [[[[]| |] this'] other'] eqn:E;
      try discriminate.
    intros [= <-]. apply Combine_count in E as ->.
    by rewrite map_app, sum_list_with_app, (IH1 this0 eq_refl), (IH2 other eq_refl).
Qed.

(** *** New segments and new chunks are well-formed *)

Lemma wf_new_segment types_p : wf_segment (new_segment types_p).
Proof. constructor; simpl; [done| |]; intros i vd; by rewrite lookup_nil. Qed.

Lemma keeps_wf_ret {A} (a : A) : keeps_wf (ret a).
Proof. by intros seg a' seg' Hwf [= _ <-]. Qed.

Lemma keeps_wf_bind {A B} (m : SegM A) (k : A -> SegM B) :
  keeps_wf m -> (forall a, keeps_wf (k a)) -> keeps_wf (bind m k).
Proof.
  intros Hm Hk seg b seg' Hwf E.
  apply bind_Ok_inv in E as (a & seg1 & E1 & E2).
  eapply Hk; [|exact E2]. by eapply Hm.
Qed.

Lemma keeps_wf_reading {A} (f : ColumnDataCollectionSegment -> Res A) :
  keeps_wf (reading f).
Proof. intros seg a seg' Hwf. unfold reading. by intros [= _ <-]. Qed.

Lemma keeps_wf_AllocateVector : keeps_wf (calling (AllocateVector None)).
Proof.
  intros seg a seg' Hwf. unfold calling.
  destruct (allocate_fresh seg Hwf) as (Hwf' & _).
  destruct (AllocateVector None seg). by intros [= _ <-].
Qed.

Lemma keeps_wf_child_indices {A} (f : ColumnDataCollectionSegment -> A)
    (g : list nat -> list nat) :
  keeps_wf (calling (fun seg => (f seg, with_child_indices g seg))).
Proof.
  intros seg a seg' Hwf. unfold calling. intros [= _ <-].
  by apply wf_with_child_indices.
Qed.

Lemma keeps_wf_set_child_index c index :
  keeps_wf (modifying (with_vector_data (alter (set_child_index c) index))).
Proof. intros seg a seg' Hwf [= _ <-]. by apply wf_set_child_index. Qed.

Lemma keeps_wf_allocate_column : forall t, keeps_wf (allocate_column t).
Proof.
  fix IH 1. intros [p|child_types|child_type]; simpl.
  - apply keeps_wf_bind; [apply keeps_wf_AllocateVector|]. intros index.
    apply keeps_wf_ret.
  - apply keeps_wf_bind; [apply keeps_wf_AllocateVector|]. intros index.
    apply keeps_wf_bind.
    { induction child_types as [|kv l IHl]; [apply keeps_wf_ret|].
      apply keeps_wf_bind; [apply IH|]. intros child.
      apply keeps_wf_bind; [apply IHl|]. intros rest'. apply keeps_wf_ret. }
    intros fields.
    apply keeps_wf_bind; [apply keeps_wf_child_indices|]. intros base.
    apply keeps_wf_bind; [apply keeps_wf_set_child_index|]. intros _.
    apply keeps_wf_ret.
  - apply keeps_wf_bind; [apply keeps_wf_AllocateVector|]. intros index.
    apply keeps_wf_bind; [apply IH|]. intros child.
    apply keeps_wf_bind.
    { apply (keeps_wf_child_indices (fun seg => length (child_indices seg))
               (fun c => c ++ [child])). }
    intros entry.
    apply keeps_wf_bind; [apply keeps_wf_set_child_index|]. intros _.
    apply keeps_wf_ret.
Qed.

Lemma keeps_wf_allocate_columns ts : keeps_wf (allocate_columns ts).
Proof.
  induction ts as [|t ts IH]; simpl; [apply keeps_wf_ret|].
  apply keeps_wf_bind; [apply keeps_wf_allocate_column|]. intros index.
  apply keeps_wf_bind; [apply IH|]. intros rest'. apply keeps_wf_ret.
Qed.

Lemma keeps_wf_AllocateNewChunk : keeps_wf AllocateNewChunk.
Proof.
  unfold AllocateNewChunk.
  apply keeps_wf_bind; [apply keeps_wf_reading|]. intros ts.
  apply keeps_wf_bind; [apply keeps_wf_allocate_columns|]. intros roots.
  intros seg a seg' [? ? ?] [= _ <-]. by constructor.
Qed.

(** A segment with one chunk, fresh from the allocator. *)
Lemma wf_first_chunk types_p :
  wf_segment (AllocateNewChunk (new_segment types_p)).2.
Proof.
  destruct (AllocateNewChunk_chunks (new_segment types_p)) as (roots & seg' & E & _).
  rewrite E. eapply keeps_wf_AllocateNewChunk; [apply wf_new_segment|exact E].
Qed.

Lemma all_present_check this :
  forallb (fun s : option ColumnDataCollectionSegment =>
             match s with Some _ => true | None => false end) (segments this) = true ->
  all_present this.
Proof.
  unfold all_present. induction (segments this) as [|[s|] l IH]; simpl;
    [constructor| |discriminate].
  intros E. constructor; [by eexists|by apply IH].
Qed.

(** *** Shapes: descriptors and vectors that fit a type *)

(** Induction on a logical type, with the fields of a struct. *)
Lemma LogicalType_fields_ind (P : LogicalType -> Prop) :
  (forall p, P (Primitive p)) ->
  (forall child_types,
      Forall (fun kv : string * LogicalType => P (snd kv)) child_types ->
      P (StructType child_types)) ->
  (forall child_type, P child_type -> P (ListType child_type)) ->
  forall t, P t.
Proof.
  intros Hp Hs Hl. fix IH 1. intros [p|child_types|child_type].
  - apply Hp.
  - apply Hs. induction child_types as [|kv l IHl]; constructor; [apply IH|apply IHl].
  - apply Hl, IH.
Qed.

Lemma shaped_for_in_range t seg index :
  shaped_for seg t index -> index < length (vector_data seg).
Proof. destruct 1; by eapply lookup_lt_Some. Qed.

Lemma vector_shaped_type t v : vector_shaped t v -> GetType v = t.
Proof. by destruct 1. Qed.

(** A shape survives every extension of the segment. *)
Lemma shaped_for_extends seg seg' :
  extends seg seg' ->
  forall t index, shaped_for seg t index -> shaped_for seg' t index.
Proof.
  intros Hext t. induction t as [p|child_types IH|child_type IH] using LogicalType_fields_ind;
    intros index Hshape; inversion Hshape as [? ? vd Hvd|? ? vd entry child Hvd Hentry Hchild Hc
                                             |? ? vd base Hvd Hbase Hfields]; subst;
    destruct (ext_child_index _ _ Hext index vd Hvd) as (vd' & Hvd' & Hci).
  - by econstructor.
  - eapply shaped_struct; [exact Hvd'| |].
    { rewrite Hci; [done|]. by rewrite Hbase. }
    intros j kv Hkv. destruct (Hfields j kv Hkv) as (child & Hchild & Hshape').
    exists child. split.
    + destruct (ext_children _ _ Hext) as [more ->]. by apply lookup_app_l_Some.
    + eapply Forall_lookup_1 in IH; [|exact Hkv]. by apply IH.
  - eapply shaped_list; [exact Hvd'| | |by apply IH].
    + rewrite Hci; [done|]. by rewrite Hentry.
    + destruct (ext_children _ _ Hext) as [more ->]. by apply lookup_app_l_Some.
Qed.

(** The loop that adds up the counts of a chain returns. *)
Lemma current_list_size_loop_returns seg :
  wf_segment seg ->
  forall fuel i acc,
    i < length (vector_data seg) -> length (vector_data seg) - i <= fuel ->
    exists n, current_list_size_loop fuel seg (Some i) acc = Ok n.
Proof.
  intros Hwf fuel. induction fuel as [|fuel IH]; intros i acc Hi Hfuel; [lia|].
  destruct (lookup_lt_is_Some_2 _ _ Hi) as [vd Hvd].
  simpl. rewrite (GetVectorData_Some _ _ _ Hvd).
  destruct (next_data vd) as [j|] eqn:Hj.
  - destruct (wf_links_forward _ Hwf i vd j Hvd Hj). apply IH; lia.
  - destruct fuel; simpl; eauto.
Qed.

(** *** The copy functions return *)

Lemma bind_returns {A B} (m : SegM A) (k : A -> SegM B) seg a seg1 :
  m seg = (Ok a, seg1) -> bind m k seg = k a seg1.
Proof. intros E. unfold bind. by rewrite E. Qed.

(** The copy functions of the fields of a struct. *)
Lemma GetCopyFunction_struct child_types f :
  GetCopyFunction (StructType child_types) = Ok f ->
  exists fs,
    f = mkCopyFunction ColumnDataCopyStruct fs /\
    Forall2 (fun (kv : string * LogicalType) fc => GetCopyFunction (snd kv) = Ok fc)
      child_types fs.
Proof.
  simpl.
  match goal with
  | |- match ?x with _ => _ end = _ -> _ => destruct x as [fs| |] eqn:Hfs; try discriminate
  end.
  intros [= <-]. exists fs. split; [done|].
  revert fs Hfs. induction child_types as [|kv l IHl]; intros fs Hfs.
  - injection Hfs as <-. constructor.
  - destruct (GetCopyFunction (snd kv)) as [fc| |] eqn:Hfc; try discriminate.
    match type of Hfs with
    | match ?x with _ => _ end = _ => destruct x as [fs'| |] eqn:Hfs'; try discriminate
    end.
    injection Hfs as <-. constructor; [done|]. by apply IHl.
Qed.

Lemma GetCopyFunction_list child_type f :
  GetCopyFunction (ListType child_type) = Ok f ->
  exists fc,
    f = mkCopyFunction ColumnDataCopy_list_entry_t [fc] /\
    GetCopyFunction child_type = Ok fc.
Proof.
  simpl. destruct (GetCopyFunction child_type) as [fc| |]; try discriminate.
  intros [= <-]. eauto.
Qed.

Lemma struct_children_loop_cons memory index child_vectors offset copy_count
    child_function fs' child_idx n' :
  struct_children_loop memory index child_vectors offset copy_count
    (child_function :: fs') child_idx (S n') =
  bind (reading (fun seg => GetVectorData seg index)) (fun vd =>
  bind (reading (fun seg =>
          match child_index vd with
          | Some entry => GetChildIndex seg entry child_idx
          | None => Fail (UndefinedBehaviour "child index is not valid")
          end)) (fun child_index =>
  bind (reading (fun _ => at_index child_vectors child_idx "child_vectors[child_idx]"))
       (fun child_vector =>
  bind (call_copy_function child_function memory child_index
          (ToUnifiedFormat copy_count child_vector) child_vector offset copy_count)
       (fun _ =>
  struct_children_loop memory index child_vectors offset copy_count fs'
    (S child_idx) n')))).
Proof. reflexivity. Qed.

Lemma call_copy_function_struct children memory index src source offset copy_count :
  call_copy_function (mkCopyFunction ColumnDataCopyStruct children) memory index
    src source offset copy_count =
  bind (TemplatedColumnDataCopy StructValueCopy INVALID_INDEX memory index src
          offset copy_count) (fun _ =>
  bind (reading (fun _ => GetChildTypes (GetType source))) (fun child_types =>
  bind (reading (fun seg => GetVectorData seg index)) (fun vd =>
  bind (reading (fun _ => D_ASSERT (bool_decide (is_Some (child_index vd)))
                            "meta_data.GetVectorMetaData().child_index.IsValid()"))
       (fun _ =>
  struct_children_loop memory index (VectorChildren source) offset copy_count
    children 0 (length child_types))))).
Proof. reflexivity. Qed.

Lemma struct_children_loop_returns memory index child_vectors offset copy_count base :
  0 < STANDARD_VECTOR_SIZE ->
  forall child_types fs,
    Forall2 (fun (kv : string * LogicalType) fc => GetCopyFunction (snd kv) = Ok fc)
      child_types fs ->
    Forall (fun kv : string * LogicalType => copy_returns (snd kv)) child_types ->
    forall k seg,
      wf_segment seg ->
      (exists vd, vector_data seg !! index = Some vd /\ child_index vd = Some base) ->
      (forall j kv, child_types !! j = Some kv ->
         exists child,
           child_indices seg !! (base + (k + j)) = Some child /\
           shaped_for seg (snd kv) child) ->
      (forall j kv, child_types !! j = Some kv ->
         exists child_vector,
           child_vectors !! (k + j) = Some child_vector /\
           vector_shaped (snd kv) child_vector) ->
      exists seg',
        struct_children_loop memory index child_vectors offset copy_count fs k
          (length child_types) seg = (Ok tt, seg').
Proof.
  intros Hpos child_types fs Hfs.
  induction Hfs as [|kv fc l fs Hfc Hfs IHl]; intros Hret k seg Hwf Hparent Hfields Hvectors.
  - simpl. eauto.
  - apply Forall_cons in Hret as [Hkv Hret].
    destruct Hparent as (vd & Hvd & Hbase).
    destruct (Hfields 0 kv eq_refl) as (child & Hchild & Hshape).
    destruct (Hvectors 0 kv eq_refl) as (child_vector & Hcv & Hvshape).
    rewrite Nat.add_0_r in Hchild, Hcv.
    cbn [length]. rewrite struct_children_loop_cons.
    rewrite (bind_returns _ _ seg vd seg)
      by (unfold reading; by rewrite (GetVectorData_Some _ _ _ Hvd)).
    rewrite (bind_returns _ _ seg child seg)
      by (unfold reading, GetChildIndex; by rewrite Hbase, Hchild).
    rewrite (bind_returns _ _ seg child_vector seg)
      by (unfold reading, at_index; by rewrite Hcv).
    destruct (Hkv fc memory child (ToUnifiedFormat copy_count child_vector) child_vector
                offset copy_count seg Hfc Hwf Hshape Hvshape) as (seg1 & E1).
    rewrite (bind_returns _ _ seg tt seg1 E1).
    destruct (grows_call_copy_function Hpos _ _ _ _ _ _ _ _ _ _ Hwf E1) as [Hwf1 Hext1].
    apply IHl; [done|done| | |].
    + destruct (ext_child_index _ _ Hext1 index vd Hvd) as (vd1 & Hvd1 & Hci).
      exists vd1. split; [done|]. rewrite Hci; [done|]. by rewrite Hbase.
    + intros j kv' Hkv'. destruct (Hfields (S j) kv' Hkv') as (c & Hc & Hs).
      exists c. split.
      * replace (S k + j) with (k + S j) by lia.
        destruct (ext_children _ _ Hext1) as [more ->]. by apply lookup_app_l_Some.
      * by eapply shaped_for_extends.
    + intros j kv' Hkv'. destruct (Hvectors (S j) kv' Hkv') as (c & Hc & Hs).
      exists c. split; [|done]. by replace (S k + j) with (k + S j) by lia.
Qed.

(** A copy function returns: on a well-formed segment whose descriptor fits
    the type, and for a source vector of the type, the copy function of the
    type ends without an error, whatever the window. *)
Lemma call_copy_function_returns :
  0 < STANDARD_VECTOR_SIZE -> forall t, copy_returns t.
Proof.
  intros Hpos t.
  induction t as [p|child_types IH|child_type IH] using LogicalType_fields_ind;
    intros f memory index src source offset copy_count seg Hf Hwf Hshape Hsource.
  - pose proof (shaped_for_in_range _ _ _ Hshape) as Hindex.
    destruct p; simpl in Hf; try discriminate; injection Hf as <-; simpl;
      match goal with
      | |- context [TemplatedColumnDataCopy ?op ?cls _ _ _ _ _ _] =>
          destruct (TemplatedColumnDataCopy_spec op cls memory src index offset copy_count
                      seg Hpos Hwf Hindex) as (seg' & E & _)
      end; eauto.
  - pose proof (shaped_for_in_range _ _ _ Hshape) as Hindex.
    apply GetCopyFunction_struct in Hf as (fs & -> & Hfs).
    rewrite call_copy_function_struct.
    destruct (TemplatedColumnDataCopy_spec StructValueCopy INVALID_INDEX memory src index
                offset copy_count seg Hpos Hwf Hindex) as (seg1 & E1 & Hwf1 & Hframe & _).
    rewrite (bind_returns _ _ seg tt seg1 E1).
    pose proof (copy_frame_extends _ _ _ Hframe) as Hext1.
    apply (shaped_for_extends _ _ Hext1) in Hshape.
    inversion Hshape as [| |? ? vd1 base Hvd1 Hbase Hfields]; subst.
    inversion Hsource as [| |? ? Htype Hvectors]; subst.
    rewrite (bind_returns _ _ seg1 child_types seg1)
      by (unfold reading; by rewrite Htype).
    rewrite (bind_returns _ _ seg1 vd1 seg1)
      by (unfold reading; by rewrite (GetVectorData_Some _ _ _ Hvd1)).
    rewrite (bind_returns _ _ seg1 tt seg1)
      by (unfold reading; by rewrite Hbase).
    apply (struct_children_loop_returns memory index (VectorChildren source) offset
             copy_count base Hpos child_types fs Hfs IH 0 seg1 Hwf1); eauto.
  - apply GetCopyFunction_list in Hf as (fc & -> & Hfc).
    inversion Hshape as [|? ? vd entry child Hvd Hentry Hchild Hcshape|]; subst.
    inversion Hsource as [|? ? child_vector Htype Hcv Hvshape|]; subst.
    cbn [call_copy_function].
    rewrite (bind_returns _ _ seg child_vector seg)
      by (unfold reading, at_index; by rewrite Hcv).
    rewrite (bind_returns _ _ seg vd seg)
      by (unfold reading; by rewrite (GetVectorData_Some _ _ _ Hvd)).
    rewrite Hentry.
    rewrite (bind_returns _ _ seg tt seg) by done.
    rewrite (bind_returns _ _ seg vd seg)
      by (unfold reading; by rewrite (GetVectorData_Some _ _ _ Hvd)).
    rewrite Hentry.
    rewrite (bind_returns _ _ seg child seg)
      by (unfold reading, GetChildIndex; by rewrite Nat.add_0_r, Hchild).
    pose proof (shaped_for_in_range _ _ _ Hcshape) as Hchild_range.
    destruct (current_list_size_loop_returns seg Hwf (length (vector_data seg)) child 0
                Hchild_range ltac:(lia)) as (n & Hn).
    rewrite (bind_returns _ _ seg n seg) by (unfold reading; by rewrite Hn).
    destruct (IH fc memory child (ToUnifiedFormat (GetListSize source) child_vector)
                child_vector 0 (GetListSize source) seg Hfc Hwf Hcshape Hvshape)
      as (seg1 & E1).
    rewrite (bind_returns _ _ seg tt seg1 E1).
    destruct (grows_call_copy_function Hpos _ _ _ _ _ _ _ _ _ _ Hwf E1) as [Hwf1 Hext1].
    pose proof (lookup_lt_Some _ _ _ Hvd) as Hlt.
    pose proof (ext_length _ _ Hext1) as Hlen.
    destruct (TemplatedColumnDataCopy_spec ListValueCopy (N.of_nat n) memory src index
                offset copy_count seg1 Hpos Hwf1 ltac:(lia)) as (seg2 & E2 & _).
    eauto.
Qed.

(** C6. A list copy that returns has gone through these steps.  The child
    descriptor chain is the one the list descriptor names, or a new, empty
    one when it names none.  The whole child vector is appended to that
    chain first.  Then the list entries of the window are stored behind the
    entries of the list descriptor chain: each valid entry with its offset
    moved by [child_list_size], the number of rows the child chain held
    before this append, and with its length as it was; the move is the sum
    itself unless it passes the 64-bit range.  And the list copy does
    return, on a well-formed segment whose descriptor fits the list type,
    for a source vector of that type. *)
Theorem list_entries_are_rebased :
  0 < STANDARD_VECTOR_SIZE ->
  (forall (child_function : ColumnDataCopyFunction) (rest : list ColumnDataCopyFunction)
          (memory : nat -> list Byte.byte) (index : nat) (src : UnifiedVectorFormat)
          (source child_vector : Vector) (offset copy_count : nat)
          (seg seg' : ColumnDataCollectionSegment) (vd : VectorMetaData),
      wf_segment seg ->
      vector_data seg !! index = Some vd ->
      VectorChildren source !! 0 = Some child_vector ->
      call_copy_function
        (mkCopyFunction ColumnDataCopy_list_entry_t (child_function :: rest))
        memory index src source offset copy_count seg = (Ok tt, seg') ->
      exists seg0 child seg1,
        match child_index vd with
        | Some entry => seg0 = seg /\ child_indices seg !! entry = Some child
        | None => child = length (vector_data seg) /\ chain_rows seg0 child = []
        end /\
        call_copy_function child_function memory child
          (ToUnifiedFormat (GetListSize source) child_vector) child_vector
          0 (GetListSize source) seg0 = (Ok tt, seg1) /\
        let child_list_size := N.of_nat (length (chain_rows seg0 child)) in
        TemplatedColumnDataCopy ListValueCopy child_list_size memory index src
          offset copy_count seg1 = (Ok tt, seg') /\
        chain_slots seg' index =
          chain_slots seg1 index
          ++ map (fun k =>
                    if source_valid src offset k
                    then Some (rebase child_list_size
                                 (uvf_data src (uvf_sel src (offset + k))))
                    else None)
               (seq 0 copy_count) /\
        forall e,
          rebase child_list_size (CList e) =
            CList {| le_offset := idx_add (le_offset e) child_list_size;
                     le_length := le_length e |} /\
          ((le_offset e + child_list_size < 2 ^ 64)%N ->
           idx_add (le_offset e) child_list_size = (le_offset e + child_list_size)%N)) /\
  (forall (child_type : LogicalType) (f : ColumnDataCopyFunction)
          (memory : nat -> list Byte.byte) (index : nat) (src : UnifiedVectorFormat)
          (source : Vector) (offset copy_count : nat)
          (seg : ColumnDataCollectionSegment),
      GetCopyFunction (ListType child_type) = Ok f ->
      wf_segment seg ->
      shaped_for seg (ListType child_type) index ->
      vector_shaped (ListType child_type) source ->
      exists seg',
        call_copy_function f memory index src source offset copy_count seg
        = (Ok tt, seg')).
Proof.
  intros Hpos. split.
  - intros child_function rest memory index src source child_vector offset copy_count
      seg seg' vd Hwf Hvd Hchild E.
    by eapply list_copy_steps.
  - intros child_type f memory index src source offset copy_count seg.
    by apply (call_copy_function_returns Hpos (ListType child_type)).
Qed.

(** *** A fresh chunk fits the schema *)

Lemma allocate_column_struct child_types :
  allocate_column (StructType child_types) =
  bind (calling (AllocateVector None)) (fun index =>
  bind (allocate_fields child_types) (fun fields =>
  bind (calling (fun seg =>
          (length (child_indices seg), with_child_indices (fun c => c ++ fields) seg)))
       (fun base =>
  bind (modifying (with_vector_data (alter (set_child_index (Some base)) index)))
       (fun _ => ret index)))).
Proof. reflexivity. Qed.

Lemma allocate_fields_cons kv l :
  allocate_fields (kv :: l) =
  bind (allocate_column (snd kv)) (fun child =>
  bind (allocate_fields l) (fun rest => ret (child :: rest))).
Proof. reflexivity. Qed.

Lemma appends_refl seg : appends seg seg.
Proof. by split. Qed.

Lemma appends_trans seg1 seg2 seg3 :
  appends seg1 seg2 -> appends seg2 seg3 -> appends seg1 seg3.
Proof. intros [? ?] [? ?]. split; by etransitivity. Qed.

Lemma appends_extends seg seg' : appends seg seg' -> extends seg seg'.
Proof.
  intros [[more Hv] Hc]. constructor; [| |done].
  - rewrite Hv, length_app. lia.
  - intros i vd Hi. exists vd. split; [|done]. rewrite Hv. by apply lookup_app_l_Some.
Qed.

Lemma appends_AllocateVector seg :
  wf_segment seg -> appends seg (AllocateVector None seg).2.
Proof.
  intros Hwf. destruct (allocate_fresh seg Hwf) as (_ & _ & _ & Hv & _ & Hc & _).
  split; [rewrite Hv; by eexists|by rewrite Hc].
Qed.

(** Setting the child index of a descriptor that [seg] does not have. *)
Lemma appends_set_child_index c index seg seg' :
  appends seg seg' -> length (vector_data seg) <= index ->
  appends seg (with_vector_data (alter (set_child_index c) index) seg').
Proof.
  intros [[more Hv] Hc] Hindex. split; [|done]. simpl. rewrite Hv.
  exists (alter (set_child_index c) (index - length (vector_data seg)) more).
  by rewrite alter_app_r_alt.
Qed.

Lemma appends_add_child_indices l seg seg' :
  appends seg seg' -> appends seg (with_child_indices (fun c => c ++ l) seg').
Proof.
  intros [Hv [more Hc]]. split; [done|]. simpl. rewrite Hc, <- app_assoc. by eexists.
Qed.

Lemma AllocateVector_inv seg index seg1 :
  wf_segment seg -> calling (AllocateVector None) seg = (Ok index, seg1) ->
  wf_segment seg1 /\ appends seg seg1 /\ index = length (vector_data seg) /\
  exists vd, vector_data seg1 !! index = Some vd /\ child_index vd = None.
Proof.
  intros Hwf E. unfold calling in E.
  pose proof (appends_AllocateVector seg Hwf) as Happ.
  destruct (allocate_fresh seg Hwf) as (Hwf1 & _ & Hidx & Hv & _).
  destruct (AllocateVector None seg) as [i s]. simpl in *. injection E as <- <-.
  split; [done|]. split; [done|]. split; [done|].
  eexists. rewrite Hv, Hidx, lookup_app_r, Nat.sub_diag by lia. done.
Qed.

Lemma allocate_fields_fit child_types :
  Forall (fun kv : string * LogicalType => allocation_fits (snd kv)) child_types ->
  forall seg fields seg',
    wf_segment seg -> allocate_fields child_types seg = (Ok fields, seg') ->
    wf_segment seg' /\ appends seg seg' /\
    forall j kv, child_types !! j = Some kv ->
      exists child, fields !! j = Some child /\ shaped_for seg' (snd kv) child.
Proof.
  induction 1 as [|kv l Hkv _ IHl]; intros seg fields seg' Hwf E.
  - injection E as <- <-. split; [done|]. split; [apply appends_refl|]. by intros [|j] kv.
  - rewrite allocate_fields_cons in E.
    apply bind_Ok_inv in E as (child & seg1 & E1 & E).
    apply bind_Ok_inv in E as (rest & seg2 & E2 & E). injection E as <- <-.
    pose proof (keeps_wf_allocate_column _ _ _ _ Hwf E1) as Hwf1.
    destruct (Hkv _ _ _ Hwf E1) as (Happ1 & _ & Hshape1).
    destruct (IHl _ _ _ Hwf1 E2) as (Hwf2 & Happ2 & Hrest).
    split; [done|]. split; [by eapply appends_trans|].
    intros [|j] kv' Hj.
    + injection Hj as <-. exists child. split; [done|].
      eapply shaped_for_extends; [|exact Hshape1]. by apply appends_extends.
    + by apply Hrest.
Qed.

(** The descriptors that [allocate_column] adds fit the type of the column. *)
Lemma allocate_column_fits : forall t, allocation_fits t.
Proof.
  intros t. induction t as [p|child_types IH|child_type IH] using LogicalType_fields_ind;
    intros seg index seg' Hwf E.
  - simpl in E. apply bind_Ok_inv in E as (i & seg1 & E1 & E). injection E as <- <-.
    destruct (AllocateVector_inv _ _ _ Hwf E1) as (Hwf1 & Happ1 & -> & vd & Hvd & _).
    split; [done|]. split; [done|]. by econstructor.
  - rewrite allocate_column_struct in E.
    apply bind_Ok_inv in E as (i & seg1 & E1 & E).
    apply bind_Ok_inv in E as (fields & seg2 & E2 & E).
    apply bind_Ok_inv in E as (base & seg3 & E3 & E).
    apply bind_Ok_inv in E as ([] & seg4 & E4 & E). injection E as <- <-.
    destruct (AllocateVector_inv _ _ _ Hwf E1) as (Hwf1 & Happ1 & -> & vd & Hvd & Hnone).
    destruct (allocate_fields_fit _ IH _ _ _ Hwf1 E2) as (Hwf2 & Happ2 & Hfields).
    unfold calling in E3. injection E3 as <- <-.
    unfold modifying in E4. injection E4 as <-.
    pose proof (appends_trans _ _ _ Happ1 Happ2) as Happ.
    assert (vector_data seg2 !! length (vector_data seg) = Some vd) as Hvd2.
    { destruct Happ2 as [[more ->] _]. by apply lookup_app_l_Some. }
    split; [|split; [done|]].
    { apply appends_set_child_index; [|done]. by apply appends_add_child_indices. }
    eapply shaped_struct.
    + simpl. by rewrite list_lookup_alter_eq, Hvd2.
    + done.
    + intros j kv Hj. destruct (Hfields j kv Hj) as (child & Hchild & Hshape).
      exists child. split.
      * simpl. rewrite lookup_app_r by lia.
        by replace (length (child_indices seg2) + j - length (child_indices seg2))
          with j by lia.
      * eapply shaped_for_extends; [|exact Hshape].
        eapply extends_trans; [apply (extends_add_child_indices fields)|].
        by eapply extends_set_child_index.
  - simpl in E.
    apply bind_Ok_inv in E as (i & seg1 & E1 & E).
    apply bind_Ok_inv in E as (child & seg2 & E2 & E).
    apply bind_Ok_inv in E as (entry & seg3 & E3 & E).
    apply bind_Ok_inv in E as ([] & seg4 & E4 & E). injection E as <- <-.
    destruct (AllocateVector_inv _ _ _ Hwf E1) as (Hwf1 & Happ1 & -> & vd & Hvd & Hnone).
    destruct (IH _ _ _ Hwf1 E2) as (Happ2 & _ & Hshape).
    unfold calling, AddChildIndex in E3. injection E3 as <- <-.
    unfold modifying in E4. injection E4 as <-.
    pose proof (appends_trans _ _ _ Happ1 Happ2) as Happ.
    assert (vector_data seg2 !! length (vector_data seg) = Some vd) as Hvd2.
    { destruct Happ2 as [[more ->] _]. by apply lookup_app_l_Some. }
    split; [|split; [done|]].
    { apply appends_set_child_index; [|done]. by apply appends_add_child_indices. }
    eapply shaped_list.
    + simpl. by rewrite list_lookup_alter_eq, Hvd2.
    + done.
    + simpl. by rewrite lookup_app_r, Nat.sub_diag by lia.
    + eapply shaped_for_extends; [|exact Hshape].
      eapply extends_trans; [apply (extends_add_child_indices [child])|].
      by eapply extends_set_child_index.
Qed.

Lemma allocate_columns_fit ts :
  forall seg roots seg',
    wf_segment seg -> allocate_columns ts seg = (Ok roots, seg') ->
    wf_segment seg' /\ appends seg seg' /\ Forall2 (shaped_for seg') ts roots.
Proof.
  induction ts as [|t ts IH]; intros seg roots seg' Hwf E; simpl in E.
  - injection E as <- <-. split; [done|]. split; [apply appends_refl|constructor].
  - apply bind_Ok_inv in E as (index & seg1 & E1 & E).
    apply bind_Ok_inv in E as (rest & seg2 & E2 & E). injection E as <- <-.
    pose proof (keeps_wf_allocate_column _ _ _ _ Hwf E1) as Hwf1.
    destruct (allocate_column_fits t _ _ _ Hwf E1) as (Happ1 & _ & Hshape).
    destruct (IH _ _ _ Hwf1 E2) as (Hwf2 & Happ2 & Hrest).
    split; [done|]. split; [by eapply appends_trans|].
    constructor; [|done].
    eapply shaped_for_extends; [|exact Hshape]. by apply appends_extends.
Qed.

Lemma extends_with_chunk_data f seg : extends seg (with_chunk_data f seg).
Proof. constructor; simpl; eauto. Qed.

(** [AllocateNewChunk] returns and leaves a segment that is ready, with an
    empty last chunk. *)
Lemma AllocateNewChunk_ready seg :
  wf_segment seg ->
  exists seg',
    AllocateNewChunk seg = (Ok tt, seg') /\ ready (seg_types seg) seg' /\
    exists roots,
      chunk_data seg' = chunk_data seg ++ [{| cm_vector_data := roots; cm_count := 0 |}].
Proof.
  intros Hwf.
  destruct (allocate_columns_returns (seg_types seg) seg)
    as (roots & seg1 & E1 & Hchunks1 & _ & Htypes1).
  destruct (allocate_columns_fit _ _ _ _ Hwf E1) as (Hwf1 & _ & Hroots).
  unfold AllocateNewChunk.
  rewrite (bind_returns _ _ seg (seg_types seg) seg) by done.
  rewrite (bind_returns _ _ seg roots seg1 E1).
  eexists. split; [reflexivity|]. split; [|exists roots; simpl; by rewrite Hchunks1].
  split; [|split; [done|]].
  - destruct Hwf1 as [? ? ?]. by constructor.
  - eexists. split; [simpl; apply last_snoc|]. simpl.
    eapply Forall2_impl; [exact Hroots|]. intros t root.
    apply shaped_for_extends, extends_with_chunk_data.
Qed.

(** The columns of a chunk are copied without an error. *)
Lemma append_columns_returns memory formats data offset append_amount ts functions roots :
  0 < STANDARD_VECTOR_SIZE ->
  Forall2 (fun t f => GetCopyFunction t = Ok f) ts functions ->
  Forall2 vector_shaped ts data ->
  length ts <= length formats ->
  forall n vector_idx seg,
    vector_idx + n <= length ts ->
    wf_segment seg -> Forall2 (shaped_for seg) ts roots ->
    exists seg',
      append_columns n vector_idx functions memory roots formats data offset
        append_amount seg = (Ok tt, seg') /\
      wf_segment seg' /\ extends seg seg'.
Proof.
  intros Hpos Hfun Hdata Hformats n.
  induction n as [|n IH]; intros k seg Hk Hwf Hroots.
  - simpl. eexists. split; [done|]. split; [done|apply extends_refl].
  - destruct (lookup_lt_is_Some_2 ts k ltac:(lia)) as [t Ht].
    destruct (Forall2_lookup_l _ _ _ _ _ Hfun Ht) as (f & Hf & Hcopy).
    destruct (Forall2_lookup_l _ _ _ _ _ Hdata Ht) as (source & Hsource & Hvshape).
    destruct (Forall2_lookup_l _ _ _ _ _ Hroots Ht) as (root & Hroot & Hshape).
    destruct (lookup_lt_is_Some_2 formats k ltac:(lia)) as [format Hformat].
    cbn [append_columns].
    rewrite (bind_returns _ _ seg f seg) by (unfold reading, at_index; by rewrite Hf).
    rewrite (bind_returns _ _ seg root seg) by (unfold reading, at_index; by rewrite Hroot).
    rewrite (bind_returns _ _ seg format seg)
      by (unfold reading, at_index; by rewrite Hformat).
    rewrite (bind_returns _ _ seg source seg)
      by (unfold reading, at_index; by rewrite Hsource).
    destruct (call_copy_function_returns Hpos t f memory root format source offset
                append_amount seg Hcopy Hwf Hshape Hvshape) as (seg1 & E1).
    rewrite (bind_returns _ _ seg tt seg1 E1).
    destruct (grows_call_copy_function Hpos _ _ _ _ _ _ _ _ _ _ Hwf E1) as [Hwf1 Hext1].
    destruct (IH (S k) seg1 ltac:(lia) Hwf1) as (seg2 & E2 & Hwf2 & Hext2).
    { eapply Forall2_impl; [exact Hroots|]. intros ? ?. by apply shaped_for_extends. }
    exists seg2. split; [done|]. split; [done|]. by eapply extends_trans.
Qed.

(** One turn of the append loop writes its rows without an error. *)
Lemma append_turn_returns memory formats data offset append_amount ts functions seg chunk :
  0 < STANDARD_VECTOR_SIZE ->
  Forall2 (fun t f => GetCopyFunction t = Ok f) ts functions ->
  Forall2 vector_shaped ts data ->
  length ts <= length formats ->
  ready ts seg -> last (chunk_data seg) = Some chunk ->
  exists seg',
    (if 0 <? append_amount then
       bind (append_columns (length ts) 0 functions memory (cm_vector_data chunk)
               formats data offset append_amount) (fun _ =>
       modifying (fun seg =>
         with_chunk_data
           (alter (add_chunk_count append_amount) (length (chunk_data seg) - 1)) seg))
     else ret tt) seg = (Ok tt, seg') /\
    ready ts seg'.
Proof.
  intros Hpos Hfun Hdata Hformats (Hwf & Htypes & chunk' & Hlast' & Hroots) Hlast.
  rewrite Hlast in Hlast'. injection Hlast' as <-.
  destruct (0 <? append_amount).
  2:{ exists seg. split; [done|]. split; [done|]. split; [done|]. eauto. }
  destruct (append_columns_returns memory formats data offset append_amount ts functions
              (cm_vector_data chunk) Hpos Hfun Hdata Hformats (length ts) 0 seg
              ltac:(lia) Hwf Hroots) as (seg1 & E1 & Hwf1 & Hext1).
  rewrite (bind_returns _ _ seg tt seg1 E1).
  destruct (keeps_append_columns _ _ _ _ _ _ _ _ _ _ _ _ E1) as (Hchunks1 & _ & Htypes1).
  eexists. split; [reflexivity|].
  split; [|split; [simpl; congruence|]].
  - destruct Hwf1 as [? ? ?]. by constructor.
  - apply last_Some_app in Hlast as [pre Hpre].
    exists (add_chunk_count append_amount chunk). split.
    + simpl. rewrite Hchunks1, Hpre, alter_last. apply last_snoc.
    + simpl. eapply Forall2_impl; [exact Hroots|]. intros t root Hshape.
      eapply shaped_for_extends; [|exact Hshape].
      eapply extends_trans; [exact Hext1|apply extends_with_chunk_data].
Qed.

(** The append loop returns: on a segment that is ready, with the copy
    functions of the schema and an input of the schema, the loop ends
    without an error once it has one turn of fuel for every remaining row
    and one more for a full last chunk. *)
Lemma Append_loop_returns memory formats data input_size ts functions :
  0 < STANDARD_VECTOR_SIZE ->
  Forall2 (fun t f => GetCopyFunction t = Ok f) ts functions ->
  Forall2 vector_shaped ts data ->
  length ts <= length formats ->
  forall fuel remaining seg,
    ready ts seg ->
    (forall chunk, last (chunk_data seg) = Some chunk ->
       remaining + (if cm_count chunk <? STANDARD_VECTOR_SIZE then 0 else 1) <= fuel) ->
    exists seg',
      Append_loop fuel (length ts) functions memory formats data input_size remaining seg
      = (Ok tt, seg') /\
      ready ts seg'.
Proof.
  intros Hpos Hfun Hdata Hformats fuel.
  induction fuel as [|fuel IH]; intros remaining seg Hready Hfuel.
  - destruct Hready as (Hwf & Htypes & chunk & Hlast & Hroots).
    specialize (Hfuel chunk Hlast). assert (remaining = 0) as -> by lia.
    exists seg. split; [done|]. split; [done|]. split; [done|]. eauto.
  - cbn [Append_loop]. destruct (Nat.eqb_spec remaining 0) as [->|Hrem].
    { exists seg. split; [done|]. done. }
    pose proof Hready as (Hwf & Htypes & chunk & Hlast & Hroots).
    specialize (Hfuel chunk Hlast).
    rewrite (bind_returns _ _ seg chunk seg) by (unfold reading; by rewrite Hlast).
    set (append_amount := min remaining (STANDARD_VECTOR_SIZE - cm_count chunk)) in *.
    destruct (append_turn_returns memory formats data (input_size - remaining)
                append_amount ts functions seg chunk Hpos Hfun Hdata Hformats Hready Hlast)
      as (seg1 & E1 & Hready1).
    rewrite (bind_returns _ _ seg tt seg1 E1).
    destruct (Nat.ltb_spec 0 (remaining - append_amount)) as [Hmore|Hdone].
    + destruct Hready1 as (Hwf1 & Htypes1 & _).
      destruct (AllocateNewChunk_ready seg1 Hwf1) as (seg2 & E2 & Hready2 & roots & Hchunks2).
      rewrite (bind_returns _ _ seg1 tt seg2 E2). rewrite Htypes1 in Hready2.
      apply IH; [done|]. intros chunk2 Hlast2.
      rewrite Hchunks2, last_snoc in Hlast2. injection Hlast2 as <-. simpl.
      destruct (Nat.ltb_spec 0 STANDARD_VECTOR_SIZE) as [_|?]; [|lia].
      destruct (Nat.ltb_spec (cm_count chunk) STANDARD_VECTOR_SIZE); lia.
    + exists seg1. split; [done|]. done.
Qed.

(** *** [Append] returns *)

Lemma vector_shaped_Flatten t n v : vector_shaped t v -> vector_shaped t (Flatten n v).
Proof.
  destruct v as [vt f size children].
  inversion 1; subst; simpl in *; subst; by econstructor.
Qed.

Lemma unify_columns_returns ts :
  forall n vector_idx input formats,
    Forall2 vector_shaped ts (dc_data input) ->
    vector_idx + n <= length ts -> length ts <= length formats ->
    exists data formats',
      unify_columns n vector_idx input formats = Ok (data, formats') /\
      Forall2 vector_shaped ts data /\ length formats' = length formats.
Proof.
  induction n as [|n IH]; intros k input formats Hdata Hk Hformats; simpl.
  - by eexists _, _.
  - destruct (lookup_lt_is_Some_2 ts k ltac:(lia)) as [t Ht].
    destruct (Forall2_lookup_l _ _ _ _ _ Hdata Ht) as (v & Hv & Hshape).
    rewrite Hv. rewrite bool_decide_true by lia.
    set (v' := if IsComplexType (GetType v) then Flatten (dc_size input) v else v).
    assert (vector_shaped t v') as Hshape'.
    { subst v'. destruct (IsComplexType _); [by apply vector_shaped_Flatten|done]. }
    edestruct (IH (S k)) as (data & formats' & E & Hdata' & Hlen); [| | |].
    4:{ exists data, formats'. split; [exact E|]. split; [done|].
        rewrite Hlen, length_insert. done. }
    + simpl. rewrite <- (list_insert_id ts k t Ht). by apply Forall2_insert.
    + lia.
    + by rewrite length_insert.
Qed.

Lemma ready_usable ts seg : ready ts seg -> usable ts seg.
Proof.
  intros (Hwf & Htypes & chunk & Hlast & Hroots). split; [done|]. split; [done|].
  intros chunk' Hlast'. congruence.
Qed.

Lemma appending_appendable this : appending this -> appendable this.
Proof.
  intros (Hfin & Hfun & seg & Hlast & Hready). split; [done|]. split; [done|].
  intros s Hs. rewrite Hlast in Hs. injection Hs as <-.
  exists seg. split; [done|]. by apply ready_usable.
Qed.

Lemma ready_with_seg_count ts n seg : ready ts seg -> ready ts (with_seg_count n seg).
Proof.
  intros (Hwf & Htypes & chunk & Hlast & Hroots). split; [|split; [done|]].
  - destruct Hwf as [? ? ?]. by constructor.
  - exists chunk. split; [done|].
    eapply Forall2_impl; [exact Hroots|]. intros t root.
    apply shaped_for_extends. constructor; simpl; eauto.
Qed.

Lemma on_back_segment_last {A} (m : SegM A) this seg r seg' :
  last (segments this) = Some (Some seg) -> m seg = (r, seg') ->
  exists this',
    on_back_segment m this = (r, this') /\
    last (segments this') = Some (Some seg') /\
    (forall pre, segments this = pre ++ [Some seg] ->
                 segments this' = pre ++ [Some seg']) /\
    count this' = count this /\ types this' = types this /\
    copy_functions this' = copy_functions this /\
    finished_append this' = finished_append this /\
    allocator this' = allocator this.
Proof.
  intros Hlast E. unfold on_back_segment. rewrite Hlast, E.
  eexists. split; [reflexivity|].
  pose proof Hlast as Hlast'. apply last_Some_app in Hlast' as [pre Hpre].
  assert (<[length (segments this) - 1 := Some seg']> (segments this) = pre ++ [Some seg'])
    as Hins.
  { rewrite Hpre, length_app. simpl.
    replace (length pre + 1 - 1) with (length pre + 0) by lia.
    by rewrite insert_app_r. }
  simpl. rewrite Hins. split; [apply last_snoc|]. split; [|done].
  intros pre' Hpre'. rewrite Hpre in Hpre'. by apply app_inj_tail in Hpre' as [-> _].
Qed.

Lemma shaped_chunk_types ts data :
  Forall2 vector_shaped ts data -> map GetType data = ts.
Proof.
  induction 1 as [|t v ts data Hv _ IH]; [done|].
  simpl. by rewrite (vector_shaped_type _ _ Hv), IH.
Qed.

(** [Append] returns: on a collection whose last segment is ready, for an
    input of the schema and a state with a format per column. *)
Lemma Append_returns this state input :
  0 < STANDARD_VECTOR_SIZE ->
  appending this ->
  Forall2 vector_shaped (types this) (dc_data input) ->
  length (types this) <= length (as_vector_data state) ->
  exists this' state',
    Append this state input = (Ok tt, this', state') /\ appending this'.
Proof.
  intros Hpos (Hfin & Hfun & seg & Hlast & Hready) Hinput Hstate.
  unfold Append, D_ASSERT. rewrite Hfin. simpl.
  replace (types_eqb (types this) (GetTypes input)) with true.
  2:{ symmetry. apply types_eqb_eq. unfold GetTypes. by rewrite (shaped_chunk_types _ _ Hinput). }
  destruct (unify_columns_returns (types this) (length (types this)) 0 input
              (as_vector_data state) Hinput ltac:(lia) Hstate)
    as (data & formats & -> & Hdata & Hformats).
  destruct (Append_loop_returns (dc_strings input) formats data (dc_size input)
              (types this) (copy_functions this) Hpos Hfun Hdata ltac:(lia)
              (dc_size input + 1) (dc_size input) seg Hready) as (seg1 & E1 & Hready1).
  { intros chunk _. destruct (_ <? _); lia. }
  edestruct (on_back_segment_last
               (bind (Append_loop (dc_size input + 1) (length (types this))
                        (copy_functions this) (dc_strings input) formats data
                        (dc_size input) (dc_size input))
                     (fun _ => modifying (fun seg =>
                        with_seg_count (seg_count seg + dc_size input) seg)))
               this seg (Ok tt)) as (this1 & -> & Hlast1 & _ & _ & Htypes1 & Hfun1 & Hfin1 & _);
    [exact Hlast|by rewrite (bind_returns _ _ seg tt seg1 E1)|].
  eexists _, _. split; [reflexivity|].
  split; [simpl; congruence|]. split; [simpl; by rewrite Htypes1, Hfun1|].
  eexists. split; [exact Hlast1|]. simpl. rewrite Htypes1.
  by apply ready_with_seg_count.
Qed.

Lemma wf_new_segment_usable ts : usable ts (new_segment ts).
Proof.
  split; [apply wf_new_segment|]. split; [done|]. by intros chunk.
Qed.

(** [InitializeAppend] returns and leaves the last segment ready: the
    segments in front of it are untouched, and the last one (a new one when
    there was none) has the same chunks, or one empty chunk when it had
    none. *)
Lemma InitializeAppend_returns this state :
  appendable this ->
  exists this' pre seg seg',
    InitializeAppend this state =
      (Ok tt, this',
       {| as_vector_data :=
            resize (length (types this)) default_format (as_vector_data state) |}) /\
    appending this' /\
    count this' = count this /\ types this' = types this /\
    (if bool_decide (segments this = []) then [Some (new_segment (types this))]
     else segments this) = pre ++ [Some seg] /\
    segments this' = pre ++ [Some seg'] /\
    seg_count seg' = seg_count seg /\
    chunk_counts seg' =
      chunk_counts seg ++ (if bool_decide (chunk_data seg = []) then [0] else []).
Proof.
  intros (Hfin & Hfun & Hlast).
  unfold InitializeAppend, D_ASSERT. rewrite Hfin. simpl.
  set (this1 := if bool_decide (segments this = []) then CreateSegment this else this).
  assert (count this1 = count this /\ types this1 = types this /\
          copy_functions this1 = copy_functions this /\
          finished_append this1 = finished_append this /\
          segments this1 =
            (if bool_decide (segments this = []) then [Some (new_segment (types this))]
             else segments this)) as (Hc1 & Ht1 & Hf1 & Hfin1 & Hs1).
  { subst this1. destruct (bool_decide_reflect (segments this = [])) as [E|E]; [|done].
    unfold CreateSegment. simpl. by rewrite E. }
  assert (exists pre seg, segments this1 = pre ++ [Some seg] /\ usable (types this) seg)
    as (pre & seg & Hpre & Husable).
  { rewrite Hs1. destruct (bool_decide_reflect (segments this = [])) as [E|E].
    - exists [], (new_segment (types this)). split; [done|apply wf_new_segment_usable].
    - destruct (segments this) as [|s0 l] eqn:Hs; [done|].
      destruct (last (s0 :: l)) as [s|] eqn:Hl.
      + destruct (Hlast s eq_refl) as (seg & -> & Hu).
        apply last_Some_app in Hl as [pre ->]. eauto.
      + by apply last_None in Hl. }
  destruct Husable as (Hwf & Htypes & Hroots).
  assert (exists seg',
            bind (reading (fun seg => Ok (chunk_data seg))) (fun chunks =>
              if bool_decide (chunks = []) then AllocateNewChunk else ret tt) seg
            = (Ok tt, seg') /\
            ready (types this) seg' /\ seg_count seg' = seg_count seg /\
            chunk_counts seg' =
              chunk_counts seg ++ (if bool_decide (chunk_data seg = []) then [0] else []))
    as (seg' & E & Hready & Hcount & Hsum).
  { rewrite (bind_returns _ _ seg (chunk_data seg) seg) by done.
    destruct (bool_decide_reflect (chunk_data seg = [])) as [Hnone|Hsome].
    - destruct (AllocateNewChunk_ready seg Hwf) as (seg' & E & Hready & roots & Hchunks).
      destruct (AllocateNewChunk_chunks seg) as (r2 & s2 & E2 & _ & Hcount & _).
      rewrite E in E2. injection E2 as <-.
      exists seg'. split; [done|]. rewrite Htypes in Hready. split; [done|].
      split; [done|]. unfold chunk_counts. rewrite Hchunks, map_app. done.
    - exists seg. split; [done|]. split; [|by rewrite app_nil_r].
      split; [done|]. split; [done|].
      destruct (last (chunk_data seg)) as [chunk|] eqn:Hl.
      + exists chunk. split; [done|]. by apply Hroots.
      + by apply last_None in Hl. }
  assert (last (segments this1) = Some (Some seg)) as Hlast1 by (rewrite Hpre; apply last_snoc).
  destruct (on_back_segment_last _ this1 seg (Ok tt) seg' Hlast1 E)
    as (this2 & -> & Hlast2 & Hsegs2 & Hc2 & Ht2 & Hf2 & Hfin2 & _).
  exists this2, pre, seg, seg'. split; [done|].
  split.
  { split; [congruence|]. split; [by rewrite Ht2, Hf2, Ht1, Hf1|].
    exists seg'. split; [done|]. by rewrite Ht2, Ht1. }
  split; [congruence|]. split; [congruence|]. split; [by rewrite <- Hs1|].
  split; [by apply Hsegs2|]. done.
Qed.

(** *** The counts add up *)

(** The chunks and the count of the last segment after an [Append] that
    returns. *)
Lemma Append_sums this state input this' state' :
  Append this state input = (Ok tt, this', state') ->
  exists pre seg seg',
    segments this = pre ++ [Some seg] /\
    segments this' = pre ++ [Some seg'] /\
    count this' = count this + dc_size input /\
    seg_count seg' = seg_count seg + dc_size input /\
    sum_list (chunk_counts seg') = sum_list (chunk_counts seg) + dc_size input /\
    (Forall (fun n => n <= STANDARD_VECTOR_SIZE) (chunk_counts seg) ->
     Forall (fun n => n <= STANDARD_VECTOR_SIZE) (chunk_counts seg')).
Proof.
  intros E.
  destruct (Append_counts _ _ _ _ _ E) as (Hcount & seg0 & seg0' & Hl & Hl' & Hsc & _).
  destruct (Append_chunks _ _ _ _ _ E) as (pre & seg & seg' & Hpre & Hpre' & Hzero & Hpos).
  rewrite Hpre, last_snoc in Hl. injection Hl as <-.
  rewrite Hpre', last_snoc in Hl'. injection Hl' as <-.
  exists pre, seg, seg'. split; [done|]. split; [done|]. split; [done|]. split; [done|].
  destruct (Nat.eq_dec (dc_size input) 0) as [E0|E0].
  { rewrite (Hzero E0), E0. split; [lia|done]. }
  destruct (Hpos ltac:(lia)) as (before & c & l & Hsplit & Hsplit' & Hfilled).
  rewrite Hsplit, Hsplit', !sum_list_with_app. simpl.
  rewrite (filled_sum _ _ _ Hfilled). split; [lia|].
  intros Hbound. apply Forall_app in Hbound as [Hbefore Hc].
  apply (Forall_singleton (fun n => n <= STANDARD_VECTOR_SIZE)) in Hc.
  apply Forall_app. split; [done|]. by eapply filled_bounded.
Qed.

(** [Append(DataChunk &)] returns: on a collection that takes appends and
    whose counts agree, for an input of the schema; and the collection is
    such a collection again. *)
Lemma Append_chunk_returns this input :
  0 < STANDARD_VECTOR_SIZE ->
  appendable this -> counted this ->
  Forall2 vector_shaped (types this) (dc_data input) ->
  exists this',
    Append_chunk this input = (Ok tt, this') /\
    appending this' /\ counted this' /\ types this' = types this.
Proof.
  intros Hpos Happendable [Hsegs Htotal] Hinput.
  destruct (InitializeAppend_returns this {| as_vector_data := [] |} Happendable)
    as (this1 & pre & seg & seg1 & E1 & Happending1 & Hcount1 & Htypes1 & Hpre & Hpre1
        & Hsc1 & Hcc1).
  unfold Append_chunk. rewrite E1.
  destruct (Append_returns this1
              {| as_vector_data := resize (length (types this)) default_format [] |}
              input Hpos Happending1) as (this2 & state2 & E2 & Happending2).
  { by rewrite Htypes1. }
  { simpl. rewrite length_resize, Htypes1. done. }
  cbn [as_vector_data]. rewrite E2. exists this2. split; [done|]. split; [done|].
  destruct (Append_sums _ _ _ _ _ E2)
    as (pre' & seg' & seg2 & Hpre' & Hpre2 & Hcount2 & Hsc2 & Hsum2 & Hbound2).
  rewrite Hpre1 in Hpre'. apply app_inj_tail in Hpre' as [<- [= <-]].
  assert (Forall segment_counted (pre ++ [Some seg]) /\
          sum_list (map segment_rows (pre ++ [Some seg])) = count this) as [Hall Hrows].
  { rewrite <- Hpre. destruct (bool_decide_reflect (segments this = [])) as [E|E].
    - rewrite E in Htotal. split; [|done]. repeat constructor.
      exists (new_segment (types this)). split; [done|]. split; [done|]. constructor.
    - done. }
  apply Forall_app in Hall as [Hfront Hseg].
  apply (Forall_singleton segment_counted) in Hseg as (seg0 & [= <-] & Hsum & Hbound).
  rewrite map_app, sum_list_with_app in Hrows. simpl in Hrows.
  assert (sum_list (chunk_counts seg1) = sum_list (chunk_counts seg) /\
          Forall (fun n => n <= STANDARD_VECTOR_SIZE) (chunk_counts seg1)) as [Hsum1 Hbound1].
  { rewrite Hcc1. destruct (bool_decide (chunk_data seg = [])).
    - rewrite sum_list_with_app. simpl. split; [lia|].
      apply Forall_app. split; [done|]. repeat constructor. lia.
    - by rewrite app_nil_r. }
  split; [split|].
  - rewrite Hpre2. apply Forall_app. split; [done|]. repeat constructor.
    exists seg2. split; [done|]. split; [lia|]. by apply Hbound2.
  - rewrite Hpre2, map_app, sum_list_with_app. simpl. lia.
  - apply Append_Ok_inv in E2 as (_ & _ & _ & _ & _ & _ & _ & _ & _ & Ht & _). congruence.
Qed.

(** *** Histories return *)

Lemma push_copy_functions_returns ts :
  Forall (fun t => exists f, GetCopyFunction t = Ok f) ts ->
  forall acc,
    exists fs,
      push_copy_functions ts acc = Ok (acc ++ fs) /\
      Forall2 (fun t f => GetCopyFunction t = Ok f) ts fs.
Proof.
  induction 1 as [|t ts [f Hf] _ IH]; intros acc; simpl.
  - exists []. by rewrite app_nil_r.
  - rewrite Hf. destruct (IH (acc ++ [f])) as (fs & -> & Hfs).
    exists (f :: fs). rewrite <- app_assoc. split; [done|]. by constructor.
Qed.

(** A collection fresh from the constructor takes appends. *)
Lemma ColumnDataCollection_shared_returns allocator_p types_p :
  types_p <> [] ->
  Forall (fun t => exists f, GetCopyFunction t = Ok f) types_p ->
  exists this,
    ColumnDataCollection_shared allocator_p types_p = Ok this /\
    appendable this /\ counted this /\ types this = types_p.
Proof.
  intros Hne Hsupported.
  destruct (push_copy_functions_returns _ Hsupported []) as (fs & E & Hfs).
  unfold ColumnDataCollection_shared, Initialize, D_ASSERT.
  rewrite bool_decide_false by done. simpl. rewrite E. simpl.
  eexists. split; [reflexivity|]. split; [|split; [|done]].
  - split; [done|]. split; [done|]. by intros s.
  - split; [constructor|done].
Qed.

Lemma Verify_loop_returns segs :
  Forall segment_counted segs ->
  forall total,
    Verify_loop segs total = Ok (total + sum_list (map segment_rows segs)).
Proof.
  induction 1 as [|s segs (seg & -> & Hsum & _) _ IH]; intros total; simpl.
  - by rewrite Nat.add_0_r.
  - unfold Segment_Verify, D_ASSERT. fold (chunk_counts seg).
    rewrite (proj2 (Nat.eqb_eq _ _) Hsum), IH. f_equal. lia.
Qed.

(** [Combine] returns: for two collections that take appends and whose
    counts agree, of one schema; and [this] is such a collection again. *)
Lemma Combine_returns DEBUG this other :
  appendable this -> counted this -> appendable other -> counted other ->
  types other = types this ->
  exists this' other',
    Combine DEBUG this other = (Ok tt, this', other') /\
    appendable this' /\ counted this' /\ types this' = types this.
Proof.
  intros (Hfin & Hfun & Hlast) [Hsegs Htotal] (_ & _ & Hlast') [Hsegs' Htotal'] Htypes.
  unfold Combine. destruct (count other =? 0).
  { eexists _, _. split; [reflexivity|]. done. }
  rewrite (proj2 (types_eqb_eq _ _) (eq_sym Htypes)). simpl.
  assert (Forall segment_counted (segments this ++ segments other)) as Hall
    by (by apply Forall_app).
  assert (Verify DEBUG
            (with_segments (fun s => s ++ segments other)
               (with_count (count this + count other) this)) = Ok tt) as ->.
  { unfold Verify. destruct DEBUG; [|done]. simpl.
    rewrite (Verify_loop_returns _ Hall). simpl.
    rewrite map_app, sum_list_with_app, Htotal, Htotal'. unfold D_ASSERT.
    by rewrite Nat.eqb_refl. }
  eexists _, _. split; [reflexivity|]. split; [|split; [|done]].
  - split; [done|]. split; [done|]. simpl. intros s Hs.
    destruct (segments other) as [|s0 l] eqn:Ho.
    + rewrite app_nil_r in Hs. by apply Hlast.
    + rewrite last_app in Hs. destruct (last (s0 :: l)) as [s'|] eqn:Hl.
      * injection Hs as <-. rewrite <- Htypes. by apply Hlast'.
      * by apply last_None in Hl.
  - split; [done|]. simpl. rewrite map_app, sum_list_with_app. lia.
Qed.

(** Every well-typed history returns a collection, which takes further
    appends and whose counts agree. *)
Lemma replay_returns DEBUG h :
  0 < STANDARD_VECTOR_SIZE -> well_typed h ->
  exists this,
    replay DEBUG h = Some this /\
    appendable this /\ counted this /\ types this = history_types h.
Proof.
  intros Hpos.
  induction h as [a ts|before IH input|before IH1 peer IH2]; simpl.
  - intros [Hne Hsupported].
    destruct (ColumnDataCollection_shared_returns a ts Hne Hsupported)
      as (this & -> & ? & ? & ?). eauto.
  - intros [Hbefore Hinput].
    destruct (IH Hbefore) as (this & -> & Happendable & Hcounted & Htypes).
    rewrite <- Htypes in Hinput.
    destruct (Append_chunk_returns this input Hpos Happendable Hcounted Hinput)
      as (this' & -> & Happending & Hcounted' & Htypes').
    exists this'. split; [done|]. split; [by apply appending_appendable|].
    split; [done|congruence].
  - intros (Hbefore & Hpeer & Hsame).
    destruct (IH1 Hbefore) as (this & -> & Happendable & Hcounted & Htypes).
    destruct (IH2 Hpeer) as (other & -> & Happendable' & Hcounted' & Htypes').
    destruct (Combine_returns DEBUG this other Happendable Hcounted Happendable' Hcounted'
                ltac:(congruence)) as (this' & other' & -> & ? & ? & ?).
    exists this'. split; [done|]. split; [done|]. split; [done|congruence].
Qed.

(** *** Counts and chunks *)

(** X21. An [Append] that returns has added the size of the input to the
    count of the collection and to the count of the last segment.  At the
    end of any history of appends and combines, in which a peer is not used
    again after it was combined, the count of the collection is the sum of
    the sizes of all chunks that were appended to it or to a collection that
    was combined into it.  Every well-typed history does return a
    collection, and there the counts of the chunks and of the segments add
    up to the count of the collection as well. *)
Theorem count_is_the_sum_of_appended_sizes :
  (forall this state input this' state',
      Append this state input = (Ok tt, this', state') ->
      Count this' = Count this + dc_size input /\
      exists seg seg',
        last (segments this) = Some (Some seg) /\
        last (segments this') = Some (Some seg') /\
        seg_count seg' = seg_count seg + dc_size input /\
        length (segments this') = length (segments this)) /\
  (forall DEBUG h this,
      replay DEBUG h = Some this ->
      Count this = sum_list (map dc_size (appended_chunks h))) /\
  (0 < STANDARD_VECTOR_SIZE ->
   forall DEBUG h,
     well_typed h ->
     exists this,
       replay DEBUG h = Some this /\
       Count this = sum_list (map dc_size (appended_chunks h)) /\
       counted this).
Proof.
  split; [|split].
  - intros. by eapply Append_counts.
  - intros. by eapply replay_count.
  - intros Hpos DEBUG h Hh.
    destruct (replay_returns DEBUG h Hpos Hh) as (this & E & _ & Hcounted & _).
    exists this. split; [done|]. split; [by eapply replay_count|done].
Qed.


(** *** The serial scan *)

Lemma chunk_schedule_elem s counts :
  forall j row x,
    x ∈ chunk_schedule s j row counts ->
    exists k row', x = ScanAt (j + k) s row' /\ k < length counts.
Proof.
  induction counts as [|c counts IH]; intros j row x Hx; simpl in Hx.
  - by apply elem_of_nil in Hx.
  - apply elem_of_cons in Hx as [->|Hx].
    + exists 0, row. rewrite Nat.add_0_r. split; [done|simpl; lia].
    + destruct (IH _ _ _ Hx) as (k & row' & -> & Hk).
      exists (S k), row'. split; [f_equal; lia|simpl; lia].
Qed.

Lemma schedule_elem segs :
  forall s row x,
    x ∈ schedule s row segs ->
    exists k j row' counts,
      x = ScanAt j (s + k) row' /\ segs !! k = Some counts /\ j < length counts.
Proof.
  induction segs as [|counts segs IH]; intros s row x Hx; simpl in Hx.
  - by apply elem_of_nil in Hx.
  - apply elem_of_app in Hx as [Hx|Hx].
    + destruct (chunk_schedule_elem _ _ _ _ _ Hx) as (k & row' & -> & Hk).
      exists 0, k, row', counts. rewrite Nat.add_0_r. done.
    + destruct (IH _ _ _ Hx) as (k & j & row' & counts' & -> & Hk & Hj).
      exists (S k), j, row', counts'. split; [f_equal; lia|done].
Qed.

Lemma pending_valid segs s j row :
  Forall (valid_at segs) (pending segs s j row).
Proof.
  apply Forall_forall. intros x Hx. unfold pending in Hx.
  destruct (segs !! s) as [counts|] eqn:Hs; [|by apply elem_of_nil in Hx].
  apply elem_of_app in Hx as [Hx|Hx].
  - destruct (chunk_schedule_elem _ _ _ _ _ Hx) as (k & row' & -> & Hk).
    exists counts. split; [done|]. rewrite length_drop in Hk. lia.
  - destruct (schedule_elem _ _ _ _ Hx) as (k & j' & row' & counts' & -> & Hk & Hj).
    exists counts'. split; [|done]. by rewrite lookup_drop in Hk.
Qed.

Lemma schedule_valid segs : Forall (valid_at segs) (schedule 0 0 segs).
Proof. rewrite <- pending_start. apply pending_valid. Qed.

(** A position of the schedule names a chunk of the collection, and
    [ReadChunk] reads it. *)
Lemma valid_at_read this ids chunk_idx segment_idx row :
  all_present this ->
  valid_at (counts_of this) (ScanAt chunk_idx segment_idx row) ->
  exists segment chunk pinned,
    segments this !! segment_idx = Some (Some segment) /\
    chunk_data segment !! chunk_idx = Some chunk /\
    ReadChunk segment chunk_idx ids
    = Ok (read_at this ids (ScanAt chunk_idx segment_idx row), pinned) /\
    sc_size (read_at this ids (ScanAt chunk_idx segment_idx row)) = cm_count chunk.
Proof.
  intros Hpresent (counts & Hcounts & Hlt).
  unfold counts_of in Hcounts. rewrite list_lookup_fmap in Hcounts.
  destruct (segments this !! segment_idx) as [s|] eqn:Hs; [|done].
  pose proof (proj1 (Forall_lookup _ _) Hpresent _ _ Hs) as [segment ->].
  injection Hcounts as <-. simpl in Hlt. rewrite length_map in Hlt.
  destruct (lookup_lt_is_Some_2 _ _ Hlt) as [chunk Hchunk].
  unfold read_at. rewrite Hs. unfold ReadChunk. rewrite Hchunk.
  eexists segment, chunk, _. split; [done|]. split; [done|].
  rewrite Hchunk. split; reflexivity.
Qed.

Lemma NextScanIndex_loop_projection this :
  forall fuel state r state',
    NextScanIndex_loop fuel this state = (r, state') ->
    column_ids state' = column_ids state /\ properties state' = properties state.
Proof.
  induction fuel as [|fuel IH]; intros state r state'; simpl;
    destruct (segments this !! segment_index state) as [[seg|]|];
    try (by intros [= _ <-]);
    case_bool_decide; try (by intros [= _ <-]).
  case_bool_decide; [by intros [= _ <-]|].
  intros E. by apply IH in E as [-> ->].
Qed.

(** [NextScanIndex] leaves the projection and the properties of the state
    alone. *)
Lemma NextScanIndex_projection this state r state' :
  NextScanIndex this state = (r, state') ->
  column_ids state' = column_ids state /\ properties state' = properties state.
Proof.
  unfold NextScanIndex. case_bool_decide; [by intros [= _ <-]|].
  destruct (NextScanIndex_loop _ _ _) as [r1 state1] eqn:E.
  apply NextScanIndex_loop_projection in E as [E1 E2]. simpl in E1, E2.
  destruct r1 as [[|]| |]; try (by intros [= _ <-]).
  destruct (segments this !! segment_index state1) as [[seg|]|];
    try (by intros [= _ <-]).
  destruct (chunk_data seg !! chunk_index state1); by intros [= _ <-].
Qed.

(** One call of the serial [Scan]: it reads the chunk at the head of what
    is pending and leaves the rest pending; with nothing pending it returns
    false and stays there. *)
Lemma Scan_step this state :
  all_present this ->
  exists r state',
    Scan this state = (Ok r, state') /\
    column_ids state' = column_ids state /\
    properties state' = properties state /\
    next_row_index state'
      + pending_rows (counts_of this) (segment_index state') (chunk_index state')
    = next_row_index state
      + pending_rows (counts_of this) (segment_index state) (chunk_index state) /\
    match pending (counts_of this) (segment_index state) (chunk_index state)
            (next_row_index state) with
    | [] =>
        r = None /\
        pending (counts_of this) (segment_index state') (chunk_index state')
          (next_row_index state') = []
    | x :: rest =>
        r = Some (read_at this (column_ids state) x) /\
        pending (counts_of this) (segment_index state') (chunk_index state')
          (next_row_index state') = rest
    end.
Proof.
  intros Hpresent.
  destruct (NextScanIndex_step this state Hpresent)
    as (r & state1 & E & _ & _ & Hrows & Hpending).
  pose proof (NextScanIndex_projection _ _ _ _ E) as [Hids Hprops].
  pose proof (pending_valid (counts_of this) (segment_index state) (chunk_index state)
                (next_row_index state)) as Hvalid.
  unfold Scan. rewrite E.
  destruct (pending (counts_of this) (segment_index state) (chunk_index state)
              (next_row_index state)) as [|x rest].
  - destruct Hpending as [-> Hnil]. eexists _, _. split; [reflexivity|]. done.
  - destruct Hpending as [-> Hrest].
    apply Forall_cons in Hvalid as [Hx _].
    destruct x as [?|chunk_idx segment_idx row]; [done|].
    destruct (valid_at_read this (column_ids state1) _ _ row Hpresent Hx)
      as (segment & chunk & pinned & Hs & _ & Hread & _).
    rewrite Hs, Hread. eexists _, _. split; [reflexivity|]. simpl.
    split; [done|]. split; [done|]. split; [done|]. by rewrite Hids.
Qed.

(** The outcomes of [n] calls of [Scan]: the chunks that are pending, in
    order, and false on every call after them. *)
Lemma Scan_trace_pending this :
  all_present this ->
  forall n state,
    Scan_trace n this state =
    map (fun x => Ok (Some (read_at this (column_ids state) x)))
      (take n (pending (counts_of this) (segment_index state) (chunk_index state)
                 (next_row_index state)))
    ++ replicate
         (n - length (pending (counts_of this) (segment_index state) (chunk_index state)
                        (next_row_index state)))
         (Ok None).
Proof.
  intros Hpresent n. induction n as [|n IH]; intros state; [done|].
  cbn [Scan_trace].
  destruct (Scan_step this state Hpresent) as (r & state' & -> & Hids & _ & _ & Hpending).
  rewrite IH, Hids.
  destruct (pending (counts_of this) (segment_index state) (chunk_index state)
              (next_row_index state)) as [|x rest].
  - destruct Hpending as [-> ->]. simpl. by rewrite take_nil, Nat.sub_0_r.
  - destruct Hpending as [-> ->]. done.
Qed.

Lemma chunk_schedule_read this ids s segment :
  segments this !! s = Some (Some segment) ->
  forall counts j row,
    map (read_at this ids) (chunk_schedule s j row counts) =
    map (fun chunk_idx =>
           match ReadChunk segment chunk_idx ids with
           | Ok (result, _) => result
           | _ => Reset_chunk
           end)
        (seq j (length counts)).
Proof.
  intros Hs. induction counts as [|c counts IH]; intros j row; [done|].
  simpl. rewrite Hs, IH. done.
Qed.

(** The chunks at the positions of the schedule are the chunks of the
    segments, in order. *)
Lemma schedule_read this ids :
  forall l s row,
    drop s (segments this) = l ->
    map (read_at this ids) (schedule s row (map segment_counts l)) =
    concat (map (segment_chunks ids) l).
Proof.
  induction l as [|seg l IH]; intros s row Hdrop; [done|].
  assert (segments this !! s = Some seg) as Hs.
  { rewrite <- (Nat.add_0_r s), <- lookup_drop, Hdrop. done. }
  assert (drop (S s) (segments this) = l) as Hdrop'.
  { rewrite (drop_S _ _ _ Hs) in Hdrop. by injection Hdrop. }
  simpl. rewrite map_app, (IH (S s) _ Hdrop'). f_equal.
  destruct seg as [segment|]; [|done].
  simpl. rewrite (chunk_schedule_read this ids s segment Hs), length_map. done.
Qed.

Lemma scanned_chunks_schedule this ids :
  map (read_at this ids) (schedule 0 0 (counts_of this)) = scanned_chunks this ids.
Proof. by apply schedule_read. Qed.

Lemma map_seq_lookup {A B} (f : nat -> B) (g : A -> B) (l : list A) :
  (forall j x, l !! j = Some x -> f j = g x) ->
  map f (seq 0 (length l)) = map g l.
Proof.
  intros Hfg. apply list_eq. intros j. rewrite !list_lookup_fmap.
  destruct (l !! j) as [x|] eqn:Hx.
  - rewrite lookup_seq_lt by (by eapply lookup_lt_Some). simpl. f_equal. by apply Hfg.
  - apply lookup_ge_None in Hx. by rewrite lookup_seq_ge.
Qed.

(** A chunk that is read has the row count of the chunk. *)
Lemma segment_chunks_sizes ids s :
  map sc_size (segment_chunks ids s) = segment_counts s.
Proof.
  destruct s as [segment|]; [|done]. simpl. rewrite map_map.
  apply map_seq_lookup. intros j chunk Hchunk. unfold ReadChunk. by rewrite Hchunk.
Qed.

Lemma scanned_chunks_sizes this ids :
  map sc_size (scanned_chunks this ids) = concat (counts_of this).
Proof.
  unfold scanned_chunks, counts_of.
  induction (segments this) as [|s l IH]; [done|].
  simpl. by rewrite map_app, IH, segment_chunks_sizes.
Qed.

Lemma segment_chunks_length ids s :
  length (segment_chunks ids s) = length (segment_counts s).
Proof. by rewrite <- (segment_chunks_sizes ids), length_map. Qed.

Lemma ChunkCount_loop_spec segs :
  Forall (fun s : option ColumnDataCollectionSegment => is_Some s) segs ->
  forall chunk_count,
    ChunkCount_loop segs chunk_count =
    Ok (chunk_count + length (concat (map segment_counts segs))).
Proof.
  induction 1 as [|s segs [segment ->] _ IH]; intros chunk_count; simpl.
  - by rewrite Nat.add_0_r.
  - rewrite IH, length_app, length_map. f_equal. lia.
Qed.

(** [ChunkCount] is the number of chunks in the segments. *)
Lemma ChunkCount_spec this ids :
  all_present this -> ChunkCount this = Ok (length (scanned_chunks this ids)).
Proof.
  intros Hpresent. unfold ChunkCount.
  rewrite (ChunkCount_loop_spec _ Hpresent). simpl. f_equal.
  rewrite <- (length_map sc_size), scanned_chunks_sizes. done.
Qed.

(** X1. A serial scan hands out every chunk of every segment once, in
    order, each with the row count of the chunk, and returns false on every
    call after the last chunk; the number of chunks it hands out is
    [ChunkCount()]. *)
Theorem Scan_hands_out_every_chunk_in_order (this : ColumnDataCollection)
    (column_ids_p : list nat) (properties_p : ColumnDataScanProperties) :
  all_present this ->
  (forall n,
      Scan_trace n this (InitializeScan_columns this column_ids_p properties_p) =
      map (fun chunk => Ok (Some chunk)) (take n (scanned_chunks this column_ids_p))
      ++ replicate (n - length (scanned_chunks this column_ids_p)) (Ok None)) /\
  map sc_size (scanned_chunks this column_ids_p) = concat (counts_of this) /\
  ChunkCount this = Ok (length (scanned_chunks this column_ids_p)).
Proof.
  intros Hpresent. split; [|split].
  - intros n. rewrite (Scan_trace_pending this Hpresent). simpl.
    rewrite pending_start, <- scanned_chunks_schedule, firstn_map, map_map, length_map.
    done.
  - apply scanned_chunks_sizes.
  - by apply ChunkCount_spec.
Qed.

(** *** The rows of a collection *)

(** The loop that reads all the chunks returns them, with fuel for one call
    more than there are chunks pending. *)
Lemma read_all_chunks_spec this :
  all_present this ->
  forall fuel state chunks,
    length (pending (counts_of this) (segment_index state) (chunk_index state)
              (next_row_index state)) < fuel ->
    read_all_chunks fuel this state chunks =
    Ok (chunks
        ++ map (read_at this (column_ids state))
             (pending (counts_of this) (segment_index state) (chunk_index state)
                (next_row_index state))).
Proof.
  intros Hpresent fuel. induction fuel as [|fuel IH]; intros state chunks Hfuel; [lia|].
  cbn [read_all_chunks].
  destruct (Scan_step this state Hpresent) as (r & state' & -> & Hids & _ & _ & Hpending).
  destruct (pending (counts_of this) (segment_index state) (chunk_index state)
              (next_row_index state)) as [|x rest].
  - destruct Hpending as [-> _]. by rewrite app_nil_r.
  - destruct Hpending as [-> Hrest]. simpl in Hfuel.
    rewrite IH by (rewrite Hrest; lia). rewrite Hrest, Hids, <- app_assoc. done.
Qed.

Lemma chunks_upper_bound_spec this ids :
  chunks_upper_bound this = length (scanned_chunks this ids).
Proof.
  unfold chunks_upper_bound, scanned_chunks.
  induction (segments this) as [|s l IH]; [done|].
  simpl. rewrite length_app, IH, segment_chunks_length. f_equal.
  destruct s; simpl; by rewrite ?length_map.
Qed.

Lemma create_rows_length chunks :
  forall base_row,
    length (create_rows chunks base_row) = sum_list (map sc_size chunks).
Proof.
  induction chunks as [|chunk chunks IH]; intros base_row; [done|].
  simpl. by rewrite length_app, length_map, length_seq, IH.
Qed.

(** The rows are numbered from [base_row] on, and every row lies within its
    chunk. *)
Lemma create_rows_lookup chunks :
  forall base_row i row,
    create_rows chunks base_row !! i = Some row ->
    RowIndex row = base_row + i /\
    row_index row < sc_size (row_chunk row) /\
    row_chunk row ∈ chunks.
Proof.
  induction chunks as [|chunk chunks IH]; intros base_row i row Hrow; [done|].
  simpl in Hrow. apply lookup_app_Some in Hrow as [Hrow|[Hge Hrow]].
  - rewrite list_lookup_fmap in Hrow.
    destruct (seq 0 (sc_size chunk) !! i) as [j|] eqn:Hj; [|done].
    apply lookup_seq in Hj as [-> Hlt]. injection Hrow as <-.
    unfold RowIndex. simpl. split; [done|]. split; [done|]. apply list_elem_of_here.
  - rewrite length_map, length_seq in Hge, Hrow.
    destruct (IH _ _ _ Hrow) as (Hindex & Hlt & Helem).
    split; [lia|]. split; [done|]. by apply list_elem_of_further.
Qed.

Lemma sum_zero_all_zero (l : list nat) :
  sum_list l = 0 -> Forall (fun n => n = 0) l.
Proof.
  induction l as [|n l IH]; simpl; [constructor|].
  intros E. constructor; [lia|apply IH; lia].
Qed.

Lemma create_rows_empty chunks :
  Forall (fun n => n = 0) (map sc_size chunks) ->
  forall base_row, create_rows chunks base_row = [].
Proof.
  induction chunks as [|chunk chunks IH]; intros Hzero base_row; [done|].
  simpl in Hzero. apply Forall_cons in Hzero as [Hz Hzero].
  simpl. rewrite Hz. simpl. by apply IH.
Qed.

(** X2. [GetRows] of a collection whose chunk counts add up to its count
    returns one row for every row of every chunk, in order: [Count()] rows,
    the row at position [i] has [RowIndex() = i] and lies within its
    chunk. *)
Theorem GetRows_numbers_every_row (this : ColumnDataCollection) :
  all_present this ->
  sum_list (concat (counts_of this)) = Count this ->
  exists rows,
    GetRows this = Ok rows /\
    rows = create_rows (scanned_chunks this (seq 0 (ColumnCount this))) 0 /\
    length rows = Count this /\
    forall i, i < Count this ->
      exists row,
        ColumnDataRowCollection_at rows i = Ok row /\
        RowIndex row = i /\
        row_index row < sc_size (row_chunk row).
Proof.
  intros Hpresent Hsum.
  set (ids := seq 0 (ColumnCount this)).
  assert (length (create_rows (scanned_chunks this ids) 0) = Count this) as Hlen.
  { by rewrite create_rows_length, scanned_chunks_sizes. }
  assert (GetRows this = Ok (create_rows (scanned_chunks this ids) 0)) as E.
  { unfold GetRows. destruct (Nat.eqb_spec (Count this) 0) as [Hzero|Hpos].
    - rewrite create_rows_empty; [done|].
      rewrite scanned_chunks_sizes. apply sum_zero_all_zero. lia.
    - rewrite (read_all_chunks_spec this Hpresent); simpl.
      + by rewrite pending_start, scanned_chunks_schedule.
      + rewrite pending_start, (chunks_upper_bound_spec this ids),
          <- scanned_chunks_schedule, length_map. lia. }
  eexists. split; [exact E|]. split; [done|]. split; [done|].
  intros i Hi.
  destruct (lookup_lt_is_Some_2 (create_rows (scanned_chunks this ids) 0) i)
    as [row Hrow]; [lia|].
  exists row. unfold ColumnDataRowCollection_at, at_index. rewrite Hrow.
  split; [done|]. by destruct (create_rows_lookup _ _ _ _ Hrow) as (? & ? & _).
Qed.

(** *** Scanning after [Combine] *)

Lemma all_present_app this other this' :
  segments this' = segments this ++ segments other ->
  all_present this -> all_present other -> all_present this'.
Proof. unfold all_present. intros ->. apply Forall_app_2. Qed.

(** X3. After [Combine] with a peer that holds rows, a scan of [this] hands
    out the chunks [this] had, in order, and then the chunks of the peer, in
    order; [ChunkCount()] is the sum of the two chunk counts. *)
Theorem Combine_scans_this_then_the_peer (DEBUG : bool)
    (this other this' other' : ColumnDataCollection)
    (column_ids_p : list nat) (properties_p : ColumnDataScanProperties) :
  Combine DEBUG this other = (Ok tt, this', other') ->
  Count other <> 0 ->
  all_present this -> all_present other ->
  scanned_chunks this' column_ids_p =
    scanned_chunks this column_ids_p ++ scanned_chunks other column_ids_p /\
  ChunkCount this' =
    Ok (length (scanned_chunks this column_ids_p)
        + length (scanned_chunks other column_ids_p)) /\
  forall n,
    Scan_trace n this' (InitializeScan_columns this' column_ids_p properties_p) =
    map (fun chunk => Ok (Some chunk))
      (take n (scanned_chunks this column_ids_p ++ scanned_chunks other column_ids_p))
    ++ replicate
         (n - (length (scanned_chunks this column_ids_p)
               + length (scanned_chunks other column_ids_p)))
         (Ok None).
Proof.
  intros E Hcount Hthis Hother.
  pose proof (Combine_segments _ _ _ _ _ E Hcount) as Hsegs.
  pose proof (all_present_app _ _ _ Hsegs Hthis Hother) as Hpresent.
  assert (scanned_chunks this' column_ids_p =
          scanned_chunks this column_ids_p ++ scanned_chunks other column_ids_p) as Hchunks.
  { unfold scanned_chunks. by rewrite Hsegs, map_app, concat_app. }
  split; [done|]. split.
  - rewrite (ChunkCount_spec this' column_ids_p Hpresent), Hchunks, length_app. done.
  - intros n. rewrite (Scan_trace_pending this' Hpresent). simpl.
    rewrite pending_start, <- length_app, <- Hchunks.
    rewrite <- (scanned_chunks_schedule this' column_ids_p), firstn_map, map_map,
      length_map. done.
Qed.

(** *** What [Verify] accepts *)

Lemma Verify_loop_inv segs :
  forall total total',
    Verify_loop segs total = Ok total' ->
    Forall (fun s => exists seg,
              s = Some seg /\ sum_list (chunk_counts seg) = seg_count seg) segs /\
    total' = total + sum_list (map segment_rows segs).
Proof.
  induction segs as [|[seg|] segs IH]; intros total total'; simpl.
  - intros [= <-]. split; [constructor|lia].
  - unfold Segment_Verify, D_ASSERT. fold (chunk_counts seg).
    destruct (Nat.eqb_spec (sum_list (chunk_counts seg)) (seg_count seg)) as [Hsum|_];
      [|discriminate].
    intros E. apply IH in E as [Hall ->]. split; [|lia].
    constructor; [by exists seg|done].
  - discriminate.
Qed.

Lemma Verify_loop_accepts segs :
  Forall (fun s => exists seg,
            s = Some seg /\ sum_list (chunk_counts seg) = seg_count seg) segs ->
  forall total,
    Verify_loop segs total = Ok (total + sum_list (map segment_rows segs)).
Proof.
  induction 1 as [|s segs (seg & -> & Hsum) _ IH]; intros total; simpl.
  - by rewrite Nat.add_0_r.
  - unfold Segment_Verify, D_ASSERT. fold (chunk_counts seg).
    rewrite (proj2 (Nat.eqb_eq _ _) Hsum), IH. f_equal. lia.
Qed.

(** X4. In a build with [DEBUG], [Verify] accepts exactly the collections
    that have no null segment, whose chunk counts add up to the count of
    each segment and whose segment counts add up to the count of the
    collection; without [DEBUG] it accepts every collection.  The collection
    at the end of every well-typed history is accepted. *)
Theorem Verify_accepts_when_the_counts_add_up :
  (forall this,
      Verify true this = Ok tt <->
      Forall (fun s => exists seg,
                s = Some seg /\ sum_list (chunk_counts seg) = seg_count seg)
        (segments this) /\
      sum_list (map segment_rows (segments this)) = Count this) /\
  (forall this, Verify false this = Ok tt) /\
  (0 < STANDARD_VECTOR_SIZE ->
   forall DEBUG h,
     well_typed h ->
     exists this, replay DEBUG h = Some this /\ Verify true this = Ok tt).
Proof.
  assert (forall this,
      Forall (fun s => exists seg,
                s = Some seg /\ sum_list (chunk_counts seg) = seg_count seg)
        (segments this) ->
      sum_list (map segment_rows (segments this)) = Count this ->
      Verify true this = Ok tt) as Haccepts.
  { intros this Hall Hsum. unfold Verify.
    rewrite (Verify_loop_accepts _ Hall). simpl. unfold D_ASSERT, Count in *.
    by rewrite (proj2 (Nat.eqb_eq _ _) Hsum). }
  split; [|split].
  - intros this. split; [|intros [? ?]; by apply Haccepts].
    unfold Verify.
    destruct (Verify_loop (segments this) 0) as [total| |] eqn:E; try discriminate.
    apply Verify_loop_inv in E as [Hall ->]. unfold D_ASSERT.
    destruct (Nat.eqb_spec (0 + sum_list (map segment_rows (segments this))) (count this))
      as [Hsum|_]; [|discriminate].
    intros _. split; [done|]. unfold Count. lia.
  - done.
  - intros Hpos DEBUG h Hh.
    destruct (replay_returns DEBUG h Hpos Hh) as (this & E & _ & [Hsegs Hsum] & _).
    exists this. split; [done|]. apply Haccepts; [|done].
    eapply Forall_impl; [exact Hsegs|]. intros s (seg & -> & Hs & _). eauto.
Qed.

(** *** Finished collections and [Reset] *)

Lemma push_copy_functions_inv ts :
  forall acc fs,
    push_copy_functions ts acc = Ok fs ->
    exists fs',
      fs = acc ++ fs' /\ Forall2 (fun t f => GetCopyFunction t = Ok f) ts fs'.
Proof.
  induction ts as [|t ts IH]; intros acc fs; simpl.
  - intros [= <-]. exists []. by rewrite app_nil_r.
  - destruct (GetCopyFunction t) as [f| |] eqn:Hf; try discriminate.
    intros E. apply IH in E as (fs' & -> & Hfs').
    exists (f :: fs'). rewrite <- app_assoc. split; [done|]. by constructor.
Qed.

(** A collection that is finished takes no append: the assertion fires and
    nothing changes. *)
Lemma finished_rejects this :
  finished_append this = true ->
  (forall state,
      exists msg,
        InitializeAppend this state = (Fail (InternalException msg), this, state)) /\
  (forall state input,
      exists msg, Append this state input = (Fail (InternalException msg), this, state)) /\
  (forall input,
      exists msg, Append_chunk this input = (Fail (InternalException msg), this)).
Proof.
  intros Hfin.
  assert (forall state,
            exists msg,
              InitializeAppend this state = (Fail (InternalException msg), this, state))
    as Hinit.
  { intros state. unfold InitializeAppend, D_ASSERT. rewrite Hfin. simpl. eauto. }
  split; [done|]. split.
  - intros state input. unfold Append, D_ASSERT. rewrite Hfin. simpl. eauto.
  - intros input. unfold Append_chunk.
    destruct (Hinit {| as_vector_data := [] |}) as [msg ->]. eauto.
Qed.

(** The segments after [Append(DataChunk &)]: one when there was none, and
    as many as there were otherwise. *)
Lemma Append_chunk_segments this input this' :
  appendable this ->
  Append_chunk this input = (Ok tt, this') ->
  length (segments this') = Nat.max 1 (length (segments this)).
Proof.
  intros Happendable.
  destruct (InitializeAppend_returns this {| as_vector_data := [] |} Happendable)
    as (this1 & pre & seg & seg1 & E1 & _ & _ & _ & Hpre & Hpre1 & _).
  unfold Append_chunk. rewrite E1. cbn [as_vector_data].
  destruct (Append this1 _ input) as [[r this2] state2] eqn:E2.
  intros [= -> <-].
  destruct (Append_counts _ _ _ _ _ E2) as (_ & _ & _ & _ & _ & _ & ->).
  rewrite Hpre1, length_app. simpl.
  destruct (bool_decide_reflect (segments this = [])) as [E|E].
  - rewrite E. simpl. apply (f_equal length) in Hpre. rewrite length_app in Hpre.
    simpl in Hpre. lia.
  - rewrite Hpre, length_app. simpl. lia.
Qed.

(** X5. [Reset] leaves a collection without rows, chunks and segments and
    with its schema, copy functions and [finished_append] as they were: a
    scan of it returns false at once and [GetRows] is empty.  A collection
    that was not finished takes appends again, starting with one new
    segment; a finished one stays finished. *)
Theorem Reset_empties_the_collection (this : ColumnDataCollection) :
  (Count (Reset this) = 0 /\
   segments (Reset this) = [] /\
   ChunkCount (Reset this) = Ok 0 /\
   Types (Reset this) = Types this /\
   copy_functions (Reset this) = copy_functions this /\
   finished_append (Reset this) = finished_append this /\
   GetRows (Reset this) = Ok []) /\
  (forall n column_ids_p properties_p,
      Scan_trace n (Reset this)
        (InitializeScan_columns (Reset this) column_ids_p properties_p)
      = replicate n (Ok None)) /\
  (0 < STANDARD_VECTOR_SIZE ->
   forall input,
     finished_append this = false ->
     Forall2 (fun t f => GetCopyFunction t = Ok f) (types this) (copy_functions this) ->
     Forall2 vector_shaped (types this) (dc_data input) ->
     exists this',
       Append_chunk (Reset this) input = (Ok tt, this') /\
       Count this' = dc_size input /\
       length (segments this') = 1) /\
  (finished_append this = true ->
   forall input,
     exists msg,
       Append_chunk (Reset this) input = (Fail (InternalException msg), Reset this)).
Proof.
  split; [|split; [|split]].
  - repeat split; reflexivity.
  - intros n ids props.
    assert (all_present (Reset this)) as Hpresent by constructor.
    rewrite (Scan_trace_pending _ Hpresent). simpl.
    unfold pending, counts_of. simpl. by rewrite take_nil, Nat.sub_0_r.
  - intros Hpos input Hfin Hfun Hinput.
    assert (appendable (Reset this)) as Happendable.
    { split; [done|]. split; [done|]. by intros s. }
    assert (counted (Reset this)) as Hcounted by (split; [constructor|done]).
    destruct (Append_chunk_returns (Reset this) input Hpos Happendable Hcounted Hinput)
      as (this' & E & _ & _ & _).
    exists this'. split; [done|]. split.
    + apply Append_chunk_count in E as [-> _]. done.
    + by rewrite (Append_chunk_segments _ _ _ Happendable E).
  - intros Hfin input.
    by destruct (finished_rejects (Reset this) Hfin) as (_ & _ & Hchunk).
Qed.

(** X6. The source of a copy constructor is finished: [InitializeAppend] and
    both [Append]s on it end in an assertion and change nothing.  The copy
    is not finished and takes appends, starting from no rows. *)
Theorem copy_constructor_finishes_the_source (other : ColumnDataCollection) :
  constructed other ->
  exists this other',
    ColumnDataCollection_copy other = (Ok this, other') /\
    (forall state,
        exists msg,
          InitializeAppend other' state = (Fail (InternalException msg), other', state)) /\
    (forall state input,
        exists msg,
          Append other' state input = (Fail (InternalException msg), other', state)) /\
    (forall input,
        exists msg, Append_chunk other' input = (Fail (InternalException msg), other')) /\
    finished_append this = false /\
    (0 < STANDARD_VECTOR_SIZE ->
     forall input,
       Forall2 vector_shaped (types other) (dc_data input) ->
       exists this', Append_chunk this input = (Ok tt, this') /\
                     Count this' = dc_size input).
Proof.
  intros [Hne Hfs].
  unfold ColumnDataCollection_copy, ColumnDataCollection_shared, Initialize, D_ASSERT.
  rewrite bool_decide_false by done. simpl. rewrite Hfs. simpl.
  rewrite bool_decide_false by done. simpl.
  eexists _, _. split; [reflexivity|].
  destruct (finished_rejects (with_finished_append true other) eq_refl)
    as (Hinit & Happend & Hchunk).
  split; [done|]. split; [done|]. split; [done|]. split; [done|].
  intros Hpos input Hinput.
  destruct (push_copy_functions_inv _ _ _ Hfs) as (fs & Hfs' & Hfun).
  simpl in Hfs'. subst fs.
  edestruct (Append_chunk_returns
               {| allocator := allocator other; types := types other; count := 0;
                  finished_append := false; segments := [];
                  copy_functions := copy_functions other |} input Hpos)
    as (this' & E & _ & _ & _).
  - split; [done|]. split; [done|]. by intros s.
  - split; [constructor|done].
  - done.
  - exists this'. split; [done|]. by apply Append_chunk_count in E as [-> _].
Qed.

(** *** [InitializeAppend], again *)

Lemma insert_last_id {A} (l : list A) (x : A) :
  last l = Some x -> <[length l - 1 := x]> l = l.
Proof.
  intros Hlast. apply last_Some_app in Hlast as [pre ->].
  rewrite length_app. simpl.
  replace (length pre + 1 - 1) with (length pre + 0) by lia.
  by rewrite insert_app_r.
Qed.

(** A computation on the last segment that leaves the segment as it is
    leaves the collection as it is. *)
Lemma on_back_segment_id {A} (m : SegM A) this seg r :
  last (segments this) = Some (Some seg) -> m seg = (r, seg) ->
  on_back_segment m this = (r, this).
Proof.
  intros Hlast E. unfold on_back_segment. rewrite Hlast, E. f_equal.
  destruct this as [a ts c f segs fs]. unfold with_segments. simpl in *.
  by rewrite (insert_last_id _ _ Hlast).
Qed.

(** What [InitializeAppend] does on a collection that is not finished and
    whose last segment, if there is one, is not a null pointer. *)
Lemma InitializeAppend_ensures_a_chunk (this : ColumnDataCollection)
    (state : ColumnDataAppendState) :
  finished_append this = false ->
  (forall s, last (segments this) = Some s -> is_Some s) ->
  exists this1 seg,
    InitializeAppend this state =
      (Ok tt, this1,
       {| as_vector_data :=
            resize (length (types this)) default_format (as_vector_data state) |}) /\
    (forall state',
        InitializeAppend this1 state' =
          (Ok tt, this1,
           {| as_vector_data :=
                resize (length (types this)) default_format (as_vector_data state') |})) /\
    Count this1 = Count this /\
    Types this1 = Types this /\
    length (segments this1) = Nat.max 1 (length (segments this)) /\
    last (segments this1) = Some (Some seg) /\
    chunk_data seg <> [] /\
    (segments this = [] -> chunk_counts seg = [0] /\ ChunkCount this1 = Ok 1) /\
    (forall seg0,
        last (segments this) = Some (Some seg0) -> chunk_data seg0 <> [] ->
        this1 = this).
Proof.
  intros Hfin Hlast.
  set (m := bind (reading (fun seg => Ok (chunk_data seg))) (fun chunks =>
              if bool_decide (chunks = []) then AllocateNewChunk else ret tt)).
  assert (forall seg, chunk_data seg <> [] -> m seg = (Ok tt, seg)) as Hm_id.
  { intros seg Hne. unfold m. rewrite (bind_returns _ _ seg (chunk_data seg) seg) by done.
    by rewrite bool_decide_false. }
  assert (forall that seg,
            finished_append that = false ->
            last (segments that) = Some (Some seg) -> chunk_data seg <> [] ->
            forall state',
              InitializeAppend that state' =
              (Ok tt, that,
               {| as_vector_data :=
                    resize (length (types that)) default_format (as_vector_data state') |}))
    as Hid.
  { intros that seg Hfin' Hlast' Hne state'.
    unfold InitializeAppend, D_ASSERT. rewrite Hfin'. simpl.
    rewrite bool_decide_false by (intros E; by rewrite E in Hlast').
    fold m. by rewrite (on_back_segment_id m that seg (Ok tt) Hlast' (Hm_id seg Hne)). }
  set (this0 := if bool_decide (segments this = []) then CreateSegment this else this).
  assert (exists pre seg0,
            segments this0 = pre ++ [Some seg0] /\
            (segments this = [] -> pre = [] /\ seg0 = new_segment (types this)) /\
            (segments this <> [] -> this0 = this)) as (pre & seg0 & Hpre & Hnew & Hold).
  { subst this0. destruct (bool_decide_reflect (segments this = [])) as [E|E].
    - exists [], (new_segment (types this)). unfold CreateSegment. simpl. by rewrite E.
    - destruct (last (segments this)) as [s|] eqn:Hl; [|by apply last_None in Hl].
      destruct (Hlast s eq_refl) as [seg0 ->].
      apply last_Some_app in Hl as [pre Hpre]. exists pre, seg0. done. }
  assert (count this0 = count this /\ types this0 = types this /\
          finished_append this0 = false) as (Hc0 & Ht0 & Hf0).
  { subst this0. by destruct (bool_decide (segments this = [])). }
  assert (exists seg1,
            m seg0 = (Ok tt, seg1) /\ chunk_data seg1 <> [] /\
            (chunk_data seg0 = [] -> chunk_counts seg1 = [0]) /\
            (chunk_data seg0 <> [] -> seg1 = seg0)) as (seg1 & Em & Hne1 & Hfresh & Hsame).
  { destruct (bool_decide_reflect (chunk_data seg0 = [])) as [E|E].
    - destruct (AllocateNewChunk_chunks seg0) as (roots & seg1 & Ealloc & Hchunks & _).
      exists seg1. unfold m.
      rewrite (bind_returns _ _ seg0 (chunk_data seg0) seg0) by done.
      rewrite bool_decide_true by done. split; [done|].
      unfold chunk_counts. rewrite Hchunks, E. split; [done|]. done.
    - exists seg0. split; [by apply Hm_id|]. done. }
  assert (last (segments this0) = Some (Some seg0)) as Hlast0
    by (rewrite Hpre; apply last_snoc).
  destruct (on_back_segment_last m this0 seg0 (Ok tt) seg1 Hlast0 Em)
    as (this1 & E1 & Hlast1 & Hsegs1 & Hc1 & Ht1 & _ & Hf1 & _).
  specialize (Hsegs1 pre Hpre).
  exists this1, seg1.
  assert (InitializeAppend this state =
          (Ok tt, this1,
           {| as_vector_data :=
                resize (length (types this)) default_format (as_vector_data state) |}))
    as Einit.
  { unfold InitializeAppend, D_ASSERT. rewrite Hfin. simpl. fold this0. fold m.
    by rewrite E1. }
  split; [exact Einit|]. split.
  { intros state'. rewrite <- Ht0, <- Ht1. apply (Hid this1 seg1); [congruence|done|done]. }
  split; [unfold Count; congruence|]. split; [unfold Types; congruence|].
  split.
  { rewrite Hsegs1, length_app. simpl.
    destruct (decide (segments this = [])) as [E|E].
    - destruct (Hnew E) as [-> _]. rewrite E. done.
    - rewrite <- (Hold E), Hpre, length_app. simpl. lia. }
  split; [done|]. split; [done|]. split.
  - intros E. destruct (Hnew E) as [-> ->].
    split; [by apply Hfresh|].
    unfold ChunkCount. rewrite Hsegs1. simpl.
    specialize (Hfresh eq_refl). unfold chunk_counts in Hfresh.
    apply (f_equal length) in Hfresh. rewrite length_map in Hfresh. by rewrite Hfresh.
  - intros seg0' Hlast' Hne'.
    specialize (Hid this seg0' Hfin Hlast' Hne' state).
    rewrite Hid in Einit. by injection Einit.
Qed.

(** X7. [InitializeAppend] on a collection that is not finished makes sure
    that there is a last segment with a chunk: it adds one segment when
    there is none and one empty chunk when the last segment has none, and
    changes nothing else.  A second call changes nothing at all. *)
Theorem InitializeAppend_twice_is_once (this : ColumnDataCollection)
    (state : ColumnDataAppendState) :
  finished_append this = false ->
  (forall s, last (segments this) = Some s -> is_Some s) ->
  exists this1 seg,
    InitializeAppend this state =
      (Ok tt, this1,
       {| as_vector_data :=
            resize (length (types this)) default_format (as_vector_data state) |}) /\
    (forall state',
        InitializeAppend this1 state' =
          (Ok tt, this1,
           {| as_vector_data :=
                resize (length (types this)) default_format (as_vector_data state') |})) /\
    Count this1 = Count this /\
    Types this1 = Types this /\
    length (segments this1) = Nat.max 1 (length (segments this)) /\
    last (segments this1) = Some (Some seg) /\
    chunk_data seg <> [] /\
    (segments this = [] -> chunk_counts seg = [0] /\ ChunkCount this1 = Ok 1) /\
    (forall seg0,
        last (segments this) = Some (Some seg0) -> chunk_data seg0 <> [] ->
        this1 = this).
Proof. apply InitializeAppend_ensures_a_chunk. Qed.

(** C3, as the code has it.  [Append(state, input)] of a chunk whose types
    differ from the schema ends in an internal error and changes neither the
    collection nor the append state.  [Append(input)], the overload without
    a state, runs [InitializeAppend] before it: on a collection that takes
    appends it ends in the same internal error and leaves the collection as
    [InitializeAppend] leaves it, with its count and its schema, unchanged
    when the last segment has a chunk, and with a first segment that holds
    one empty chunk when there was no segment; on a collection that is
    finished it ends in the assertion of [InitializeAppend] and changes
    nothing.  [Combine] with a peer whose types differ ends in an internal
    error and changes neither collection when the peer holds rows; a peer
    without rows is accepted whatever its types, and nothing changes. *)
Theorem schema_mismatch_is_an_internal_error (this : ColumnDataCollection) :
  (forall state input,
      types this <> GetTypes input ->
      exists msg, Append this state input = (Fail (InternalException msg), this, state)) /\
  (forall input,
      types this <> GetTypes input ->
      finished_append this = false ->
      (forall s, last (segments this) = Some s -> is_Some s) ->
      exists msg this1,
        (InitializeAppend this {| as_vector_data := [] |}).1 = (Ok tt, this1) /\
        Append_chunk this input = (Fail (InternalException msg), this1) /\
        Count this1 = Count this /\
        Types this1 = Types this /\
        (segments this = [] -> ChunkCount this = Ok 0 /\ ChunkCount this1 = Ok 1) /\
        (forall seg0,
            last (segments this) = Some (Some seg0) -> chunk_data seg0 <> [] ->
            this1 = this)) /\
  (forall input,
      finished_append this = true ->
      exists msg, Append_chunk this input = (Fail (InternalException msg), this)) /\
  (forall DEBUG other,
      types this <> types other -> count other <> 0 ->
      exists msg,
        Combine DEBUG this other = (Fail (InternalException msg), this, other)) /\
  (forall DEBUG other,
      count other = 0 -> Combine DEBUG this other = (Ok tt, this, other)).
Proof.
  split; [|split; [|split; [|split]]].
  - intros. by apply Append_mismatch.
  - intros input Hne Hfin Hlast.
    destruct (InitializeAppend_ensures_a_chunk this {| as_vector_data := [] |} Hfin Hlast)
      as (this1 & seg & Einit & _ & Hcount & Htypes & _ & _ & _ & Hfresh & Hsame).
    assert (types this1 <> GetTypes input) as Hne1.
    { unfold Types in Htypes. by rewrite Htypes. }
    destruct (Append_mismatch this1
                {| as_vector_data :=
                     resize (length (types this)) default_format [] |} input Hne1)
      as [msg Emsg].
    exists msg, this1. split; [by rewrite Einit|]. split.
    { unfold Append_chunk. rewrite Einit. cbn [as_vector_data]. by rewrite Emsg. }
    split; [done|]. split; [done|]. split; [|done].
    intros Hnil. split; [unfold ChunkCount; by rewrite Hnil|by apply Hfresh].
  - intros input Hfin. unfold Append_chunk, InitializeAppend, D_ASSERT. rewrite Hfin.
    simpl. eexists. reflexivity.
  - intros. by apply Combine_mismatch.
  - intros. by apply Combine_empty_peer.
Qed.

(** *** [FetchChunk] *)

Lemma segment_chunks_lookup ids segment k :
  k < length (chunk_data segment) ->
  exists result pinned,
    ReadChunk segment k ids = Ok (result, pinned) /\
    segment_chunks ids (Some segment) !! k = Some result.
Proof.
  intros Hk. destruct (lookup_lt_is_Some_2 _ _ Hk) as [chunk Hchunk].
  unfold segment_chunks. rewrite list_lookup_fmap, lookup_seq_lt by done. simpl.
  unfold ReadChunk. rewrite Hchunk. eauto.
Qed.

(** The loop of [FetchChunk] finds chunk [k] of the chunks of the segments,
    each read with all the columns of its segment; behind the last chunk it
    ends in the internal error. *)
Lemma FetchChunk_loop_spec segs :
  Forall (fun s : option ColumnDataCollectionSegment => is_Some s) segs ->
  forall k,
    FetchChunk_loop segs k =
    match concat (map (fun s => segment_chunks
                                  (seq 0 (length (from_option seg_types [] s))) s) segs)
          !! k with
    | Some chunk => Ok chunk
    | None => Fail (InternalException "Failed to find chunk in ColumnDataCollection")
    end.
Proof.
  induction 1 as [|s segs [segment ->] _ IH]; intros k; [done|].
  cbn [FetchChunk_loop map concat from_option].
  set (chunks := segment_chunks (seq 0 (length (seg_types segment))) (Some segment)).
  assert (length chunks = length (chunk_data segment)) as Hlen.
  { subst chunks. rewrite segment_chunks_length. simpl. by rewrite length_map. }
  case_bool_decide as Hk.
  - rewrite IH, lookup_app_r by lia. by rewrite Hlen.
  - destruct (segment_chunks_lookup (seq 0 (length (seg_types segment))) segment k)
      as (result & pinned & Hread & Hresult); [lia|].
    unfold Segment_FetchChunk. rewrite Hread.
    by rewrite (lookup_app_l_Some _ _ _ _ Hresult).
Qed.

(** X8. [FetchChunk(chunk_idx)] returns chunk number [chunk_idx] of the
    chunks that a scan of all columns hands out; with [chunk_idx] at or
    beyond [ChunkCount()] the assertion fires.  The loop by itself, as it
    runs when the assertion is compiled out, ends in the internal error
    [Failed to find chunk] in that case and in no other. *)
Theorem FetchChunk_is_the_chunk_of_the_scan (this : ColumnDataCollection) :
  all_present this ->
  Forall (fun s => forall seg, s = Some seg -> length (seg_types seg) = ColumnCount this)
    (segments this) ->
  forall chunk_idx,
    match scanned_chunks this (Chunks this) !! chunk_idx with
    | Some chunk =>
        FetchChunk this chunk_idx = Ok chunk /\
        FetchChunk_loop (segments this) chunk_idx = Ok chunk
    | None =>
        FetchChunk this chunk_idx =
          Fail (InternalException "Assertion triggered: chunk_idx < ChunkCount()") /\
        FetchChunk_loop (segments this) chunk_idx =
          Fail (InternalException "Failed to find chunk in ColumnDataCollection")
    end.
Proof.
  intros Hpresent Htypes chunk_idx.
  assert (concat (map (fun s => segment_chunks
                                  (seq 0 (length (from_option seg_types [] s))) s)
                    (segments this))
          = scanned_chunks this (Chunks this)) as Hchunks.
  { unfold scanned_chunks, Chunks. f_equal. apply map_ext_Forall.
    eapply Forall_impl; [exact Htypes|]. intros [seg|] Hs; [|done].
    simpl. by rewrite (Hs seg eq_refl). }
  pose proof (FetchChunk_loop_spec _ Hpresent chunk_idx) as Hloop.
  rewrite Hchunks in Hloop.
  unfold FetchChunk. rewrite (ChunkCount_spec this (Chunks this) Hpresent).
  unfold D_ASSERT.
  destruct (scanned_chunks this (Chunks this) !! chunk_idx) as [chunk|] eqn:Hk.
  - rewrite bool_decide_true by (by eapply lookup_lt_Some). done.
  - rewrite bool_decide_false by (apply lookup_ge_None in Hk; lia). done.
Qed.

(** *** [InitializeScanChunk] *)

Lemma chunk_types_loop_spec types_p ids :
  Forall (fun i => i < length types_p) ids ->
  forall chunk_types,
    chunk_types_loop types_p ids chunk_types =
    Ok (chunk_types ++ omap (fun i => types_p !! i) ids).
Proof.
  induction 1 as [|i ids Hi _ IH]; intros chunk_types; simpl.
  - by rewrite app_nil_r.
  - unfold D_ASSERT. rewrite bool_decide_true by done.
    destruct (lookup_lt_is_Some_2 _ _ Hi) as [t Ht]. rewrite Ht, IH, <- app_assoc. done.
Qed.

Lemma chunk_types_loop_out_of_range types_p ids :
  Exists (fun i => length types_p <= i) ids ->
  forall chunk_types,
    chunk_types_loop types_p ids chunk_types =
    Fail (InternalException "Assertion triggered: column_idx < types.size()").
Proof.
  induction ids as [|i ids IH]; intros Hex chunk_types.
  - by apply Exists_nil in Hex.
  - simpl. unfold D_ASSERT. case_bool_decide as Hi; [|done].
    destruct (lookup_lt_is_Some_2 _ _ Hi) as [t ->].
    apply IH. apply Exists_cons in Hex as [?|?]; [lia|done].
Qed.

Lemma omap_lookup_seq {A} (l : list A) :
  forall pre, omap (fun i => (pre ++ l) !! i) (seq (length pre) (length l)) = l.
Proof.
  induction l as [|x l IH]; intros pre; [done|].
  simpl. rewrite lookup_app_r, Nat.sub_diag by lia. simpl. f_equal.
  specialize (IH (pre ++ [x])). rewrite <- app_assoc, length_app in IH. simpl in IH.
  by rewrite Nat.add_1_r in IH.
Qed.

(** X9. [InitializeScanChunk(state, chunk)] gives the chunk the types of
    the columns that the state projects, in the order of the column ids; it
    ends in an assertion when the state has no column ids or one of them is
    not a column of the collection.  After [InitializeScan] without column
    ids it gives the chunk the schema, as [InitializeScanChunk(chunk)]. *)
Theorem InitializeScanChunk_projects_the_schema (this : ColumnDataCollection)
    (state : ColumnDataScanState) :
  (column_ids state = [] ->
   InitializeScanChunk_state this state =
   Fail (InternalException "Assertion triggered: !state.column_ids.empty()")) /\
  (column_ids state <> [] ->
   Exists (fun i => ColumnCount this <= i) (column_ids state) ->
   InitializeScanChunk_state this state =
   Fail (InternalException "Assertion triggered: column_idx < types.size()")) /\
  (column_ids state <> [] ->
   Forall (fun i => i < ColumnCount this) (column_ids state) ->
   exists chunk_types,
     InitializeScanChunk_state this state = Ok chunk_types /\
     length chunk_types = length (column_ids state) /\
     forall k i, column_ids state !! k = Some i -> chunk_types !! k = Types this !! i) /\
  (Types this <> [] ->
   forall properties_p,
     InitializeScanChunk_state this (InitializeScan this properties_p)
     = Ok (InitializeScanChunk this)).
Proof.
  unfold InitializeScanChunk_state, D_ASSERT, ColumnCount, Types.
  split; [|split; [|split]].
  - intros ->. done.
  - intros Hne Hex. rewrite bool_decide_false by done. simpl.
    by apply chunk_types_loop_out_of_range.
  - intros Hne Hall. rewrite bool_decide_false by done. simpl.
    rewrite (chunk_types_loop_spec _ _ Hall). simpl.
    eexists. split; [reflexivity|].
    clear Hne. induction Hall as [|i ids Hi _ IH]; [done|].
    destruct (lookup_lt_is_Some_2 _ _ Hi) as [t Ht].
    simpl. rewrite Ht. simpl. destruct IH as [IHlen IHlookup]. split; [simpl; by f_equal|].
    intros [|k] j Hj; simpl in Hj |- *; [congruence|by apply IHlookup].
  - intros Hne props. simpl.
    rewrite bool_decide_false
      by (destruct (types this); [done|simpl; discriminate]).
    simpl. rewrite chunk_types_loop_spec by (apply Forall_forall; intros i Hi;
                                               apply elem_of_seq in Hi; lia).
    simpl. f_equal. apply (omap_lookup_seq (types this) []).
Qed.

(** *** The chunk iterator *)

(** One call of [Scan] into the chunk of the caller. *)
Lemma Scan_into_step this state result :
  all_present this ->
  exists b state' chunk,
    Scan_into this state result = (Ok b, state', chunk) /\
    column_ids state' = column_ids state /\
    match pending (counts_of this) (segment_index state) (chunk_index state)
            (next_row_index state) with
    | [] =>
        b = false /\ chunk = DataChunk_Reset result /\
        pending (counts_of this) (segment_index state') (chunk_index state')
          (next_row_index state') = []
    | x :: rest =>
        b = true /\ chunk = read_at this (column_ids state) x /\
        pending (counts_of this) (segment_index state') (chunk_index state')
          (next_row_index state') = rest
    end.
Proof.
  intros Hpresent.
  destruct (Scan_step this state Hpresent) as (r & state' & E & Hids & _ & _ & Hpending).
  unfold Scan_into. rewrite E.
  destruct (pending (counts_of this) (segment_index state) (chunk_index state)
              (next_row_index state)) as [|x rest].
  - destruct Hpending as [-> Hnil]. by eexists _, _, _.
  - destruct Hpending as [-> Hrest]. by eexists _, _, _.
Qed.

(** The loop over the chunks, from an iterator that holds a chunk: it sees
    that chunk and the chunks that are pending, and ends. *)
Lemma Chunks_loop_spec this end_it :
  all_present this ->
  ci_collection end_it = false -> ci_row_index end_it = 0 ->
  forall fuel it seen,
    ci_collection it = true ->
    length (pending (counts_of this) (segment_index (ci_scan_state it))
              (chunk_index (ci_scan_state it)) (next_row_index (ci_scan_state it)))
    < fuel ->
    Chunks_loop fuel this it end_it seen =
    Ok (seen ++ ci_scan_chunk it
              :: map (read_at this (column_ids (ci_scan_state it)))
                   (pending (counts_of this) (segment_index (ci_scan_state it))
                      (chunk_index (ci_scan_state it))
                      (next_row_index (ci_scan_state it)))).
Proof.
  intros Hpresent Hend Hend0 fuel.
  induction fuel as [|fuel IH]; intros it seen Hit Hfuel; [lia|].
  cbn [Chunks_loop]. unfold ColumnDataChunkIterator_neq at 1. rewrite Hit, Hend. simpl.
  unfold ColumnDataChunkIterator_Next. rewrite Hit. simpl.
  destruct (Scan_into_step this (ci_scan_state it) (ci_scan_chunk it) Hpresent)
    as (b & state' & chunk & -> & Hids & Hpending).
  destruct (pending (counts_of this) (segment_index (ci_scan_state it))
              (chunk_index (ci_scan_state it)) (next_row_index (ci_scan_state it)))
    as [|x rest].
  - destruct Hpending as (-> & -> & _).
    destruct fuel; simpl; unfold ColumnDataChunkIterator_neq; simpl;
      by rewrite Hend, Hend0.
  - destruct Hpending as (-> & -> & Hrest). simpl in Hfuel.
    rewrite IH; simpl; [|done|rewrite Hrest; lia].
    rewrite Hrest, Hids, <- app_assoc. done.
Qed.

(** X10. The loop over the chunk iterator of a collection sees every chunk
    of every segment once, in order, and ends at the iterator that has no
    collection.  Over a collection without chunks the iterator that is
    constructed differs from the end, and the loop sees one chunk without
    rows. *)
Theorem chunk_iteration_sees_every_chunk (this : ColumnDataCollection)
    (column_ids_p : list nat) (scan_state0 scan_state1 : ColumnDataScanState) :
  all_present this ->
  column_ids_p <> [] ->
  Forall (fun i => i < ColumnCount this) column_ids_p ->
  exists it end_it chunk_types,
    ColumnDataChunkIterator_new (Some this) column_ids_p scan_state0 = Ok it /\
    ColumnDataChunkIterator_new None [] scan_state1 = Ok end_it /\
    InitializeScanChunk_state this
      (InitializeScan_columns this column_ids_p ALLOW_ZERO_COPY) = Ok chunk_types /\
    ColumnDataChunkIterator_neq it end_it = true /\
    Chunks_loop (S (length (scanned_chunks this column_ids_p))) this it end_it [] =
    Ok (match scanned_chunks this column_ids_p with
        | [] => [DataChunk_Initialize chunk_types]
        | chunks => chunks
        end).
Proof.
  intros Hpresent Hne Hids.
  unfold ColumnDataChunkIterator_new.
  set (state := InitializeScan_columns this column_ids_p ALLOW_ZERO_COPY).
  assert (InitializeScanChunk_state this state
          = Ok (omap (fun i => types this !! i) column_ids_p)) as Etypes.
  { unfold InitializeScanChunk_state, D_ASSERT. simpl.
    rewrite bool_decide_false by done. simpl.
    by rewrite (chunk_types_loop_spec _ _ Hids). }
  rewrite Etypes.
  destruct (Scan_into_step this state
              (DataChunk_Initialize (omap (fun i => types this !! i) column_ids_p))
              Hpresent) as (b & state' & chunk & E & Hids' & Hpending).
  rewrite E. eexists _, _, _. split; [reflexivity|]. split; [reflexivity|].
  split; [reflexivity|]. split; [done|].
  rewrite (Chunks_loop_spec this
             {| ci_collection := false; ci_scan_state := scan_state1;
                ci_scan_chunk := Reset_chunk; ci_row_index := 0 |}
             Hpresent eq_refl eq_refl); simpl.
  - f_equal. rewrite Hids'. subst state. simpl in *.
    rewrite pending_start, <- scanned_chunks_schedule in *.
    destruct (schedule 0 0 (counts_of this)) as [|x rest].
    + destruct Hpending as (_ & -> & ->). simpl. unfold DataChunk_Reset, DataChunk_Initialize.
      simpl. by rewrite map_map.
    + destruct Hpending as (_ & -> & ->). done.
  - done.
  - subst state. simpl in *.
    rewrite pending_start, <- scanned_chunks_schedule, length_map in *.
    destruct (schedule 0 0 (counts_of this)) as [|x rest].
    + destruct Hpending as (_ & _ & ->). simpl. lia.
    + destruct Hpending as (_ & _ & ->). simpl. lia.
Qed.

(** *** The row iterator *)

Lemma Forall_map_inv {A B} (P : B -> Prop) (f : A -> B) (l : list A) :
  Forall P (map f l) -> Forall (fun x => P (f x)) l.
Proof.
  induction l as [|x l IH]; simpl; intros Hall; [constructor|].
  apply Forall_cons in Hall as [? ?]. constructor; auto.
Qed.

(** The loop over the rows, from an iterator on a row of its chunk: it sees
    the rows of the chunk from that row on and the rows of the chunks that
    are pending, and ends. *)
Lemma Rows_loop_spec this end_it :
  all_present this ->
  ri_collection end_it = false -> ri_row_index end_it = 0 -> ri_base_index end_it = 0 ->
  forall fuel it seen,
    ri_collection it = true ->
    ri_row_index it < sc_size (ri_scan_chunk it) ->
    let P := pending (counts_of this) (segment_index (ri_scan_state it))
               (chunk_index (ri_scan_state it)) (next_row_index (ri_scan_state it)) in
    let chunks := map (read_at this (column_ids (ri_scan_state it))) P in
    Forall (fun chunk => 0 < sc_size chunk) chunks ->
    sc_size (ri_scan_chunk it) - ri_row_index it + sum_list (map sc_size chunks) <= fuel ->
    Rows_loop fuel this it end_it seen =
    Ok (seen
        ++ map (fun row_idx => {| row_chunk := ri_scan_chunk it; row_index := row_idx;
                                  base_index := ri_base_index it |})
             (seq (ri_row_index it) (sc_size (ri_scan_chunk it) - ri_row_index it))
        ++ create_rows chunks (ri_base_index it + sc_size (ri_scan_chunk it))).
Proof.
  intros Hpresent Hend Hend0 Hend1 fuel.
  induction fuel as [|fuel IH]; intros it seen Hit Hrow P chunks Hsizes Hfuel; [lia|].
  cbn [Rows_loop]. unfold ColumnDataRowIterator_neq at 1. rewrite Hit, Hend. simpl.
  unfold ColumnDataRowIterator_Next. rewrite Hit. simpl.
  subst chunks P.
  case_bool_decide as Hlast.
  - assert (sc_size (ri_scan_chunk it) - ri_row_index it = 1) as Hone by lia.
    rewrite Hone in *. simpl.
    destruct (Scan_into_step this (ri_scan_state it) (ri_scan_chunk it) Hpresent)
      as (b & state' & chunk & -> & Hids & Hpending).
    destruct (pending (counts_of this) (segment_index (ri_scan_state it))
                (chunk_index (ri_scan_state it)) (next_row_index (ri_scan_state it)))
      as [|x rest].
    + destruct Hpending as (-> & -> & _).
      destruct fuel; simpl; unfold ColumnDataRowIterator_neq; simpl;
        by rewrite Hend, Hend0, Hend1.
    + destruct Hpending as (-> & -> & Hrest).
      simpl in Hsizes, Hfuel. apply Forall_cons in Hsizes as [Hx Hsizes].
      rewrite IH; simpl; rewrite ?Hrest, ?Hids, ?Nat.sub_0_r; try done; try lia.
      rewrite <- !app_assoc. done.
  - rewrite IH; simpl; try done; try lia.
    replace (sc_size (ri_scan_chunk it) - ri_row_index it)
      with (S (sc_size (ri_scan_chunk it) - S (ri_row_index it))) by lia.
    simpl. rewrite <- !app_assoc. done.
Qed.

(** X11. For a collection whose chunks all hold rows and whose chunk counts
    add up to its count, the loop over [Rows()] sees the rows that
    [GetRows()] returns, in the same order, and ends; over a collection
    with no rows it sees nothing. *)
Theorem Rows_and_GetRows_agree (this : ColumnDataCollection)
    (scan_state0 scan_state1 : ColumnDataScanState) :
  all_present this ->
  Forall (fun n => 0 < n) (concat (counts_of this)) ->
  sum_list (concat (counts_of this)) = Count this ->
  exists begin_it end_it rows,
    Rows_begin this scan_state0 = Ok begin_it /\
    Rows_end scan_state1 = Ok end_it /\
    GetRows this = Ok rows /\
    Rows_loop (Count this) this begin_it end_it [] = Ok rows /\
    (Count this = 0 -> rows = [] /\ ColumnDataRowIterator_neq begin_it end_it = false).
Proof.
  intros Hpresent Hpos Hsum.
  set (ids := seq 0 (ColumnCount this)).
  assert (GetRows this = Ok (create_rows (scanned_chunks this ids) 0)) as Erows.
  { unfold GetRows. destruct (Nat.eqb_spec (Count this) 0) as [Hzero|Hne].
    - rewrite create_rows_empty; [done|].
      rewrite scanned_chunks_sizes. apply sum_zero_all_zero. lia.
    - rewrite (read_all_chunks_spec this Hpresent); simpl.
      + by rewrite pending_start, scanned_chunks_schedule.
      + rewrite pending_start, (chunks_upper_bound_spec this ids),
          <- scanned_chunks_schedule, length_map. lia. }
  unfold Rows_begin, Rows_end.
  destruct (Nat.eqb_spec (Count this) 0) as [Hzero|Hne].
  { simpl. eexists _, _, _. split; [reflexivity|]. split; [reflexivity|].
    split; [exact Erows|].
    assert (create_rows (scanned_chunks this ids) 0 = []) as ->.
    { apply create_rows_empty. rewrite scanned_chunks_sizes.
      apply sum_zero_all_zero. lia. }
    rewrite Hzero. simpl. done. }
  unfold ColumnDataRowIterator_new.
  destruct (Scan_into_step this (InitializeScan this ALLOW_ZERO_COPY)
              (DataChunk_Initialize (InitializeScanChunk this)) Hpresent)
    as (b & state' & chunk & -> & Hids & Hpending).
  simpl in Hpending, Hids. rewrite pending_start in Hpending.
  pose proof (scanned_chunks_schedule this ids) as Hchunks.
  pose proof (scanned_chunks_sizes this ids) as Hsizes.
  fold ids in Hids.
  destruct (schedule 0 0 (counts_of this)) as [|x rest].
  { simpl in Hchunks. rewrite <- Hchunks in Hsizes. simpl in Hsizes.
    rewrite <- Hsizes in Hsum. simpl in Hsum. unfold Count in *. lia. }
  destruct Hpending as (-> & -> & Hrest).
  eexists _, _, _. split; [reflexivity|]. split; [reflexivity|].
  split; [exact Erows|]. split; [|done].
  assert (Forall (fun chunk => 0 < sc_size chunk) (scanned_chunks this ids)) as Hall.
  { rewrite <- Hsizes in Hpos. by apply Forall_map_inv in Hpos. }
  rewrite <- Hchunks in Hall, Hsizes |- *. simpl in Hall, Hsizes.
  apply Forall_cons in Hall as [Hx Hall].
  rewrite (Rows_loop_spec this
             {| ri_collection := false; ri_scan_state := scan_state1;
                ri_scan_chunk := Reset_chunk; ri_row_index := 0; ri_base_index := 0 |}
             Hpresent eq_refl eq_refl eq_refl); simpl;
    rewrite ?Hrest, ?Hids, ?Nat.sub_0_r; try done.
  change (seq 0 (length (types this))) with ids.
  rewrite <- Hsum, <- Hsizes. simpl. lia.
Qed.

(** *** The parallel scan *)

(** One call of the parallel [Scan]: what it hands out and how it leaves the
    shared state depends on the shared state only; the local state follows
    the chunk that was read. *)
Lemma Scan_parallel_step this state lstate :
  all_present this ->
  exists r state' lstate',
    Scan_parallel this state lstate = (Ok r, state', lstate') /\
    column_ids state' = column_ids state /\
    match pending (counts_of this) (segment_index state) (chunk_index state)
            (next_row_index state) with
    | [] =>
        r = None /\ lstate' = lstate /\
        pending (counts_of this) (segment_index state') (chunk_index state')
          (next_row_index state') = []
    | x :: rest =>
        r = Some (read_at this (column_ids state) x) /\
        pending (counts_of this) (segment_index state') (chunk_index state')
          (next_row_index state') = rest /\
        exists chunk_idx segment_idx row_idx,
          x = ScanAt chunk_idx segment_idx row_idx /\
          current_segment_index lstate' = segment_idx /\
          l_current_row_index lstate' = row_idx /\
          l_properties lstate' = properties state /\
          (segment_idx = current_segment_index lstate ->
           l_handles lstate `prefix_of` l_handles lstate')
    end.
Proof.
  intros Hpresent.
  destruct (NextScanIndex_step this state Hpresent)
    as (r & state1 & E & _ & _ & _ & Hpending).
  pose proof (NextScanIndex_projection _ _ _ _ E) as [Hids Hprops].
  pose proof (pending_valid (counts_of this) (segment_index state) (chunk_index state)
                (next_row_index state)) as Hvalid.
  unfold Scan_parallel. rewrite E.
  destruct (pending (counts_of this) (segment_index state) (chunk_index state)
              (next_row_index state)) as [|x rest].
  - destruct Hpending as [-> Hnil]. eexists _, _, _. split; [reflexivity|]. done.
  - destruct Hpending as [-> Hrest].
    apply Forall_cons in Hvalid as [Hx _].
    destruct x as [?|chunk_idx segment_idx row]; [done|].
    destruct (valid_at_read this (column_ids state1) _ _ row Hpresent Hx)
      as (segment & chunk & pinned & Hs & _ & Hread & _).
    unfold ScanAtIndex. rewrite Hs, Hread.
    eexists _, _, _. split; [reflexivity|]. split; [done|].
    split; [by rewrite Hids|]. split; [done|].
    exists chunk_idx, segment_idx, row. split; [done|]. simpl.
    case_bool_decide as Hseg; simpl; repeat split; try done.
    intros _. by eexists.
Qed.

(** The calls of the parallel scan hand out what is pending, in the order
    in which they take the lock. *)
Lemma parallel_trace_pending this :
  all_present this ->
  forall workers state lstates,
    Forall (fun w => w < length lstates) workers ->
    exists results state' lstates',
      parallel_trace this workers state lstates = (results, state', lstates') /\
      map fst results = workers /\
      length lstates' = length lstates /\
      map snd results =
      map (fun x => Ok (Some (read_at this (column_ids state) x)))
        (take (length workers)
           (pending (counts_of this) (segment_index state) (chunk_index state)
              (next_row_index state)))
      ++ replicate
           (length workers
            - length (pending (counts_of this) (segment_index state) (chunk_index state)
                        (next_row_index state)))
           (Ok None).
Proof.
  intros Hpresent workers.
  induction workers as [|w workers IH]; intros state lstates Hworkers.
  - eexists _, _, _. split; [reflexivity|]. done.
  - apply Forall_cons in Hworkers as [Hw Hworkers].
    destruct (lookup_lt_is_Some_2 _ _ Hw) as [lstate Hlstate].
    cbn [parallel_trace]. rewrite Hlstate.
    destruct (Scan_parallel_step this state lstate Hpresent)
      as (r & state' & lstate' & -> & Hids & Hpending).
    destruct (IH state' (<[w := lstate']> lstates)) as
      (results & state'' & lstates' & -> & Hfst & Hlen & Hsnd).
    { by rewrite length_insert. }
    eexists _, _, _. split; [reflexivity|]. simpl.
    split; [by rewrite Hfst|]. split; [by rewrite Hlen, length_insert|].
    rewrite Hsnd, Hids.
    destruct (pending (counts_of this) (segment_index state) (chunk_index state)
                (next_row_index state)) as [|x rest].
    + destruct Hpending as (-> & _ & ->). simpl. by rewrite take_nil, Nat.sub_0_r.
    + destruct Hpending as (-> & -> & _). done.
Qed.

(** X12. Calls of the parallel [Scan] on one shared state hand out every
    chunk of the collection once: whichever thread makes the call, with
    whatever local state, the call that takes the lock as number [k] gets
    what call number [k] of a serial scan gets, and false once the chunks
    are used up. *)
Theorem parallel_scan_hands_out_every_chunk_once (this : ColumnDataCollection)
    (column_ids_p : list nat) (properties_p : ColumnDataScanProperties)
    (workers : list nat) (lstates : list ColumnDataLocalScanState) :
  all_present this ->
  Forall (fun w => w < length lstates) workers ->
  exists results state' lstates',
    parallel_trace this workers
      (InitializeScan_columns this column_ids_p properties_p) lstates
    = (results, state', lstates') /\
    map fst results = workers /\
    map snd results =
      Scan_trace (length workers) this
        (InitializeScan_columns this column_ids_p properties_p) /\
    map snd results =
      map (fun chunk => Ok (Some chunk))
        (take (length workers) (scanned_chunks this column_ids_p))
      ++ replicate (length workers - length (scanned_chunks this column_ids_p))
           (Ok None).
Proof.
  intros Hpresent Hworkers.
  destruct (parallel_trace_pending this Hpresent workers
              (InitializeScan_columns this column_ids_p properties_p) lstates Hworkers)
    as (results & state' & lstates' & E & Hfst & _ & Hsnd).
  exists results, state', lstates'. split; [done|]. split; [done|].
  rewrite Hsnd, (Scan_trace_pending this Hpresent). simpl. split; [done|].
  rewrite pending_start, <- scanned_chunks_schedule, firstn_map, map_map, length_map.
  done.
Qed.

(** *** The copy function of a type *)

Lemma supported_fields child_types :
  supported (StructType child_types) = true <->
  Forall (fun kv : string * LogicalType => supported (snd kv) = true) child_types.
Proof.
  simpl. induction child_types as [|kv l IH].
  - split; [constructor|done].
  - rewrite andb_true_iff, IH. split.
    + intros [? ?]. by constructor.
    + intros Hall. by apply Forall_cons in Hall.
Qed.

Lemma GetCopyFunction_mirrors_the_type_aux (t : LogicalType) :
  (supported t = true -> exists f, GetCopyFunction t = Ok f /\ mirrors t f) /\
  (supported t = false -> exists msg, GetCopyFunction t = Fail (InternalException msg)).
Proof.
  induction t as [p|child_types IH|child_type IH] using LogicalType_fields_ind.
  - split; intros Hp.
    + destruct p; try discriminate Hp; eexists; (split; [reflexivity|]);
        solve [by apply mirrors_fixed | apply mirrors_string].
    + destruct p; try discriminate Hp; eexists; reflexivity.
  - split.
    + intros Hs. apply supported_fields in Hs.
      assert (exists fs,
                (fix fields (l : list (string * LogicalType))
                   : Res (list ColumnDataCopyFunction) :=
                   match l with
                   | [] => Ok []
                   | kv :: l' =>
                       match GetCopyFunction (snd kv) with
                       | Ok f =>
                           match fields l' with
                           | Ok fs => Ok (f :: fs)
                           | Fail e => Fail e
                           | OutOfFuel => OutOfFuel
                           end
                       | Fail e => Fail e
                       | OutOfFuel => OutOfFuel
                       end
                   end) child_types = Ok fs /\
                Forall2 (fun (kv : string * LogicalType) f => mirrors (snd kv) f)
                  child_types fs) as (fs & Hfs & Hmirrors).
      { induction child_types as [|kv l IHl]; [by exists []|].
        apply Forall_cons in IH as [[IHkv _] IHrest].
        apply Forall_cons in Hs as [Hkv Hs].
        destruct (IHkv Hkv) as (f & -> & Hf).
        destruct (IHl IHrest Hs) as (fs & -> & Hfs).
        exists (f :: fs). split; [done|]. by constructor. }
      simpl. rewrite Hfs. eexists. split; [reflexivity|]. by constructor.
    + simpl. induction child_types as [|kv l IHl]; [discriminate|].
      apply Forall_cons in IH as [[IHok IHfail] IHrest].
      intros Hs. apply andb_false_iff in Hs.
      destruct (supported (snd kv)) eqn:Hkv.
      * destruct (IHok eq_refl) as (f & -> & _).
        destruct Hs as [Hs|Hs]; [discriminate|].
        destruct (IHl IHrest Hs) as [msg Hmsg].
        match type of Hmsg with
        | match ?x with _ => _ end = _ => destruct x as [fs| |]; try discriminate
        end.
        injection Hmsg as ->. eauto.
      * destruct (IHfail eq_refl) as [msg ->]. eauto.
  - destruct IH as [IHok IHfail]. split; intros Hs; simpl in Hs |- *.
    + destruct (IHok Hs) as (f & -> & Hf). eexists. split; [reflexivity|].
      by constructor.
    + destruct (IHfail Hs) as [msg ->]. eauto.
Qed.

(** X13. [GetCopyFunction] returns a copy function exactly for the types
    whose leaves all have a physical type it has a case for, and the
    function it returns has the shape of the type; for every other type it
    ends in an internal error. *)
Theorem GetCopyFunction_mirrors_the_type (t : LogicalType) :
  (supported t = true -> exists f, GetCopyFunction t = Ok f /\ mirrors t f) /\
  (supported t = false -> exists msg, GetCopyFunction t = Fail (InternalException msg)).
Proof. apply GetCopyFunction_mirrors_the_type_aux. Qed.

(** *** The constructors *)

Lemma push_copy_functions_supported ts :
  forallb supported ts = true ->
  forall acc,
    exists fs,
      push_copy_functions ts acc = Ok (acc ++ fs) /\
      Forall2 mirrors ts fs /\
      Forall2 (fun t f => GetCopyFunction t = Ok f) ts fs.
Proof.
  induction ts as [|t ts IH]; intros Hs acc; simpl in *.
  - exists []. by rewrite app_nil_r.
  - apply andb_true_iff in Hs as [Ht Hs].
    destruct (proj1 (GetCopyFunction_mirrors_the_type_aux t) Ht) as (f & Hf & Hm).
    rewrite Hf. destruct (IH Hs (acc ++ [f])) as (fs & -> & Hms & Hfs).
    exists (f :: fs). rewrite <- app_assoc. split; [done|]. split; by constructor.
Qed.

Lemma push_copy_functions_unsupported ts :
  forallb supported ts = false ->
  forall acc, exists msg, push_copy_functions ts acc = Fail (InternalException msg).
Proof.
  induction ts as [|t ts IH]; intros Hs acc; simpl in *; [discriminate|].
  destruct (supported t) eqn:Ht.
  - destruct (proj1 (GetCopyFunction_mirrors_the_type_aux t) Ht) as (f & -> & _).
    by apply IH.
  - destruct (proj2 (GetCopyFunction_mirrors_the_type_aux t) Ht) as (msg & ->). eauto.
Qed.

(** X14. The constructors with a type list return a collection exactly for
    a schema that is not empty and has only supported types: it has the
    allocator and the schema it was given, one copy function of the right
    shape per column, no rows, no segments, and it is not finished.  An
    empty type list ends in the assertion of [Initialize], an unsupported
    type in the internal error of [GetCopyFunction].  The constructor
    without types returns a collection that takes chunks without columns
    only. *)
Theorem constructors_accept_supported_schemas (allocator_p : nat)
    (types_p : list LogicalType) :
  (types_p = [] ->
   ColumnDataCollection_shared allocator_p types_p =
     Fail (InternalException "Assertion triggered: !types.empty()") /\
   ColumnDataCollection_context allocator_p types_p =
     Fail (InternalException "Assertion triggered: !types.empty()")) /\
  (types_p <> [] -> forallb supported types_p = false ->
   exists msg,
     ColumnDataCollection_shared allocator_p types_p = Fail (InternalException msg) /\
     ColumnDataCollection_context allocator_p types_p = Fail (InternalException msg)) /\
  (types_p <> [] -> forallb supported types_p = true ->
   exists this,
     ColumnDataCollection_shared allocator_p types_p = Ok this /\
     ColumnDataCollection_context allocator_p types_p = Ok this /\
     allocator this = allocator_p /\
     Types this = types_p /\
     Forall2 mirrors types_p (copy_functions this) /\
     Count this = 0 /\
     segments this = [] /\
     finished_append this = false /\
     ChunkCount this = Ok 0 /\
     GetRows this = Ok []) /\
  (forall input,
      GetTypes input <> [] ->
      exists msg this',
        Append_chunk (ColumnDataCollection_untyped allocator_p) input =
          (Fail (InternalException msg), this') /\
        Count this' = 0) /\
  (0 < STANDARD_VECTOR_SIZE ->
   forall input,
     dc_data input = [] ->
     exists this',
       Append_chunk (ColumnDataCollection_untyped allocator_p) input = (Ok tt, this') /\
       Count this' = dc_size input).
Proof.
  unfold ColumnDataCollection_context, ColumnDataCollection_shared, Initialize, D_ASSERT.
  split; [|split; [|split; [|split]]].
  - intros ->. done.
  - intros Hne Hs. rewrite bool_decide_false by done. simpl.
    destruct (push_copy_functions_unsupported _ Hs []) as [msg ->]. eauto.
  - intros Hne Hs. rewrite bool_decide_false by done. simpl.
    destruct (push_copy_functions_supported _ Hs []) as (fs & -> & Hm & _). simpl.
    rewrite bool_decide_false by done. simpl.
    eexists. repeat split; done.
  - intros input Hne.
    assert (appendable (ColumnDataCollection_untyped allocator_p)) as Happendable.
    { split; [done|]. split; [constructor|]. by intros s. }
    destruct (InitializeAppend_returns _ {| as_vector_data := [] |} Happendable)
      as (this1 & pre & seg & seg1 & E1 & _ & Hcount1 & Htypes1 & _).
    unfold Append_chunk. rewrite E1. cbn [as_vector_data].
    assert (types this1 <> GetTypes input) as Hmismatch.
    { rewrite Htypes1. simpl. congruence. }
    destruct (Append_mismatch this1
                {| as_vector_data := resize (length (types (ColumnDataCollection_untyped
                                                              allocator_p)))
                                       default_format [] |} input Hmismatch)
      as [msg E2].
    simpl in E2 |- *. rewrite E2. exists msg, this1. split; [done|].
    unfold Count. by rewrite Hcount1.
  - intros Hpos input Hdata.
    edestruct (Append_chunk_returns (ColumnDataCollection_untyped allocator_p) input Hpos)
      as (this' & E & _ & _ & _).
    + split; [done|]. split; [constructor|]. by intros s.
    + split; [constructor|done].
    + simpl. rewrite Hdata. constructor.
    + exists this'. split; [done|]. by apply Append_chunk_count in E as [-> _].
Qed.

(** *** What a flat column stores *)

Lemma flat_call p f memory index src source offset n :
  supported (Primitive p) = true ->
  GetCopyFunction (Primitive p) = Ok f ->
  call_copy_function f memory index src source offset n =
  TemplatedColumnDataCopy (flat_op p) INVALID_INDEX memory index src offset n.
Proof. destruct p; simpl; try discriminate; intros _ [= <-]; reflexivity. Qed.

Lemma flat_op_fixed p : p <> VARCHAR -> flat_op p = StandardValueCopy.
Proof. by destruct p. Qed.

(** The rows a flat copy stores read back as the values of the source,
    whatever is added to the heap afterwards. *)
Lemma stored_values p cls memory src offset n :
  forall i heap,
    (forall k, i <= k < i + n ->
       RowIsValid (uvf_validity src) (uvf_sel src (offset + k)) = true ->
       cell_typed p (uvf_data src (uvf_sel src (offset + k)))) ->
    forall ext,
      map (scalar_value ((stored_rows (flat_op p) cls memory src offset n i heap).2 ++ ext))
          (map as_read (stored_rows (flat_op p) cls memory src offset n i heap).1)
      = map (fun k => source_value memory src (offset + k)) (seq i n).
Proof.
  induction n as [|n IH]; intros i heap Htyped ext; [done|].
  cbn [stored_rows seq map]. unfold source_value at 1.
  pose proof (Htyped i ltac:(lia)) as Hcell.
  assert (forall k, S i <= k < S i + n ->
            RowIsValid (uvf_validity src) (uvf_sel src (offset + k)) = true ->
            cell_typed p (uvf_data src (uvf_sel src (offset + k)))) as Hrest.
  { intros k Hk. apply Htyped. lia. }
  destruct (RowIsValid _ _).
  - specialize (Hcell eq_refl).
    destruct (uvf_data src (uvf_sel src (offset + i))) as [raw|s|e] eqn:Ecell;
      simpl in Hcell; [| |done].
    + rewrite (flat_op_fixed p Hcell). cbn [Operation].
      destruct (stored_rows _ _ _ _ _ _ _ _) as [rest heap'] eqn:Erest.
      cbn [fst snd map as_read scalar_value cell_value]. f_equal.
      specialize (IH (S i) heap Hrest ext).
      rewrite (flat_op_fixed p Hcell), Erest in IH. exact IH.
    + destruct Hcell as [-> Hcaller]. cbn [flat_op Operation].
      destruct s as [bytes|len [a|k]]; [| |done]; cbn [IsInlined].
      * destruct (stored_rows _ _ _ _ _ _ _ _) as [rest heap'] eqn:Erest.
        cbn [fst snd map as_read scalar_value cell_value GetString]. f_equal.
        specialize (IH (S i) heap Hrest ext). cbn [flat_op] in IH.
        rewrite Erest in IH. exact IH.
      * cbn [AddBlob GetString].
        pose proof (stored_rows_heap StringValueCopy cls memory src offset n (S i)
                      (heap ++ [take len (memory a)])) as [more Hmore].
        destruct (stored_rows _ _ _ _ _ _ _ _) as [rest heap'] eqn:Erest.
        cbn [fst snd map as_read scalar_value cell_value GetString] in *. f_equal.
        -- rewrite Hmore, <- !app_assoc.
           rewrite lookup_app_r by lia. rewrite Nat.sub_diag. simpl.
           by rewrite firstn_all.
        -- specialize (IH (S i) (heap ++ [take len (memory a)]) Hrest ext).
           cbn [flat_op] in IH. rewrite Erest in IH. exact IH.
  - destruct (stored_rows _ _ _ _ _ _ _ _) as [rest heap'] eqn:Erest.
    cbn [fst snd map as_read scalar_value]. f_equal.
    specialize (IH (S i) heap Hrest ext). rewrite Erest in IH. exact IH.
Qed.

(** A value that is held is held on every larger heap. *)
Lemma holds_frame seg seg' r vals :
  wf_segment seg ->
  vector_data seg' !! r = vector_data seg !! r ->
  blocks seg' !! r = blocks seg !! r ->
  heap seg `prefix_of` heap seg' ->
  holds seg r vals -> holds seg' r vals.
Proof.
  intros Hwf Hvd Hb [more Hheap] (vd & Hr & Hnone & Hcount & Hvals).
  exists vd. rewrite Hvd. split; [done|]. split; [done|]. split; [done|].
  intros ext. rewrite (descriptor_rows_ext seg seg' r Hvd).
  - rewrite Hheap, <- app_assoc. apply Hvals.
  - intros vd'. rewrite Hr. intros [= <-].
    by rewrite (ok_block _ _ _ (wf_descriptors _ Hwf r vd Hr)).
Qed.

(** One call of a flat copy function with rows that fit the vector: the
    rows go behind the rows of the descriptor, and nothing else changes. *)
Lemma holds_write p memory src seg cur vals offset a :
  wf_segment seg -> holds seg cur vals ->
  0 < a -> length vals + a <= STANDARD_VECTOR_SIZE ->
  (forall k, k < a ->
     RowIsValid (uvf_validity src) (uvf_sel src (offset + k)) = true ->
     cell_typed p (uvf_data src (uvf_sel src (offset + k)))) ->
  exists seg1,
    TemplatedColumnDataCopy (flat_op p) INVALID_INDEX memory cur src offset a seg
    = (Ok tt, seg1) /\
    wf_segment seg1 /\
    chunk_data seg1 = chunk_data seg /\ seg_types seg1 = seg_types seg /\
    seg_count seg1 = seg_count seg /\
    holds seg1 cur (vals ++ map (fun k => source_value memory src (offset + k)) (seq 0 a)) /\
    (forall r vals', r <> cur -> holds seg r vals' -> holds seg1 r vals').
Proof.
  intros Hwf (vd & Hcur & Hnone & Hcount & Hvals) Ha Hfit Htyped.
  unfold TemplatedColumnDataCopy.
  destruct (length (vector_data seg) + a) as [|fuel] eqn:Hfuel; [lia|].
  cbn [TemplatedColumnDataCopy_loop].
  destruct (Nat.eqb_spec a 0) as [?|_]; [lia|].
  pose proof (wf_descriptors _ Hwf cur vd Hcur) as [Hblock _ _].
  pose proof (lookup_lt_Some _ _ _ Hcur) as Hlt.
  destruct (lookup_lt_is_Some_2 (blocks seg) cur) as [b Hb];
    [by rewrite (wf_blocks _ Hwf)|].
  rewrite (GetVectorData_Some _ _ _ Hcur).
  rewrite (GetDataPointer_Some seg (block_id vd) (vd_offset vd) b) by (by rewrite Hblock).
  replace (min (STANDARD_VECTOR_SIZE - vd_count vd) a) with a by lia.
  destruct (copy_rows _ _ _ _ _ _ _ _ _) as [written heap'] eqn:Hcopy.
  destruct (write_window (flat_op p) INVALID_INDEX memory src seg cur vd b offset a
              written heap' Hwf Hcur Hb ltac:(lia) Hcopy)
    as (Hwf1 & Hrows1 & Hheap1 & Hcur1 & Hother1).
  set (seg1 := with_vector_data _ _) in *.
  rewrite Nat.sub_diag. simpl.
  exists seg1. split; [done|]. split; [done|]. split; [done|]. split; [done|].
  split; [done|].
  pose proof (stored_rows_heap (flat_op p) INVALID_INDEX memory src offset a 0 (heap seg))
    as [more Hmore].
  split.
  - exists (set_count (vd_count vd + a) vd). split; [done|]. split; [done|]. split.
    { simpl. rewrite length_app, length_map, length_seq. lia. }
    intros ext. rewrite Hrows1, map_app. f_equal.
    + rewrite Hheap1, Hmore, <- app_assoc. apply Hvals.
    + rewrite Hheap1. apply (stored_values p INVALID_INDEX memory src offset a 0).
      intros k Hk. apply Htyped. lia.
  - intros r vals' Hne Hr. destruct (Hother1 r Hne) as [Hvd Hbl].
    apply (holds_frame seg seg1 r vals' Hwf Hvd Hbl); [|done].
    rewrite Hheap1. by exists more.
Qed.

(** *** The loop over the columns *)

Lemma map_seq_shift {A} (f : nat -> A) offset n :
  map (fun k => f (offset + k)) (seq 0 n) = map f (seq offset n).
Proof.
  revert offset. induction n as [|n IH]; intros offset; [done|].
  simpl. rewrite Nat.add_0_r. f_equal.
  rewrite <- (IH (S offset)), <- seq_shift, map_map.
  apply map_ext. intros k. f_equal. lia.
Qed.

Lemma append_columns_flat ts functions formats data size memory roots offset amount :
  columns_ready ts functions formats data size ->
  0 < amount -> offset + amount <= size ->
  NoDup roots -> length roots = length ts ->
  forall n vector_idx seg columns,
    vector_idx + n = length ts ->
    wf_segment seg ->
    Forall2 (holds seg) roots columns ->
    (forall j column, vector_idx <= j -> columns !! j = Some column ->
                      length column + amount <= STANDARD_VECTOR_SIZE) ->
    exists seg',
      append_columns n vector_idx functions memory roots formats data offset amount seg
      = (Ok tt, seg') /\
      wf_segment seg' /\
      chunk_data seg' = chunk_data seg /\ seg_types seg' = seg_types seg /\
      seg_count seg' = seg_count seg /\
      Forall2 (holds seg') roots
        (imap (fun j column =>
                 if bool_decide (vector_idx <= j)
                 then column ++ window_values memory formats j offset amount
                 else column) columns) /\
      (forall r vals, r ∉ roots -> holds seg r vals -> holds seg' r vals).
Proof.
  intros Hready Hamount Hwindow Hnodup Hroots n.
  induction n as [|n IH]; intros vector_idx seg columns Hend Hwf Hcolumns Hfit.
  - exists seg. split; [done|]. split; [done|]. split; [done|]. split; [done|].
    split; [done|]. split; [|done].
    replace (imap _ columns) with columns; [done|].
    apply list_eq. intros i. rewrite list_lookup_imap.
    destruct (columns !! i) as [column|] eqn:Hi; [|done]. simpl.
    pose proof (lookup_lt_Some _ _ _ Hi) as Hlt.
    rewrite <- (Forall2_length _ _ _ Hcolumns) in Hlt.
    rewrite bool_decide_false by lia. done.
  - destruct (lookup_lt_is_Some_2 ts vector_idx) as [t Ht]; [lia|].
    destruct (Hready vector_idx t Ht)
      as (p & f & format & source & -> & Hsup & Hf & Hcopy & Hformat & Hsource & Htyped).
    destruct (lookup_lt_is_Some_2 roots vector_idx) as [cur Hcur]; [lia|].
    destruct (Forall2_lookup_l _ _ _ _ _ Hcolumns Hcur) as (column & Hcolumn & Hholds).
    cbn [append_columns]. unfold bind at 1, reading at 1, at_index at 1. rewrite Hf.
    unfold bind at 1, reading at 1, at_index at 1. rewrite Hcur.
    unfold bind at 1, reading at 1, at_index at 1. rewrite Hformat.
    unfold bind at 1, reading at 1, at_index at 1. rewrite Hsource.
    unfold bind at 1. rewrite (flat_call p f _ _ _ _ _ _ Hsup Hcopy).
    destruct (holds_write p memory format seg cur column offset amount Hwf Hholds Hamount)
      as (seg1 & -> & Hwf1 & Hchunks1 & Htypes1 & Hcount1 & Hcur1 & Hother1).
    { by apply (Hfit vector_idx). }
    { intros k Hk. apply Htyped. lia. }
    set (column1 := column ++ _) in Hcur1.
    assert (Forall2 (holds seg1) roots (<[vector_idx := column1]> columns)) as Hcolumns1.
    { apply Forall2_same_length_lookup_2.
      { rewrite length_insert. by eapply Forall2_length. }
      intros i r vals Hr Hvals.
      destruct (decide (i = vector_idx)) as [->|Hne].
      - rewrite list_lookup_insert_eq in Hvals by (by eapply lookup_lt_Some).
        injection Hvals as <-. rewrite Hcur in Hr. by injection Hr as <-.
      - rewrite list_lookup_insert_ne in Hvals by done.
        apply Hother1.
        + intros ->. apply Hne. by eapply (NoDup_lookup roots).
        + by eapply (Forall2_lookup_lr _ _ _ i). }
    destruct (IH (S vector_idx) seg1 _ ltac:(lia) Hwf1 Hcolumns1)
      as (seg' & -> & Hwf' & Hchunks' & Htypes' & Hcount' & Hcolumns' & Hother').
    { intros j col Hj. rewrite list_lookup_insert_ne by lia. apply Hfit. lia. }
    exists seg'. split; [done|]. split; [done|]. split; [congruence|].
    split; [congruence|]. split; [congruence|]. split.
    + replace (imap _ columns) with
        (imap (fun j column =>
                 if bool_decide (S vector_idx <= j)
                 then column ++ window_values memory formats j offset amount
                 else column) (<[vector_idx := column1]> columns)); [done|].
      apply list_eq. intros i. rewrite !list_lookup_imap.
      destruct (decide (i = vector_idx)) as [->|Hne].
      * rewrite list_lookup_insert_eq by (by eapply lookup_lt_Some). rewrite Hcolumn. simpl.
        rewrite bool_decide_false, bool_decide_true by lia.
        subst column1. unfold window_values. rewrite Hformat.
        by rewrite map_seq_shift.
      * rewrite list_lookup_insert_ne by done.
        destruct (columns !! i); [|done]. simpl.
        destruct (decide (vector_idx <= i)).
        -- by rewrite !bool_decide_true by lia.
        -- by rewrite !bool_decide_false by lia.
    + intros r vals Hr Hvals. apply Hother', Hother1; [done| |done].
      intros ->. apply Hr. by eapply list_elem_of_lookup_2.
Qed.

(** *** A new chunk of a flat schema *)

Lemma allocate_columns_flat ts :
  Forall flat ts ->
  forall seg,
    wf_segment seg ->
    exists seg',
      allocate_columns ts seg = (Ok (seq (length (vector_data seg)) (length ts)), seg') /\
      wf_segment seg' /\
      (forall i, i < length (vector_data seg) ->
                 vector_data seg' !! i = vector_data seg !! i /\
                 blocks seg' !! i = blocks seg !! i) /\
      (forall i, length (vector_data seg) <= i < length (vector_data seg) + length ts ->
                 exists vd, vector_data seg' !! i = Some vd /\
                            vd_count vd = 0 /\ next_data vd = None) /\
      heap seg' = heap seg /\ chunk_data seg' = chunk_data seg /\
      seg_types seg' = seg_types seg /\ seg_count seg' = seg_count seg.
Proof.
  induction 1 as [|t ts (p & -> & _) _ IH]; intros seg Hwf.
  - exists seg. split; [done|]. split; [done|]. split; [done|]. split; [|done].
    intros i Hi. simpl in Hi. lia.
  - destruct (allocate_fresh seg Hwf) as (Hwf1 & _ & Hindex & Htable & Hblocks & _ & Hheap).
    assert (chunk_data (AllocateVector None seg).2 = chunk_data seg /\
            seg_types (AllocateVector None seg).2 = seg_types seg /\
            seg_count (AllocateVector None seg).2 = seg_count seg) as (? & ? & ?) by done.
    cbn [allocate_columns allocate_column].
    unfold bind at 1. unfold bind at 1. unfold calling at 1.
    destruct (AllocateVector None seg) as [index seg1] eqn:E1.
    cbn [fst snd] in *. subst index. unfold ret at 1.
    destruct (IH seg1 Hwf1)
      as (seg' & E & Hwf' & Hold & Hnew & Hheap' & Hchunks' & Htypes' & Hcount').
    unfold bind at 1. rewrite E. unfold ret.
    assert (length (vector_data seg1) = S (length (vector_data seg))) as Hlen.
    { rewrite Htable, length_app. simpl. lia. }
    rewrite Hlen. exists seg'. split; [done|]. split; [done|].
    split; [|split; [|repeat split; congruence]].
    + intros i Hi. destruct (Hold i ltac:(lia)) as [-> ->].
      rewrite Htable, Hblocks, !lookup_app_l; [done| |done].
      by rewrite (wf_blocks _ Hwf).
    + intros i Hi. simpl in Hi.
      destruct (decide (i = length (vector_data seg))) as [->|Hne].
      * destruct (Hold (length (vector_data seg)) ltac:(lia)) as [-> _].
        rewrite Htable, lookup_app_r, Nat.sub_diag by lia. simpl. eauto.
      * apply Hnew. lia.
Qed.

Lemma elem_of_concat {A} (x : A) (ls : list (list A)) :
  x ∈ concat ls <-> exists l, x ∈ l /\ l ∈ ls.
Proof.
  induction ls as [|a ls IH]; simpl.
  - split; [by intros ?%elem_of_nil|]. by intros (l & _ & ?%elem_of_nil).
  - rewrite elem_of_app, IH. split.
    + intros [?|(l & ? & ?)].
      * exists a. split; [done|apply list_elem_of_here].
      * exists l. split; [done|by apply list_elem_of_further].
    + intros (l & Hx & [->|Hl]%elem_of_cons); [by left|right; eauto].
Qed.

Lemma stores_root_range ts seg chunks r :
  stores ts seg chunks ->
  r ∈ concat (map cm_vector_data (chunk_data seg)) -> r < length (vector_data seg).
Proof.
  intros (_ & _ & Hchunks & _) Hr.
  apply elem_of_concat in Hr as (roots & Hr & Hroots).
  apply list_elem_of_fmap in Hroots as (cm & -> & Hcm).
  apply list_elem_of_lookup in Hcm as [k Hk].
  destruct (Forall2_lookup_l _ _ _ _ _ Hchunks Hk) as (sc & _ & _ & Hholds & _).
  apply list_elem_of_lookup in Hr as [j Hj].
  destruct (Forall2_lookup_l _ _ _ _ _ Hholds Hj) as (vals & _ & vd & Hvd & _).
  by eapply lookup_lt_Some.
Qed.

Lemma chunk_holds_frame ts seg seg' cm sc :
  (forall r vals, r ∈ cm_vector_data cm -> holds seg r vals -> holds seg' r vals) ->
  chunk_holds ts seg cm sc -> chunk_holds ts seg' cm sc.
Proof.
  intros Hframe (Hsize & Hholds & Hlen & Hcols).
  split; [done|]. split; [|done].
  apply Forall2_same_length_lookup_2; [by eapply Forall2_length|].
  intros i r vals Hr Hvals. apply Hframe; [by eapply list_elem_of_lookup_2|].
  by eapply (Forall2_lookup_lr _ _ _ i).
Qed.

(** [AllocateNewChunk] on a segment of a flat schema adds a chunk without
    rows and leaves the chunks that are there as they are. *)
Lemma AllocateNewChunk_flat ts seg chunks :
  Forall flat ts -> stores ts seg chunks ->
  exists seg',
    AllocateNewChunk seg = (Ok tt, seg') /\
    stores ts seg' (chunks ++ [{| sc_data := replicate (length ts) []; sc_size := 0 |}]) /\
    seg_count seg' = seg_count seg.
Proof.
  intros Hflat Hstores.
  pose proof Hstores as (Hwf & Htypes & Hchunks & Hnodup).
  destruct (allocate_columns_flat ts Hflat seg Hwf)
    as (seg1 & E & Hwf1 & Hold & Hnew & Hheap1 & Hchunks1 & Htypes1 & Hcount1).
  unfold AllocateNewChunk.
  rewrite (bind_returns _ _ seg (seg_types seg) seg) by done.
  rewrite Htypes, (bind_returns _ _ seg _ seg1 E).
  eexists. split; [reflexivity|]. split; [|done].
  set (seg' := with_chunk_data _ seg1).
  assert (forall r vals, r < length (vector_data seg) -> holds seg r vals -> holds seg' r vals)
    as Hframe.
  { intros r vals Hr. destruct (Hold r Hr) as [Hvd Hb].
    apply (holds_frame seg seg' r vals Hwf Hvd Hb). simpl. by rewrite Hheap1. }
  split; [|split; [by rewrite <- Htypes|split]].
  - destruct Hwf1 as [? ? ?]. by constructor.
  - simpl. rewrite Hchunks1. apply Forall2_app.
    + apply Forall2_same_length_lookup_2; [by eapply Forall2_length|].
      intros k cm sc Hk Hsc.
      pose proof (Forall2_lookup_lr _ _ _ k _ _ Hchunks Hk Hsc) as Hcm.
      assert (cm ∈ chunk_data seg) as Hin by (by eapply list_elem_of_lookup_2).
      apply (chunk_holds_frame ts seg seg' cm sc); [|done].
      intros r vals Hr. apply Hframe. apply (stores_root_range ts seg chunks r Hstores).
      apply elem_of_concat. exists (cm_vector_data cm). split; [done|].
      by apply list_elem_of_fmap_2.
    + constructor; [|constructor]. split; [done|]. simpl.
      split; [|split; [by rewrite length_replicate|by apply Forall_replicate]].
      apply Forall2_same_length_lookup_2; [by rewrite length_seq, length_replicate|].
      intros i r vals Hr Hvals.
      apply lookup_seq in Hr as [-> Hi].
      apply lookup_replicate in Hvals as [-> _].
      destruct (Hnew (length (vector_data seg) + i) ltac:(lia)) as (vd & Hvd & Hzero & Hnone).
      exists vd. split; [done|]. split; [done|]. split; [done|].
      intros ext. unfold descriptor_rows. simpl. rewrite Hvd, Hzero.
      by destruct (blocks seg1 !! block_id vd).
  - simpl. rewrite Hchunks1, map_app, concat_app. simpl. rewrite app_nil_r.
    apply NoDup_app. split; [done|]. split; [|apply NoDup_seq].
    intros r Hr Hseq. apply (stores_root_range ts seg chunks r Hstores) in Hr.
    apply elem_of_seq in Hseq. lia.
Qed.

(** *** The append loop on a flat schema *)

Lemma column_of_app c chunks1 chunks2 :
  column_of c (chunks1 ++ chunks2) = column_of c chunks1 ++ column_of c chunks2.
Proof. unfold column_of. by rewrite map_app, concat_app. Qed.

Lemma window_values_length memory formats j offset amount format :
  formats !! j = Some format ->
  length (window_values memory formats j offset amount) = amount.
Proof. intros E. unfold window_values. by rewrite E, length_map, length_seq. Qed.

Lemma window_values_app memory formats j offset a b :
  window_values memory formats j offset (a + b) =
  window_values memory formats j offset a ++ window_values memory formats j (offset + a) b.
Proof.
  unfold window_values. destruct (formats !! j); [|done].
  by rewrite seq_app, map_app.
Qed.

Lemma stores_last ts seg chunks sc :
  stores ts seg (chunks ++ [sc]) ->
  exists cms cm,
    chunk_data seg = cms ++ [cm] /\
    Forall2 (chunk_holds ts seg) cms chunks /\
    chunk_holds ts seg cm sc /\
    NoDup (cm_vector_data cm) /\
    (forall r, r ∈ concat (map cm_vector_data cms) -> r ∉ cm_vector_data cm).
Proof.
  intros (_ & _ & Hchunks & Hnodup).
  apply Forall2_app_inv_r in Hchunks as (cms & last_cm & Hcms & Hlast & Echunks).
  inversion Hlast as [|cm ? rest ? Hcm Hrest]; subst. inversion Hrest; subst.
  exists cms, cm. split; [done|]. split; [done|]. split; [done|].
  rewrite Echunks, map_app, concat_app in Hnodup. simpl in Hnodup.
  rewrite app_nil_r in Hnodup. apply NoDup_app in Hnodup as (_ & Hdisjoint & Hcm').
  done.
Qed.

(** One turn of the append loop that writes [amount] rows. *)
Lemma append_turn_flat ts functions formats data size memory seg chunks sc offset amount :
  columns_ready ts functions formats data size ->
  stores ts seg (chunks ++ [sc]) ->
  0 < amount -> offset + amount <= size ->
  sc_size sc + amount <= STANDARD_VECTOR_SIZE ->
  exists cm seg',
    last (chunk_data seg) = Some cm /\ cm_count cm = sc_size sc /\
    bind (append_columns (length ts) 0 functions memory (cm_vector_data cm) formats data
            offset amount)
         (fun _ => modifying (fun seg =>
            with_chunk_data
              (alter (add_chunk_count amount) (length (chunk_data seg) - 1)) seg)) seg
    = (Ok tt, seg') /\
    stores ts seg'
      (chunks ++
       [{| sc_data := imap (fun j column =>
                              column ++ window_values memory formats j offset amount)
                           (sc_data sc);
           sc_size := sc_size sc + amount |}]) /\
    seg_count seg' = seg_count seg.
Proof.
  intros Hready Hstores Hamount Hwindow Hfit.
  destruct (stores_last ts seg chunks sc Hstores)
    as (cms & cm & Echunks & Hcms & (Hsize & Hholds & Hlen & Hcols) & Hnodup & Hdisjoint).
  destruct Hstores as (Hwf & Htypes & _ & Hnodup_all).
  exists cm.
  destruct (append_columns_flat ts functions formats data size memory (cm_vector_data cm)
              offset amount Hready Hamount Hwindow Hnodup
              ltac:(by rewrite (Forall2_length _ _ _ Hholds))
              (length ts) 0 seg (sc_data sc) eq_refl Hwf Hholds)
    as (seg1 & E & Hwf1 & Hchunks1 & Htypes1 & Hcount1 & Hholds1 & Hother1).
  { intros j column _ Hj. rewrite (Forall_lookup_1 _ _ _ _ Hcols Hj). lia. }
  unfold bind at 1. rewrite E. unfold modifying.
  eexists. split; [by rewrite Echunks, last_snoc|]. split; [done|].
  split; [reflexivity|]. split; [|done].
  set (seg' := with_chunk_data _ seg1).
  assert (chunk_data seg' = cms ++ [add_chunk_count amount cm]) as Echunks'.
  { subst seg'. simpl. by rewrite Hchunks1, Echunks, alter_last. }
  replace (imap _ (sc_data sc)) with
    (imap (fun j column => column ++ window_values memory formats j offset amount)
       (sc_data sc)) in Hholds1 by (by apply imap_ext).
  split; [|split; [by rewrite <- Htypes1 in Htypes|split]].
  - destruct Hwf1 as [? ? ?]. by constructor.
  - rewrite Echunks'. apply Forall2_app.
    + apply Forall2_same_length_lookup_2; [by eapply Forall2_length|].
      intros k cmk sck Hk Hsck.
      pose proof (Forall2_lookup_lr _ _ _ k _ _ Hcms Hk Hsck) as Hcmk.
      apply (chunk_holds_frame ts seg1 seg' cmk sck); [done|].
      apply (chunk_holds_frame ts seg seg1 cmk sck); [|done].
      intros r vals Hr. apply Hother1, Hdisjoint.
      apply elem_of_concat. exists (cm_vector_data cmk). split; [done|].
      apply list_elem_of_fmap_2. by eapply list_elem_of_lookup_2.
    + constructor; [|constructor]. split; [simpl; lia|]. simpl.
      split; [exact Hholds1|]. split; [by rewrite length_imap|].
      apply Forall_lookup. intros j column Hj.
      rewrite list_lookup_imap in Hj.
      destruct (sc_data sc !! j) as [old|] eqn:Hold; [|done].
      injection Hj as <-. rewrite length_app, (Forall_lookup_1 _ _ _ _ Hcols Hold).
      pose proof (lookup_lt_Some _ _ _ Hold) as Hlt. rewrite Hlen in Hlt.
      destruct (lookup_lt_is_Some_2 ts j Hlt) as [t Ht].
      destruct (Hready j t Ht) as (? & ? & format & ? & _ & _ & _ & _ & Hformat & _).
      by rewrite (window_values_length _ _ _ _ _ format).
  - rewrite Echunks', map_app. simpl. by rewrite Echunks, map_app in Hnodup_all.
Qed.

Lemma column_of_snoc c chunks sc :
  column_of c (chunks ++ [sc]) = column_of c chunks ++ default [] (sc_data sc !! c).
Proof. rewrite column_of_app. unfold column_of at 2. simpl. by rewrite app_nil_r. Qed.

Lemma window_values_nil memory formats j offset :
  window_values memory formats j offset 0 = [].
Proof. unfold window_values. by destruct (formats !! j). Qed.

(** The append loop on a segment of a flat schema returns, and behind the
    values that every column held it leaves the values of the rows that
    remained, in order. *)
Lemma Append_loop_flat ts functions formats data size memory :
  0 < STANDARD_VECTOR_SIZE ->
  Forall flat ts ->
  columns_ready ts functions formats data size ->
  forall fuel remaining seg chunks sc,
    remaining <= size ->
    stores ts seg (chunks ++ [sc]) ->
    remaining + (if sc_size sc <? STANDARD_VECTOR_SIZE then 0 else 1) <= fuel ->
    exists seg' chunks' sc',
      Append_loop fuel (length ts) functions memory formats data size remaining seg
      = (Ok tt, seg') /\
      stores ts seg' (chunks' ++ [sc']) /\
      seg_count seg' = seg_count seg /\
      forall c, c < length ts ->
        column_of c (chunks' ++ [sc']) =
        column_of c (chunks ++ [sc])
        ++ window_values memory formats c (size - remaining) remaining.
Proof.
  intros Hpos Hflat Hready fuel.
  induction fuel as [|fuel IH]; intros remaining seg chunks sc Hremaining Hstores Hfuel.
  { assert (remaining = 0) as -> by lia.
    exists seg, chunks, sc. split; [done|]. split; [done|]. split; [done|].
    intros c _. by rewrite window_values_nil, app_nil_r. }
  destruct (Nat.eqb_spec remaining 0) as [->|Hne].
  { exists seg, chunks, sc. split; [done|]. split; [done|]. split; [done|].
    intros c _. by rewrite window_values_nil, app_nil_r. }
  cbn [Append_loop]. destruct (Nat.eqb_spec remaining 0) as [?|_]; [done|].
  destruct (stores_last ts seg chunks sc Hstores)
    as (cms & cm & Echunks & _ & (Hsize & Hholds & Hlen & _) & _).
  unfold bind at 1, reading at 1. rewrite Echunks, last_snoc.
  set (amount := min remaining (STANDARD_VECTOR_SIZE - cm_count cm)).
  assert (forall seg1 chunks1 sc1,
            stores ts seg1 (chunks1 ++ [sc1]) ->
            seg_count seg1 = seg_count seg ->
            (forall c, c < length ts ->
               column_of c (chunks1 ++ [sc1]) =
               column_of c (chunks ++ [sc])
               ++ window_values memory formats c (size - remaining) amount) ->
            exists seg' chunks' sc',
              (if 0 <? remaining - amount
               then bind AllocateNewChunk (fun _ =>
                      Append_loop fuel (length ts) functions memory formats data size
                        (remaining - amount))
               else ret tt) seg1 = (Ok tt, seg') /\
              stores ts seg' (chunks' ++ [sc']) /\
              seg_count seg' = seg_count seg /\
              forall c, c < length ts ->
                column_of c (chunks' ++ [sc']) =
                column_of c (chunks ++ [sc])
                ++ window_values memory formats c (size - remaining) remaining) as Hrest.
  { intros seg1 chunks1 sc1 Hstores1 Hcount1 Hvalues1.
    destruct (Nat.ltb_spec 0 (remaining - amount)) as [Hmore|Hdone].
    - destruct (AllocateNewChunk_flat ts seg1 (chunks1 ++ [sc1]) Hflat Hstores1)
        as (seg2 & E2 & Hstores2 & Hcount2).
      unfold bind at 1. rewrite E2.
      destruct (IH (remaining - amount) seg2 _ _ ltac:(lia) Hstores2)
        as (seg' & chunks' & sc' & E & Hstores' & Hcount' & Hvalues').
      { simpl. destruct (Nat.ltb_spec 0 STANDARD_VECTOR_SIZE); [|lia].
        subst amount. rewrite <- Hsize in *.
        destruct (Nat.ltb_spec (sc_size sc) STANDARD_VECTOR_SIZE); lia. }
      exists seg', chunks', sc'. split; [done|]. split; [done|]. split; [congruence|].
      intros c Hc. rewrite (Hvalues' c Hc), column_of_snoc. simpl.
      rewrite (Hvalues1 c Hc).
      assert (replicate (length ts) ([] : list Value) !! c = Some []) as ->
        by (by apply lookup_replicate).
      simpl. rewrite app_nil_r, <- app_assoc. f_equal.
      replace (window_values memory formats c (size - remaining) remaining)
        with (window_values memory formats c (size - remaining)
                (amount + (remaining - amount))) by (f_equal; lia).
      rewrite window_values_app. do 2 f_equal. lia.
    - exists seg1, chunks1, sc1. split; [done|]. split; [done|]. split; [done|].
      intros c Hc. rewrite (Hvalues1 c Hc). do 2 f_equal. lia. }
  destruct (Nat.ltb_spec 0 amount) as [Hamount|Hzero].
  - destruct (append_turn_flat ts functions formats data size memory seg chunks sc
                (size - remaining) amount Hready Hstores Hamount ltac:(lia) ltac:(lia))
      as (cm' & seg1 & Hcm' & _ & E1 & Hstores1 & Hcount1).
    rewrite Echunks, last_snoc in Hcm'. injection Hcm' as <-.
    unfold bind at 1. rewrite E1.
    apply (Hrest seg1 _ _ Hstores1 Hcount1).
    intros c Hc. rewrite !column_of_snoc. simpl. rewrite list_lookup_imap.
      destruct (lookup_lt_is_Some_2 (sc_data sc) c) as [column ->]; [lia|].
      simpl. by rewrite app_assoc.
  - unfold bind at 1, ret at 1.
    apply (Hrest seg chunks sc Hstores eq_refl).
    intros c _. replace amount with 0 by lia.
    by rewrite window_values_nil, app_nil_r.
Qed.

(** *** What is stored is what is scanned *)

Lemma read_flat_columns seg roots columns :
  wf_segment seg -> Forall2 (holds seg) roots columns ->
  forall ts,
    Forall flat ts -> length columns = length ts ->
    zip_with (fun t i => read_vector t seg i) ts roots = columns.
Proof.
  intros Hwf. induction 1 as [|r vals roots columns Hr _ IH]; intros ts Hflat Hlen.
  - by destruct ts.
  - destruct ts as [|t ts]; [done|]. apply Forall_cons in Hflat as [(p & -> & _) Hflat].
    cbn [zip_with]. rewrite (IH ts Hflat) by (simpl in Hlen; lia). f_equal.
    destruct Hr as (vd & Hvd & Hnone & _ & Hvals).
    cbn [read_vector]. rewrite (chain_rows_unfold seg r vd Hwf Hvd), Hnone, app_nil_r.
    specialize (Hvals []). by rewrite app_nil_r in Hvals.
Qed.

(** A scan of all columns reads the chunks that the segment stores. *)
Lemma stores_scanned ts seg chunks :
  Forall flat ts -> stores ts seg chunks ->
  segment_chunks (seq 0 (length ts)) (Some seg) = chunks.
Proof.
  intros Hflat (Hwf & Htypes & Hchunks & _). unfold segment_chunks.
  apply list_eq. intros k. rewrite list_lookup_fmap.
  destruct (chunk_data seg !! k) as [cm|] eqn:Hk.
  - rewrite lookup_seq_lt by (by eapply lookup_lt_Some). simpl.
    destruct (Forall2_lookup_l _ _ _ _ _ Hchunks Hk)
      as (sc & -> & Hsize & Hholds & Hlen & _).
    f_equal. unfold ReadChunk. rewrite Hk.
    assert (omap (fun c => seg_types seg !! c) (seq 0 (length ts)) = ts) as ->.
    { rewrite Htypes. apply (omap_lookup_seq ts []). }
    assert (omap (fun c => cm_vector_data cm !! c) (seq 0 (length ts)) = cm_vector_data cm)
      as ->.
    { rewrite <- Hlen, <- (Forall2_length _ _ _ Hholds).
      apply (omap_lookup_seq (cm_vector_data cm) []). }
    rewrite (read_flat_columns seg _ _ Hwf Hholds ts Hflat Hlen).
    destruct sc. simpl in *. by subst.
  - rewrite lookup_seq_ge by (by apply lookup_ge_None). simpl.
    symmetry. apply lookup_ge_None. rewrite <- (Forall2_length _ _ _ Hchunks).
    by apply lookup_ge_None.
Qed.

Lemma column_values_snoc this pre seg chunks c :
  Forall flat (types this) ->
  segments this = pre ++ [Some seg] -> stores (types this) seg chunks ->
  column_values this c =
  column_of c (concat (map (segment_chunks (seq 0 (length (types this)))) pre))
  ++ column_of c chunks.
Proof.
  intros Hflat Hpre Hstores. unfold column_values, scanned_chunks, ColumnCount.
  rewrite Hpre, map_app, concat_app, column_of_app. cbn [map concat].
  by rewrite (stores_scanned _ _ _ Hflat Hstores), app_nil_r.
Qed.

Lemma stores_with_seg_count ts n seg chunks :
  stores ts seg chunks -> stores ts (with_seg_count n seg) chunks.
Proof.
  intros ([? ? ?] & ? & ? & ?). split; [by constructor|]. done.
Qed.

Lemma stores_new_segment ts : stores ts (new_segment ts) [].
Proof.
  split; [apply wf_new_segment|]. split; [done|]. split; [constructor|]. simpl.
  constructor.
Qed.

Lemma stores_nil ts seg chunks :
  stores ts seg chunks -> chunk_data seg = [] -> chunks = [].
Proof.
  intros (_ & _ & Hchunks & _) E. rewrite E in Hchunks. by inversion Hchunks.
Qed.

Lemma stores_snoc ts seg chunks :
  stores ts seg chunks -> chunk_data seg <> [] ->
  exists chunks' sc, chunks = chunks' ++ [sc].
Proof.
  intros (_ & _ & Hchunks & _) Hne.
  destruct chunks as [|sc chunks] using rev_ind; [|eauto].
  inversion Hchunks; congruence.
Qed.

(** *** [InitializeAppend] and [Append] on a flat collection *)

Lemma column_of_nil c : column_of c [] = [].
Proof. done. Qed.

Lemma column_of_empty_chunk c n chunks :
  column_of c (chunks ++ [{| sc_data := replicate n []; sc_size := 0 |}])
  = column_of c chunks.
Proof.
  rewrite column_of_snoc. simpl.
  destruct (replicate n ([] : list Value) !! c) as [column|] eqn:E.
  - apply lookup_replicate in E as [-> _]. apply app_nil_r.
  - apply app_nil_r.
Qed.

(** The segment has a chunk after [InitializeAppend], and holds what it
    held. *)
Lemma ensure_chunk_flat ts seg chunks :
  Forall flat ts -> stores ts seg chunks ->
  exists seg' chunks' sc,
    bind (reading (fun seg => Ok (chunk_data seg)))
      (fun chunks => if bool_decide (chunks = []) then AllocateNewChunk else ret tt) seg
    = (Ok tt, seg') /\
    stores ts seg' (chunks' ++ [sc]) /\
    forall c, column_of c (chunks' ++ [sc]) = column_of c chunks.
Proof.
  intros Hflat Hstores. unfold bind at 1, reading at 1.
  case_bool_decide as Hempty.
  - destruct (AllocateNewChunk_flat ts seg chunks Hflat Hstores) as (seg' & E & Hstores' & _).
    eexists seg', chunks, _. split; [done|]. split; [done|].
    intros c. apply column_of_empty_chunk.
  - destruct (stores_snoc ts seg chunks Hstores Hempty) as (chunks' & sc & ->).
    by exists seg, chunks', sc.
Qed.

Lemma flat_stored_last this s :
  flat_stored this -> last (segments this) = Some s ->
  exists pre seg chunks,
    s = Some seg /\ segments this = pre ++ [Some seg] /\
    stores (types this) seg chunks /\
    Forall (fun s => exists seg chunks, s = Some seg /\ stores (types this) seg chunks) pre.
Proof.
  intros (_ & _ & _ & Hsegs) Hlast. apply last_Some_app in Hlast as [pre Hpre].
  rewrite Hpre in Hsegs. apply Forall_app in Hsegs as [Hpre_ok Hlast].
  apply Forall_cons in Hlast as [(seg & chunks & -> & Hstores) _].
  by exists pre, seg, chunks.
Qed.

Lemma InitializeAppend_flat this state :
  flat_stored this ->
  exists this1 pre seg chunks sc,
    InitializeAppend this state =
      (Ok tt, this1,
       {| as_vector_data :=
            resize (length (types this)) default_format (as_vector_data state) |}) /\
    flat_stored this1 /\
    types this1 = types this /\ count this1 = count this /\
    segments this1 = pre ++ [Some seg] /\
    stores (types this) seg (chunks ++ [sc]) /\
    forall c, column_values this1 c = column_values this c.
Proof.
  intros Hstored. pose proof Hstored as (Hflat & Hfin & Hfun & Hsegs).
  unfold InitializeAppend, D_ASSERT. rewrite Hfin. simpl.
  set (m := bind _ _).
  assert (exists this0 pre seg chunks,
            (if bool_decide (segments this = []) then CreateSegment this else this) = this0 /\
            segments this0 = pre ++ [Some seg] /\
            stores (types this) seg chunks /\
            Forall (fun s => exists seg chunks,
                      s = Some seg /\ stores (types this) seg chunks) pre /\
            types this0 = types this /\ count this0 = count this /\
            copy_functions this0 = copy_functions this /\
            finished_append this0 = finished_append this /\
            forall c, column_of c
                        (concat (map (segment_chunks (seq 0 (length (types this)))) pre))
                      ++ column_of c chunks = column_values this c)
    as (this0 & pre & seg & chunks & -> & Hpre & Hstores & Hpre_ok & Htypes0 & Hcount0 &
        Hfun0 & Hfin0 & Hvalues0).
  { case_bool_decide as Hempty.
    - exists (CreateSegment this), [], (new_segment (types this)), [].
      split; [done|]. split; [simpl; by rewrite Hempty|].
      split; [apply stores_new_segment|]. split; [constructor|].
      repeat (split; [done|]). intros c.
      unfold column_values, scanned_chunks. by rewrite Hempty.
    - destruct (last (segments this)) as [s|] eqn:Hlast;
        [|by apply last_None in Hlast].
      destruct (flat_stored_last this s Hstored Hlast)
        as (pre & seg & chunks & -> & Hpre & Hstores & Hpre_ok).
      exists this, pre, seg, chunks. repeat (split; [done|]).
      intros c. by rewrite (column_values_snoc this pre seg chunks c Hflat Hpre Hstores). }
  destruct (ensure_chunk_flat _ seg chunks Hflat Hstores)
    as (seg' & chunks' & sc & E & Hstores' & Hvalues').
  fold m in E.
  destruct (on_back_segment_last m this0 seg (Ok tt) seg'
              ltac:(by rewrite Hpre, last_snoc) E)
    as (this1 & -> & _ & Hpre1 & Hcount1 & Htypes1 & Hfun1 & Hfin1 & _).
  specialize (Hpre1 pre Hpre).
  exists this1, pre, seg', chunks', sc. split; [done|].
  assert (flat_stored this1) as Hstored1.
  { split; [by rewrite Htypes1, Htypes0|]. split; [congruence|].
    split; [by rewrite Htypes1, Htypes0, Hfun1, Hfun0|].
    rewrite Hpre1, Htypes1, Htypes0. apply Forall_app. split; [done|].
    constructor; [|constructor]. eauto. }
  split; [done|]. split; [congruence|]. split; [congruence|]. split; [done|].
  split; [done|]. intros c.
  rewrite (column_values_snoc this1 pre seg' (chunks' ++ [sc]) c); try done.
  - rewrite Htypes1, Htypes0, Hvalues'. apply Hvalues0.
  - by destruct Hstored1.
  - by rewrite Htypes1, Htypes0.
Qed.

Lemma chunk_typed_types ts input : chunk_typed ts input -> GetTypes input = ts.
Proof.
  unfold chunk_typed, GetTypes.
  induction 1 as [|t v ts data (p & _ & Hv & _) _ IH]; [done|].
  simpl. by rewrite Hv, IH.
Qed.

Lemma flat_not_complex t : flat t -> IsComplexType t = false.
Proof. intros (p & -> & Hp). by destruct p. Qed.

Lemma unify_columns_flat ts input :
  Forall flat ts -> chunk_typed ts input ->
  forall n vector_idx formats,
    vector_idx + n = length ts -> length ts <= length formats ->
    (forall j v, j < vector_idx -> dc_data input !! j = Some v ->
                 formats !! j = Some (VectorFormat v)) ->
    exists formats',
      unify_columns n vector_idx input formats = Ok (dc_data input, formats') /\
      forall j v, j < length ts -> dc_data input !! j = Some v ->
                  formats' !! j = Some (VectorFormat v).
Proof.
  intros Hflat Htyped n.
  induction n as [|n IH]; intros vector_idx formats Hend Hlen Hdone.
  - exists formats. split; [done|]. intros j v Hj. apply Hdone. lia.
  - pose proof (Forall2_length _ _ _ Htyped) as Hdata.
    destruct (lookup_lt_is_Some_2 (dc_data input) vector_idx) as [v Hv]; [lia|].
    destruct (Forall2_lookup_r _ _ _ _ _ Htyped Hv) as (t & Ht & p & -> & Htype & _).
    pose proof (Forall_lookup_1 _ _ _ _ Hflat Ht) as Hflat_t.
    cbn [unify_columns]. rewrite Hv, Htype, (flat_not_complex _ Hflat_t).
    rewrite bool_decide_true by lia. rewrite (list_insert_id _ _ _ Hv).
    assert ({| dc_data := dc_data input; dc_size := dc_size input;
               dc_strings := dc_strings input |} = input) as -> by (by destruct input).
    apply IH; [lia|by rewrite length_insert|].
    intros j w Hj Hw. destruct (decide (j = vector_idx)) as [->|Hne].
    + rewrite list_lookup_insert_eq by lia. rewrite Hv in Hw. by injection Hw as <-.
    + rewrite list_lookup_insert_ne by done. apply Hdone; [lia|done].
Qed.

Lemma columns_ready_unified ts functions formats input :
  Forall flat ts -> chunk_typed ts input ->
  Forall2 (fun t f => GetCopyFunction t = Ok f) ts functions ->
  (forall j v, j < length ts -> dc_data input !! j = Some v ->
               formats !! j = Some (VectorFormat v)) ->
  columns_ready ts functions formats (dc_data input) (dc_size input).
Proof.
  intros Hflat Htyped Hfun Hformats j t Ht.
  destruct (Forall_lookup_1 _ _ _ _ Hflat Ht) as (p & -> & Hp).
  destruct (Forall2_lookup_l _ _ _ _ _ Hfun Ht) as (f & Hf & Hcopy).
  destruct (Forall2_lookup_l _ _ _ _ _ Htyped Ht) as (v & Hv & q & [= <-] & _ & Hcells).
  exists p, f, (VectorFormat v), v. repeat (split; [done|]).
  split; [|done]. apply Hformats; [by eapply lookup_lt_Some|done].
Qed.

Lemma Append_flat this state input pre seg chunks sc :
  0 < STANDARD_VECTOR_SIZE ->
  flat_stored this ->
  segments this = pre ++ [Some seg] ->
  stores (types this) seg (chunks ++ [sc]) ->
  chunk_typed (types this) input ->
  length (types this) <= length (as_vector_data state) ->
  exists this' state',
    Append this state input = (Ok tt, this', state') /\
    flat_stored this' /\
    types this' = types this /\ count this' = count this + dc_size input /\
    forall c, c < length (types this) ->
      column_values this' c = column_values this c ++ input_column input c.
Proof.
  intros Hpos Hstored Hpre Hstores Htyped Hstate.
  pose proof Hstored as (Hflat & Hfin & Hfun & Hsegs).
  unfold Append, D_ASSERT. rewrite Hfin. simpl.
  rewrite (proj2 (types_eqb_eq _ _) (eq_sym (chunk_typed_types _ _ Htyped))).
  destruct (unify_columns_flat (types this) input Hflat Htyped (length (types this)) 0
              (as_vector_data state) eq_refl Hstate ltac:(intros; lia))
    as (formats & -> & Hformats).
  pose proof (columns_ready_unified _ _ _ _ Hflat Htyped Hfun Hformats) as Hready.
  destruct (Append_loop_flat (types this) (copy_functions this) formats (dc_data input)
              (dc_size input) (dc_strings input) Hpos Hflat Hready
              (dc_size input + 1) (dc_size input) seg chunks sc (le_n _) Hstores)
    as (seg' & chunks' & sc' & Eloop & Hstores' & Hcount' & Hvalues').
  { destruct (_ <? _); lia. }
  set (m := bind _ _).
  assert (m seg = (Ok tt, with_seg_count (seg_count seg' + dc_size input) seg')) as E.
  { subst m. unfold bind. by rewrite Eloop. }
  destruct (on_back_segment_last m this seg (Ok tt) _ ltac:(by rewrite Hpre, last_snoc) E)
    as (this1 & -> & _ & Hpre1 & Hcount1 & Htypes1 & Hfun1 & Hfin1 & _).
  specialize (Hpre1 pre Hpre).
  eexists _, _. split; [reflexivity|].
  apply (stores_with_seg_count _ (seg_count seg' + dc_size input)) in Hstores'.
  rewrite Hpre in Hsegs. apply Forall_app in Hsegs as [Hpre_ok _].
  assert (flat_stored (with_count (count this1 + dc_size input) this1)) as Hstored1.
  { split; [simpl; by rewrite Htypes1|]. split; [simpl; congruence|].
    split; [simpl; by rewrite Htypes1, Hfun1|].
    simpl. rewrite Hpre1, Htypes1. apply Forall_app. split; [done|].
    constructor; [|constructor]. eauto. }
  split; [done|]. split; [done|]. split; [simpl; lia|].
  intros c Hc.
  rewrite (column_values_snoc (with_count (count this1 + dc_size input) this1) pre
             (with_seg_count (seg_count seg' + dc_size input) seg') (chunks' ++ [sc']) c);
    simpl; try done.
  - rewrite Htypes1, (Hvalues' c Hc), app_assoc.
    rewrite <- (column_values_snoc this pre seg (chunks ++ [sc]) c Hflat Hpre Hstores).
    f_equal. unfold window_values, input_column. rewrite Nat.sub_diag.
    destruct (dc_data input !! c) as [v|] eqn:Hv.
    + by rewrite (Hformats c v Hc Hv).
    + apply lookup_ge_None in Hv.
      rewrite <- (Forall2_length _ _ _ Htyped) in Hv. lia.
  - by rewrite Htypes1.
  - by rewrite Htypes1.
Qed.

(** [Append(DataChunk &)] on a flat collection returns; behind the values
    that every column held it leaves the values of the chunk, in order. *)
Lemma Append_chunk_flat this input :
  0 < STANDARD_VECTOR_SIZE ->
  flat_stored this -> chunk_typed (types this) input ->
  exists this',
    Append_chunk this input = (Ok tt, this') /\
    flat_stored this' /\
    types this' = types this /\ count this' = count this + dc_size input /\
    forall c, c < length (types this) ->
      column_values this' c = column_values this c ++ input_column input c.
Proof.
  intros Hpos Hstored Htyped. unfold Append_chunk.
  destruct (InitializeAppend_flat this {| as_vector_data := [] |} Hstored)
    as (this1 & pre & seg & chunks & sc & -> & Hstored1 & Htypes1 & Hcount1 & Hpre1 &
        Hstores1 & Hvalues1).
  rewrite <- Htypes1 in Hstores1, Htyped. cbn [as_vector_data].
  destruct (Append_flat this1
              {| as_vector_data := resize (length (types this)) default_format [] |}
              input pre seg chunks sc Hpos Hstored1 Hpre1 Hstores1 Htyped)
    as (this' & state' & -> & Hstored' & Htypes' & Hcount' & Hvalues').
  { simpl. rewrite length_resize, Htypes1. lia. }
  exists this'. split; [done|]. split; [done|]. split; [congruence|]. split; [lia|].
  intros c Hc. rewrite (Hvalues' c) by (by rewrite Htypes1). by rewrite Hvalues1.
Qed.

(** *** Construction and [Combine] of flat collections *)

Lemma flat_supported t : flat t -> exists f, GetCopyFunction t = Ok f.
Proof. intros (p & -> & Hp). destruct p; try discriminate; simpl; eauto. Qed.

Lemma flat_vector_shaped ts input :
  chunk_typed ts input -> Forall2 vector_shaped ts (dc_data input).
Proof.
  intros Htyped. eapply Forall2_impl; [exact Htyped|].
  intros t v (p & -> & Hv & _). by constructor.
Qed.

Lemma flat_history_well_typed h : flat_history h -> well_typed h.
Proof.
  induction h as [a ts|before IH input|before IH1 peer IH2]; simpl.
  - intros [Hne Hflat]. split; [done|].
    eapply Forall_impl; [exact Hflat|]. apply flat_supported.
  - intros [Hbefore Hinput]. split; [by apply IH|by apply flat_vector_shaped].
  - intros (Hbefore & Hpeer & Hsame). split; [by apply IH1|]. split; [by apply IH2|done].
Qed.

Lemma shared_flat allocator_p types_p this :
  Forall flat types_p ->
  ColumnDataCollection_shared allocator_p types_p = Ok this ->
  flat_stored this /\ types this = types_p /\ segments this = [].
Proof.
  intros Hflat.
  assert (Forall (fun t => exists f, GetCopyFunction t = Ok f) types_p) as Hsupported.
  { eapply Forall_impl; [exact Hflat|]. apply flat_supported. }
  destruct (push_copy_functions_returns _ Hsupported []) as (fs & E & Hfs).
  unfold ColumnDataCollection_shared, Initialize, D_ASSERT.
  destruct (negb _); [|discriminate]. simpl. rewrite E. simpl.
  intros [= <-]. split; [|done]. split; [done|]. split; [done|]. split; [done|].
  simpl. constructor.
Qed.

Lemma counted_sum this :
  counted this -> sum_list (concat (counts_of this)) = count this.
Proof.
  intros [Hsegs <-]. unfold counts_of.
  induction Hsegs as [|s segs (seg & -> & Hsum & _) _ IH]; [done|].
  simpl. rewrite sum_list_with_app, IH. unfold chunk_counts in Hsum.
  by rewrite Hsum.
Qed.

(** The chunks that a scan of a flat collection hands out have all the
    columns of the schema, each with as many values as the chunk has rows. *)
Lemma flat_scanned_columns this :
  flat_stored this ->
  Forall (fun sc => length (sc_data sc) = ColumnCount this /\
                    Forall (fun column => length column = sc_size sc) (sc_data sc))
    (scanned_chunks this (seq 0 (ColumnCount this))).
Proof.
  intros (Hflat & _ & _ & Hsegs). unfold scanned_chunks, ColumnCount.
  induction Hsegs as [|s segs (seg & chunks & -> & Hstores) _ IH]; [constructor|].
  cbn [map concat]. apply Forall_app. split; [|done].
  rewrite (stores_scanned _ _ _ Hflat Hstores).
  destruct Hstores as (_ & _ & Hchunks & _).
  clear -Hchunks. induction Hchunks as [|cm sc cms chunks (_ & _ & ? & ?) _ IH];
    constructor; done.
Qed.

Lemma column_of_length c chunks :
  Forall (fun sc => Forall (fun column => length column = sc_size sc) (sc_data sc)) chunks ->
  length (column_of c chunks) <= sum_list (map sc_size chunks).
Proof.
  induction 1 as [|sc chunks Hsc _ IH]; [done|].
  unfold column_of in *. simpl. rewrite length_app.
  destruct (sc_data sc !! c) as [column|] eqn:Hc; simpl.
  - rewrite (Forall_lookup_1 _ _ _ _ Hsc Hc). lia.
  - lia.
Qed.

Lemma column_values_empty this c :
  flat_stored this -> counted this -> count this = 0 -> column_values this c = [].
Proof.
  intros Hstored Hcounted Hzero.
  pose proof (column_of_length c (scanned_chunks this (seq 0 (ColumnCount this)))) as Hlen.
  rewrite scanned_chunks_sizes, (counted_sum this Hcounted), Hzero in Hlen.
  unfold column_values. destruct (column_of _ _); [done|].
  simpl in Hlen. assert (S (length l) <= 0); [|lia]. apply Hlen.
  eapply Forall_impl; [apply (flat_scanned_columns this Hstored)|]. by intros sc [_ ?].
Qed.

Lemma Combine_flat DEBUG this other this' other' :
  flat_stored this -> flat_stored other -> counted other ->
  types other = types this ->
  Combine DEBUG this other = (Ok tt, this', other') ->
  flat_stored this' /\ types this' = types this /\
  forall c, column_values this' c = column_values this c ++ column_values other c.
Proof.
  intros Hstored Hother Hcounted Htypes. unfold Combine.
  destruct (Nat.eqb_spec (count other) 0) as [Hzero|Hne].
  - intros [= <- <-]. split; [done|]. split; [done|]. intros c.
    by rewrite (column_values_empty other c Hother Hcounted Hzero), app_nil_r.
  - destruct (negb _); [discriminate|]. intros [= _ <- _].
    destruct Hstored as (Hflat & Hfin & Hfun & Hsegs).
    destruct Hother as (_ & _ & _ & Hsegs').
    split; [|split; [done|]].
    + split; [done|]. split; [done|]. split; [done|]. simpl.
      apply Forall_app. split; [done|]. by rewrite <- Htypes.
    + intros c. unfold column_values, scanned_chunks, ColumnCount. simpl.
      by rewrite map_app, concat_app, column_of_app, Htypes.
Qed.

(** *** Rows *)

Lemma GetRows_scanned this :
  all_present this ->
  sum_list (concat (counts_of this)) = Count this ->
  GetRows this = Ok (create_rows (scanned_chunks this (seq 0 (ColumnCount this))) 0).
Proof.
  intros Hpresent Hsum. set (ids := seq 0 (ColumnCount this)).
  unfold GetRows. destruct (Nat.eqb_spec (Count this) 0) as [Hzero|Hpos].
  - rewrite create_rows_empty; [done|].
    rewrite scanned_chunks_sizes. apply sum_zero_all_zero. lia.
  - rewrite (read_all_chunks_spec this Hpresent); simpl.
    + by rewrite pending_start, scanned_chunks_schedule.
    + rewrite pending_start, (chunks_upper_bound_spec this ids),
        <- scanned_chunks_schedule, length_map. lia.
Qed.

Lemma create_rows_values c chunks :
  Forall (fun sc => c < length (sc_data sc) /\
                    Forall (fun column => length column = sc_size sc) (sc_data sc)) chunks ->
  forall base_row,
    map (fun row => ColumnDataRow_GetValue row c) (create_rows chunks base_row)
    = map Ok (column_of c chunks).
Proof.
  induction 1 as [|sc chunks [Hc Hcolumns] _ IH]; intros base_row; [done|].
  cbn [create_rows]. rewrite map_app, IH, map_map.
  unfold column_of. cbn [map concat]. rewrite map_app. f_equal.
  destruct (lookup_lt_is_Some_2 _ _ Hc) as [column Hcolumn]. rewrite Hcolumn. simpl.
  rewrite <- (Forall_lookup_1 _ _ _ _ Hcolumns Hcolumn).
  apply map_seq_lookup. intros k v Hk.
  unfold ColumnDataRow_GetValue, D_ASSERT. simpl.
  rewrite bool_decide_true by done.
  rewrite bool_decide_true
    by (rewrite <- (Forall_lookup_1 _ _ _ _ Hcolumns Hcolumn); by eapply lookup_lt_Some).
  rewrite Hcolumn. unfold at_index. by rewrite Hk.
Qed.

(** *** Histories over flat columns *)

Lemma replay_flat DEBUG h :
  0 < STANDARD_VECTOR_SIZE -> flat_history h ->
  exists this,
    replay DEBUG h = Some this /\
    flat_stored this /\ counted this /\ types this = history_types h /\
    forall c, c < length (history_types h) ->
      column_values this c =
      concat (map (fun input => input_column input c) (appended_chunks h)).
Proof.
  intros Hpos.
  induction h as [a ts|before IH input|before IH1 peer IH2]; intros Hh;
    destruct (replay_returns DEBUG _ Hpos (flat_history_well_typed _ Hh))
      as (this_r & Er & _ & Hcounted_r & Htypes_r);
    exists this_r; (split; [exact Er|]); simpl in Er, Hh, Htypes_r |- *.
  - destruct Hh as [Hne Hflat].
    destruct (ColumnDataCollection_shared a ts) as [this| |] eqn:E; try discriminate.
    injection Er as ->.
    destruct (shared_flat a ts this_r Hflat E) as (Hstored & _ & Hsegs).
    split; [done|]. split; [done|]. split; [done|].
    intros c _. unfold column_values, scanned_chunks. by rewrite Hsegs.
  - destruct Hh as [Hbefore Hinput].
    destruct (IH Hbefore) as (this & E & Hstored & _ & Htypes & Hvalues).
    rewrite E in Er. rewrite <- Htypes in Hinput.
    destruct (Append_chunk_flat this input Hpos Hstored Hinput)
      as (this' & E' & Hstored' & Htypes' & _ & Hvalues').
    rewrite E' in Er. injection Er as <-.
    split; [done|]. split; [done|]. split; [done|].
    intros c Hc. rewrite (Hvalues' c) by (by rewrite Htypes).
    rewrite (Hvalues c Hc), map_app, concat_app. simpl. by rewrite app_nil_r.
  - destruct Hh as (Hbefore & Hpeer & Hsame).
    destruct (IH1 Hbefore) as (this & E1 & Hstored & _ & Htypes & Hvalues).
    destruct (IH2 Hpeer) as (other & E2 & Hstored' & Hcounted' & Htypes' & Hvalues').
    rewrite E1, E2 in Er.
    destruct (Combine DEBUG this other) as [[r this'] other'] eqn:E.
    destruct r as [[]| |]; try discriminate. injection Er as ->.
    destruct (Combine_flat DEBUG this other this_r other' Hstored Hstored' Hcounted'
                ltac:(congruence) E) as (Hstored_r & _ & Hvalues_r).
    split; [done|]. split; [done|]. split; [done|].
    intros c Hc. rewrite (Hvalues_r c), (Hvalues c Hc), (Hvalues' c) by (by rewrite Hsame).
    by rewrite map_app, concat_app.
Qed.

(** *** The chunks that an append fills *)

Lemma column_of_cons c sc chunks :
  column_of c (sc :: chunks) = default [] (sc_data sc !! c) ++ column_of c chunks.
Proof. done. Qed.

(** The append loop on a segment of a flat schema, chunk by chunk: the
    chunks in front of the last one stay, and the last chunk and the chunks
    that the loop allocates behind it hold, column by column, the values of
    the last chunk and behind them the values of the rows that remained,
    with the row counts that the turns of the loop give them. *)
Lemma Append_loop_flat_chunks ts functions formats data size memory :
  0 < STANDARD_VECTOR_SIZE ->
  Forall flat ts ->
  columns_ready ts functions formats data size ->
  forall fuel remaining seg chunks sc,
    remaining <= size ->
    stores ts seg (chunks ++ [sc]) ->
    remaining + (if sc_size sc <? STANDARD_VECTOR_SIZE then 0 else 1) <= fuel ->
    exists seg' news,
      Append_loop fuel (length ts) functions memory formats data size remaining seg
      = (Ok tt, seg') /\
      stores ts seg' (chunks ++ news) /\
      seg_count seg' = seg_count seg /\
      (remaining = 0 -> news = [sc]) /\
      (0 < remaining -> filled (sc_size sc) remaining (map sc_size news)) /\
      forall c, c < length ts ->
        column_of c news =
        default [] (sc_data sc !! c)
        ++ window_values memory formats c (size - remaining) remaining.
Proof.
  intros Hpos Hflat Hready fuel.
  induction fuel as [|fuel IH]; intros remaining seg chunks sc Hremaining Hstores Hfuel.
  { assert (remaining = 0) as -> by lia.
    exists seg, [sc]. split; [done|]. split; [done|]. split; [done|]. split; [done|].
    split; [lia|]. intros c _. rewrite column_of_cons, window_values_nil. done. }
  destruct (Nat.eqb_spec remaining 0) as [->|Hne].
  { exists seg, [sc]. split; [done|]. split; [done|]. split; [done|]. split; [done|].
    split; [lia|]. intros c _. rewrite column_of_cons, window_values_nil. done. }
  cbn [Append_loop]. destruct (Nat.eqb_spec remaining 0) as [?|_]; [done|].
  destruct (stores_last ts seg chunks sc Hstores)
    as (cms & cm & Echunks & _ & (Hsize & Hholds & Hlen & _) & _).
  unfold bind at 1, reading at 1. rewrite Echunks, last_snoc.
  set (amount := min remaining (STANDARD_VECTOR_SIZE - cm_count cm)).
  assert (forall seg1 sc1,
            stores ts seg1 (chunks ++ [sc1]) ->
            seg_count seg1 = seg_count seg ->
            sc_size sc1 = sc_size sc + amount ->
            (forall c, c < length ts ->
               default [] (sc_data sc1 !! c) =
               default [] (sc_data sc !! c)
               ++ window_values memory formats c (size - remaining) amount) ->
            exists seg' news,
              (if 0 <? remaining - amount
               then bind AllocateNewChunk (fun _ =>
                      Append_loop fuel (length ts) functions memory formats data size
                        (remaining - amount))
               else ret tt) seg1 = (Ok tt, seg') /\
              stores ts seg' (chunks ++ news) /\
              seg_count seg' = seg_count seg /\
              (remaining = 0 -> news = [sc]) /\
              (0 < remaining -> filled (sc_size sc) remaining (map sc_size news)) /\
              forall c, c < length ts ->
                column_of c news =
                default [] (sc_data sc !! c)
                ++ window_values memory formats c (size - remaining) remaining) as Hrest.
  { intros seg1 sc1 Hstores1 Hcount1 Hsize1 Hvalues1.
    destruct (Nat.ltb_spec 0 (remaining - amount)) as [Hmore|Hdone].
    - destruct (AllocateNewChunk_flat ts seg1 (chunks ++ [sc1]) Hflat Hstores1)
        as (seg2 & E2 & Hstores2 & Hcount2).
      unfold bind at 1. rewrite E2.
      destruct (IH (remaining - amount) seg2 _ _ ltac:(lia) Hstores2)
        as (seg' & news & E & Hstores' & Hcount' & _ & Hfilled' & Hvalues').
      { simpl. destruct (Nat.ltb_spec 0 STANDARD_VECTOR_SIZE); [|lia].
        subst amount. rewrite <- Hsize in *.
        destruct (Nat.ltb_spec (sc_size sc) STANDARD_VECTOR_SIZE); lia. }
      exists seg', (sc1 :: news). split; [done|].
      split; [by rewrite <- app_assoc in Hstores'|]. split; [congruence|].
      split; [lia|]. split.
      + intros _. cbn [map]. rewrite Hsize1.
        assert (amount = STANDARD_VECTOR_SIZE - sc_size sc) as Eamount
          by (subst amount; rewrite <- Hsize; lia).
        rewrite Eamount. apply filled_more; [lia|].
        rewrite <- Eamount. apply (Hfilled' Hmore).
      + intros c Hc. rewrite column_of_cons, (Hvalues' c Hc), (Hvalues1 c Hc).
        cbn [sc_data].
        assert (replicate (length ts) ([] : list Value) !! c = Some []) as ->
          by (by apply lookup_replicate).
        simpl. rewrite <- app_assoc. f_equal.
        replace (window_values memory formats c (size - remaining) remaining)
          with (window_values memory formats c (size - remaining)
                  (amount + (remaining - amount))) by (f_equal; lia).
        rewrite window_values_app. do 2 f_equal. lia.
    - exists seg1, [sc1]. split; [done|]. split; [done|]. split; [done|].
      split; [lia|]. split.
      + intros _. cbn [map]. rewrite Hsize1.
        assert (remaining <= STANDARD_VECTOR_SIZE - sc_size sc) as Hfits
          by (rewrite Hsize; subst amount; lia).
        assert (amount = remaining) as -> by lia.
        apply filled_fits; [lia|done].
      + intros c Hc. rewrite column_of_cons. simpl. rewrite app_nil_r.
        rewrite (Hvalues1 c Hc). do 2 f_equal. lia. }
  destruct (Nat.ltb_spec 0 amount) as [Hamount|Hzero].
  - destruct (append_turn_flat ts functions formats data size memory seg chunks sc
                (size - remaining) amount Hready Hstores Hamount ltac:(lia) ltac:(lia))
      as (cm' & seg1 & Hcm' & _ & E1 & Hstores1 & Hcount1).
    rewrite Echunks, last_snoc in Hcm'. injection Hcm' as <-.
    unfold bind at 1. rewrite E1.
    apply (Hrest seg1 _ Hstores1 Hcount1); [done|].
    intros c Hc. simpl. rewrite list_lookup_imap.
    destruct (lookup_lt_is_Some_2 (sc_data sc) c) as [column ->]; [lia|]. done.
  - unfold bind at 1, ret at 1.
    apply (Hrest seg sc Hstores eq_refl); [lia|].
    intros c _. replace amount with 0 by lia.
    by rewrite window_values_nil, app_nil_r.
Qed.

Lemma Append_flat_chunks this state input pre seg chunks sc :
  0 < STANDARD_VECTOR_SIZE ->
  flat_stored this ->
  segments this = pre ++ [Some seg] ->
  stores (types this) seg (chunks ++ [sc]) ->
  chunk_typed (types this) input ->
  length (types this) <= length (as_vector_data state) ->
  exists this' state' seg' news,
    Append this state input = (Ok tt, this', state') /\
    segments this' = pre ++ [Some seg'] /\
    stores (types this) seg' (chunks ++ news) /\
    (dc_size input = 0 -> news = [sc]) /\
    (0 < dc_size input -> filled (sc_size sc) (dc_size input) (map sc_size news)) /\
    forall c, c < length (types this) ->
      column_of c news = default [] (sc_data sc !! c) ++ input_column input c.
Proof.
  intros Hpos Hstored Hpre Hstores Htyped Hstate.
  pose proof Hstored as (Hflat & Hfin & Hfun & Hsegs).
  unfold Append, D_ASSERT. rewrite Hfin. simpl.
  rewrite (proj2 (types_eqb_eq _ _) (eq_sym (chunk_typed_types _ _ Htyped))).
  destruct (unify_columns_flat (types this) input Hflat Htyped (length (types this)) 0
              (as_vector_data state) eq_refl Hstate ltac:(intros; lia))
    as (formats & -> & Hformats).
  pose proof (columns_ready_unified _ _ _ _ Hflat Htyped Hfun Hformats) as Hready.
  destruct (Append_loop_flat_chunks (types this) (copy_functions this) formats
              (dc_data input) (dc_size input) (dc_strings input) Hpos Hflat Hready
              (dc_size input + 1) (dc_size input) seg chunks sc (le_n _) Hstores)
    as (seg' & news & Eloop & Hstores' & Hcount' & Hzero & Hfilled & Hvalues').
  { destruct (_ <? _); lia. }
  set (m := bind _ _).
  assert (m seg = (Ok tt, with_seg_count (seg_count seg' + dc_size input) seg')) as E.
  { subst m. unfold bind. by rewrite Eloop. }
  destruct (on_back_segment_last m this seg (Ok tt) _ ltac:(by rewrite Hpre, last_snoc) E)
    as (this1 & -> & _ & Hpre1 & Hcount1 & Htypes1 & Hfun1 & Hfin1 & _).
  specialize (Hpre1 pre Hpre).
  eexists _, _, _, news. split; [reflexivity|].
  apply (stores_with_seg_count _ (seg_count seg' + dc_size input)) in Hstores'.
  split; [exact Hpre1|]. split; [done|]. split; [done|]. split; [done|].
  intros c Hc. rewrite (Hvalues' c Hc). f_equal.
  unfold window_values, input_column. rewrite Nat.sub_diag.
  destruct (dc_data input !! c) as [v|] eqn:Hv.
  - by rewrite (Hformats c v Hc Hv).
  - apply lookup_ge_None in Hv.
    rewrite <- (Forall2_length _ _ _ Htyped) in Hv. lia.
Qed.

(** What [Append] writes into the chunks of a flat collection that is
    ready for it, read off a scan of the last segment. *)
Lemma Append_writes_the_rows this state input pre seg chunks sc :
  0 < STANDARD_VECTOR_SIZE ->
  flat_stored this ->
  segments this = pre ++ [Some seg] ->
  segment_chunks (seq 0 (length (types this))) (Some seg) = chunks ++ [sc] ->
  chunk_typed (types this) input ->
  length (types this) <= length (as_vector_data state) ->
  exists this' state' seg' news,
    Append this state input = (Ok tt, this', state') /\
    segments this' = pre ++ [Some seg'] /\
    segment_chunks (seq 0 (length (types this))) (Some seg') = chunks ++ news /\
    (dc_size input = 0 -> news = [sc]) /\
    (0 < dc_size input -> filled (sc_size sc) (dc_size input) (map sc_size news)) /\
    Forall (fun chunk =>
              length (sc_data chunk) = length (types this) /\
              Forall (fun column => length column = sc_size chunk) (sc_data chunk))
      news /\
    forall c, c < length (types this) ->
      column_of c news = default [] (sc_data sc !! c) ++ input_column input c.
Proof.
  intros Hpos Hstored Hpre Hscan Htyped Hstate.
  pose proof Hstored as (Hflat & _ & _ & Hsegs).
  rewrite Hpre in Hsegs. apply Forall_app in Hsegs as [_ Hlast].
  apply Forall_cons in Hlast as [(seg0 & chunks0 & [= <-] & Hstores) _].
  rewrite (stores_scanned _ _ _ Hflat Hstores) in Hscan. subst chunks0.
  destruct (Append_flat_chunks this state input pre seg chunks sc Hpos Hstored Hpre
              Hstores Htyped Hstate)
    as (this' & state' & seg' & news & E & Hpre' & Hstores' & Hzero & Hfilled & Hvalues).
  exists this', state', seg', news. split; [done|]. split; [done|].
  split; [by apply stores_scanned|]. split; [done|]. split; [done|]. split; [|done].
  destruct Hstores' as (_ & _ & Hchunks & _).
  apply Forall2_app_inv_r in Hchunks as (cms & cms' & _ & Hnews & _).
  clear -Hnews. induction Hnews as [|cm chunk cms' news (_ & _ & ? & ?) _ IH];
    constructor; done.
Qed.

(** C5. An [Append] that returns has filled the chunks of the last segment
    as the loop prescribes: the chunks in front of the last one are
    untouched, and the rows go into the last chunk and into chunks
    allocated behind it in the same segment, each turn writing
    [min remaining (STANDARD_VECTOR_SIZE - count)] rows; so no chunk holds
    more than [STANDARD_VECTOR_SIZE] rows, and all chunks but the last are
    full when that was so before.  The call does return on a collection
    whose last segment is ready, for an input of the schema, and at the end
    of every well-typed history no chunk holds more than
    [STANDARD_VECTOR_SIZE] rows.  The rows are written: on a collection over
    flat columns a scan of the last segment shows the chunks in front of the
    last one as they were, and in the last chunk and the chunks behind it,
    column by column, the values that the last chunk held followed by the
    values of the input, in order, every chunk with as many values as the
    turns of the loop gave it rows.  In the build with 1024 rows per vector,
    appending the 1500 rows 0 .. 1499 to an empty collection gives two
    chunks, the first with the 1024 rows 0 .. 1023 and the second with the
    476 rows 1024 .. 1499. *)
Theorem append_fills_chunks_up_to_the_vector_size :
  (forall this state input this' state',
      Append this state input = (Ok tt, this', state') ->
      exists pre seg seg',
        segments this = pre ++ [Some seg] /\
        segments this' = pre ++ [Some seg'] /\
        (dc_size input = 0 -> chunk_counts seg' = chunk_counts seg) /\
        (0 < dc_size input ->
         exists before c l,
           chunk_counts seg = before ++ [c] /\
           chunk_counts seg' = before ++ l /\
           filled c (dc_size input) l) /\
        (Forall (fun n => n <= STANDARD_VECTOR_SIZE) (chunk_counts seg) ->
         Forall (fun n => n <= STANDARD_VECTOR_SIZE) (chunk_counts seg') /\
         (full_but_last (chunk_counts seg) -> full_but_last (chunk_counts seg')))) /\
  (0 < STANDARD_VECTOR_SIZE ->
   forall this state input,
     appending this ->
     Forall2 vector_shaped (types this) (dc_data input) ->
     length (types this) <= length (as_vector_data state) ->
     exists this' state',
       Append this state input = (Ok tt, this', state') /\ appending this') /\
  (0 < STANDARD_VECTOR_SIZE ->
   forall DEBUG h,
     well_typed h ->
     exists this,
       replay DEBUG h = Some this /\
       Forall (fun s => exists seg,
                 s = Some seg /\
                 Forall (fun n => n <= STANDARD_VECTOR_SIZE) (chunk_counts seg))
         (segments this)) /\
  (0 < STANDARD_VECTOR_SIZE ->
   forall this state input pre seg chunks sc,
     flat_stored this ->
     segments this = pre ++ [Some seg] ->
     segment_chunks (seq 0 (length (types this))) (Some seg) = chunks ++ [sc] ->
     chunk_typed (types this) input ->
     length (types this) <= length (as_vector_data state) ->
     exists this' state' seg' news,
       Append this state input = (Ok tt, this', state') /\
       segments this' = pre ++ [Some seg'] /\
       segment_chunks (seq 0 (length (types this))) (Some seg') = chunks ++ news /\
       (dc_size input = 0 -> news = [sc]) /\
       (0 < dc_size input -> filled (sc_size sc) (dc_size input) (map sc_size news)) /\
       Forall (fun chunk =>
                 length (sc_data chunk) = length (types this) /\
                 Forall (fun column => length column = sc_size chunk) (sc_data chunk))
         news /\
       forall c, c < length (types this) ->
         column_of c news = default [] (sc_data sc !! c) ++ input_column input c) /\
  (let this := collection_of (Primitive INT64) [counting_chunk 1500] in
   ChunkCount this = Ok 2 /\
   map segment_counts (segments this) = [[1024; 476]] /\
   Count this = 1500 /\
   scanned_chunks this [0] =
     [{| sc_data := [map (fun i => VFixed (Z.of_nat i)) (seq 0 1024)];
         sc_size := 1024 |};
      {| sc_data := [map (fun i => VFixed (Z.of_nat i)) (seq 1024 476)];
         sc_size := 476 |}]).
Proof.
  split; [|split; [|split; [|split]]].
  - intros this state input this' state' E.
    destruct (Append_chunks _ _ _ _ _ E) as (pre & seg & seg' & Hpre & Hpre' & Hzero & Hpos).
    exists pre, seg, seg'. split; [done|]. split; [done|]. split; [done|]. split; [done|].
    intros Hbound.
    destruct (Nat.eq_dec (dc_size input) 0) as [E0|E0].
    { rewrite (Hzero E0). done. }
    destruct (Hpos ltac:(lia)) as (before & c & l & Hsplit & Hsplit' & Hfilled).
    rewrite Hsplit in Hbound |- *. rewrite Hsplit'.
    apply Forall_app in Hbound as [Hbefore Hc].
    apply (Forall_singleton (fun n => n <= STANDARD_VECTOR_SIZE)) in Hc.
    split.
    + apply Forall_app. split; [done|]. by eapply filled_bounded.
    + intros Hfull i n Hi Hlen.
      pose proof (filled_nonempty _ _ _ Hfilled) as Hne.
      apply lookup_app_Some in Hi as [Hi|[Hge Hi]].
      * apply (Hfull i n); [by apply lookup_app_l_Some|].
        rewrite length_app. simpl. apply lookup_lt_Some in Hi. lia.
      * apply (filled_full_but_last _ _ _ Hfilled Hc _ _ Hi).
        rewrite length_app in Hlen. lia.
  - intros Hpos this state input. by apply Append_returns.
  - intros Hpos DEBUG h Hh.
    destruct (replay_returns DEBUG h Hpos Hh) as (this & E & _ & [Hsegs _] & _).
    exists this. split; [done|].
    eapply Forall_impl; [exact Hsegs|]. intros s (seg & -> & _ & Hbound). eauto.
  - intros Hpos this state input pre seg chunks sc.
    by apply Append_writes_the_rows.
  - vm_compute. done.
Qed.

(** X15. Whatever chunks are appended to collections over flat columns,
    and however these collections are combined, a scan of the result hands
    out, column by column, the values of the chunks in the order in which
    they were appended: a null for a row that is not valid, the bit pattern
    of a fixed-width value, and the bytes of a string, with nothing of the
    memory of the caller in use.  [GetRows] returns a row for every value,
    and [GetValue] on the rows reads the same values. *)
Theorem appended_values_are_scanned (DEBUG : bool) (h : history) :
  0 < STANDARD_VECTOR_SIZE -> flat_history h ->
  exists this rows,
    replay DEBUG h = Some this /\
    Types this = history_types h /\
    GetRows this = Ok rows /\
    length rows = sum_list (map dc_size (appended_chunks h)) /\
    forall c, c < ColumnCount this ->
      column_values this c =
        concat (map (fun input => input_column input c) (appended_chunks h)) /\
      map (fun row => ColumnDataRow_GetValue row c) rows = map Ok (column_values this c).
Proof.
  intros Hpos Hh.
  destruct (replay_flat DEBUG h Hpos Hh)
    as (this & E & Hstored & Hcounted & Htypes & Hvalues).
  assert (all_present this) as Hpresent.
  { destruct Hstored as (_ & _ & _ & Hsegs).
    eapply Forall_impl; [exact Hsegs|]. intros s (seg & _ & -> & _). by eexists. }
  pose proof (counted_sum this Hcounted) as Hsum.
  exists this, (create_rows (scanned_chunks this (seq 0 (ColumnCount this))) 0).
  split; [done|]. split; [done|]. split; [by apply GetRows_scanned|]. split.
  { rewrite create_rows_length, scanned_chunks_sizes, Hsum.
    by apply (replay_count DEBUG). }
  intros c Hc. split; [apply Hvalues; unfold ColumnCount in Hc; by rewrite <- Htypes|].
  apply create_rows_values.
  eapply Forall_impl; [apply (flat_scanned_columns this Hstored)|].
  intros sc [Hlen Hcolumns]. split; [by rewrite Hlen|done].
Qed.

(** *** The row iterator on chunks without rows *)

Lemma visited_rows_length chunks :
  forall base_row,
    length (visited_rows chunks base_row) =
    sum_list (map sc_size chunks)
    + length (filter (fun n => n = 0) (map sc_size chunks)).
Proof.
  induction chunks as [|chunk chunks IH]; intros base_row; [done|].
  cbn [visited_rows map sum_list sum_list_with]. rewrite length_app, length_map, length_seq, IH.
  rewrite filter_cons. destruct (decide (sc_size chunk = 0)) as [->|Hne]; simpl; lia.
Qed.

Lemma visited_rows_full chunks :
  Forall (fun chunk => 0 < sc_size chunk) chunks ->
  forall base_row, visited_rows chunks base_row = create_rows chunks base_row.
Proof.
  induction 1 as [|chunk chunks Hchunk _ IH]; intros base_row; [done|].
  simpl. rewrite IH. by replace (Nat.max 1 (sc_size chunk)) with (sc_size chunk) by lia.
Qed.

(** The loop over the rows, from an iterator that holds a chunk: it sees
    the rows of that chunk, or one row when the chunk has none, then the
    same for the chunks that are pending, and ends. *)
Lemma Rows_loop_visits this end_it :
  all_present this ->
  ri_collection end_it = false -> ri_row_index end_it = 0 -> ri_base_index end_it = 0 ->
  forall fuel it seen,
    ri_collection it = true ->
    ri_row_index it < Nat.max 1 (sc_size (ri_scan_chunk it)) ->
    let P := pending (counts_of this) (segment_index (ri_scan_state it))
               (chunk_index (ri_scan_state it)) (next_row_index (ri_scan_state it)) in
    let chunks := map (read_at this (column_ids (ri_scan_state it))) P in
    Nat.max 1 (sc_size (ri_scan_chunk it)) - ri_row_index it
    + length (visited_rows chunks (ri_base_index it + sc_size (ri_scan_chunk it))) <= fuel ->
    Rows_loop fuel this it end_it seen =
    Ok (seen
        ++ map (fun row_idx => {| row_chunk := ri_scan_chunk it; row_index := row_idx;
                                  base_index := ri_base_index it |})
             (seq (ri_row_index it) (Nat.max 1 (sc_size (ri_scan_chunk it)) - ri_row_index it))
        ++ visited_rows chunks (ri_base_index it + sc_size (ri_scan_chunk it))).
Proof.
  intros Hpresent Hend Hend0 Hend1 fuel.
  induction fuel as [|fuel IH]; intros it seen Hit Hrow P chunks Hfuel; [lia|].
  cbn [Rows_loop]. unfold ColumnDataRowIterator_neq at 1. rewrite Hit, Hend. simpl.
  unfold ColumnDataRowIterator_Next. rewrite Hit. simpl.
  subst chunks P.
  case_bool_decide as Hlast.
  - assert (Nat.max 1 (sc_size (ri_scan_chunk it)) - ri_row_index it = 1) as Hone by lia.
    rewrite Hone in *. simpl.
    destruct (Scan_into_step this (ri_scan_state it) (ri_scan_chunk it) Hpresent)
      as (b & state' & chunk & -> & Hids & Hpending).
    destruct (pending (counts_of this) (segment_index (ri_scan_state it))
                (chunk_index (ri_scan_state it)) (next_row_index (ri_scan_state it)))
      as [|x rest].
    + destruct Hpending as (-> & -> & _).
      destruct fuel; simpl; unfold ColumnDataRowIterator_neq; simpl;
        by rewrite Hend, Hend0, Hend1.
    + destruct Hpending as (-> & -> & Hrest).
      cbn [map visited_rows] in Hfuel |- *. rewrite length_app, length_map, length_seq in Hfuel.
      rewrite IH; cbn [ri_collection ri_row_index ri_scan_chunk ri_scan_state ri_base_index];
        rewrite ?Hrest, ?Hids, ?Nat.sub_0_r; try done; try lia.
      rewrite <- !app_assoc. done.
  - rewrite IH; cbn [ri_collection ri_row_index ri_scan_chunk ri_scan_state ri_base_index];
      try done; try lia.
    replace (Nat.max 1 (sc_size (ri_scan_chunk it)) - ri_row_index it)
      with (S (Nat.max 1 (sc_size (ri_scan_chunk it)) - S (ri_row_index it))) by lia.
    simpl. rewrite <- !app_assoc. done.
Qed.

Lemma visited_rows_inside chunks :
  forall base_row row,
    row ∈ visited_rows chunks base_row ->
    row_index row < sc_size (row_chunk row) \/
    (sc_size (row_chunk row) = 0 /\ row_index row = 0).
Proof.
  induction chunks as [|chunk chunks IH]; intros base_row row Hrow.
  - by apply elem_of_nil in Hrow.
  - cbn [visited_rows] in Hrow. apply elem_of_app in Hrow as [Hrow|Hrow]; [|by eapply IH].
    apply list_elem_of_fmap in Hrow as (k & -> & Hk). apply elem_of_seq in Hk. simpl. lia.
Qed.

(** X16. The loop over [Rows()] of a collection that holds rows sees the
    rows of every chunk in order and, for every chunk without rows, one row
    more: the row at index 0 of that chunk, on which [GetValue] runs into
    the assertion [row_index < chunk.size()].  It sees the rows that
    [GetRows()] returns when no chunk is without rows, and one row for every
    chunk without rows in addition otherwise. *)
Theorem Rows_sees_a_row_in_every_chunk_without_rows (this : ColumnDataCollection)
    (scan_state0 scan_state1 : ColumnDataScanState) :
  all_present this ->
  sum_list (concat (counts_of this)) = Count this ->
  Count this <> 0 ->
  exists begin_it end_it rows,
    Rows_begin this scan_state0 = Ok begin_it /\
    Rows_end scan_state1 = Ok end_it /\
    Rows_loop (length rows) this begin_it end_it [] = Ok rows /\
    rows = visited_rows (scanned_chunks this (seq 0 (ColumnCount this))) 0 /\
    length rows =
      Count this + length (filter (fun n => n = 0) (concat (counts_of this))) /\
    (Forall (fun n => 0 < n) (concat (counts_of this)) -> GetRows this = Ok rows) /\
    forall row, row ∈ rows ->
      row_index row < sc_size (row_chunk row) \/
      (sc_size (row_chunk row) = 0 /\ row_index row = 0 /\
       forall c, c < length (sc_data (row_chunk row)) ->
         ColumnDataRow_GetValue row c =
         Fail (InternalException "Assertion triggered: row_index < chunk.size()")).
Proof.
  intros Hpresent Hsum Hne.
  set (ids := seq 0 (ColumnCount this)).
  unfold Rows_begin, Rows_end.
  destruct (Nat.eqb_spec (Count this) 0) as [?|_]; [done|].
  unfold ColumnDataRowIterator_new.
  destruct (Scan_into_step this (InitializeScan this ALLOW_ZERO_COPY)
              (DataChunk_Initialize (InitializeScanChunk this)) Hpresent)
    as (b & state' & chunk & -> & Hids & Hpending).
  simpl in Hpending, Hids. rewrite pending_start in Hpending.
  pose proof (scanned_chunks_schedule this ids) as Hchunks.
  pose proof (scanned_chunks_sizes this ids) as Hsizes.
  fold ids in Hids.
  destruct (schedule 0 0 (counts_of this)) as [|x rest].
  { simpl in Hchunks. rewrite <- Hchunks in Hsizes. simpl in Hsizes.
    rewrite <- Hsizes in Hsum. simpl in Hsum. unfold Count in *. lia. }
  destruct Hpending as (-> & -> & Hrest).
  eexists _, _, _. split; [reflexivity|]. split; [reflexivity|].
  assert (Rows_loop (length (visited_rows (scanned_chunks this ids) 0)) this
            {| ri_collection := true; ri_scan_state := state';
               ri_scan_chunk := read_at this (seq 0 (length (types this))) x;
               ri_row_index := 0; ri_base_index := 0 |}
            {| ri_collection := false; ri_scan_state := scan_state1;
               ri_scan_chunk := Reset_chunk; ri_row_index := 0; ri_base_index := 0 |} []
          = Ok (visited_rows (scanned_chunks this ids) 0)) as Eloop.
  { rewrite <- Hchunks.
    rewrite (Rows_loop_visits this
               {| ri_collection := false; ri_scan_state := scan_state1;
                  ri_scan_chunk := Reset_chunk; ri_row_index := 0; ri_base_index := 0 |}
               Hpresent eq_refl eq_refl eq_refl);
      cbn [ri_collection ri_row_index ri_scan_chunk ri_scan_state ri_base_index];
      rewrite ?Hrest, ?Hids, ?Nat.sub_0_r; try done; try lia.
    change (seq 0 (length (types this))) with ids.
    cbn [map visited_rows]. rewrite length_app, length_map, length_seq. lia. }
  split; [exact Eloop|]. split; [done|]. split; [|split].
  - by rewrite visited_rows_length, Hsizes, Hsum.
  - intros Hpos. rewrite visited_rows_full.
    + by apply GetRows_scanned.
    + rewrite <- Hsizes in Hpos. by apply Forall_map_inv in Hpos.
  - intros row Hrow.
    destruct (visited_rows_inside _ _ _ Hrow) as [Hin|[Hsize Hindex]]; [by left|right].
    split; [done|]. split; [done|]. intros c Hc.
    unfold ColumnDataRow_GetValue, D_ASSERT.
    rewrite bool_decide_true by done. rewrite bool_decide_false by lia. done.
Qed.

Lemma Value_eqb_refl : forall v, Value_eqb v v = true.
Proof.
  fix IH 1. intros [|raw|bytes|elements|fields|]; simpl; try done.
  - apply Z.eqb_refl.
  - by apply bool_decide_true.
  - induction elements as [|v l IHl]; [done|]. by rewrite (IH v), IHl.
  - induction fields as [|v l IHl]; [done|]. by rewrite (IH v), IHl.
Qed.

(** *** [ResultEquals] on flat collections *)

Lemma compare_columns_reflexive eq r left_rows right_rows :
  (forall v, eq v v = true) ->
  forall n c,
    (forall c', c <= c' < c + n -> exists v, GetValue left_rows c' r = Ok v) ->
    compare_columns eq n c r left_rows right_rows = Ok None.
Proof.
  intros Hrefl n. induction n as [|n IH]; intros c Hvalues; [done|].
  cbn [compare_columns]. destruct (Hvalues c ltac:(lia)) as [v ->].
  rewrite Hrefl. simpl. apply IH. intros c' Hc'. apply Hvalues. lia.
Qed.

Lemma compare_rows_reflexive eq column_count left_rows right_rows :
  (forall v, eq v v = true) ->
  forall n r,
    (forall r' c, r <= r' < r + n -> c < column_count ->
                  exists v, GetValue left_rows c r' = Ok v) ->
    compare_rows eq n r column_count left_rows right_rows = Ok None.
Proof.
  intros Hrefl n. induction n as [|n IH]; intros r Hvalues; [done|].
  cbn [compare_rows]. rewrite (compare_columns_reflexive eq r left_rows right_rows Hrefl).
  - apply IH. intros r' c Hr'. apply Hvalues. lia.
  - intros c Hc. apply Hvalues; lia.
Qed.

(** Every value of a flat collection can be read through its rows. *)
Lemma flat_rows_readable DEBUG h this :
  0 < STANDARD_VECTOR_SIZE -> flat_history h -> replay DEBUG h = Some this ->
  exists rows,
    GetRows this = Ok rows /\
    forall r c, r < Count this -> c < ColumnCount this ->
                exists v, GetValue rows c r = Ok v.
Proof.
  intros Hpos Hh E.
  destruct (replay_flat DEBUG h Hpos Hh) as (this' & E' & Hstored & Hcounted & _).
  rewrite E in E'. injection E' as <-.
  assert (all_present this) as Hpresent.
  { destruct Hstored as (_ & _ & _ & Hsegs).
    eapply Forall_impl; [exact Hsegs|]. intros s (seg & _ & -> & _). by eexists. }
  pose proof (counted_sum this Hcounted) as Hsum.
  set (chunks := scanned_chunks this (seq 0 (ColumnCount this))).
  exists (create_rows chunks 0). split; [by apply GetRows_scanned|].
  intros r c Hr Hc.
  assert (map (fun row => ColumnDataRow_GetValue row c) (create_rows chunks 0)
          = map Ok (column_of c chunks)) as Hvalues.
  { apply create_rows_values.
    eapply Forall_impl; [apply (flat_scanned_columns this Hstored)|].
    intros sc [Hlen Hcolumns]. split; [by rewrite Hlen|done]. }
  destruct (lookup_lt_is_Some_2 (create_rows chunks 0) r) as [row Hrow].
  { subst chunks. rewrite create_rows_length, scanned_chunks_sizes, Hsum. done. }
  unfold GetValue. rewrite Hrow.
  assert (map (fun row => ColumnDataRow_GetValue row c) (create_rows chunks 0) !! r
          = Some (ColumnDataRow_GetValue row c)) as Hr'.
  { by rewrite list_lookup_fmap, Hrow. }
  rewrite Hvalues, list_lookup_fmap in Hr'.
  destruct (column_of c chunks !! r) as [v|]; [|done].
  exists v. simpl in Hr'. congruence.
Qed.

(** X17. [ResultEquals] on two collections over flat columns returns false
    with [Column count mismatch] when the column counts differ, false with
    [Row count mismatch] when the row counts differ, and otherwise true with
    the message untouched, whatever values the two collections hold: with a
    reflexive value equality no value of the right collection can make the
    comparison fail. *)
Theorem ResultEquals_only_tells_shapes_apart (DEBUG : bool) (hl hr : history)
    (eq : Value -> Value -> bool) (message : ErrorMessage) :
  0 < STANDARD_VECTOR_SIZE ->
  flat_history hl -> flat_history hr ->
  (forall v, eq v v = true) ->
  exists left right,
    replay DEBUG hl = Some left /\ replay DEBUG hr = Some right /\
    ResultEquals eq left right message =
    Ok (if negb (ColumnCount left =? ColumnCount right)
        then (false, Message "Column count mismatch")
        else if negb (Count left =? Count right)
             then (false, Message "Row count mismatch")
             else (true, message)).
Proof.
  intros Hpos Hl Hr Hrefl.
  destruct (replay_flat DEBUG hl Hpos Hl) as (left & El & _).
  destruct (replay_flat DEBUG hr Hpos Hr) as (right & Er & _).
  exists left, right. split; [done|]. split; [done|].
  unfold ResultEquals.
  destruct (negb (ColumnCount left =? ColumnCount right)); [done|].
  destruct (negb (Count left =? Count right)); [done|].
  destruct (flat_rows_readable DEBUG hl left Hpos Hl El) as (left_rows & -> & Hvalues).
  destruct (flat_rows_readable DEBUG hr right Hpos Hr Er) as (right_rows & -> & _).
  rewrite (compare_rows_reflexive eq _ left_rows right_rows Hrefl); [done|].
  intros r c Hr' Hc. apply Hvalues; [lia|done].
Qed.
(** *** Struct vectors that are stored *)

Lemma read_vector_struct child_types seg index :
  read_vector (StructType child_types) seg index =
  imap (struct_value
          (read_fields seg (default 0 (vd ← vector_data seg !! index; child_index vd))
             child_types 0))
    (chain_rows seg index).
Proof. reflexivity. Qed.

Lemma vector_value_struct memory child_types v k :
  vector_value memory (StructType child_types) v k =
  if RowIsValid (uvf_validity (VectorFormat v)) (uvf_sel (VectorFormat v) k)
  then VStruct (field_values memory k child_types (VectorChildren v))
  else VNull.
Proof. reflexivity. Qed.

Lemma field_values_zip memory k l :
  forall children,
    field_values memory k l children =
    zip_with (fun (kv : string * LogicalType) child => vector_value memory (snd kv) child k)
      l children.
Proof.
  induction l as [|kv l IH]; intros [|child children]; try done;
    simpl; by rewrite <- IH.
Qed.

Lemma plain_fields child_types :
  plain (StructType child_types) = true <->
  Forall (fun kv : string * LogicalType => plain (snd kv) = true) child_types.
Proof.
  simpl. induction child_types as [|kv l IH].
  - split; [constructor|done].
  - rewrite andb_true_iff, IH. split.
    + intros [? ?]. by constructor.
    + intros Hall. by apply Forall_cons in Hall.
Qed.

Lemma struct_values_read valid columns rows :
  map fst rows = map Some valid ->
  imap (struct_value columns) rows = struct_values valid columns.
Proof.
  intros Hrows. unfold struct_values. apply list_eq. intros i.
  rewrite !list_lookup_imap.
  pose proof (f_equal (fun l => l !! i) Hrows) as Hi. simpl in Hi.
  rewrite !list_lookup_fmap in Hi.
  destruct (rows !! i) as [[bit slot]|], (valid !! i) as [b|]; try done.
  simpl in *. injection Hi as ->. unfold struct_value. simpl. by destruct b.
Qed.

Lemma vector_holds_root seg t r nodes vals :
  vector_holds seg t r nodes vals -> r ∈ nodes.
Proof. destruct 1; apply list_elem_of_here. Qed.

Lemma vector_holds_lookup seg t r nodes vals :
  vector_holds seg t r nodes vals ->
  exists vd, vector_data seg !! r = Some vd /\ next_data vd = None.
Proof.
  destruct 1 as [p r vals _ (vd & ? & ? & _)|]; eauto.
Qed.

Lemma vector_holds_flat_inv seg p r nodes vals :
  vector_holds seg (Primitive p) r nodes vals ->
  supported (Primitive p) = true /\ holds seg r vals /\ nodes = [r].
Proof. by inversion 1. Qed.

Lemma vector_holds_struct_inv seg child_types r nodes vals :
  vector_holds seg (StructType child_types) r nodes vals ->
  exists vd base valid children,
    vector_data seg !! r = Some vd /\ next_data vd = None /\
    child_index vd = Some base /\ vd_count vd = length valid /\
    map fst (descriptor_rows seg r) = map Some valid /\
    Forall2 (fun (kv : string * LogicalType) child =>
               vector_holds seg (snd kv) (sv_root child) (sv_nodes child)
                 (sv_values child) /\
               length (sv_values child) = length valid)
      child_types children /\
    (forall j child, children !! j = Some child ->
                     child_indices seg !! (base + j) = Some (sv_root child)) /\
    NoDup (r :: concat (map sv_nodes children)) /\
    nodes = r :: concat (map sv_nodes children) /\
    vals = struct_values valid (map sv_values children).
Proof. inversion 1; subst. by eexists _, _, _, _. Qed.

Lemma vector_holds_list_inv seg child_type r nodes vals :
  vector_holds seg (ListType child_type) r nodes vals -> False.
Proof. inversion 1. Qed.

(** Reading a vector that is stored gives the values it holds. *)
Lemma vector_holds_read seg :
  wf_segment seg ->
  forall t r nodes vals,
    vector_holds seg t r nodes vals -> read_vector t seg r = vals.
Proof.
  intros Hwf t.
  induction t as [p|child_types IH|child_type _] using LogicalType_fields_ind;
    intros r nodes vals Hholds.
  - apply vector_holds_flat_inv in Hholds as (_ & (vd & Hvd & Hnone & _ & Hvals) & _).
    cbn [read_vector]. rewrite (chain_rows_unfold seg r vd Hwf Hvd), Hnone, app_nil_r.
    specialize (Hvals []). by rewrite app_nil_r in Hvals.
  - apply vector_holds_struct_inv in Hholds
      as (vd & base & valid & children & Hvd & Hnone & Hbase & Hcount & Hvalid &
          Hchildren & Hroots & _ & _ & ->).
    rewrite read_vector_struct, (chain_rows_unfold seg r vd Hwf Hvd), Hnone, app_nil_r.
    rewrite Hvd. simpl. rewrite Hbase. simpl.
    rewrite (struct_values_read valid _ _ Hvalid). f_equal.
    assert (forall child_idx,
              (forall j child, children !! j = Some child ->
                 child_indices seg !! (base + (child_idx + j)) = Some (sv_root child)) ->
              read_fields seg base child_types child_idx = map sv_values children)
      as Hfields.
    { clear Hroots. induction Hchildren as [|kv child l children [Hc _] _ IHl];
        intros child_idx Hroots; [done|].
      apply Forall_cons in IH as [IHkv IH].
      cbn [read_fields map]. rewrite <- (Nat.add_0_r child_idx) at 1.
      rewrite (Hroots 0 child eq_refl). f_equal; [by eapply IHkv|].
      apply (IHl IH). intros j ch Hj.
      replace (S child_idx + j) with (child_idx + S j) by lia. by apply (Hroots (S j)). }
    apply Hfields. intros j child Hj. by apply Hroots.
  - by apply vector_holds_list_inv in Hholds.
Qed.

Lemma retains_subset nodes nodes' seg seg' :
  retains nodes seg seg' -> (forall i, i ∈ nodes' -> i ∈ nodes) -> retains nodes' seg seg'.
Proof. intros (Hsame & ? & ?) Hsub. split; [|done]. intros i Hi. by apply Hsame, Hsub. Qed.

Lemma changes_retains nodes nodes' seg seg' :
  changes nodes seg seg' -> (forall i, i ∈ nodes' -> i ∉ nodes) -> retains nodes' seg seg'.
Proof.
  intros (_ & _ & _ & Hchildren & _ & Hheap & Hsame) Hdisjoint.
  split; [|split; [by rewrite Hchildren|done]]. intros i Hi. by apply Hsame, Hdisjoint.
Qed.

Lemma changes_trans nodes1 nodes2 seg1 seg2 seg3 :
  changes nodes1 seg1 seg2 -> changes nodes2 seg2 seg3 ->
  changes (nodes1 ++ nodes2) seg1 seg3.
Proof.
  intros (? & ? & ? & ? & ? & Hheap1 & Hsame1) (? & ? & ? & ? & ? & Hheap2 & Hsame2).
  repeat (split; [congruence|]). split; [by etrans|].
  intros i Hi. apply not_elem_of_app in Hi as [Hi1 Hi2].
  destruct (Hsame1 i Hi1) as [<- <-]. by apply Hsame2.
Qed.

Lemma changes_subset nodes nodes' seg seg' :
  changes nodes seg seg' -> (forall i, i ∈ nodes -> i ∈ nodes') -> changes nodes' seg seg'.
Proof.
  intros (? & ? & ? & ? & ? & ? & Hsame) Hsub. repeat (split; [done|]).
  intros i Hi. apply Hsame. intros Hin. by apply Hi, Hsub.
Qed.

(** A vector that is stored is stored wherever its descriptors are kept. *)
Lemma vector_holds_frame seg seg' :
  wf_segment seg ->
  forall t r nodes vals,
    vector_holds seg t r nodes vals -> retains nodes seg seg' ->
    vector_holds seg' t r nodes vals.
Proof.
  intros Hwf t.
  induction t as [p|child_types IH|child_type _] using LogicalType_fields_ind;
    intros r nodes vals Hholds Hretains.
  - apply vector_holds_flat_inv in Hholds as (Hp & Hr & ->).
    destruct Hretains as (Hsame & _ & Hheap).
    destruct (Hsame r ltac:(apply list_elem_of_here)) as [Hvd Hb].
    constructor; [done|]. by apply (holds_frame seg seg' r vals Hwf Hvd Hb Hheap).
  - apply vector_holds_struct_inv in Hholds
      as (vd & base & valid & children & Hvd & Hnone & Hbase & Hcount & Hvalid &
          Hchildren & Hroots & Hnodup & -> & ->).
    pose proof Hretains as (Hsame & Hindices & Hheap).
    destruct (Hsame r ltac:(apply list_elem_of_here)) as [Hvd' Hb'].
    apply (vector_holds_struct seg' child_types r vd base valid children); try done.
    + by rewrite Hvd'.
    + rewrite (descriptor_rows_ext seg seg' r Hvd'); [done|].
      intros vd0. rewrite Hvd. intros [= <-].
      by rewrite (ok_block _ _ _ (wf_descriptors _ Hwf r vd Hvd)).
    + apply Forall2_same_length_lookup_2; [by eapply Forall2_length|].
      intros j kv child Hkv Hchild.
      destruct (Forall2_lookup_lr _ _ _ j _ _ Hchildren Hkv Hchild) as [Hc Hlen].
      split; [|done]. apply (Forall_lookup_1 _ _ _ _ IH Hkv _ _ _ Hc).
      apply (retains_subset _ _ _ _ Hretains). intros i Hi.
      apply list_elem_of_further, elem_of_concat.
      exists (sv_nodes child). split; [done|].
      apply list_elem_of_fmap_2. by eapply list_elem_of_lookup_2.
    + intros j child Hj. destruct Hindices as [more ->].
      by apply lookup_app_l_Some, Hroots.
  - by apply vector_holds_list_inv in Hholds.
Qed.

(** *** Writing rows that fit the vector *)

(** One call of [TemplatedColumnDataCopy] with rows that fit the vector
    writes the rows behind the rows of the descriptor and changes nothing
    else. *)
Lemma fit_write op cls memory src seg cur vd offset a :
  wf_segment seg -> vector_data seg !! cur = Some vd ->
  0 < a -> vd_count vd + a <= STANDARD_VECTOR_SIZE ->
  exists seg1,
    TemplatedColumnDataCopy op cls memory cur src offset a seg = (Ok tt, seg1) /\
    wf_segment seg1 /\
    descriptor_rows seg1 cur =
      descriptor_rows seg cur
      ++ map as_read (stored_rows op cls memory src offset a 0 (heap seg)).1 /\
    heap seg1 = (stored_rows op cls memory src offset a 0 (heap seg)).2 /\
    vector_data seg1 !! cur = Some (set_count (vd_count vd + a) vd) /\
    changes [cur] seg seg1.
Proof.
  intros Hwf Hcur Ha Hfit.
  unfold TemplatedColumnDataCopy.
  destruct (length (vector_data seg) + a) as [|fuel] eqn:Hfuel; [lia|].
  cbn [TemplatedColumnDataCopy_loop].
  destruct (Nat.eqb_spec a 0) as [?|_]; [lia|].
  pose proof (wf_descriptors _ Hwf cur vd Hcur) as [Hblock _ _].
  pose proof (lookup_lt_Some _ _ _ Hcur) as Hlt.
  destruct (lookup_lt_is_Some_2 (blocks seg) cur) as [b Hb];
    [by rewrite (wf_blocks _ Hwf)|].
  rewrite (GetVectorData_Some _ _ _ Hcur).
  rewrite (GetDataPointer_Some seg (block_id vd) (vd_offset vd) b) by (by rewrite Hblock).
  replace (min (STANDARD_VECTOR_SIZE - vd_count vd) a) with a by lia.
  destruct (copy_rows _ _ _ _ _ _ _ _ _) as [written heap'] eqn:Hcopy.
  destruct (write_window op cls memory src seg cur vd b offset a
              written heap' Hwf Hcur Hb ltac:(lia) Hcopy)
    as (Hwf1 & Hrows1 & Hheap1 & Hcur1 & Hother1).
  set (seg1 := with_vector_data _ _) in *.
  rewrite Nat.sub_diag. simpl.
  exists seg1. split; [done|]. split; [done|]. split; [done|]. split; [done|].
  split; [done|]. repeat (split; [done|]).
  split; [subst seg1; simpl; by rewrite length_alter|].
  split; [rewrite Hheap1; apply stored_rows_heap|].
  intros i Hi. apply Hother1. intros ->. apply Hi, list_elem_of_here.
Qed.

Lemma flat_write p memory src seg cur vals offset a :
  wf_segment seg -> holds seg cur vals ->
  0 < a -> length vals + a <= STANDARD_VECTOR_SIZE ->
  column_typed p src (offset + a) ->
  exists seg1,
    TemplatedColumnDataCopy (flat_op p) INVALID_INDEX memory cur src offset a seg
    = (Ok tt, seg1) /\
    wf_segment seg1 /\
    holds seg1 cur (vals ++ map (source_value memory src) (seq offset a)) /\
    changes [cur] seg seg1.
Proof.
  intros Hwf (vd & Hcur & Hnone & Hcount & Hvals) Ha Hfit Htyped.
  destruct (fit_write (flat_op p) INVALID_INDEX memory src seg cur vd offset a Hwf Hcur Ha
              ltac:(lia)) as (seg1 & E & Hwf1 & Hrows1 & Hheap1 & Hcur1 & Hchanges).
  exists seg1. split; [done|]. split; [done|]. split; [|done].
  pose proof (stored_rows_heap (flat_op p) INVALID_INDEX memory src offset a 0 (heap seg))
    as [more Hmore].
  exists (set_count (vd_count vd + a) vd). split; [done|]. split; [done|]. split.
  { simpl. rewrite length_app, length_map, length_seq. lia. }
  intros ext. rewrite Hrows1, map_app. f_equal.
  - rewrite Hheap1, Hmore, <- app_assoc. apply Hvals.
  - rewrite Hheap1, <- map_seq_shift.
    apply (stored_values p INVALID_INDEX memory src offset a 0).
    intros k Hk. apply Htyped. lia.
Qed.

Lemma struct_write memory src seg cur vd valid offset a :
  wf_segment seg -> vector_data seg !! cur = Some vd ->
  vd_count vd = length valid ->
  map fst (descriptor_rows seg cur) = map Some valid ->
  0 < a -> length valid + a <= STANDARD_VECTOR_SIZE ->
  exists seg1,
    TemplatedColumnDataCopy StructValueCopy INVALID_INDEX memory cur src offset a seg
    = (Ok tt, seg1) /\
    wf_segment seg1 /\
    vector_data seg1 !! cur = Some (set_count (length valid + a) vd) /\
    map fst (descriptor_rows seg1 cur) =
      map Some (valid ++ map (source_valid src offset) (seq 0 a)) /\
    changes [cur] seg seg1.
Proof.
  intros Hwf Hcur Hcount Hvalid Ha Hfit.
  destruct (fit_write StructValueCopy INVALID_INDEX memory src seg cur vd offset a Hwf Hcur
              Ha ltac:(lia)) as (seg1 & E & Hwf1 & Hrows1 & _ & Hcur1 & Hchanges).
  exists seg1. split; [done|]. split; [done|]. split; [by rewrite <- Hcount|].
  split; [|done].
  rewrite Hrows1, !map_app, Hvalid. f_equal.
  rewrite map_map. simpl. rewrite <- (map_map fst Some), stored_rows_valid.
  by rewrite map_map.
Qed.

Lemma changes_refl nodes seg : changes nodes seg seg.
Proof. repeat (split; [done|]). done. Qed.

Lemma typed_primitive_inv n p v :
  vector_typed n (Primitive p) v ->
  GetType v = Primitive p /\ column_typed p (VectorFormat v) n.
Proof. by inversion 1. Qed.

Lemma typed_struct_inv n child_types v :
  vector_typed n (StructType child_types) v ->
  GetType v = StructType child_types /\
  (forall k, k < n -> uvf_sel (VectorFormat v) k = k) /\
  Forall2 (fun (kv : string * LogicalType) child => vector_typed n (snd kv) child)
    child_types (VectorChildren v).
Proof. by inversion 1. Qed.

(** The loop of [ColumnDataCopyStruct] over the fields: every field gets
    the rows of the window of its child vector. *)
Lemma struct_children_plain memory r base child_vectors offset count n :
  0 < count -> n + count <= STANDARD_VECTOR_SIZE ->
  forall child_types fs,
    Forall2 (fun (kv : string * LogicalType) fc => GetCopyFunction (snd kv) = Ok fc)
      child_types fs ->
    Forall (fun kv : string * LogicalType => copy_appends (snd kv)) child_types ->
    forall children k seg,
      wf_segment seg ->
      (exists vd, vector_data seg !! r = Some vd /\ child_index vd = Some base) ->
      Forall2 (fun (kv : string * LogicalType) child =>
                 vector_holds seg (snd kv) (sv_root child) (sv_nodes child)
                   (sv_values child) /\
                 length (sv_values child) = n)
        child_types children ->
      (forall j child, children !! j = Some child ->
         child_indices seg !! (base + (k + j)) = Some (sv_root child)) ->
      (forall j kv, child_types !! j = Some kv ->
         exists cv, child_vectors !! (k + j) = Some cv /\
                    vector_typed (offset + count) (snd kv) cv) ->
      NoDup (r :: concat (map sv_nodes children)) ->
      exists seg' children',
        struct_children_loop memory r child_vectors offset count fs k
          (length child_types) seg = (Ok tt, seg') /\
        wf_segment seg' /\
        Forall2 (fun (kv : string * LogicalType) child =>
                   vector_holds seg' (snd kv) (sv_root child) (sv_nodes child)
                     (sv_values child) /\
                   length (sv_values child) = n + count)
          child_types children' /\
        map sv_root children' = map sv_root children /\
        map sv_nodes children' = map sv_nodes children /\
        (forall j child', children' !! j = Some child' ->
           exists child kv cv,
             children !! j = Some child /\ child_types !! j = Some kv /\
             child_vectors !! (k + j) = Some cv /\
             sv_values child' =
               sv_values child
               ++ map (vector_value memory (snd kv) cv) (seq offset count)) /\
        changes (concat (map sv_nodes children)) seg seg'.
Proof.
  intros Hcount Hfit child_types fs Hfs.
  induction Hfs as [|kv fc child_types fs Hfc _ IHfs];
    intros IH children k seg Hwf (vd & Hvd & Hbase) Hchildren Hroots Hvectors Hnodup.
  - inversion Hchildren; subst. exists seg, []. split; [done|]. split; [done|].
    split; [constructor|]. split; [done|]. split; [done|]. split; [done|].
    apply changes_refl.
  - inversion Hchildren as [|? child ? children0 [Hchild Hlen] Hchildren0]; subst.
    apply Forall_cons in IH as [IHkv IH].
    cbn [length]. rewrite struct_children_loop_cons.
    unfold bind at 1, reading at 1. rewrite (GetVectorData_Some _ _ _ Hvd).
    unfold bind at 1, reading at 1. rewrite Hbase. unfold GetChildIndex.
    pose proof (Hroots 0 child eq_refl) as Hroot. rewrite Nat.add_0_r in Hroot.
    rewrite Hroot.
    destruct (Hvectors 0 kv eq_refl) as (cv & Hcv & Htyped). rewrite Nat.add_0_r in Hcv.
    unfold bind at 1, reading at 1, at_index at 1. rewrite Hcv.
    cbn [map concat] in Hnodup.
    apply NoDup_cons in Hnodup as [Hr Hnodup].
    apply not_elem_of_app in Hr as [Hr_child Hr_rest].
    apply NoDup_app in Hnodup as (Hnodup_child & Hdisjoint & Hnodup_rest).
    destruct (IHkv fc memory (sv_root child) (sv_nodes child) (sv_values child)
                cv offset count seg Hfc Hwf Hchild Htyped Hcount ltac:(lia))
      as (seg1 & E1 & Hwf1 & Hchild1 & Hchanges1).
    unfold bind at 1. unfold ToUnifiedFormat. rewrite E1.
    pose proof Hchanges1 as (_ & _ & _ & Hindices1 & _ & _ & Hsame1).
    destruct (IHfs IH children0 (S k) seg1 Hwf1) as
      (seg' & children0' & E & Hwf' & Hchildren' & Eroots & Enodes & Hcolumns' & Hchanges').
    { exists vd. by rewrite (proj1 (Hsame1 r Hr_child)). }
    { apply Forall2_same_length_lookup_2; [by eapply Forall2_length|].
      intros j kvj childj Hkvj Hchildj.
      destruct (Forall2_lookup_lr _ _ _ j _ _ Hchildren0 Hkvj Hchildj) as [Hc Hl].
      split; [|done]. apply (vector_holds_frame seg seg1 Hwf _ _ _ _ Hc).
      apply (changes_retains _ _ _ _ Hchanges1). intros i Hi Hin.
      apply (Hdisjoint i Hin). apply elem_of_concat. exists (sv_nodes childj).
      split; [done|]. apply list_elem_of_fmap_2. by eapply list_elem_of_lookup_2. }
    { intros j childj Hj. rewrite Hindices1.
      replace (S k + j) with (k + S j) by lia. by apply (Hroots (S j)). }
    { intros j kvj Hj. replace (S k + j) with (k + S j) by lia. by apply (Hvectors (S j)). }
    { by constructor. }
    set (child' := {| sv_root := sv_root child; sv_nodes := sv_nodes child;
                      sv_values :=
                        sv_values child
                        ++ map (vector_value memory (snd kv) cv) (seq offset count) |}).
    exists seg', (child' :: children0'). split; [done|]. split; [done|].
    split; [|split; [|split; [|split]]].
    + constructor; [|done]. split.
      * apply (vector_holds_frame seg1 seg' Hwf1 _ _ _ _ Hchild1).
        apply (changes_retains _ _ _ _ Hchanges'). intros i Hi Hin.
        by apply (Hdisjoint i Hi).
      * simpl. rewrite length_app, length_map, length_seq. lia.
    + simpl. by rewrite Eroots.
    + simpl. by rewrite Enodes.
    + intros [|j] childj Hj.
      * injection Hj as <-. exists child, kv, cv. by rewrite Nat.add_0_r.
      * destruct (Hcolumns' j childj Hj) as (c0 & kv0 & cv0 & ? & ? & Hcv0 & ?).
        exists c0, kv0, cv0. replace (k + S j) with (S k + j) by lia. done.
    + cbn [map concat]. by apply (changes_trans _ _ seg seg1 seg').
Qed.

Lemma struct_values_extend valid more columns columns' news :
  Forall (fun column => length column = length valid) columns ->
  length columns' = length columns ->
  (forall j column', columns' !! j = Some column' ->
     exists column new,
       columns !! j = Some column /\ news !! j = Some new /\ column' = column ++ new) ->
  length news = length columns ->
  struct_values (valid ++ more) columns' =
  struct_values valid columns ++ struct_values more news.
Proof.
  intros Hlen Hsame Hcolumns Hnews. unfold struct_values. rewrite imap_app. f_equal.
  - apply imap_ext. intros i b Hi. destruct b; [|done]. f_equal.
    apply list_eq. intros j. rewrite !list_lookup_fmap.
    destruct (columns' !! j) as [column'|] eqn:Hj.
    + destruct (Hcolumns j column' Hj) as (column & new & Hc & _ & ->). rewrite Hc. simpl.
      pose proof (lookup_lt_Some _ _ _ Hi).
      by rewrite lookup_app_l by (by rewrite (Forall_lookup_1 _ _ _ _ Hlen Hc)).
    + apply lookup_ge_None in Hj. rewrite Hsame in Hj.
      apply lookup_ge_None in Hj. by rewrite Hj.
  - apply imap_ext. intros i b Hi. simpl. destruct b; [|done]. f_equal.
    apply list_eq. intros j. rewrite !list_lookup_fmap.
    destruct (columns' !! j) as [column'|] eqn:Hj.
    + destruct (Hcolumns j column' Hj) as (column & new & Hc & Hn & ->). rewrite Hn. simpl.
      rewrite lookup_app_r by (rewrite (Forall_lookup_1 _ _ _ _ Hlen Hc); lia).
      rewrite (Forall_lookup_1 _ _ _ _ Hlen Hc).
      by replace (length valid + i - length valid) with i by lia.
    + apply lookup_ge_None in Hj. rewrite Hsame, <- Hnews in Hj.
      apply lookup_ge_None in Hj. by rewrite Hj.
Qed.

Lemma struct_values_source memory child_types source offset count :
  length (VectorChildren source) = length child_types ->
  struct_values (map (source_valid (VectorFormat source) offset) (seq 0 count))
    (zip_with (fun (kv : string * LogicalType) cv =>
                 map (vector_value memory (snd kv) cv) (seq offset count))
       child_types (VectorChildren source))
  = map (vector_value memory (StructType child_types) source) (seq offset count).
Proof.
  intros Hlen.
  rewrite (map_ext _ _ (fun k => vector_value_struct memory child_types source k)).
  unfold struct_values. apply list_eq. intros i.
  rewrite list_lookup_imap, !list_lookup_fmap.
  destruct (decide (i < count)) as [Hi|Hi].
  - rewrite !lookup_seq_lt by done. simpl. f_equal.
    rewrite field_values_zip. unfold source_valid.
    destruct (RowIsValid _ _); [|done]. f_equal.
    generalize (VectorChildren source). clear Hlen.
    induction child_types as [|kv l IH]; intros [|cv vs]; try done.
    simpl. rewrite list_lookup_fmap, lookup_seq_lt by done. simpl. by rewrite IH.
  - by rewrite !lookup_seq_ge by lia.
Qed.

(** The copy function of a plain type, called with rows that fit the
    vector, leaves the values of the rows behind the values of the vector. *)
Lemma copy_appends_plain : forall t, copy_appends t.
Proof.
  intros t.
  induction t as [p|child_types IH|child_type _] using LogicalType_fields_ind;
    intros f memory r nodes vals source offset count seg Hf Hwf Hholds Htyped Hcount Hfit.
  - apply vector_holds_flat_inv in Hholds as (Hp & Hr & ->).
    apply typed_primitive_inv in Htyped as [_ Hcells].
    rewrite (flat_call p f _ _ _ _ _ _ Hp Hf).
    destruct (flat_write p memory (VectorFormat source) seg r vals offset count Hwf Hr Hcount
                Hfit Hcells) as (seg' & E & Hwf' & Hr' & Hchanges).
    exists seg'. split; [done|]. split; [done|]. split; [|done].
    by constructor.
  - apply vector_holds_struct_inv in Hholds
      as (vd & base & valid & children & Hvd & Hnone & Hbase & Hvd_count & Hvalid &
          Hchildren & Hroots & Hnodup & -> & ->).
    apply typed_struct_inv in Htyped as (Htype & _ & Hvectors).
    apply GetCopyFunction_struct in Hf as (fs & -> & Hfs).
    assert (length (struct_values valid (map sv_values children)) = length valid) as Hlen.
    { unfold struct_values. by rewrite length_imap. }
    rewrite Hlen in Hfit.
    rewrite call_copy_function_struct.
    destruct (struct_write memory (VectorFormat source) seg r vd valid offset count Hwf Hvd
                Hvd_count Hvalid Hcount Hfit)
      as (seg1 & E1 & Hwf1 & Hvd1 & Hvalid1 & Hchanges1).
    unfold bind at 1. rewrite E1.
    unfold bind at 1, reading at 1. rewrite Htype. cbn [GetChildTypes].
    unfold bind at 1, reading at 1. rewrite (GetVectorData_Some _ _ _ Hvd1).
    unfold bind at 1, reading at 1. cbn [child_index set_count]. rewrite Hbase.
    rewrite bool_decide_true by (by eexists). cbn [D_ASSERT].
    pose proof Hchanges1 as (_ & _ & _ & Hindices1 & _ & _ & Hsame1).
    pose proof Hnodup as Hnodup'. apply NoDup_cons in Hnodup' as [Hr_children _].
    destruct (struct_children_plain memory r base (VectorChildren source) offset count
                (length valid) Hcount Hfit child_types fs Hfs IH children 0 seg1 Hwf1)
      as (seg' & children' & E & Hwf' & Hchildren' & Eroots & Enodes & Hcolumns' & Hchanges').
    { eexists. split; [exact Hvd1|]. done. }
    { apply Forall2_same_length_lookup_2; [by eapply Forall2_length|].
      intros j kv child Hkv Hchild.
      destruct (Forall2_lookup_lr _ _ _ j _ _ Hchildren Hkv Hchild) as [Hc Hl].
      split; [|done]. apply (vector_holds_frame seg seg1 Hwf _ _ _ _ Hc).
      apply (changes_retains _ _ _ _ Hchanges1). intros i Hi Hin.
      apply list_elem_of_singleton in Hin as ->. apply Hr_children.
      apply elem_of_concat. exists (sv_nodes child). split; [done|].
      apply list_elem_of_fmap_2. by eapply list_elem_of_lookup_2. }
    { intros j child Hj. rewrite Hindices1. by apply Hroots. }
    { intros j kv Hkv. simpl.
      destruct (Forall2_lookup_l _ _ _ _ _ Hvectors Hkv) as (cv & ? & ?). eauto. }
    { done. }
    rewrite E.
    exists seg'. split; [done|]. split; [done|].
    pose proof Hchanges' as (_ & _ & _ & Hindices' & _ & _ & Hsame').
    split.
    + assert (struct_values valid (map sv_values children)
              ++ map (vector_value memory (StructType child_types) source)
                   (seq offset count)
              = struct_values
                  (valid ++ map (source_valid (VectorFormat source) offset) (seq 0 count))
                  (map sv_values children')) as ->.
      { rewrite <- (struct_values_source memory child_types source offset count)
          by (symmetry; by eapply Forall2_length).
        symmetry. apply struct_values_extend.
        - apply Forall_forall. intros column Hcolumn.
          apply list_elem_of_fmap in Hcolumn as (child & -> & Hchild).
          apply list_elem_of_lookup in Hchild as [j Hj].
          destruct (Forall2_lookup_r _ _ _ _ _ Hchildren Hj) as (kv & _ & _ & Hl). done.
        - rewrite !length_map. rewrite <- (Forall2_length _ _ _ Hchildren').
          by rewrite (Forall2_length _ _ _ Hchildren).
        - intros j column' Hj. rewrite list_lookup_fmap in Hj.
          destruct (children' !! j) as [child'|] eqn:Hchild'; [|done].
          injection Hj as <-.
          destruct (Hcolumns' j child' Hchild') as (child & kv & cv & Hc & Hkv & Hcv & ->).
          eexists _, _. rewrite list_lookup_fmap, Hc. split; [done|]. split; [|done].
          simpl in Hcv. by rewrite lookup_zip_with, Hkv; simpl; rewrite Hcv.
        - rewrite length_zip_with_l_eq by (by eapply Forall2_length).
          by rewrite length_map, (Forall2_length _ _ _ Hchildren). }
      rewrite <- Enodes.
      apply (vector_holds_struct seg' child_types r (set_count (length valid + count) vd)
               base _ children'); try done.
      * by rewrite (proj1 (Hsame' r Hr_children)).
      * simpl. rewrite length_app, length_map, length_seq. done.
      * rewrite (descriptor_rows_ext seg1 seg' r); [done|by apply Hsame'|].
        intros vd0. rewrite Hvd1. intros [= <-]. cbn [block_id set_count].
        rewrite (ok_block _ _ _ (wf_descriptors _ Hwf r vd Hvd)).
        by apply Hsame'.
      * eapply Forall2_impl; [exact Hchildren'|]. intros kv child [? Hl].
        split; [done|]. rewrite Hl, length_app, length_map, length_seq. done.
      * intros j child' Hj. rewrite Hindices', Hindices1.
        destruct (Hcolumns' j child' Hj) as (child & _ & _ & Hc & _).
        rewrite (Hroots j child Hc). f_equal.
        pose proof (f_equal (fun l => l !! j) Eroots) as Eroot. simpl in Eroot.
        rewrite !list_lookup_fmap, Hj, Hc in Eroot. simpl in Eroot. congruence.
      * by rewrite Enodes.
    + apply (changes_subset ([r] ++ concat (map sv_nodes children))); [|done].
      by apply (changes_trans _ _ seg seg1 seg').
  - by apply vector_holds_list_inv in Hholds.
Qed.

(** *** Allocating a column of a plain type *)

Lemma grows_refl seg : grows seg seg.
Proof. repeat (split; [done|]). done. Qed.

Lemma grows_trans seg1 seg2 seg3 : grows seg1 seg2 -> grows seg2 seg3 -> grows seg1 seg3.
Proof.
  intros (Hsame1 & Hlen1 & Hc1 & ? & ? & ? & ?) (Hsame2 & Hlen2 & Hc2 & ? & ? & ? & ?).
  split; [|split; [lia|split; [by etrans|repeat split; congruence]]].
  intros i Hi. destruct (Hsame1 i Hi) as [<- <-]. apply Hsame2. lia.
Qed.

Lemma grows_retains nodes seg seg' :
  grows seg seg' -> (forall i, i ∈ nodes -> i < length (vector_data seg)) ->
  retains nodes seg seg'.
Proof.
  intros (Hsame & _ & Hc & Hheap & _) Hrange.
  split; [|split; [done|by rewrite Hheap]]. intros i Hi. by apply Hsame, Hrange.
Qed.

Lemma vector_holds_range seg :
  forall t r nodes vals,
    vector_holds seg t r nodes vals ->
    forall i, i ∈ nodes -> i < length (vector_data seg).
Proof.
  intros t.
  induction t as [p|child_types IH|child_type _] using LogicalType_fields_ind;
    intros r nodes vals Hholds i Hi.
  - apply vector_holds_flat_inv in Hholds as (_ & (vd & Hvd & _) & ->).
    apply list_elem_of_singleton in Hi as ->. by eapply lookup_lt_Some.
  - apply vector_holds_struct_inv in Hholds
      as (vd & base & valid & children & Hvd & _ & _ & _ & _ & Hchildren & _ & _ & -> & _).
    apply elem_of_cons in Hi as [->|Hi]; [by eapply lookup_lt_Some|].
    apply elem_of_concat in Hi as (ns & Hi & Hns).
    apply list_elem_of_fmap in Hns as (child & -> & Hchild).
    apply list_elem_of_lookup in Hchild as [j Hj].
    destruct (Forall2_lookup_r _ _ _ _ _ Hchildren Hj) as (kv & Hkv & Hc & _).
    by apply (Forall_lookup_1 _ _ _ _ IH Hkv _ _ _ Hc).
  - by apply vector_holds_list_inv in Hholds.
Qed.

Lemma vector_holds_nodup seg t r nodes vals :
  vector_holds seg t r nodes vals -> NoDup nodes.
Proof.
  destruct 1; [|done]. apply NoDup_singleton.
Qed.

Lemma allocate_fields_plain child_types :
  Forall (fun kv : string * LogicalType => allocation_holds (snd kv)) child_types ->
  forall seg,
    wf_segment seg ->
    exists children seg',
      allocate_fields child_types seg = (Ok (map sv_root children), seg') /\
      wf_segment seg' /\
      Forall2 (fun (kv : string * LogicalType) child =>
                 vector_holds seg' (snd kv) (sv_root child) (sv_nodes child)
                   (sv_values child) /\
                 sv_values child = [])
        child_types children /\
      (forall i, i ∈ concat (map sv_nodes children) ->
         length (vector_data seg) <= i < length (vector_data seg')) /\
      NoDup (concat (map sv_nodes children)) /\
      grows seg seg'.
Proof.
  induction 1 as [|kv l Hkv _ IHl]; intros seg Hwf.
  - exists [], seg. split; [done|]. split; [done|]. split; [constructor|].
    split; [by intros i ?%elem_of_nil|]. split; [constructor|apply grows_refl].
  - rewrite allocate_fields_cons.
    destruct (Hkv seg Hwf) as (index & seg1 & nodes & E1 & Hwf1 & Hholds1 & Hrange1 & Hgrows1).
    destruct (IHl seg1 Hwf1)
      as (children & seg2 & E2 & Hwf2 & Hchildren & Hrange2 & Hnodup2 & Hgrows2).
    unfold bind at 1. rewrite E1. unfold bind at 1. rewrite E2. unfold ret.
    pose proof Hgrows1 as (_ & Hlen1 & _). pose proof Hgrows2 as (_ & Hlen2 & _).
    exists ({| sv_root := index; sv_nodes := nodes; sv_values := [] |} :: children),
      seg2.
    split; [done|]. split; [done|]. split; [|split; [|split]].
    + constructor; [|done]. split; [|done]. simpl.
      apply (vector_holds_frame seg1 seg2 Hwf1 _ _ _ _ Hholds1).
      apply (grows_retains _ _ _ Hgrows2). intros i Hi. apply (Hrange1 i Hi).
    + intros i Hi. cbn [map concat] in Hi. apply elem_of_app in Hi as [Hi|Hi].
      * specialize (Hrange1 i Hi). lia.
      * specialize (Hrange2 i Hi). lia.
    + cbn [map concat]. apply NoDup_app. split; [by eapply vector_holds_nodup|].
      split; [|done]. intros i Hi Hi'.
      specialize (Hrange1 i Hi). specialize (Hrange2 i Hi'). lia.
    + by eapply grows_trans.
Qed.

Lemma grows_AllocateVector seg :
  wf_segment seg ->
  let seg' := (AllocateVector None seg).2 in
  grows seg seg' /\ length (vector_data seg') = S (length (vector_data seg)).
Proof.
  intros Hwf seg'.
  destruct (allocate_fresh seg Hwf) as (_ & _ & _ & Htable & Hblocks & Hindices & Hheap).
  fold seg' in Htable, Hblocks, Hindices, Hheap.
  assert (length (vector_data seg') = S (length (vector_data seg))) as Hlen.
  { rewrite Htable, length_app. simpl. lia. }
  split; [|done]. split; [|split; [lia|split; [by rewrite Hindices|done]]].
  intros i Hi. rewrite Htable, Hblocks, !lookup_app_l; [done| |done].
  by rewrite (wf_blocks _ Hwf).
Qed.

(** [allocate_column] for a plain type gives a vector of the type without
    values. *)
Lemma allocate_column_plain : forall t, plain t = true -> allocation_holds t.
Proof.
  intros t.
  induction t as [p|child_types IH|child_type _] using LogicalType_fields_ind;
    intros Hplain seg Hwf.
  - destruct (allocate_fresh seg Hwf) as (Hwf1 & _ & Hindex & Htable & _).
    destruct (grows_AllocateVector seg Hwf) as [Hgrows Hlen].
    cbn [allocate_column]. unfold bind, calling.
    destruct (AllocateVector None seg) as [index seg1]. cbn [fst snd] in *. subst index.
    unfold ret. eexists _, seg1, [length (vector_data seg)].
    split; [done|]. split; [done|]. split; [|split; [|done]].
    + constructor; [done|]. eexists. split.
      { rewrite Htable, lookup_app_r, Nat.sub_diag by lia. done. }
      split; [done|]. split; [done|]. intros ext. unfold descriptor_rows.
      rewrite Htable, lookup_app_r, Nat.sub_diag by lia. simpl.
      by destruct (blocks seg1 !! _).
    + intros i Hi. apply list_elem_of_singleton in Hi as ->. lia.
  - apply plain_fields in Hplain.
    assert (Forall (fun kv : string * LogicalType => allocation_holds (snd kv)) child_types)
      as IH'.
    { apply Forall_forall. intros kv Hkv.
      apply (proj1 (Forall_forall _ _) IH kv Hkv), (proj1 (Forall_forall _ _) Hplain kv Hkv). }
    destruct (allocate_fresh seg Hwf) as (Hwf1 & _ & Hindex & Htable & _).
    destruct (grows_AllocateVector seg Hwf) as [Hgrows1 Hlen1].
    rewrite allocate_column_struct. unfold bind at 1, calling at 1.
    destruct (AllocateVector None seg) as [index seg1]. cbn [fst snd] in *. subst index.
    set (index := length (vector_data seg)) in *.
    destruct (allocate_fields_plain child_types IH' seg1 Hwf1)
      as (children & seg2 & E2 & Hwf2 & Hchildren & Hrange2 & Hnodup2 & Hgrows2).
    unfold bind at 1. rewrite E2. unfold bind at 1, calling at 1.
    unfold bind at 1, modifying at 1. unfold ret.
    set (seg3 := with_child_indices _ seg2).
    set (seg4 := with_vector_data _ seg3).
    pose proof Hgrows2 as (Hsame2 & Hlen2 & Hindices2 & Hheap2 & Hchunks2 & Htypes2 & Hcount2).
    assert (vector_data seg2 !! index =
            Some {| block_id := index; vd_offset := 0; vd_count := 0;
                    child_index := None; next_data := None |}) as Hvd2.
    { rewrite (proj1 (Hsame2 index ltac:(lia))).
      rewrite Htable, lookup_app_r, Nat.sub_diag by (subst index; lia). done. }
    assert (wf_segment seg4) as Hwf4.
    { apply wf_set_child_index, wf_with_child_indices, Hwf2. }
    assert (vector_data seg4 !! index =
            Some {| block_id := index; vd_offset := 0; vd_count := 0;
                    child_index := Some (length (child_indices seg2));
                    next_data := None |}) as Hvd4.
    { subst seg4 seg3. simpl. by rewrite list_lookup_alter_eq, Hvd2. }
    assert (forall i, i <> index ->
              vector_data seg4 !! i = vector_data seg2 !! i /\
              blocks seg4 !! i = blocks seg2 !! i) as Hsame4.
    { intros i Hi. subst seg4 seg3. simpl. by rewrite list_lookup_alter_ne. }
    assert (length (vector_data seg4) = length (vector_data seg2)) as Hlen4.
    { subst seg4 seg3. simpl. by rewrite length_alter. }
    eexists index, seg4, (index :: concat (map sv_nodes children)).
    split; [done|]. split; [done|]. split; [|split].
    + change ([] : list Value)
        with (struct_values [] (map sv_values children)).
      apply (vector_holds_struct seg4 child_types index _ (length (child_indices seg2)) []
               children Hvd4); try done.
      * unfold descriptor_rows. rewrite Hvd4. simpl. by destruct (blocks _ !! _).
      * apply Forall2_same_length_lookup_2; [by eapply Forall2_length|].
        intros j kv child Hkv Hchild.
        destruct (Forall2_lookup_lr _ _ _ _ _ _ Hchildren Hkv Hchild) as [Hc Hempty].
        split; [|by rewrite Hempty].
        apply (vector_holds_frame seg2 seg4 Hwf2 _ _ _ _ Hc).
        split; [|split; [by apply prefix_app_r|done]].
        intros i Hi. apply Hsame4. intros ->.
        assert (index ∈ concat (map sv_nodes children)) as Hin.
        { apply elem_of_concat. exists (sv_nodes child). split; [done|].
          apply list_elem_of_fmap. exists child. split; [done|].
          by eapply list_elem_of_lookup_2. }
        specialize (Hrange2 index Hin). lia.
      * intros j child Hj. subst seg4 seg3. simpl.
        rewrite lookup_app_r by lia.
        replace (length (child_indices seg2) + j - length (child_indices seg2)) with j by lia.
        by rewrite list_lookup_fmap, Hj.
      * constructor; [|done]. intros Hin. specialize (Hrange2 index Hin). lia.
    + intros i Hi. rewrite Hlen4. apply elem_of_cons in Hi as [->|Hi]; [subst index; lia|].
      specialize (Hrange2 i Hi). lia.
    + split; [|split; [lia|split]].
      * intros i Hi. destruct (Hsame4 i ltac:(subst index; lia)) as [-> ->].
        destruct (Hsame2 i ltac:(lia)) as [-> ->].
        apply Hgrows1. done.
      * destruct Hgrows1 as (_ & _ & Hi1 & _). etrans; [exact Hi1|].
        etrans; [exact Hindices2|]. by apply prefix_app_r.
      * destruct Hgrows1 as (_ & _ & _ & ? & ? & ? & ?). subst seg4 seg3. simpl.
        repeat split; congruence.
  - done.
Qed.

(** *** Vectors of plain types *)

Lemma vector_typed_type n t v : vector_typed n t v -> GetType v = t.
Proof. by destruct 1. Qed.

Lemma vector_typed_le n m :
  n <= m -> forall t v, vector_typed m t v -> vector_typed n t v.
Proof.
  intros Hle t.
  induction t as [p|child_types IH|child_type _] using LogicalType_fields_ind;
    intros v Htyped.
  - apply typed_primitive_inv in Htyped as [Htype Hcells].
    constructor; [done|]. intros k Hk. apply Hcells. lia.
  - apply typed_struct_inv in Htyped as (Htype & Hsel & Hchildren).
    constructor; [done|intros k Hk; apply Hsel; lia|].
    apply Forall2_same_length_lookup_2; [by eapply Forall2_length|].
    intros j kv child Hkv Hchild.
    apply (Forall_lookup_1 _ _ _ _ IH Hkv).
    by apply (Forall2_lookup_lr _ _ _ _ _ _ Hchildren Hkv Hchild).
  - inversion Htyped.
Qed.

Lemma vector_typed_shaped n :
  forall t v, vector_typed n t v -> vector_shaped t v.
Proof.
  intros t.
  induction t as [p|child_types IH|child_type _] using LogicalType_fields_ind;
    intros v Htyped.
  - apply typed_primitive_inv in Htyped as [Htype _]. by constructor.
  - apply typed_struct_inv in Htyped as (Htype & _ & Hchildren).
    constructor; [done|]. intros j kv Hkv.
    destruct (Forall2_lookup_l _ _ _ _ _ Hchildren Hkv) as (child & Hchild & Htyped).
    exists child. split; [done|]. by apply (Forall_lookup_1 _ _ _ _ IH Hkv).
  - inversion Htyped.
Qed.

Lemma plain_supported : forall t, plain t = true -> supported t = true.
Proof.
  intros t.
  induction t as [p|child_types IH|child_type _] using LogicalType_fields_ind;
    intros Hplain; [done| |done].
  apply supported_fields. apply plain_fields in Hplain.
  apply Forall_forall. intros kv Hkv.
  apply (proj1 (Forall_forall _ _) IH kv Hkv), (proj1 (Forall_forall _ _) Hplain kv Hkv).
Qed.

Lemma plain_copy_function t : plain t = true -> exists f, GetCopyFunction t = Ok f.
Proof.
  intros Hplain.
  destruct (proj1 (GetCopyFunction_mirrors_the_type_aux t) (plain_supported t Hplain))
    as (f & Hf & _).
  by exists f.
Qed.

Lemma vector_typed_Flatten n m t v :
  vector_typed n t v -> vector_typed n t (Flatten m v).
Proof.
  destruct 1 as [p v Htype Hcells|child_types v Htype Hsel Hchildren];
    destruct v as [vt f ls c]; simpl in *.
  - constructor; [done|]. intros k Hk. simpl.
    specialize (Hcells k Hk). by destruct (uvf_validity f).
  - by constructor.
Qed.

Lemma vector_value_Flatten memory m t v k :
  vector_value memory t (Flatten m v) k = vector_value memory t v k.
Proof.
  destruct v as [vt f ls c]. destruct t as [p|child_types|child_type]; [|simpl|done].
  - simpl. unfold source_value. simpl. by destruct (uvf_validity f).
  - by destruct (uvf_validity f).
Qed.

(** *** The loop over the columns of a plain schema *)

Lemma concat_lookup_disjoint {A} (ls : list (list A)) :
  NoDup (concat ls) ->
  forall i j a b x,
    ls !! i = Some a -> ls !! j = Some b -> i <> j -> x ∈ a -> x ∉ b.
Proof.
  induction ls as [|l ls IH]; intros Hnodup i j a b x Hi Hj Hne Ha Hb; [done|].
  simpl in Hnodup. apply NoDup_app in Hnodup as (_ & Hdisjoint & Hrest).
  destruct i as [|i], j as [|j]; simpl in Hi, Hj; [done| | |].
  - injection Hi as ->. apply (Hdisjoint x Ha), elem_of_concat.
    exists b. split; [done|]. by eapply list_elem_of_lookup_2.
  - injection Hj as ->. apply (Hdisjoint x Hb), elem_of_concat.
    exists a. split; [done|]. by eapply list_elem_of_lookup_2.
  - apply (IH Hrest i j a b x Hi Hj); [lia|done|done].
Qed.

Lemma extend_nodes columns i column more :
  columns !! i = Some column ->
  map sv_nodes (<[i := extend column more]> columns) = map sv_nodes columns /\
  map sv_root (<[i := extend column more]> columns) = map sv_root columns.
Proof.
  intros Hi. split.
  - change (map sv_nodes) with (fmap (M := list) sv_nodes).
    rewrite list_fmap_insert. apply list_insert_id. by rewrite list_lookup_fmap, Hi.
  - change (map sv_root) with (fmap (M := list) sv_root).
    rewrite list_fmap_insert. apply list_insert_id. by rewrite list_lookup_fmap, Hi.
Qed.

Lemma append_columns_plain ts functions formats data size memory offset amount :
  plain_ready ts functions formats data size ->
  0 < amount -> offset + amount <= size ->
  forall n vector_idx seg columns,
    vector_idx + n = length ts ->
    wf_segment seg ->
    Forall2 (fun t column =>
               vector_holds seg t (sv_root column) (sv_nodes column) (sv_values column))
      ts columns ->
    NoDup (concat (map sv_nodes columns)) ->
    (forall j column, vector_idx <= j -> columns !! j = Some column ->
                      length (sv_values column) + amount <= STANDARD_VECTOR_SIZE) ->
    exists seg',
      append_columns n vector_idx functions memory (map sv_root columns) formats data
        offset amount seg
      = (Ok tt, seg') /\
      wf_segment seg' /\
      Forall2 (fun t column =>
                 vector_holds seg' t (sv_root column) (sv_nodes column) (sv_values column))
        ts
        (imap (fun j column =>
                 if bool_decide (vector_idx <= j)
                 then extend column (plain_window memory ts data j offset amount)
                 else column) columns) /\
      changes (concat (map sv_nodes columns)) seg seg'.
Proof.
  intros Hready Hamount Hwindow n.
  induction n as [|n IH]; intros vector_idx seg columns Hend Hwf Hcolumns Hnodup Hfit.
  - exists seg. split; [done|]. split; [done|]. split; [|apply changes_refl].
    replace (imap _ columns) with columns; [done|].
    apply list_eq. intros i. rewrite list_lookup_imap.
    destruct (columns !! i) as [column|] eqn:Hi; [|done]. simpl.
    pose proof (lookup_lt_Some _ _ _ Hi) as Hlt.
    rewrite <- (Forall2_length _ _ _ Hcolumns) in Hlt.
    rewrite bool_decide_false by lia. done.
  - destruct (lookup_lt_is_Some_2 ts vector_idx) as [t Ht]; [lia|].
    destruct (Hready vector_idx t Ht)
      as (f & source & Hf & Hcopy & Hformat & Hsource & Htyped).
    destruct (Forall2_lookup_l _ _ _ _ _ Hcolumns Ht) as (column & Hcolumn & Hholds).
    cbn [append_columns]. unfold bind at 1, reading at 1, at_index at 1. rewrite Hf.
    unfold bind at 1, reading at 1, at_index at 1.
    assert (map sv_root columns !! vector_idx = Some (sv_root column)) as ->.
    { change (map sv_root) with (fmap (M := list) sv_root).
      by rewrite list_lookup_fmap, Hcolumn. }
    unfold bind at 1, reading at 1, at_index at 1. rewrite Hformat.
    unfold bind at 1, reading at 1, at_index at 1. rewrite Hsource.
    unfold bind at 1.
    assert (offset + amount <= size) as Hle by lia.
    destruct (copy_appends_plain t f memory (sv_root column) (sv_nodes column)
                (sv_values column) source offset amount seg Hcopy Hwf Hholds
                (vector_typed_le _ _ Hle _ _ Htyped) Hamount
                (Hfit vector_idx column (le_n _) Hcolumn))
      as (seg1 & -> & Hwf1 & Hholds1 & Hchanges1).
    set (more := map (vector_value memory t source) (seq offset amount)) in *.
    destruct (extend_nodes columns vector_idx column more Hcolumn) as [Enodes Eroots].
    assert (Forall2 (fun t column =>
                       vector_holds seg1 t (sv_root column) (sv_nodes column)
                         (sv_values column))
              ts (<[vector_idx := extend column more]> columns)) as Hcolumns1.
    { apply Forall2_same_length_lookup_2.
      { rewrite length_insert. by eapply Forall2_length. }
      intros i ti ci Hti Hci.
      destruct (decide (i = vector_idx)) as [->|Hne].
      - rewrite list_lookup_insert_eq in Hci by (by eapply lookup_lt_Some).
        injection Hci as <-. rewrite Ht in Hti. by injection Hti as <-.
      - rewrite list_lookup_insert_ne in Hci by done.
        apply (vector_holds_frame seg seg1 Hwf).
        + by apply (Forall2_lookup_lr _ _ _ i _ _ Hcolumns Hti Hci).
        + apply (changes_retains _ _ _ _ Hchanges1). intros x Hx.
          apply (concat_lookup_disjoint (map sv_nodes columns) Hnodup i vector_idx
                   (sv_nodes ci) (sv_nodes column) x); [| |done|done].
          * change (map sv_nodes) with (fmap (M := list) sv_nodes).
            by rewrite list_lookup_fmap, Hci.
          * change (map sv_nodes) with (fmap (M := list) sv_nodes).
            by rewrite list_lookup_fmap, Hcolumn. }
    destruct (IH (S vector_idx) seg1 (<[vector_idx := extend column more]> columns)
                ltac:(lia) Hwf1 Hcolumns1)
      as (seg' & E & Hwf' & Hcolumns' & Hchanges').
    { by rewrite Enodes. }
    { intros j col Hj. rewrite list_lookup_insert_ne by lia. apply Hfit. lia. }
    rewrite Eroots in E. rewrite Enodes in Hchanges'.
    exists seg'. split; [done|]. split; [done|]. split.
    + replace (imap _ columns) with
        (imap (fun j column =>
                 if bool_decide (S vector_idx <= j)
                 then extend column (plain_window memory ts data j offset amount)
                 else column) (<[vector_idx := extend column more]> columns)); [done|].
      apply list_eq. intros i. rewrite !list_lookup_imap.
      destruct (decide (i = vector_idx)) as [->|Hne].
      * rewrite list_lookup_insert_eq by (by eapply lookup_lt_Some). rewrite Hcolumn. simpl.
        rewrite bool_decide_false, bool_decide_true by lia.
        unfold plain_window. by rewrite Ht, Hsource.
      * rewrite list_lookup_insert_ne by done.
        destruct (columns !! i); [|done]. simpl.
        destruct (decide (vector_idx <= i)).
        -- by rewrite !bool_decide_true by lia.
        -- by rewrite !bool_decide_false by lia.
    + apply (changes_subset (sv_nodes column ++ concat (map sv_nodes columns))).
      * by eapply changes_trans.
      * intros x Hx. apply elem_of_app in Hx as [Hx|Hx]; [|done].
        apply elem_of_concat. exists (sv_nodes column). split; [done|].
        apply list_elem_of_fmap. exists column. split; [done|].
        by eapply list_elem_of_lookup_2.
Qed.

(** *** A new chunk of a plain schema *)

Lemma allocate_columns_plain ts :
  Forall (fun t => plain t = true) ts ->
  forall seg,
    wf_segment seg ->
    exists columns seg',
      allocate_columns ts seg = (Ok (map sv_root columns), seg') /\
      wf_segment seg' /\
      Forall2 (fun t column =>
                 vector_holds seg' t (sv_root column) (sv_nodes column) (sv_values column) /\
                 sv_values column = [])
        ts columns /\
      (forall i, i ∈ concat (map sv_nodes columns) ->
         length (vector_data seg) <= i < length (vector_data seg')) /\
      NoDup (concat (map sv_nodes columns)) /\
      grows seg seg'.
Proof.
  induction 1 as [|t ts Ht _ IH]; intros seg Hwf.
  - exists [], seg. split; [done|]. split; [done|]. split; [constructor|].
    split; [by intros i ?%elem_of_nil|]. split; [constructor|apply grows_refl].
  - cbn [allocate_columns].
    destruct (allocate_column_plain t Ht seg Hwf)
      as (index & seg1 & nodes & E1 & Hwf1 & Hholds1 & Hrange1 & Hgrows1).
    destruct (IH seg1 Hwf1)
      as (columns & seg2 & E2 & Hwf2 & Hcolumns & Hrange2 & Hnodup2 & Hgrows2).
    unfold bind at 1. rewrite E1. unfold bind at 1. rewrite E2. unfold ret.
    pose proof Hgrows1 as (_ & Hlen1 & _). pose proof Hgrows2 as (_ & Hlen2 & _).
    exists ({| sv_root := index; sv_nodes := nodes; sv_values := [] |} :: columns), seg2.
    split; [done|]. split; [done|]. split; [|split; [|split]].
    + constructor; [|done]. split; [|done]. simpl.
      apply (vector_holds_frame seg1 seg2 Hwf1 _ _ _ _ Hholds1).
      apply (grows_retains _ _ _ Hgrows2). intros i Hi. apply (Hrange1 i Hi).
    + intros i Hi. cbn [map concat] in Hi. apply elem_of_app in Hi as [Hi|Hi].
      * specialize (Hrange1 i Hi). lia.
      * specialize (Hrange2 i Hi). lia.
    + cbn [map concat]. apply NoDup_app. split; [by eapply vector_holds_nodup|].
      split; [|done]. intros i Hi Hi'.
      specialize (Hrange1 i Hi). specialize (Hrange2 i Hi'). lia.
    + by eapply grows_trans.
Qed.

Lemma chunk_stored_range ts seg cm columns :
  chunk_stored ts seg cm columns ->
  forall i, i ∈ concat (map sv_nodes columns) -> i < length (vector_data seg).
Proof.
  intros [_ Hcolumns] i Hi.
  apply elem_of_concat in Hi as (nodes & Hi & Hnodes).
  apply list_elem_of_fmap in Hnodes as (column & -> & Hcolumn).
  apply list_elem_of_lookup in Hcolumn as [j Hj].
  destruct (Forall2_lookup_r _ _ _ _ _ Hcolumns Hj) as (t & _ & Hholds & _).
  by apply (vector_holds_range seg _ _ _ _ Hholds).
Qed.

Lemma stores_plain_range ts seg chunks :
  stores_plain ts seg chunks ->
  forall i, i ∈ concat (map sv_nodes (concat chunks)) -> i < length (vector_data seg).
Proof.
  intros (_ & _ & Hchunks & _) i Hi.
  apply elem_of_concat in Hi as (nodes & Hi & Hnodes).
  apply list_elem_of_fmap in Hnodes as (column & -> & Hcolumn).
  apply elem_of_concat in Hcolumn as (columns & Hcolumn & Hcolumns).
  apply list_elem_of_lookup in Hcolumns as [k Hk].
  destruct (Forall2_lookup_r _ _ _ _ _ Hchunks Hk) as (cm & _ & Hcm).
  apply (chunk_stored_range ts seg cm columns Hcm).
  apply elem_of_concat. exists (sv_nodes column). split; [done|].
  by apply list_elem_of_fmap_2.
Qed.

Lemma chunk_stored_frame ts seg seg' cm columns :
  wf_segment seg ->
  retains (concat (map sv_nodes columns)) seg seg' ->
  chunk_stored ts seg cm columns -> chunk_stored ts seg' cm columns.
Proof.
  intros Hwf Hretains [Hroots Hcolumns]. split; [done|].
  apply Forall2_same_length_lookup_2; [by eapply Forall2_length|].
  intros j t column Ht Hcolumn.
  destruct (Forall2_lookup_lr _ _ _ _ _ _ Hcolumns Ht Hcolumn) as [Hholds Hlen].
  split; [|done]. apply (vector_holds_frame seg seg' Hwf _ _ _ _ Hholds).
  apply (retains_subset _ _ _ _ Hretains). intros i Hi.
  apply elem_of_concat. exists (sv_nodes column). split; [done|].
  apply list_elem_of_fmap_2. by eapply list_elem_of_lookup_2.
Qed.

(** The chunks of a segment are stored wherever their descriptors are
    kept. *)
Lemma chunks_stored_frame ts seg seg' cms chunks :
  wf_segment seg ->
  retains (concat (map sv_nodes (concat chunks))) seg seg' ->
  Forall2 (chunk_stored ts seg) cms chunks -> Forall2 (chunk_stored ts seg') cms chunks.
Proof.
  intros Hwf Hretains Hchunks.
  apply Forall2_same_length_lookup_2; [by eapply Forall2_length|].
  intros k cm columns Hcm Hcolumns.
  apply (chunk_stored_frame ts seg seg' cm columns Hwf).
  - apply (retains_subset _ _ _ _ Hretains). intros i Hi.
    apply elem_of_concat in Hi as (nodes & Hi & Hnodes).
    apply list_elem_of_fmap in Hnodes as (column & -> & Hcolumn).
    apply elem_of_concat. exists (sv_nodes column). split; [done|].
    apply list_elem_of_fmap_2, elem_of_concat. exists columns. split; [done|].
    by eapply list_elem_of_lookup_2.
  - by apply (Forall2_lookup_lr _ _ _ _ _ _ Hchunks Hcm Hcolumns).
Qed.

(** [AllocateNewChunk] on a segment of a plain schema adds a chunk without
    rows and leaves the chunks that are there as they are. *)
Lemma AllocateNewChunk_plain ts seg chunks :
  Forall (fun t => plain t = true) ts -> stores_plain ts seg chunks ->
  exists seg' columns,
    AllocateNewChunk seg = (Ok tt, seg') /\
    stores_plain ts seg' (chunks ++ [columns]) /\
    Forall (fun column => sv_values column = []) columns /\
    length columns = length ts /\
    seg_count seg' = seg_count seg.
Proof.
  intros Hplain Hstores.
  pose proof Hstores as (Hwf & Htypes & Hchunks & Hnodup).
  destruct (allocate_columns_plain ts Hplain seg Hwf)
    as (columns & seg1 & E & Hwf1 & Hcolumns & Hrange & Hnodup1 & Hgrows).
  unfold AllocateNewChunk.
  rewrite (bind_returns _ _ seg (seg_types seg) seg) by done.
  rewrite Htypes, (bind_returns _ _ seg _ seg1 E).
  eexists _, columns. split; [reflexivity|].
  set (seg' := with_chunk_data _ seg1).
  pose proof Hgrows as (_ & _ & _ & Hheap1 & Hchunks1 & Htypes1 & Hcount1).
  assert (wf_segment seg') as Hwf'.
  { destruct Hwf1 as [? ? ?]. by constructor. }
  assert (retains (concat (map sv_nodes columns)) seg1 seg') as Hretains1.
  { split; [done|]. split; done. }
  split; [|split; [|split; [by rewrite <- (Forall2_length _ _ _ Hcolumns)|done]]].
  - split; [done|]. split; [by rewrite <- Htypes|]. split.
    + subst seg'. simpl. rewrite Hchunks1. apply Forall2_app.
      * apply (chunks_stored_frame ts seg1 _ _ _ Hwf1); [split; [done|split; done]|].
        apply (chunks_stored_frame ts seg seg1 _ _ Hwf); [|done].
        apply (grows_retains _ _ _ Hgrows).
        apply (stores_plain_range ts seg chunks Hstores).
      * constructor; [|constructor]. split; [done|]. simpl.
        eapply Forall2_impl; [exact Hcolumns|]. intros t column [Hholds Hempty].
        split; [|by rewrite Hempty].
        apply (vector_holds_frame seg1 _ Hwf1 _ _ _ _ Hholds). split; [done|split; done].
    + rewrite concat_app, map_app, concat_app. simpl. rewrite !app_nil_r.
      apply NoDup_app. split; [done|]. split; [|done].
      intros i Hi Hi'. apply (stores_plain_range ts seg chunks Hstores) in Hi.
      specialize (Hrange i Hi'). lia.
  - apply Forall_lookup. intros j column Hj.
    by destruct (Forall2_lookup_r _ _ _ _ _ Hcolumns Hj) as (t & _ & _ & ?).
Qed.

(** *** The append loop on a plain schema *)

Lemma stored_column_app c chunks1 chunks2 :
  stored_column c (chunks1 ++ chunks2) = stored_column c chunks1 ++ stored_column c chunks2.
Proof. unfold stored_column. by rewrite map_app, concat_app. Qed.

Lemma stored_column_snoc c chunks columns :
  stored_column c (chunks ++ [columns]) =
  stored_column c chunks ++ default [] (sv_values <$> columns !! c).
Proof. rewrite stored_column_app. unfold stored_column at 2. simpl. by rewrite app_nil_r. Qed.

Lemma plain_window_length memory ts data j offset amount t source :
  ts !! j = Some t -> data !! j = Some source ->
  length (plain_window memory ts data j offset amount) = amount.
Proof. intros Et Es. unfold plain_window. by rewrite Et, Es, length_map, length_seq. Qed.

Lemma plain_window_app memory ts data j offset a b :
  plain_window memory ts data j offset (a + b) =
  plain_window memory ts data j offset a ++ plain_window memory ts data j (offset + a) b.
Proof.
  unfold plain_window. destruct (ts !! j); [|done]. destruct (data !! j); [|done].
  by rewrite seq_app, map_app.
Qed.

Lemma plain_window_nil memory ts data j offset :
  plain_window memory ts data j offset 0 = [].
Proof. unfold plain_window. destruct (ts !! j); [|done]. by destruct (data !! j). Qed.

Lemma extend_all_nodes (more : nat -> list Value) columns :
  map sv_nodes (imap (fun j column => extend column (more j)) columns) = map sv_nodes columns /\
  map sv_root (imap (fun j column => extend column (more j)) columns) = map sv_root columns.
Proof.
  split; apply list_eq; intros i.
  - change (map sv_nodes) with (fmap (M := list) sv_nodes).
    rewrite !list_lookup_fmap, list_lookup_imap. by destruct (columns !! i).
  - change (map sv_root) with (fmap (M := list) sv_root).
    rewrite !list_lookup_fmap, list_lookup_imap. by destruct (columns !! i).
Qed.

Lemma stores_plain_last ts seg chunks columns :
  stores_plain ts seg (chunks ++ [columns]) ->
  exists cms cm,
    chunk_data seg = cms ++ [cm] /\
    Forall2 (chunk_stored ts seg) cms chunks /\
    chunk_stored ts seg cm columns /\
    NoDup (concat (map sv_nodes columns)) /\
    (forall i, i ∈ concat (map sv_nodes (concat chunks)) ->
               i ∉ concat (map sv_nodes columns)).
Proof.
  intros (_ & _ & Hchunks & Hnodup).
  apply Forall2_app_inv_r in Hchunks as (cms & last_cm & Hcms & Hlast & Echunks).
  inversion Hlast as [|cm ? rest ? Hcm Hrest]; subst. inversion Hrest; subst.
  exists cms, cm. split; [done|]. split; [done|]. split; [done|].
  rewrite concat_app, map_app, concat_app in Hnodup. simpl in Hnodup.
  rewrite !app_nil_r in Hnodup. apply NoDup_app in Hnodup as (_ & Hdisjoint & Hcm').
  done.
Qed.

(** One turn of the append loop that writes [amount] rows. *)
Lemma append_turn_plain ts functions formats data size memory seg chunks columns cm
    offset amount :
  plain_ready ts functions formats data size ->
  stores_plain ts seg (chunks ++ [columns]) ->
  last (chunk_data seg) = Some cm ->
  0 < amount -> offset + amount <= size ->
  cm_count cm + amount <= STANDARD_VECTOR_SIZE ->
  exists seg',
    bind (append_columns (length ts) 0 functions memory (cm_vector_data cm) formats data
            offset amount)
         (fun _ => modifying (fun seg =>
            with_chunk_data
              (alter (add_chunk_count amount) (length (chunk_data seg) - 1)) seg)) seg
    = (Ok tt, seg') /\
    stores_plain ts seg'
      (chunks ++
       [imap (fun j column => extend column (plain_window memory ts data j offset amount))
          columns]) /\
    last (chunk_data seg') = Some (add_chunk_count amount cm) /\
    seg_count seg' = seg_count seg.
Proof.
  intros Hready Hstores Hlast Hamount Hwindow Hfit.
  destruct (stores_plain_last ts seg chunks columns Hstores)
    as (cms & cm' & Echunks & Hcms & [Hroots Hcolumns] & Hnodup & Hdisjoint).
  rewrite Echunks, last_snoc in Hlast. injection Hlast as ->.
  destruct Hstores as (Hwf & Htypes & _ & Hnodup_all).
  destruct (append_columns_plain ts functions formats data size memory offset amount
              Hready Hamount Hwindow (length ts) 0 seg columns eq_refl Hwf)
    as (seg1 & E & Hwf1 & Hcolumns1 & Hchanges1); [| done | |].
  { eapply Forall2_impl; [exact Hcolumns|]. by intros t column [? _]. }
  { intros j column _ Hj.
    destruct (Forall2_lookup_r _ _ _ _ _ Hcolumns Hj) as (t & _ & _ & ->). done. }
  rewrite <- Hroots in E. unfold bind at 1. rewrite E. unfold modifying.
  eexists. split; [reflexivity|].
  set (seg' := with_chunk_data _ seg1).
  pose proof Hchanges1 as (Hchunks1 & Htypes1 & Hcount1 & _).
  assert (chunk_data seg' = cms ++ [add_chunk_count amount cm]) as Echunks'.
  { subst seg'. simpl. by rewrite Hchunks1, Echunks, alter_last. }
  replace (imap _ columns) with
    (imap (fun j column => extend column (plain_window memory ts data j offset amount))
       columns) in Hcolumns1 by (by apply imap_ext).
  set (columns' := imap _ columns) in *.
  destruct (extend_all_nodes (fun j => plain_window memory ts data j offset amount) columns)
    as [Enodes Eroots].
  fold columns' in Enodes, Eroots.
  assert (wf_segment seg') as Hwf'.
  { destruct Hwf1 as [? ? ?]. by constructor. }
  split; [|split; [by rewrite Echunks', last_snoc|done]].
  split; [done|]. split; [by rewrite <- Htypes1 in Htypes|]. split.
  - rewrite Echunks'. apply Forall2_app.
    + apply (chunks_stored_frame ts seg1 _ _ _ Hwf1); [split; [done|split; done]|].
      apply (chunks_stored_frame ts seg seg1 _ _ Hwf); [|done].
      apply (changes_retains _ _ _ _ Hchanges1). exact Hdisjoint.
    + constructor; [|constructor]. split; [by rewrite Eroots|]. simpl.
      apply Forall2_same_length_lookup_2; [by eapply Forall2_length|].
      intros j t column' Ht Hcolumn'.
      pose proof (Forall2_lookup_lr _ _ _ _ _ _ Hcolumns1 Ht Hcolumn') as Hholds.
      split.
      { apply (vector_holds_frame seg1 seg' Hwf1 _ _ _ _ Hholds). split; [done|split; done]. }
      subst columns'. rewrite list_lookup_imap in Hcolumn'.
      destruct (columns !! j) as [column|] eqn:Hcolumn; [|done].
      injection Hcolumn' as <-. simpl. rewrite length_app.
      destruct (Forall2_lookup_lr _ _ _ _ _ _ Hcolumns Ht Hcolumn) as [_ ->].
      destruct (Hready j t Ht) as (f & source & _ & _ & _ & Hsource & _).
      by rewrite (plain_window_length _ _ _ _ _ _ t source).
  - rewrite concat_app, map_app, concat_app. simpl. rewrite !app_nil_r, Enodes.
    rewrite concat_app, map_app, concat_app in Hnodup_all. simpl in Hnodup_all.
    by rewrite !app_nil_r in Hnodup_all.
Qed.

(** The append loop on a segment of a plain schema returns, and behind the
    values that every column held it leaves the values of the rows that
    remained, in order. *)
Lemma Append_loop_plain ts functions formats data size memory :
  0 < STANDARD_VECTOR_SIZE ->
  Forall (fun t => plain t = true) ts ->
  plain_ready ts functions formats data size ->
  forall fuel remaining seg chunks columns cm,
    remaining <= size ->
    stores_plain ts seg (chunks ++ [columns]) ->
    last (chunk_data seg) = Some cm ->
    remaining + (if cm_count cm <? STANDARD_VECTOR_SIZE then 0 else 1) <= fuel ->
    exists seg' chunks' columns',
      Append_loop fuel (length ts) functions memory formats data size remaining seg
      = (Ok tt, seg') /\
      stores_plain ts seg' (chunks' ++ [columns']) /\
      seg_count seg' = seg_count seg /\
      forall c, c < length ts ->
        stored_column c (chunks' ++ [columns']) =
        stored_column c (chunks ++ [columns])
        ++ plain_window memory ts data c (size - remaining) remaining.
Proof.
  intros Hpos Hplain Hready fuel.
  induction fuel as [|fuel IH];
    intros remaining seg chunks columns cm Hremaining Hstores Hlast Hfuel.
  { assert (remaining = 0) as -> by lia.
    exists seg, chunks, columns. split; [done|]. split; [done|]. split; [done|].
    intros c _. by rewrite plain_window_nil, app_nil_r. }
  destruct (Nat.eqb_spec remaining 0) as [->|Hne].
  { exists seg, chunks, columns. split; [done|]. split; [done|]. split; [done|].
    intros c _. by rewrite plain_window_nil, app_nil_r. }
  cbn [Append_loop]. destruct (Nat.eqb_spec remaining 0) as [?|_]; [done|].
  destruct (stores_plain_last ts seg chunks columns Hstores)
    as (cms & cm' & Echunks & _ & [_ Hcolumns] & _).
  pose proof Hlast as Hlast'. rewrite Echunks, last_snoc in Hlast'. injection Hlast' as ->.
  unfold bind at 1, reading at 1. rewrite Echunks, last_snoc.
  set (amount := min remaining (STANDARD_VECTOR_SIZE - cm_count cm)).
  assert (forall seg1 chunks1 columns1,
            stores_plain ts seg1 (chunks1 ++ [columns1]) ->
            last (chunk_data seg1) = Some (add_chunk_count amount cm) ->
            seg_count seg1 = seg_count seg ->
            (forall c, c < length ts ->
               stored_column c (chunks1 ++ [columns1]) =
               stored_column c (chunks ++ [columns])
               ++ plain_window memory ts data c (size - remaining) amount) ->
            exists seg' chunks' columns',
              (if 0 <? remaining - amount
               then bind AllocateNewChunk (fun _ =>
                      Append_loop fuel (length ts) functions memory formats data size
                        (remaining - amount))
               else ret tt) seg1 = (Ok tt, seg') /\
              stores_plain ts seg' (chunks' ++ [columns']) /\
              seg_count seg' = seg_count seg /\
              forall c, c < length ts ->
                stored_column c (chunks' ++ [columns']) =
                stored_column c (chunks ++ [columns])
                ++ plain_window memory ts data c (size - remaining) remaining) as Hrest.
  { intros seg1 chunks1 columns1 Hstores1 Hlast1 Hcount1 Hvalues1.
    destruct (Nat.ltb_spec 0 (remaining - amount)) as [Hmore|Hdone].
    - destruct (AllocateNewChunk_plain ts seg1 (chunks1 ++ [columns1]) Hplain Hstores1)
        as (seg2 & columns2 & E2 & Hstores2 & Hempty2 & Hlen2 & Hcount2).
      unfold bind at 1. rewrite E2.
      destruct (stores_plain_last ts seg2 _ columns2 Hstores2)
        as (cms2 & cm2 & Echunks2 & _ & _ & _).
      assert (cm_count cm2 = 0) as Hzero.
      { revert E2 Echunks2. unfold AllocateNewChunk, bind, reading, modifying.
        destruct (allocate_columns _ seg1) as [[roots| |] seg1']; try discriminate.
        intros [= <-]. simpl. intros Happ. apply app_inj_tail in Happ as [_ <-]. done. }
      destruct (IH (remaining - amount) seg2 _ columns2 cm2 ltac:(lia) Hstores2)
        as (seg' & chunks' & columns' & E & Hstores' & Hcount' & Hvalues').
      { by rewrite Echunks2, last_snoc. }
      { rewrite Hzero. destruct (Nat.ltb_spec 0 STANDARD_VECTOR_SIZE); [|lia].
        subst amount.
        destruct (Nat.ltb_spec (cm_count cm) STANDARD_VECTOR_SIZE); lia. }
      exists seg', chunks', columns'. split; [done|]. split; [done|]. split; [congruence|].
      intros c Hc. rewrite (Hvalues' c Hc), stored_column_snoc.
      rewrite (Hvalues1 c Hc).
      assert (default [] (sv_values <$> columns2 !! c) = []) as ->.
      { destruct (columns2 !! c) as [column|] eqn:Ecolumn; [|done]. simpl.
        apply (Forall_lookup_1 _ _ _ _ Hempty2 Ecolumn). }
      rewrite app_nil_r, <- app_assoc. f_equal.
      replace (plain_window memory ts data c (size - remaining) remaining)
        with (plain_window memory ts data c (size - remaining)
                (amount + (remaining - amount))) by (f_equal; lia).
      rewrite plain_window_app. do 2 f_equal. lia.
    - exists seg1, chunks1, columns1. split; [done|]. split; [done|]. split; [done|].
      intros c Hc. rewrite (Hvalues1 c Hc). do 2 f_equal. lia. }
  destruct (Nat.ltb_spec 0 amount) as [Hamount|Hzero].
  - destruct (append_turn_plain ts functions formats data size memory seg chunks columns cm
                (size - remaining) amount Hready Hstores Hlast Hamount ltac:(lia)
                ltac:(lia))
      as (seg1 & E1 & Hstores1 & Hlast1 & Hcount1).
    unfold bind at 1. rewrite E1.
    apply (Hrest seg1 _ _ Hstores1 Hlast1 Hcount1).
    intros c Hc. rewrite !stored_column_snoc. rewrite list_lookup_imap.
    destruct (lookup_lt_is_Some_2 columns c) as [column ->].
    { by rewrite <- (Forall2_length _ _ _ Hcolumns). }
    simpl. by rewrite app_assoc.
  - unfold bind at 1, ret at 1.
    assert (amount = 0) as Ezero by lia.
    apply (Hrest seg chunks columns Hstores); [|done|].
    + rewrite Hlast, Ezero. f_equal. destruct cm. unfold add_chunk_count. simpl.
      f_equal. lia.
    + intros c _. rewrite Ezero. by rewrite plain_window_nil, app_nil_r.
Qed.

(** *** What is stored is what is scanned *)

Lemma read_plain_columns seg ts columns :
  wf_segment seg ->
  Forall2 (fun t column =>
             vector_holds seg t (sv_root column) (sv_nodes column) (sv_values column))
    ts columns ->
  zip_with (fun t i => read_vector t seg i) ts (map sv_root columns) = map sv_values columns.
Proof.
  intros Hwf. induction 1 as [|t column ts columns Hholds _ IH]; [done|].
  simpl. by rewrite IH, (vector_holds_read seg Hwf _ _ _ _ Hholds).
Qed.

(** A scan of all columns reads the chunks that the segment stores. *)
Lemma stores_plain_scanned ts seg chunks :
  stores_plain ts seg chunks ->
  segment_chunks (seq 0 (length ts)) (Some seg) = zip_with scanned (chunk_data seg) chunks.
Proof.
  intros (Hwf & Htypes & Hchunks & _). unfold segment_chunks.
  apply list_eq. intros k. rewrite list_lookup_fmap, lookup_zip_with.
  destruct (chunk_data seg !! k) as [cm|] eqn:Hk.
  - rewrite lookup_seq_lt by (by eapply lookup_lt_Some). simpl.
    destruct (Forall2_lookup_l _ _ _ _ _ Hchunks Hk) as (columns & -> & Hroots & Hcolumns).
    simpl. f_equal. unfold ReadChunk. rewrite Hk.
    assert (omap (fun c => seg_types seg !! c) (seq 0 (length ts)) = ts) as ->.
    { rewrite Htypes. apply (omap_lookup_seq ts []). }
    assert (omap (fun c => cm_vector_data cm !! c) (seq 0 (length ts)) = cm_vector_data cm)
      as ->.
    { replace (length ts) with (length (cm_vector_data cm)).
      - apply (omap_lookup_seq (cm_vector_data cm) []).
      - by rewrite Hroots, length_map, (Forall2_length _ _ _ Hcolumns). }
    rewrite Hroots, (read_plain_columns seg ts columns Hwf); [done|].
    eapply Forall2_impl; [exact Hcolumns|]. by intros t column [? _].
  - rewrite lookup_seq_ge by (by apply lookup_ge_None). done.
Qed.

Lemma scanned_stored_column c cms chunks :
  length cms = length chunks ->
  column_of c (zip_with scanned cms chunks) = stored_column c chunks.
Proof.
  revert chunks. induction cms as [|cm cms IH]; intros [|columns chunks] Hlen;
    try done.
  unfold column_of, stored_column in *. cbn [zip_with map concat].
  rewrite IH by (simpl in Hlen; lia). f_equal. simpl.
  change (map sv_values columns) with (sv_values <$> columns).
  rewrite list_lookup_fmap. by destruct (columns !! c).
Qed.

Lemma stores_plain_column ts seg chunks c :
  stores_plain ts seg chunks ->
  column_of c (segment_chunks (seq 0 (length ts)) (Some seg)) = stored_column c chunks.
Proof.
  intros Hstores. rewrite (stores_plain_scanned ts seg chunks Hstores).
  apply scanned_stored_column. destruct Hstores as (_ & _ & Hchunks & _).
  by eapply Forall2_length.
Qed.

Lemma column_values_plain this pre seg chunks c :
  segments this = pre ++ [Some seg] -> stores_plain (types this) seg chunks ->
  column_values this c =
  column_of c (concat (map (segment_chunks (seq 0 (length (types this)))) pre))
  ++ stored_column c chunks.
Proof.
  intros Hpre Hstores. unfold column_values, scanned_chunks, ColumnCount.
  rewrite Hpre, map_app, concat_app, column_of_app. cbn [map concat].
  by rewrite app_nil_r, (stores_plain_column _ _ _ c Hstores).
Qed.

Lemma stores_plain_with_seg_count ts n seg chunks :
  stores_plain ts seg chunks -> stores_plain ts (with_seg_count n seg) chunks.
Proof.
  intros (Hwf & ? & Hchunks & ?). split; [by destruct Hwf as [? ? ?]; constructor|].
  split; [done|]. split; [|done].
  apply (chunks_stored_frame ts seg _ _ _ Hwf); [|done]. split; [done|split; done].
Qed.

Lemma stores_plain_new_segment ts : stores_plain ts (new_segment ts) [].
Proof.
  split; [apply wf_new_segment|]. split; [done|]. split; [constructor|]. simpl.
  constructor.
Qed.

Lemma stores_plain_snoc ts seg chunks :
  stores_plain ts seg chunks -> chunk_data seg <> [] ->
  exists chunks' columns, chunks = chunks' ++ [columns].
Proof.
  intros (_ & _ & Hchunks & _) Hne.
  destruct chunks as [|columns chunks] using rev_ind; [|eauto].
  inversion Hchunks; congruence.
Qed.

(** *** [InitializeAppend] and [Append] on a plain collection *)

(** The segment has a chunk after [InitializeAppend], and holds what it
    held. *)
Lemma ensure_chunk_plain ts seg chunks :
  Forall (fun t => plain t = true) ts -> stores_plain ts seg chunks ->
  exists seg' chunks' columns,
    bind (reading (fun seg => Ok (chunk_data seg)))
      (fun chunks => if bool_decide (chunks = []) then AllocateNewChunk else ret tt) seg
    = (Ok tt, seg') /\
    stores_plain ts seg' (chunks' ++ [columns]) /\
    forall c, stored_column c (chunks' ++ [columns]) = stored_column c chunks.
Proof.
  intros Hplain Hstores. unfold bind at 1, reading at 1.
  case_bool_decide as Hempty.
  - destruct (AllocateNewChunk_plain ts seg chunks Hplain Hstores)
      as (seg' & columns & E & Hstores' & Hvalues & _).
    exists seg', chunks, columns. split; [done|]. split; [done|].
    intros c. rewrite stored_column_snoc.
    destruct (columns !! c) as [column|] eqn:Ecolumn; simpl; [|apply app_nil_r].
    rewrite (Forall_lookup_1 _ _ _ _ Hvalues Ecolumn). apply app_nil_r.
  - destruct (stores_plain_snoc ts seg chunks Hstores Hempty) as (chunks' & columns & ->).
    by exists seg, chunks', columns.
Qed.

Lemma plain_stored_last this s :
  plain_stored this -> last (segments this) = Some s ->
  exists pre seg chunks,
    s = Some seg /\ segments this = pre ++ [Some seg] /\
    stores_plain (types this) seg chunks /\
    Forall (fun s => exists seg chunks, s = Some seg /\ stores_plain (types this) seg chunks)
      pre.
Proof.
  intros (_ & _ & _ & Hsegs) Hlast. apply last_Some_app in Hlast as [pre Hpre].
  rewrite Hpre in Hsegs. apply Forall_app in Hsegs as [Hpre_ok Hlast].
  apply Forall_cons in Hlast as [(seg & chunks & -> & Hstores) _].
  by exists pre, seg, chunks.
Qed.

Lemma InitializeAppend_plain this state :
  plain_stored this ->
  exists this1 pre seg chunks columns,
    InitializeAppend this state =
      (Ok tt, this1,
       {| as_vector_data :=
            resize (length (types this)) default_format (as_vector_data state) |}) /\
    plain_stored this1 /\
    types this1 = types this /\ count this1 = count this /\
    segments this1 = pre ++ [Some seg] /\
    stores_plain (types this) seg (chunks ++ [columns]) /\
    forall c, column_values this1 c = column_values this c.
Proof.
  intros Hstored. pose proof Hstored as (Hplain & Hfin & Hfun & Hsegs).
  unfold InitializeAppend, D_ASSERT. rewrite Hfin. simpl.
  set (m := bind _ _).
  assert (exists this0 pre seg chunks,
            (if bool_decide (segments this = []) then CreateSegment this else this) = this0 /\
            segments this0 = pre ++ [Some seg] /\
            stores_plain (types this) seg chunks /\
            Forall (fun s => exists seg chunks,
                      s = Some seg /\ stores_plain (types this) seg chunks) pre /\
            types this0 = types this /\ count this0 = count this /\
            copy_functions this0 = copy_functions this /\
            finished_append this0 = finished_append this /\
            forall c, column_of c
                        (concat (map (segment_chunks (seq 0 (length (types this)))) pre))
                      ++ stored_column c chunks = column_values this c)
    as (this0 & pre & seg & chunks & -> & Hpre & Hstores & Hpre_ok & Htypes0 & Hcount0 &
        Hfun0 & Hfin0 & Hvalues0).
  { case_bool_decide as Hempty.
    - exists (CreateSegment this), [], (new_segment (types this)), [].
      split; [done|]. split; [simpl; by rewrite Hempty|].
      split; [apply stores_plain_new_segment|]. split; [constructor|].
      repeat (split; [done|]). intros c.
      unfold column_values, scanned_chunks. by rewrite Hempty.
    - destruct (last (segments this)) as [s|] eqn:Hlast;
        [|by apply last_None in Hlast].
      destruct (plain_stored_last this s Hstored Hlast)
        as (pre & seg & chunks & -> & Hpre & Hstores & Hpre_ok).
      exists this, pre, seg, chunks. repeat (split; [done|]).
      intros c. by rewrite (column_values_plain this pre seg chunks c Hpre Hstores). }
  destruct (ensure_chunk_plain _ seg chunks Hplain Hstores)
    as (seg' & chunks' & columns & E & Hstores' & Hvalues').
  fold m in E.
  destruct (on_back_segment_last m this0 seg (Ok tt) seg'
              ltac:(by rewrite Hpre, last_snoc) E)
    as (this1 & -> & _ & Hpre1 & Hcount1 & Htypes1 & Hfun1 & Hfin1 & _).
  specialize (Hpre1 pre Hpre).
  exists this1, pre, seg', chunks', columns. split; [done|].
  assert (plain_stored this1) as Hstored1.
  { split; [by rewrite Htypes1, Htypes0|]. split; [congruence|].
    split; [by rewrite Htypes1, Htypes0, Hfun1, Hfun0|].
    rewrite Hpre1, Htypes1, Htypes0. apply Forall_app. split; [done|].
    constructor; [|constructor]. eauto. }
  split; [done|]. split; [congruence|]. split; [congruence|]. split; [done|].
  split; [done|]. intros c.
  rewrite (column_values_plain this1 pre seg' (chunks' ++ [columns]) c); try done.
  - rewrite Htypes1, Htypes0, Hvalues'. apply Hvalues0.
  - by rewrite Htypes1, Htypes0.
Qed.

Lemma plain_chunk_types ts input : plain_chunk ts input -> GetTypes input = ts.
Proof.
  unfold plain_chunk, GetTypes.
  induction 1 as [|t v ts data Hv _ IH]; [done|].
  simpl. by rewrite (vector_typed_type _ _ _ Hv), IH.
Qed.

(** The first loop of [Append] on a chunk of a plain schema: the struct
    vectors are flattened, which leaves their values as they are. *)
Lemma unify_columns_plain ts size memory :
  forall n vector_idx data formats,
    Forall2 (vector_typed size) ts data ->
    vector_idx + n = length ts -> length ts <= length formats ->
    (forall j v, j < vector_idx -> data !! j = Some v ->
                 formats !! j = Some (VectorFormat v)) ->
    exists data' formats',
      unify_columns n vector_idx
        {| dc_data := data; dc_size := size; dc_strings := memory |} formats
      = Ok (data', formats') /\
      Forall2 (vector_typed size) ts data' /\
      (forall j v, j < length ts -> data' !! j = Some v ->
                   formats' !! j = Some (VectorFormat v)) /\
      forall c,
        chunk_column {| dc_data := data'; dc_size := size; dc_strings := memory |} c =
        chunk_column {| dc_data := data; dc_size := size; dc_strings := memory |} c.
Proof.
  induction n as [|n IH]; intros vector_idx data formats Htyped Hend Hlen Hdone.
  - exists data, formats. split; [done|]. split; [done|]. split; [|done].
    intros j v Hj. apply Hdone. lia.
  - pose proof (Forall2_length _ _ _ Htyped) as Hdata.
    destruct (lookup_lt_is_Some_2 data vector_idx) as [v Hv]; [lia|].
    destruct (Forall2_lookup_r _ _ _ _ _ Htyped Hv) as (t & Ht & Hvt).
    cbn [unify_columns dc_data dc_size dc_strings]. rewrite Hv.
    set (v' := if IsComplexType (GetType v) then Flatten size v else v).
    assert (vector_typed size t v') as Hvt'.
    { subst v'. destruct (IsComplexType _); [by apply vector_typed_Flatten|done]. }
    assert (forall k, vector_value memory (GetType v') v' k =
                      vector_value memory (GetType v) v k) as Hvalue.
    { intros k. subst v'. destruct (IsComplexType _); [|done].
      rewrite vector_value_Flatten. by destruct v. }
    rewrite bool_decide_true by lia.
    destruct (IH (S vector_idx) (<[vector_idx := v']> data)
                (<[vector_idx := ToUnifiedFormat size v']> formats))
      as (data' & formats' & E & Htyped' & Hformats' & Hcolumns').
    { apply Forall2_same_length_lookup_2; [by rewrite length_insert|].
      intros j tj vj Htj Hvj. destruct (decide (j = vector_idx)) as [->|Hne].
      - rewrite list_lookup_insert_eq in Hvj by lia. injection Hvj as <-.
        rewrite Ht in Htj. by injection Htj as <-.
      - rewrite list_lookup_insert_ne in Hvj by done.
        by apply (Forall2_lookup_lr _ _ _ _ _ _ Htyped Htj Hvj). }
    { lia. }
    { by rewrite length_insert. }
    { intros j w Hj Hw. destruct (decide (j = vector_idx)) as [->|Hne].
      - rewrite list_lookup_insert_eq in Hw by lia. injection Hw as <-.
        by rewrite list_lookup_insert_eq by lia.
      - rewrite list_lookup_insert_ne in Hw by done.
        rewrite list_lookup_insert_ne by done. apply Hdone; [lia|done]. }
    exists data', formats'. split; [done|]. split; [done|]. split; [done|].
    intros c. rewrite Hcolumns'. unfold chunk_column. simpl.
    destruct (decide (c = vector_idx)) as [->|Hne].
    + rewrite list_lookup_insert_eq by lia. rewrite Hv. by apply map_ext.
    + by rewrite list_lookup_insert_ne by done.
Qed.

Lemma plain_ready_unified ts functions formats data size :
  Forall2 (vector_typed size) ts data ->
  Forall2 (fun t f => GetCopyFunction t = Ok f) ts functions ->
  (forall j v, j < length ts -> data !! j = Some v ->
               formats !! j = Some (VectorFormat v)) ->
  plain_ready ts functions formats data size.
Proof.
  intros Htyped Hfun Hformats j t Ht.
  destruct (Forall2_lookup_l _ _ _ _ _ Hfun Ht) as (f & Hf & Hcopy).
  destruct (Forall2_lookup_l _ _ _ _ _ Htyped Ht) as (v & Hv & Hvt).
  exists f, v. repeat (split; [done|]).
  split; [|done]. apply Hformats; [by eapply lookup_lt_Some|done].
Qed.

Lemma Append_plain this state input pre seg chunks columns :
  0 < STANDARD_VECTOR_SIZE ->
  plain_stored this ->
  segments this = pre ++ [Some seg] ->
  stores_plain (types this) seg (chunks ++ [columns]) ->
  plain_chunk (types this) input ->
  length (types this) <= length (as_vector_data state) ->
  exists this' state',
    Append this state input = (Ok tt, this', state') /\
    plain_stored this' /\
    types this' = types this /\ count this' = count this + dc_size input /\
    forall c, c < length (types this) ->
      column_values this' c = column_values this c ++ chunk_column input c.
Proof.
  intros Hpos Hstored Hpre Hstores Htyped Hstate.
  pose proof Hstored as (Hplain & Hfin & Hfun & Hsegs).
  unfold Append, D_ASSERT. rewrite Hfin. simpl.
  rewrite (proj2 (types_eqb_eq _ _) (eq_sym (plain_chunk_types _ _ Htyped))).
  destruct input as [data size memory]. unfold plain_chunk in Htyped.
  cbn [dc_data dc_size dc_strings] in *.
  destruct (unify_columns_plain (types this) size memory (length (types this)) 0 data
              (as_vector_data state) Htyped eq_refl Hstate ltac:(intros; lia))
    as (data' & formats & -> & Htyped' & Hformats & Hcolumns).
  pose proof (plain_ready_unified _ _ _ _ _ Htyped' Hfun Hformats) as Hready.
  destruct (stores_plain_last _ seg chunks columns Hstores) as (cms & cm & Echunks & _).
  destruct (Append_loop_plain (types this) (copy_functions this) formats data' size memory
              Hpos Hplain Hready (size + 1) size seg chunks columns cm (le_n _) Hstores)
    as (seg' & chunks' & columns' & Eloop & Hstores' & Hcount' & Hvalues').
  { by rewrite Echunks, last_snoc. }
  { destruct (_ <? _); lia. }
  set (m := bind _ _).
  assert (m seg = (Ok tt, with_seg_count (seg_count seg' + size) seg')) as E.
  { subst m. unfold bind. by rewrite Eloop. }
  destruct (on_back_segment_last m this seg (Ok tt) _ ltac:(by rewrite Hpre, last_snoc) E)
    as (this1 & -> & _ & Hpre1 & Hcount1 & Htypes1 & Hfun1 & Hfin1 & _).
  specialize (Hpre1 pre Hpre).
  eexists _, _. split; [reflexivity|].
  apply (stores_plain_with_seg_count _ (seg_count seg' + size)) in Hstores'.
  rewrite Hpre in Hsegs. apply Forall_app in Hsegs as [Hpre_ok _].
  assert (plain_stored (with_count (count this1 + size) this1)) as Hstored1.
  { split; [simpl; by rewrite Htypes1|]. split; [simpl; congruence|].
    split; [simpl; by rewrite Htypes1, Hfun1|].
    simpl. rewrite Hpre1, Htypes1. apply Forall_app. split; [done|].
    constructor; [|constructor]. eauto. }
  split; [done|]. split; [done|]. split; [simpl; lia|].
  intros c Hc.
  rewrite (column_values_plain (with_count (count this1 + size) this1) pre
             (with_seg_count (seg_count seg' + size) seg') (chunks' ++ [columns']) c);
    simpl; try done.
  - rewrite Htypes1, (Hvalues' c Hc), app_assoc.
    rewrite <- (column_values_plain this pre seg (chunks ++ [columns]) c Hpre Hstores).
    f_equal. rewrite <- Hcolumns. unfold plain_window, chunk_column. rewrite Nat.sub_diag.
    simpl.
    destruct (lookup_lt_is_Some_2 (types this) c Hc) as [t Ht]. rewrite Ht.
    destruct (Forall2_lookup_l _ _ _ _ _ Htyped' Ht) as (v & -> & Hvt).
    by rewrite (vector_typed_type _ _ _ Hvt).
  - by rewrite Htypes1.
Qed.

(** [Append(DataChunk &)] on a plain collection returns; behind the values
    that every column held it leaves the values of the chunk, in order. *)
Lemma Append_chunk_plain this input :
  0 < STANDARD_VECTOR_SIZE ->
  plain_stored this -> plain_chunk (types this) input ->
  exists this',
    Append_chunk this input = (Ok tt, this') /\
    plain_stored this' /\
    types this' = types this /\ count this' = count this + dc_size input /\
    forall c, c < length (types this) ->
      column_values this' c = column_values this c ++ chunk_column input c.
Proof.
  intros Hpos Hstored Htyped. unfold Append_chunk.
  destruct (InitializeAppend_plain this {| as_vector_data := [] |} Hstored)
    as (this1 & pre & seg & chunks & columns & -> & Hstored1 & Htypes1 & Hcount1 & Hpre1 &
        Hstores1 & Hvalues1).
  rewrite <- Htypes1 in Hstores1, Htyped. cbn [as_vector_data].
  destruct (Append_plain this1
              {| as_vector_data := resize (length (types this)) default_format [] |}
              input pre seg chunks columns Hpos Hstored1 Hpre1 Hstores1 Htyped)
    as (this' & state' & -> & Hstored' & Htypes' & Hcount' & Hvalues').
  { simpl. rewrite length_resize, Htypes1. lia. }
  exists this'. split; [done|]. split; [done|]. split; [congruence|]. split; [lia|].
  intros c Hc. rewrite (Hvalues' c) by (by rewrite Htypes1). by rewrite Hvalues1.
Qed.

(** *** Construction and [Combine] of plain collections *)

Lemma plain_vector_shaped ts input :
  plain_chunk ts input -> Forall2 vector_shaped ts (dc_data input).
Proof.
  intros Htyped. eapply Forall2_impl; [exact Htyped|].
  intros t v. apply vector_typed_shaped.
Qed.

Lemma plain_history_well_typed h : plain_history h -> well_typed h.
Proof.
  induction h as [a ts|before IH input|before IH1 peer IH2]; simpl.
  - intros [Hne Hplain]. split; [done|].
    eapply Forall_impl; [exact Hplain|]. apply plain_copy_function.
  - intros [Hbefore Hinput]. split; [by apply IH|by apply plain_vector_shaped].
  - intros (Hbefore & Hpeer & Hsame). split; [by apply IH1|]. split; [by apply IH2|done].
Qed.

Lemma shared_plain allocator_p types_p this :
  Forall (fun t => plain t = true) types_p ->
  ColumnDataCollection_shared allocator_p types_p = Ok this ->
  plain_stored this /\ types this = types_p /\ segments this = [].
Proof.
  intros Hplain.
  assert (Forall (fun t => exists f, GetCopyFunction t = Ok f) types_p) as Hsupported.
  { eapply Forall_impl; [exact Hplain|]. apply plain_copy_function. }
  destruct (push_copy_functions_returns _ Hsupported []) as (fs & E & Hfs).
  unfold ColumnDataCollection_shared, Initialize, D_ASSERT.
  destruct (negb _); [|discriminate]. simpl. rewrite E. simpl.
  intros [= <-]. split; [|done]. split; [done|]. split; [done|]. split; [done|].
  simpl. constructor.
Qed.

(** The chunks that a scan of a plain collection hands out have all the
    columns of the schema, each with as many values as the chunk has rows. *)
Lemma plain_scanned_columns this :
  plain_stored this ->
  Forall (fun sc => length (sc_data sc) = ColumnCount this /\
                    Forall (fun column => length column = sc_size sc) (sc_data sc))
    (scanned_chunks this (seq 0 (ColumnCount this))).
Proof.
  intros (_ & _ & _ & Hsegs). unfold scanned_chunks, ColumnCount.
  induction Hsegs as [|s segs (seg & chunks & -> & Hstores) _ IH]; [constructor|].
  cbn [map concat]. apply Forall_app. split; [|done].
  rewrite (stores_plain_scanned _ _ _ Hstores).
  destruct Hstores as (_ & _ & Hchunks & _).
  clear -Hchunks.
  induction Hchunks as [|cm columns cms chunks [_ Hcolumns] _ IH]; [constructor|].
  cbn [zip_with]. constructor; [|done]. simpl. rewrite length_map. split.
  - symmetry. by eapply Forall2_length.
  - apply Forall_forall. intros values Hvalues.
    apply list_elem_of_fmap in Hvalues as (column & -> & Hcolumn).
    apply list_elem_of_lookup in Hcolumn as [j Hj].
    by destruct (Forall2_lookup_r _ _ _ _ _ Hcolumns Hj) as (t & _ & _ & ?).
Qed.

Lemma plain_values_empty this c :
  plain_stored this -> counted this -> count this = 0 -> column_values this c = [].
Proof.
  intros Hstored Hcounted Hzero.
  pose proof (column_of_length c (scanned_chunks this (seq 0 (ColumnCount this)))) as Hlen.
  rewrite scanned_chunks_sizes, (counted_sum this Hcounted), Hzero in Hlen.
  unfold column_values. destruct (column_of _ _); [done|].
  simpl in Hlen. assert (S (length l) <= 0); [|lia]. apply Hlen.
  eapply Forall_impl; [apply (plain_scanned_columns this Hstored)|]. by intros sc [_ ?].
Qed.

Lemma Combine_plain DEBUG this other this' other' :
  plain_stored this -> plain_stored other -> counted other ->
  types other = types this ->
  Combine DEBUG this other = (Ok tt, this', other') ->
  plain_stored this' /\ types this' = types this /\
  forall c, column_values this' c = column_values this c ++ column_values other c.
Proof.
  intros Hstored Hother Hcounted Htypes. unfold Combine.
  destruct (Nat.eqb_spec (count other) 0) as [Hzero|Hne].
  - intros [= <- <-]. split; [done|]. split; [done|]. intros c.
    by rewrite (plain_values_empty other c Hother Hcounted Hzero), app_nil_r.
  - destruct (negb _); [discriminate|]. intros [= _ <- _].
    destruct Hstored as (Hplain & Hfin & Hfun & Hsegs).
    destruct Hother as (_ & _ & _ & Hsegs').
    split; [|split; [done|]].
    + split; [done|]. split; [done|]. split; [done|]. simpl.
      apply Forall_app. split; [done|]. by rewrite <- Htypes.
    + intros c. unfold column_values, scanned_chunks, ColumnCount. simpl.
      by rewrite map_app, concat_app, column_of_app, Htypes.
Qed.

(** *** Histories over plain columns *)

Lemma replay_plain DEBUG h :
  0 < STANDARD_VECTOR_SIZE -> plain_history h ->
  exists this,
    replay DEBUG h = Some this /\
    plain_stored this /\ counted this /\ types this = history_types h /\
    forall c, c < length (history_types h) ->
      column_values this c =
      concat (map (fun input => chunk_column input c) (appended_chunks h)).
Proof.
  intros Hpos.
  induction h as [a ts|before IH input|before IH1 peer IH2]; intros Hh;
    destruct (replay_returns DEBUG _ Hpos (plain_history_well_typed _ Hh))
      as (this_r & Er & _ & Hcounted_r & Htypes_r);
    exists this_r; (split; [exact Er|]); simpl in Er, Hh, Htypes_r |- *.
  - destruct Hh as [Hne Hplain].
    destruct (ColumnDataCollection_shared a ts) as [this| |] eqn:E; try discriminate.
    injection Er as ->.
    destruct (shared_plain a ts this_r Hplain E) as (Hstored & _ & Hsegs).
    split; [done|]. split; [done|]. split; [done|].
    intros c _. unfold column_values, scanned_chunks. by rewrite Hsegs.
  - destruct Hh as [Hbefore Hinput].
    destruct (IH Hbefore) as (this & E & Hstored & _ & Htypes & Hvalues).
    rewrite E in Er. rewrite <- Htypes in Hinput.
    destruct (Append_chunk_plain this input Hpos Hstored Hinput)
      as (this' & E' & Hstored' & Htypes' & _ & Hvalues').
    rewrite E' in Er. injection Er as <-.
    split; [done|]. split; [done|]. split; [done|].
    intros c Hc. rewrite (Hvalues' c) by (by rewrite Htypes).
    rewrite (Hvalues c Hc), map_app, concat_app. simpl. by rewrite app_nil_r.
  - destruct Hh as (Hbefore & Hpeer & Hsame).
    destruct (IH1 Hbefore) as (this & E1 & Hstored & _ & Htypes & Hvalues).
    destruct (IH2 Hpeer) as (other & E2 & Hstored' & Hcounted' & Htypes' & Hvalues').
    rewrite E1, E2 in Er.
    destruct (Combine DEBUG this other) as [[r this'] other'] eqn:E.
    destruct r as [[]| |]; try discriminate. injection Er as ->.
    destruct (Combine_plain DEBUG this other this_r other' Hstored Hstored' Hcounted'
                ltac:(congruence) E) as (Hstored_r & _ & Hvalues_r).
    split; [done|]. split; [done|]. split; [done|].
    intros c Hc. rewrite (Hvalues_r c), (Hvalues c Hc), (Hvalues' c) by (by rewrite Hsame).
    by rewrite map_app, concat_app.
Qed.

(** X18. Whatever chunks are appended to collections over columns of
    structs, nested to any depth, and of flat types, and however these
    collections are combined, a scan of the result hands out, column by
    column, the values of the chunks in the order in which they were
    appended: a struct is null where its row is not valid, and the struct of
    the values of its fields at that row otherwise.  [GetRows] returns a row
    for every value, and [GetValue] on the rows reads the same values. *)
Theorem appended_structs_are_scanned (DEBUG : bool) (h : history) :
  0 < STANDARD_VECTOR_SIZE -> plain_history h ->
  exists this rows,
    replay DEBUG h = Some this /\
    Types this = history_types h /\
    GetRows this = Ok rows /\
    length rows = sum_list (map dc_size (appended_chunks h)) /\
    forall c, c < ColumnCount this ->
      column_values this c =
        concat (map (fun input => chunk_column input c) (appended_chunks h)) /\
      map (fun row => ColumnDataRow_GetValue row c) rows = map Ok (column_values this c).
Proof.
  intros Hpos Hh.
  destruct (replay_plain DEBUG h Hpos Hh)
    as (this & E & Hstored & Hcounted & Htypes & Hvalues).
  assert (all_present this) as Hpresent.
  { destruct Hstored as (_ & _ & _ & Hsegs).
    eapply Forall_impl; [exact Hsegs|]. intros s (seg & _ & -> & _). by eexists. }
  pose proof (counted_sum this Hcounted) as Hsum.
  exists this, (create_rows (scanned_chunks this (seq 0 (ColumnCount this))) 0).
  split; [done|]. split; [done|]. split; [by apply GetRows_scanned|]. split.
  { rewrite create_rows_length, scanned_chunks_sizes, Hsum.
    by apply (replay_count DEBUG). }
  intros c Hc. split; [apply Hvalues; unfold ColumnCount in Hc; by rewrite <- Htypes|].
  apply create_rows_values.
  eapply Forall_impl; [apply (plain_scanned_columns this Hstored)|].
  intros sc [Hlen Hcolumns]. split; [by rewrite Hlen|done].
Qed.

(** *** Copies that are longer than a vector *)

Lemma chain_counts_unfold seg i vd :
  wf_segment seg -> vector_data seg !! i = Some vd ->
  chain_counts seg i =
  vd_count vd :: match next_data vd with
                 | Some j => chain_counts seg j
                 | None => []
                 end.
Proof.
  intros Hwf Hi. unfold chain_counts.
  rewrite (chain_unfold _ i vd (wf_links_forward _ Hwf) Hi). simpl.
  rewrite Hi. simpl. by destruct (next_data vd).
Qed.

Lemma chain_counts_outside seg i :
  vector_data seg !! i = None -> chain_counts seg i = [] /\ chain_rows seg i = [].
Proof.
  intros Hi. unfold chain_counts, chain_rows.
  destruct (length (vector_data seg)); simpl; [done|]. by rewrite Hi.
Qed.

(** The descriptors of a chain hold the rows of the chain, and every
    descriptor but the last is full. *)
Lemma chain_counts_spec seg :
  wf_segment seg ->
  forall n i,
    length (vector_data seg) - i <= n ->
    sum_list (chain_counts seg i) = length (chain_rows seg i) /\
    Forall (fun c => c = STANDARD_VECTOR_SIZE) (removelast (chain_counts seg i)).
Proof.
  intros Hwf n. induction n as [|n IH]; intros i Hn.
  - destruct (chain_counts_outside seg i) as [-> ->]; [apply lookup_ge_None; lia|].
    split; [done|constructor].
  - destruct (vector_data seg !! i) as [vd|] eqn:Hi.
    + pose proof (wf_descriptors _ Hwf i vd Hi) as [Hblock _ Hnext].
      pose proof (lookup_lt_Some _ _ _ Hi) as Hlt.
      destruct (lookup_lt_is_Some_2 (blocks seg) i) as [b Hb];
        [by rewrite (wf_blocks _ Hwf)|].
      rewrite (chain_counts_unfold seg i vd Hwf Hi), (chain_rows_unfold seg i vd Hwf Hi).
      rewrite length_app. unfold descriptor_rows at 1. rewrite Hi, Hblock, Hb.
      rewrite length_map, length_seq.
      destruct (next_data vd) as [j|] eqn:Hj.
      * destruct (Hnext j eq_refl) as [Hij Hfull].
        destruct (IH j ltac:(lia)) as [Hsum Hall]. split; [simpl; lia|].
        destruct (chain_counts seg j) as [|c counts] eqn:Ecounts.
        -- constructor.
        -- change (removelast (vd_count vd :: c :: counts))
             with (vd_count vd :: removelast (c :: counts)).
           by constructor.
      * split; [simpl; lia|constructor].
    + destruct (chain_counts_outside seg i Hi) as [-> ->]. split; [done|constructor].
Qed.

Lemma full_but_last_length (size : nat) (counts : list nat) :
  0 < size -> Forall (fun c => c = size) (removelast counts) ->
  length counts <= sum_list counts / size + 1.
Proof.
  intros Hsize Hfull. destruct counts as [|c counts] using rev_ind; [simpl; lia|].
  clear IHcounts. rewrite removelast_last in Hfull.
  rewrite length_app, sum_list_with_app. simpl.
  assert (length counts * size <= sum_list counts) as Hsum.
  { clear -Hfull. induction Hfull as [|x l -> _ IH]; simpl; lia. }
  assert (length counts <= (sum_list counts + (c + 0)) / size); [|lia].
  apply Nat.div_le_lower_bound; lia.
Qed.

(** X19. A copy of any number of rows onto a flat vector that is by itself
    returns: [TemplatedColumnDataCopy] fills the vector up to
    [STANDARD_VECTOR_SIZE] rows and goes on in vectors that it chains behind
    it, each filled before the next is added.  A read of the chain gives the
    values the vector held and, behind them, the values of the rows of the
    source, in order. *)
Theorem long_copies_chain_vectors (p : PhysicalType) (memory : nat -> list Byte.byte)
    (source : Vector) (index : nat) (vals : list Value) (offset count : nat)
    (seg : ColumnDataCollectionSegment) :
  0 < STANDARD_VECTOR_SIZE ->
  wf_segment seg -> supported (Primitive p) = true ->
  holds seg index vals ->
  column_typed p (VectorFormat source) (offset + count) ->
  exists f seg',
    GetCopyFunction (Primitive p) = Ok f /\
    call_copy_function f memory index (VectorFormat source) source offset count seg
    = (Ok tt, seg') /\
    wf_segment seg' /\
    read_vector (Primitive p) seg' index =
      vals ++ map (source_value memory (VectorFormat source)) (seq offset count) /\
    sum_list (chain_counts seg' index) = length vals + count /\
    Forall (fun c => c = STANDARD_VECTOR_SIZE) (removelast (chain_counts seg' index)) /\
    length (chain_counts seg' index) <= (length vals + count) / STANDARD_VECTOR_SIZE + 1 /\
    forall i, i < length (vector_data seg) -> i <> index ->
      vector_data seg' !! i = vector_data seg !! i /\ blocks seg' !! i = blocks seg !! i.
Proof.
  intros Hpos Hwf Hp (vd & Hvd & Hnone & Hcount & Hvals) Htyped.
  destruct (flat_supported (Primitive p)) as [f Hf]; [by exists p|].
  exists f. rewrite (flat_call p f _ _ _ _ _ _ Hp Hf).
  pose proof (lookup_lt_Some _ _ _ Hvd) as Hindex.
  destruct (TemplatedColumnDataCopy_spec (flat_op p) INVALID_INDEX memory
              (VectorFormat source) index offset count seg Hpos Hwf Hindex)
    as (seg' & E & Hwf' & Hframe & Hrows & Hheap).
  exists seg'. split; [done|]. split; [done|]. split; [done|].
  pose proof (stored_rows_heap (flat_op p) INVALID_INDEX memory (VectorFormat source)
                offset count 0 (heap seg)) as [more Hmore].
  pose proof (stored_rows_length (flat_op p) INVALID_INDEX memory (VectorFormat source)
                offset count 0 (heap seg)) as Hlen.
  assert (chain_rows seg index = descriptor_rows seg index) as Hown.
  { by rewrite (chain_rows_unfold seg index vd Hwf Hvd), Hnone, app_nil_r. }
  assert (length (chain_rows seg' index) = length vals + count) as Htotal.
  { rewrite Hrows, length_app, length_map, Hlen, Hown.
    rewrite <- (Hvals []), length_map. done. }
  destruct (chain_counts_spec seg' Hwf' (length (vector_data seg')) index ltac:(lia))
    as [Hsum Hfull].
  split; [|split; [by rewrite Hsum|split; [done|split]]].
  - cbn [read_vector]. rewrite Hrows, map_app. f_equal.
    + rewrite Hheap, Hmore, Hown. apply Hvals.
    + rewrite Hheap.
      pose proof (stored_values p INVALID_INDEX memory (VectorFormat source) offset count 0
                    (heap seg)) as Hstored.
      rewrite <- (app_nil_r (stored_rows _ _ _ _ _ _ _ _).2).
      rewrite Hstored, map_seq_shift; [done|].
      intros k Hk. apply Htyped. lia.
  - rewrite <- Htotal, <- Hsum. by apply full_but_last_length.
  - intros i Hi Hne. apply (frame_other _ _ _ Hframe i Hi).
    rewrite (chain_unfold _ index vd (wf_links_forward _ Hwf) Hvd), Hnone.
    by intros ?%list_elem_of_singleton.
Qed.

(** *** Lists over flat children *)

Lemma list_holds_read seg index vals child_vals p :
  wf_segment seg -> list_holds seg index vals child_vals ->
  read_vector (ListType (Primitive p)) seg index = vals.
Proof.
  intros Hwf (vd & entry & child & Hvd & Hnone & Hentry & Hchild & _ & _ & Hcv & Hvals).
  cbn [read_vector]. rewrite Hvd. simpl. rewrite Hentry. simpl. rewrite Hchild.
  rewrite (chain_rows_unfold seg index vd Hwf Hvd), Hnone, app_nil_r.
  specialize (Hcv []). rewrite app_nil_r in Hcv. rewrite Hcv.
  specialize (Hvals []). by rewrite app_nil_r in Hvals.
Qed.

(** [allocate_column] for a list of a flat type gives a list vector
    without rows over a child chain without rows. *)
Lemma list_holds_allocate p seg :
  wf_segment seg ->
  exists index seg1,
    allocate_column (ListType (Primitive p)) seg = (Ok index, seg1) /\
    wf_segment seg1 /\ list_holds seg1 index [] [].
Proof.
  intros Hwf.
  destruct (allocate_fresh seg Hwf) as (Hwf1 & _ & Hindex & Htable1 & Hblocks1 & Hci1 & Hheap1).
  cbn [allocate_column]. unfold bind at 1, calling at 1.
  destruct (AllocateVector None seg) as [index seg_a]. cbn [fst snd] in *. subst index.
  destruct (allocate_fresh seg_a Hwf1)
    as (Hwf2 & _ & Hchild & Htable2 & Hblocks2 & Hci2 & Hheap2).
  unfold bind at 1. unfold bind at 1, calling at 1.
  destruct (AllocateVector None seg_a) as [child seg_b]. cbn [fst snd] in *. subst child.
  unfold ret at 1. unfold bind at 1, calling at 1, AddChildIndex.
  unfold bind at 1, modifying at 1. unfold ret.
  set (index := length (vector_data seg)) in *.
  set (child := length (vector_data seg_a)) in *.
  set (seg_c := with_child_indices _ seg_b).
  set (seg1 := with_vector_data _ seg_c).
  assert (child = S index) as Echild.
  { subst child. rewrite Htable1, length_app. simpl. lia. }
  assert (wf_segment seg1) as Hwf'.
  { apply wf_set_child_index, wf_with_child_indices, Hwf2. }
  assert (vector_data seg_b !! index =
          Some {| block_id := index; vd_offset := 0; vd_count := 0;
                  child_index := None; next_data := None |}) as Hroot_b.
  { rewrite Htable2, Htable1, lookup_app_l by (rewrite length_app; simpl; lia).
    by rewrite lookup_app_r, Nat.sub_diag by (subst index; lia). }
  assert (vector_data seg_b !! child =
          Some {| block_id := child; vd_offset := 0; vd_count := 0;
                  child_index := None; next_data := None |}) as Hchild_b.
  { rewrite Htable2. by rewrite lookup_app_r, Nat.sub_diag by (subst child; lia). }
  assert (vector_data seg1 !! index =
          Some {| block_id := index; vd_offset := 0; vd_count := 0;
                  child_index := Some (length (child_indices seg_b));
                  next_data := None |}) as Hroot.
  { subst seg1 seg_c. simpl. by rewrite list_lookup_alter_eq, Hroot_b. }
  assert (vector_data seg1 !! child =
          Some {| block_id := child; vd_offset := 0; vd_count := 0;
                  child_index := None; next_data := None |}) as Hchild1.
  { subst seg1 seg_c. simpl. rewrite list_lookup_alter_ne by lia. done. }
  exists index, seg1. split; [done|]. split; [done|].
  eexists _, (length (child_indices seg_b)), child.
  split; [exact Hroot|]. split; [done|]. split; [done|]. split.
  { subst seg1 seg_c. simpl. by rewrite lookup_app_r, Nat.sub_diag by lia. }
  split.
  { pose proof (lookup_lt_Some _ _ _ Hchild1). lia. }
  split; [done|]. split.
  - intros ext. rewrite (chain_rows_unfold seg1 child _ Hwf' Hchild1). simpl.
    unfold descriptor_rows. rewrite Hchild1. simpl. by destruct (blocks _ !! _).
  - intros more. unfold descriptor_rows. rewrite Hroot. simpl. by destruct (blocks _ !! _).
Qed.

Lemma take_drop_seq {A} (f : nat -> A) n o len more :
  o + len <= n ->
  take len (drop o (map f (seq 0 n) ++ more)) = map f (seq o len).
Proof.
  intros Hle.
  replace n with (o + (len + (n - o - len))) by lia.
  rewrite seq_app, map_app, <- app_assoc.
  rewrite drop_app_length' by (by rewrite length_map, length_seq).
  rewrite seq_app, map_app, <- app_assoc.
  rewrite take_app_length' by (by rewrite length_map, length_seq).
  done.
Qed.

Lemma rebased_list_value memory child_format child_vals n e more :
  (le_offset e + le_length e <= N.of_nat n)%N ->
  (N.of_nat (length child_vals + n) < 2 ^ 64)%N ->
  list_value ((child_vals ++ map (source_value memory child_format) (seq 0 n)) ++ more)
    (Some true, Some (rebase (N.of_nat (length child_vals)) (CList e))) =
  VList (map (source_value memory child_format)
           (seq (N.to_nat (le_offset e)) (N.to_nat (le_length e)))).
Proof.
  intros Hbound Hrange. cbn [rebase list_value le_offset le_length]. f_equal.
  unfold idx_add. rewrite N.mod_small by lia.
  replace (N.to_nat (le_offset e + N.of_nat (length child_vals)))
    with (length child_vals + N.to_nat (le_offset e)) by lia.
  rewrite <- app_assoc, drop_app_add'; [|done].
  apply take_drop_seq. lia.
Qed.

(** One call of the copy function of a list of a flat type with rows that
    fit the vector: the child vector goes behind the child values, and the
    lists of the window behind the lists. *)
Lemma list_copy_step p child_f memory index source offset count vals child_vals seg :
  0 < STANDARD_VECTOR_SIZE ->
  wf_segment seg ->
  supported (Primitive p) = true -> GetCopyFunction (Primitive p) = Ok child_f ->
  list_holds seg index vals child_vals ->
  list_window p {| cw_source := source; cw_offset := offset; cw_count := count |} ->
  length vals + count <= STANDARD_VECTOR_SIZE ->
  (N.of_nat (length child_vals + GetListSize source) < 2 ^ 64)%N ->
  exists seg' child_vector,
    VectorChildren source !! 0 = Some child_vector /\
    call_copy_function (mkCopyFunction ColumnDataCopy_list_entry_t [child_f]) memory index
      (VectorFormat source) source offset count seg = (Ok tt, seg') /\
    wf_segment seg' /\
    list_holds seg' index
      (vals ++ map (list_source_value memory source) (seq offset count))
      (child_vals
       ++ map (source_value memory (VectorFormat child_vector))
            (seq 0 (GetListSize source))).
Proof.
  intros Hpos Hwf Hp Hchild_f
    (vd & entry & child & Hvd & Hnone & Hentry & Hchild & [Hlt Hchild_lt] & Hcount & Hcv &
     Hvals)
    (Hcount_pos & child_vector & Hcv_source & Hchild_typed & Hentries) Hfit Hrange.
  cbn [cw_source cw_offset cw_count] in *.
  set (src := VectorFormat source) in *.
  set (n := GetListSize source) in *.
  set (child_format := VectorFormat child_vector) in *.
  (* the child vector goes behind the child chain *)
  destruct (TemplatedColumnDataCopy_spec (flat_op p) INVALID_INDEX memory child_format
              child 0 n seg Hpos Hwf Hchild_lt)
    as (seg1 & E1 & Hwf1 & Hframe1 & Hrows1 & Hheap1).
  pose proof (stored_rows_heap (flat_op p) INVALID_INDEX memory child_format 0 n 0
                (heap seg)) as [more1 Hmore1].
  assert (index ∉ chain (length (vector_data seg)) (vector_data seg) (Some child)) as Hout.
  { intros Hin. apply (chain_lower_bound _ _ (wf_links_forward _ Hwf)) in Hin. lia. }
  pose proof (lookup_lt_Some _ _ _ Hvd) as Hindex.
  destruct (frame_other _ _ _ Hframe1 index Hindex Hout) as [Hvd1 Hb1].
  rewrite Hvd in Hvd1.
  assert (length (chain_rows seg child) = length child_vals) as Hsize.
  { rewrite <- (Hcv []), length_map. done. }
  (* the entries go behind the entries of the list vector *)
  assert (vd_count vd + count <= STANDARD_VECTOR_SIZE) as Hfit' by (rewrite Hcount; exact Hfit).
  destruct (fit_write ListValueCopy (N.of_nat (length child_vals)) memory src seg1 index vd
              offset count Hwf1 Hvd1 Hcount_pos Hfit')
    as (seg2 & E2 & Hwf2 & Hrows2 & Hheap2 & Hvd2 & Hchanges2).
  rewrite stored_rows_list in Hrows2, Hheap2. cbn [fst snd] in Hrows2, Hheap2.
  pose proof Hchanges2 as (_ & _ & _ & Hci2 & Hlen2 & _ & Hother2).
  exists seg2, child_vector. split; [done|]. split; [|split; [done|]].
  - cbn [call_copy_function].
    unfold bind at 1, reading at 1, at_index at 1. rewrite Hcv_source.
    unfold bind at 1, reading at 1. rewrite (GetVectorData_Some _ _ _ Hvd).
    rewrite Hentry. unfold bind at 1, ret at 1.
    unfold bind at 1, reading at 1. rewrite (GetVectorData_Some _ _ _ Hvd).
    unfold bind at 1, reading at 1. rewrite Hentry. unfold GetChildIndex.
    rewrite Nat.add_0_r, Hchild.
    destruct (current_list_size_loop_returns seg Hwf (length (vector_data seg)) child 0
                Hchild_lt ltac:(lia)) as [size Esize].
    destruct (current_list_size_loop_spec seg Hwf (length (vector_data seg)) child 0 size
                ltac:(lia) Esize) as [_ Hsize'].
    simpl in Hsize'. subst size.
    unfold bind at 1, reading at 1. rewrite Esize.
    unfold ToUnifiedFormat. fold child_format n.
    rewrite (flat_call p child_f _ _ _ _ _ _ Hp Hchild_f).
    unfold bind at 1. rewrite E1. simpl. rewrite Hsize. exact E2.
  - assert (chain_rows seg2 child = chain_rows seg1 child) as Hchain2.
    { apply (chain_rows_agree seg1 seg2 child Hwf1 Hwf2).
      - pose proof (frame_length _ _ _ Hframe1). lia.
      - intros k Hk. apply Hother2. intros ->%list_elem_of_singleton.
        apply (chain_lower_bound _ _ (wf_links_forward _ Hwf1)) in Hk. lia. }
    exists (set_count (vd_count vd + count) vd), entry, child.
    split; [done|]. split; [done|]. split; [done|]. split.
    { by rewrite Hci2, (frame_children _ _ _ Hframe1). }
    split.
    { rewrite Hlen2. pose proof (frame_length _ _ _ Hframe1). lia. }
    split.
    { simpl. rewrite length_app, length_map, length_seq. lia. }
    split.
    + intros ext. rewrite Hchain2, Hrows1, map_app, Hheap2, Hheap1. f_equal.
      * rewrite Hmore1, <- app_assoc. apply Hcv.
      * rewrite (stored_values p INVALID_INDEX memory child_format 0 n 0 (heap seg)).
        -- by rewrite map_seq_shift.
        -- intros k Hk. apply Hchild_typed. lia.
    + intros more. rewrite Hrows2, map_app. f_equal.
      * rewrite (descriptor_rows_ext seg seg1 index).
        -- rewrite <- app_assoc. apply Hvals.
        -- by rewrite Hvd.
        -- intros vd' Hvd'. rewrite Hvd in Hvd'. injection Hvd' as <-.
           by rewrite (ok_block _ _ _ (wf_descriptors _ Hwf index vd Hvd)).
      * rewrite <- (map_seq_shift (list_source_value memory source) offset count).
        rewrite !map_map. apply map_ext_in.
        intros k Hk%in_seq. unfold as_read, list_source_value, source_valid. simpl.
        fold src. destruct (RowIsValid _ _) eqn:Hvalid; [|done].
        destruct (Hentries (offset + k) ltac:(lia) Hvalid) as (e & -> & Hbound).
        rewrite Hcv_source. by apply rebased_list_value.
Qed.

Lemma copy_windows_lists p child_f memory index :
  0 < STANDARD_VECTOR_SIZE ->
  supported (Primitive p) = true -> GetCopyFunction (Primitive p) = Ok child_f ->
  forall windows seg vals child_vals,
    wf_segment seg -> list_holds seg index vals child_vals ->
    Forall (list_window p) windows ->
    length vals + sum_list (map cw_count windows) <= STANDARD_VECTOR_SIZE ->
    (N.of_nat (length child_vals
               + sum_list (map (fun w => GetListSize (cw_source w)) windows)) < 2 ^ 64)%N ->
    exists seg' child_vals',
      copy_windows (mkCopyFunction ColumnDataCopy_list_entry_t [child_f]) memory index
        windows seg = (Ok tt, seg') /\
      wf_segment seg' /\
      list_holds seg' index
        (vals ++ concat (map (fun w => map (list_source_value memory (cw_source w))
                                         (seq (cw_offset w) (cw_count w))) windows))
        child_vals'.
Proof.
  intros Hpos Hp Hchild_f windows.
  induction windows as [|[source offset count] windows IH];
    intros seg vals child_vals Hwf Hholds Hwindows Hfit Hrange.
  - exists seg, child_vals. split; [done|]. split; [done|]. simpl. by rewrite app_nil_r.
  - apply Forall_cons in Hwindows as [Hw Hwindows]. simpl in Hfit, Hrange.
    destruct (list_copy_step p child_f memory index source offset count vals child_vals seg
                Hpos Hwf Hp Hchild_f Hholds Hw ltac:(lia) ltac:(lia))
      as (seg1 & child_vector & _ & E1 & Hwf1 & Hholds1).
    destruct (IH seg1 _ _ Hwf1 Hholds1 Hwindows) as (seg' & child_vals' & E & Hwf' & Hholds').
    { rewrite length_app, length_map, length_seq. lia. }
    { rewrite length_app, length_map, length_seq. lia. }
    exists seg', child_vals'. split; [|split; [done|]].
    + cbn [copy_windows cw_source cw_offset cw_count]. unfold bind at 1. by rewrite E1.
    + cbn [map concat cw_source cw_offset cw_count]. by rewrite app_assoc.
Qed.

(** X20. A list column over a flat child type reads back what was copied
    into it.  After [allocate_column], the copy function of the list type,
    called for one window of rows after the other as the turns of the append
    loop do, returns as long as the rows fit the vector; each call appends
    the whole child vector of its source and stores the entries of the
    window moved behind the child rows that were there.  A read of the
    vector then gives, for every row of every window in order, null where
    the row was not valid and the list of the child values that its entry
    named otherwise. *)
Theorem lists_read_back (p : PhysicalType) (memory : nat -> list Byte.byte)
    (windows : list CopyWindow) (seg : ColumnDataCollectionSegment) :
  0 < STANDARD_VECTOR_SIZE ->
  wf_segment seg -> supported (Primitive p) = true ->
  Forall (list_window p) windows ->
  sum_list (map cw_count windows) <= STANDARD_VECTOR_SIZE ->
  (N.of_nat (sum_list (map (fun w => GetListSize (cw_source w)) windows)) < 2 ^ 64)%N ->
  exists f index seg1 seg2,
    GetCopyFunction (ListType (Primitive p)) = Ok f /\
    allocate_column (ListType (Primitive p)) seg = (Ok index, seg1) /\
    copy_windows f memory index windows seg1 = (Ok tt, seg2) /\
    wf_segment seg2 /\
    read_vector (ListType (Primitive p)) seg2 index =
      concat (map (fun w => map (list_source_value memory (cw_source w))
                              (seq (cw_offset w) (cw_count w))) windows).
Proof.
  intros Hpos Hwf Hp Hwindows Hfit Hrange.
  destruct (flat_supported (Primitive p)) as [child_f Hchild_f]; [by exists p|].
  destruct (list_holds_allocate p seg Hwf) as (index & seg1 & E1 & Hwf1 & Hholds1).
  destruct (copy_windows_lists p child_f memory index Hpos Hp Hchild_f windows seg1 [] []
              Hwf1 Hholds1 Hwindows Hfit Hrange)
    as (seg2 & child_vals & E2 & Hwf2 & Hholds2).
  exists (mkCopyFunction ColumnDataCopy_list_entry_t [child_f]), index, seg1, seg2.
  split; [simpl; simpl in Hchild_f; by rewrite Hchild_f|].
  split; [done|]. split; [done|]. split; [done|].
  by apply (list_holds_read seg2 index _ child_vals).
Qed.

End Properties.

(** ** The scenarios, checked *)

(** C1. [ResultEquals] reads both values of a comparison from the rows of
    the left collection: two collections of one row, 1 and 2, compare as
    equal, although the scans differ and the value equality tells the two
    values apart. *)
Theorem ResultEquals_compares_left_with_left :
  let left := int32_collection [Some 1%Z] in
  let right := int32_collection [Some 2%Z] in
  scanned_column left = Ok [Ok (VFixed 1)] /\
  scanned_column right = Ok [Ok (VFixed 2)] /\
  Value_eqb (VFixed 1) (VFixed 2) = false /\
  ResultEquals Value_eqb left right (Message "") = Ok (true, Message "").
Proof. vm_compute. done. Qed.

(** C2. [Combine] moves the segments of the peer and adds its count, and
    does not write the count of the peer: after combining the rows 30, 40, 50
    into the rows 10, 20 the scan gives all five rows and the peer still
    counts three rows, with a null pointer where its segment was. *)
Theorem Combine_leaves_the_count_of_the_peer :
  let a := int32_collection [Some 10%Z; Some 20%Z] in
  let b := int32_collection [Some 30%Z; Some 40%Z; Some 50%Z] in
  forall DEBUG,
    (Combine DEBUG a b).1.1 = Ok tt /\
    Count (Combine DEBUG a b).1.2 = 5 /\
    scanned_column (Combine DEBUG a b).1.2 =
      Ok [Ok (VFixed 10); Ok (VFixed 20); Ok (VFixed 30); Ok (VFixed 40); Ok (VFixed 50)] /\
    Count (Combine DEBUG a b).2 = 3 /\
    segments (Combine DEBUG a b).2 = [None].
Proof. intros a b [|]; vm_compute; done. Qed.

(** C4. [Combine] does not write the count of the peer (see C2), so a peer
    that is combined a second time is counted a second time.  Two rows are
    appended to [a] and three to [b]; after [a.Combine(b)] twice, in a build
    without [DEBUG], both calls have returned and [a] counts eight rows,
    with the five rows that were appended in its chunks and a null pointer
    for a third segment.  With [DEBUG] the [Verify] of the second call reads
    that null pointer. *)
Theorem Combine_twice_counts_the_peer_twice :
  let a := int32_collection [Some 10%Z; Some 20%Z] in
  let b := int32_collection [Some 30%Z; Some 40%Z; Some 50%Z] in
  let first := Combine false a b in
  let second := Combine false first.1.2 first.2 in
  Count a = 2 /\ Count b = 3 /\
  first.1.1 = Ok tt /\ Count first.1.2 = 5 /\ Count first.2 = 3 /\
  second.1.1 = Ok tt /\ Count second.1.2 = 8 /\
  map segment_counts (segments second.1.2) = [[2]; [3]; []] /\
  segments second.1.2 !! 2 = Some None /\
  sum_list (concat (counts_of second.1.2)) = 5 /\
  (Combine true (Combine true a b).1.2 (Combine true a b).2).1.1 =
    Fail (UndefinedBehaviour "null segment pointer").
Proof. vm_compute. done. Qed.

(** C3, the claim as it was stated fails here.  The peer has another
    schema, holds no rows, and [Combine] returns without an error.  And the
    [Append] without a state of a chunk of another schema ends in the
    internal error only after [InitializeAppend] has given the collection,
    which had no segment, a segment with an empty chunk. *)
Lemma Combine_accepts_a_mismatched_empty_peer :
  let this := int32_collection [Some 1%Z] in
  let other := empty_collection (Primitive VARCHAR) in
  let fresh := empty_collection (Primitive INT32) in
  let result := Append_chunk (H := standard_build) fresh (counting_chunk 3) in
  (types this <> types other /\
   Combine true this other = (Ok tt, this, other) /\
   Combine false this other = (Ok tt, this, other)) /\
  (types fresh <> GetTypes (counting_chunk 3) /\
   result.1 =
     Fail (InternalException "Assertion triggered: types == input.GetTypes()") /\
   result.2 <> fresh /\
   segments fresh = [] /\ ChunkCount fresh = Ok 0 /\
   map segment_counts (segments result.2) = [[0]] /\ ChunkCount result.2 = Ok 1).
Proof.
  split.
  - split; [vm_compute; congruence|].
    split; by apply Combine_empty_peer.
  - split; [vm_compute; congruence|]. split; [vm_compute; reflexivity|].
    split; [|vm_compute; done].
    intros E. apply (f_equal (fun c => length (segments c))) in E.
    vm_compute in E. discriminate.
Qed.

Lemma schema_mismatch_witness :
  let this := int32_collection [Some 1%Z] in
  let fresh := empty_collection (Primitive INT32) in
  let finished := (ColumnDataCollection_copy this).2 in
  (exists msg,
     Append (H := standard_build) this {| as_vector_data := [] |} (counting_chunk 3)
     = (Fail (InternalException msg), this, {| as_vector_data := [] |})) /\
  (exists msg this1,
     (InitializeAppend fresh {| as_vector_data := [] |}).1 = (Ok tt, this1) /\
     Append_chunk (H := standard_build) fresh (counting_chunk 3)
     = (Fail (InternalException msg), this1) /\
     Count this1 = Count fresh /\
     Types this1 = Types fresh /\
     (segments fresh = [] -> ChunkCount fresh = Ok 0 /\ ChunkCount this1 = Ok 1) /\
     (forall seg0,
         last (segments fresh) = Some (Some seg0) -> chunk_data seg0 <> [] ->
         this1 = fresh)) /\
  (exists msg this1,
     Append_chunk (H := standard_build) this (counting_chunk 3)
     = (Fail (InternalException msg), this1) /\
     this1 = this) /\
  (exists msg,
     Append_chunk (H := standard_build) finished (counting_chunk 3)
     = (Fail (InternalException msg), finished)) /\
  (exists msg,
     Combine true this (collection_of (Primitive INT64) [counting_chunk 3])
     = (Fail (InternalException msg), this,
        collection_of (Primitive INT64) [counting_chunk 3])) /\
  Combine true this (empty_collection (Primitive VARCHAR))
  = (Ok tt, this, empty_collection (Primitive VARCHAR)).
Proof.
  intros this fresh finished.
  destruct (schema_mismatch_is_an_internal_error (H := standard_build) this)
    as (HA & HB & _ & HC & HE).
  destruct (schema_mismatch_is_an_internal_error (H := standard_build) fresh)
    as (_ & HB' & _).
  destruct (schema_mismatch_is_an_internal_error (H := standard_build) finished)
    as (_ & _ & HF & _).
  split; [|split; [|split; [|split; [|split]]]].
  - apply HA. vm_compute. congruence.
  - apply HB'; [vm_compute; congruence|reflexivity|].
    intros s Hs. vm_compute in Hs. discriminate.
  - destruct (HB (counting_chunk 3)) as (msg & this1 & _ & E & _ & _ & _ & Hsame).
    + vm_compute. congruence.
    + reflexivity.
    + intros s Hs. vm_compute in Hs. injection Hs as <-. by eexists.
    + exists msg, this1. split; [exact E|].
      assert (exists seg0, last (segments this) = Some (Some seg0) /\ chunk_data seg0 <> [])
        as (seg0 & Hlast & Hne).
      { eexists. split; [vm_compute; reflexivity|]. vm_compute. discriminate. }
      by apply (Hsame seg0).
  - apply HF. reflexivity.
  - apply HC; vm_compute; congruence.
  - apply HE. reflexivity.
Defined.

Lemma count_witness :
  let this :=
    (InitializeAppend (empty_collection (Primitive INT64))
       {| as_vector_data := [] |}).1.2 in
  let state := {| as_vector_data := [default_format] |} in
  let result := Append (H := standard_build) this state (counting_chunk 5) in
  let h :=
    Appended (Appended (Constructed 0 [Primitive INT64]) (counting_chunk 5))
      (counting_chunk 7) in
  result.1.1 = Ok tt /\
  Count result.1.2 = Count this + 5 /\
  Count (collection_of (Primitive INT64) [counting_chunk 5; counting_chunk 7]) = 12 /\
  well_typed h /\
  exists this',
    replay (H := standard_build) true h = Some this' /\
    Count this' = 12 /\
    counted (H := standard_build) this'.
Proof.
  intros this state result h.
  destruct (count_is_the_sum_of_appended_sizes (H := standard_build)) as (HA & HH & HW).
  assert (Append (H := standard_build) this state (counting_chunk 5)
          = (Ok tt, result.1.2, result.2)) as E by (vm_compute; reflexivity).
  assert (well_typed h) as Hh.
  { simpl. repeat split; try done; repeat econstructor. }
  split; [vm_compute; reflexivity|]. split; [|split; [|split; [exact Hh|]]].
  - apply (HA _ _ _ _ _ E).
  - apply (HH true h). vm_compute. reflexivity.
  - destruct (HW ltac:(vm_compute; lia) true h Hh) as (this' & E' & Hcount & Hcounted).
    exists this'. split; [exact E'|]. split; [exact Hcount|exact Hcounted].
Defined.

Lemma append_fills_chunks_witness :
  let this :=
    (InitializeAppend (empty_collection (Primitive INT64))
       {| as_vector_data := [] |}).1.2 in
  let state := {| as_vector_data := [default_format] |} in
  let result := Append (H := standard_build) this state (counting_chunk 5) in
  let h :=
    Appended (Appended (Constructed 0 [Primitive INT64]) (counting_chunk 5))
      (counting_chunk 7) in
  (exists pre seg seg',
     segments this = pre ++ [Some seg] /\
     segments result.1.2 = pre ++ [Some seg'] /\
     exists before c l,
       chunk_counts seg = before ++ [c] /\
       chunk_counts seg' = before ++ l /\
       filled (H := standard_build) c 5 l) /\
  appending (H := standard_build) this /\
  (exists this' state',
     Append (H := standard_build) this state (counting_chunk 5) = (Ok tt, this', state') /\
     appending (H := standard_build) this') /\
  well_typed h /\
  (exists this',
     replay (H := standard_build) true h = Some this' /\
     Forall (fun s => exists seg,
               s = Some seg /\
               Forall (fun n => n <= 1024) (chunk_counts seg))
       (segments this')) /\
  (exists this' state' seg' news,
     Append (H := standard_build) this state (counting_chunk 5) = (Ok tt, this', state') /\
     segments this' = [Some seg'] /\
     segment_chunks (seq 0 1) (Some seg') = news /\
     filled (H := standard_build) 0 5 (map sc_size news) /\
     column_of 0 news = [VFixed 0; VFixed 1; VFixed 2; VFixed 3; VFixed 4]).
Proof.
  intros this state result h.
  destruct (append_fills_chunks_up_to_the_vector_size (H := standard_build))
    as (HA & HB & HC & HD & _).
  assert (0 < STANDARD_VECTOR_SIZE (VectorSize := standard_build)) as Hpos
    by (vm_compute; lia).
  assert (Append (H := standard_build) this state (counting_chunk 5)
          = (Ok tt, result.1.2, result.2)) as E by (vm_compute; reflexivity).
  assert (appending (H := standard_build) this) as Happending.
  { destruct (ColumnDataCollection_shared_returns (H := standard_build) 0
                [Primitive INT64]) as (c & Ec & Happendable & _ & _);
      [done|repeat econstructor|].
    assert (c = empty_collection (Primitive INT64)) as ->
      by (unfold empty_collection; by rewrite Ec).
    destruct (InitializeAppend_returns (H := standard_build) _
                {| as_vector_data := [] |} Happendable)
      as (this1 & pre & seg & seg1 & E1 & Happending & _).
    assert (this1 = this) as -> by (subst this; by rewrite E1).
    exact Happending. }
  assert (well_typed h) as Hh.
  { simpl. repeat split; try done; repeat econstructor. }
  split; [|split; [exact Happending|split; [|split; [exact Hh|split]]]].
  - destruct (HA _ _ _ _ _ E) as (pre & seg & seg' & Hpre & Hpre' & _ & Hfill & _).
    exists pre, seg, seg'. split; [done|]. split; [done|].
    apply Hfill. vm_compute. lia.
  - apply (HB Hpos this state (counting_chunk 5) Happending).
    + repeat econstructor.
    + vm_compute. lia.
  - apply (HC Hpos true h Hh).
  - assert (flat_stored (H := standard_build) this) as Hstored.
    { destruct (shared_flat (H := standard_build) 0 [Primitive INT64]
                  (empty_collection (Primitive INT64))) as (Hempty & _ & _);
        [constructor; [by exists INT64|constructor]|reflexivity|].
      destruct (InitializeAppend_flat (H := standard_build) _
                  {| as_vector_data := [] |} Hempty)
        as (this1 & pre & seg & chunks & sc & E1 & Hstored1 & _).
      assert (this1 = this) as -> by (subst this; by rewrite E1).
      exact Hstored1. }
    destruct (HD Hpos this state (counting_chunk 5) []
                (first_chunk_segment [Primitive INT64]) []
                {| sc_data := [[]]; sc_size := 0 |} Hstored)
      as (this' & state' & seg' & news & E' & Hsegs' & Hscan' & _ & Hfilled & _ & Hvalues).
    + vm_compute. reflexivity.
    + vm_compute. reflexivity.
    + constructor; [|constructor]. exists INT64. split; [done|]. split; [done|].
      intros k _ _. simpl. discriminate.
    + vm_compute. lia.
    + exists this', state', seg', news. split; [exact E'|]. split; [exact Hsegs'|].
      split; [exact Hscan'|]. split; [apply Hfilled; vm_compute; lia|].
      apply (Hvalues 0). vm_compute. lia.
Defined.

Lemma list_entries_witness :
  let seg0 := first_chunk_segment [ListType (Primitive INT32)] in
  let seg :=
    (call_copy_function (H := standard_build) list_copy_function caller_memory 0
       (VectorFormat list_vector) list_vector 0 3 seg0).2 in
  let seg' :=
    (call_copy_function (H := standard_build) list_copy_function caller_memory 0
       (VectorFormat list_vector) list_vector 0 3 seg).2 in
  length (chain_rows seg 1) = 5 /\
  (exists seg_a child seg1,
     (seg_a = seg /\ child_indices seg !! 0 = Some child) /\
     length (chain_rows seg_a child) = 5 /\
     chain_slots seg' 0 =
       chain_slots seg1 0
       ++ map (fun k =>
                 if source_valid (VectorFormat list_vector) 0 k
                 then Some (rebase (N.of_nat (length (chain_rows seg_a child)))
                              (uvf_data (VectorFormat list_vector)
                                 (uvf_sel (VectorFormat list_vector) (0 + k))))
                 else None)
            (seq 0 3)) /\
  chain_slots seg' 0 =
    [Some (CList {| le_offset := 0; le_length := 3 |});
     Some (CList {| le_offset := 3; le_length := 0 |});
     Some (CList {| le_offset := 3; le_length := 2 |});
     Some (CList {| le_offset := 5; le_length := 3 |});
     Some (CList {| le_offset := 8; le_length := 0 |});
     Some (CList {| le_offset := 8; le_length := 2 |})] /\
  length (chain_rows seg' 1) = 10 /\
  shaped_for seg (ListType (Primitive INT32)) 0 /\
  vector_shaped (ListType (Primitive INT32)) list_vector /\
  exists seg'',
    call_copy_function (H := standard_build) list_copy_function caller_memory 0
      (VectorFormat list_vector) list_vector 0 3 seg = (Ok tt, seg'').
Proof.
  intros seg0 seg seg'.
  assert (0 < STANDARD_VECTOR_SIZE (VectorSize := standard_build)) as Hpos
    by (vm_compute; lia).
  destruct (list_entries_are_rebased (H := standard_build) Hpos) as [Hsteps Hreturns].
  assert (wf_segment (H := standard_build) seg) as Hwf.
  { destruct (list_copy_step (H := standard_build) INT32
                (mkCopyFunction (ColumnDataCopy INT32) []) caller_memory 0 list_vector
                0 3 [] [] seg0 Hpos (wf_first_chunk (H := standard_build) _)
                eq_refl eq_refl)
      as (seg1 & child_vector & _ & E & Hwf1 & _).
    - eexists _, 0, 1. split; [reflexivity|]. split; [reflexivity|].
      split; [reflexivity|]. split; [reflexivity|]. split; [vm_compute; lia|].
      split; [reflexivity|]. split; intros; reflexivity.
    - split; [simpl; lia|]. eexists. split; [reflexivity|]. split.
      + intros k _ _. simpl. discriminate.
      + intros k _ _. simpl.
        destruct k as [|[|i]]; eexists; (split; [reflexivity|]); vm_compute; discriminate.
    - simpl. vm_compute. lia.
    - vm_compute. reflexivity.
    - assert (seg = seg1) as ->; [|exact Hwf1].
      subst seg. unfold list_copy_function. by rewrite E. }
  assert (shaped_for seg (ListType (Primitive INT32)) 0) as Hshape.
  { eapply (shaped_list seg (Primitive INT32) 0 _ 0 1);
      [vm_compute; reflexivity|reflexivity|vm_compute; reflexivity|].
    eapply shaped_primitive. vm_compute. reflexivity. }
  assert (vector_shaped (ListType (Primitive INT32)) list_vector) as Hvector.
  { eapply vector_list; [reflexivity..|]. by apply vector_primitive. }
  split; [vm_compute; reflexivity|].
  split; [|split; [vm_compute; reflexivity|split; [vm_compute; reflexivity|
    split; [exact Hshape|split; [exact Hvector|]]]]].
  - destruct (Hsteps (mkCopyFunction (ColumnDataCopy INT32) []) [] caller_memory 0
                (VectorFormat list_vector) list_vector
                (mkVector (Primitive INT32)
                   {| uvf_sel := fun i => i; uvf_validity := None;
                      uvf_data := fun i => CFixed (Z.of_nat (S i)) |} 0 [])
                0 3 seg seg'
                {| block_id := 0; vd_offset := 0; vd_count := 3;
                   child_index := Some 0; next_data := None |})
      as (seg_a & child & seg1 & Hcase & _ & _ & Hslots & _).
    + exact Hwf.
    + vm_compute. reflexivity.
    + reflexivity.
    + vm_compute. reflexivity.
    + exists seg_a, child, seg1. split; [exact Hcase|]. split; [|exact Hslots].
      simpl in Hcase. destruct Hcase as [-> Hchild].
      vm_compute in Hchild. injection Hchild as <-. vm_compute. reflexivity.
  - apply (Hreturns (Primitive INT32) list_copy_function caller_memory 0
             (VectorFormat list_vector) list_vector 0 3 seg).
    + reflexivity.
    + exact Hwf.
    + exact Hshape.
    + exact Hvector.
Defined.

Lemma validity_witness :
  let seg := first_chunk_segment [Primitive INT32] in
  exists seg',
    TemplatedColumnDataCopy (H := standard_build) StandardValueCopy INVALID_INDEX
      caller_memory 0 three_rows 0 3 seg = (Ok tt, seg') /\
    wf_segment (H := standard_build) seg' /\
    chain_validity seg' 0 =
      chain_validity seg 0
      ++ map (fun k => Some (source_valid three_rows 0 k)) (seq 0 3).
Proof.
  intros seg.
  apply (validity_is_copied_bit_by_bit (H := standard_build) StandardValueCopy
           INVALID_INDEX caller_memory three_rows 0 0 3 seg).
  - vm_compute. lia.
  - apply (wf_first_chunk (H := standard_build)).
  - vm_compute. lia.
Defined.

Lemma scan_witness :
  let this := collection_of (Primitive INT64) [counting_chunk 1500] in
  scan_trace 3 this (InitializeScan_columns this [0] ALLOW_ZERO_COPY) =
  map Ok (take 3 (schedule 0 0 (counts_of this)))
  ++ replicate (3 - length (schedule 0 0 (counts_of this)))
       (Ok (NoMoreData (sum_list (concat (counts_of this))))).
Proof.
  intros this.
  apply (NextScanIndex_yields_every_chunk_once this [0] ALLOW_ZERO_COPY).
  apply all_present_check. vm_compute. reflexivity.
Defined.

Lemma strings_witness :
  let seg := first_chunk_segment [Primitive VARCHAR] in
  exists seg',
    TemplatedColumnDataCopy (H := standard_build) StringValueCopy INVALID_INDEX
      caller_memory 0 string_rows 0 3 seg = (Ok tt, seg') /\
    heap seg `prefix_of` heap seg' /\
    forall k, k < 3 ->
      exists row,
        chain_rows seg' 0 !! (length (chain_rows seg 0) + k) = Some row /\
        forall ext,
          scalar_value (heap seg' ++ ext) row =
          if source_valid string_rows 0 k
          then VString (source_string caller_memory string_rows 0 k)
          else VNull.
Proof.
  intros seg.
  destruct (strings_are_stored_byte_for_byte (H := standard_build)) as (_ & _ & HC).
  apply (HC INVALID_INDEX caller_memory string_rows 0 0 3 seg).
  - vm_compute. lia.
  - apply (wf_first_chunk (H := standard_build)).
  - vm_compute. lia.
  - intros [|[|[|k]]] Hk Hvalid; try lia; try discriminate.
    + eexists. split; [reflexivity|exact I].
    + eexists. split; [reflexivity|exact I].
Defined.

Lemma copy_constructor_witness :
  let other := int32_collection [Some 10%Z; Some 20%Z] in
  let untyped := ColumnDataCollection_untyped 0 in
  (exists this other',
     ColumnDataCollection_copy other = (Ok this, other') /\
     allocator this = allocator other /\
     Types this = Types other /\
     copy_functions this = copy_functions other /\
     Count this = 0 /\
     segments this = [] /\
     Count other' = Count other /\
     segments other' = segments other /\
     finished_append other' = true) /\
  ColumnDataCollection_copy untyped =
  (Fail (InternalException "Assertion triggered: !types.empty()"), untyped).
Proof.
  intros other untyped. split.
  - apply (proj1 (copy_constructor_shares_and_stays_empty other)).
    split; [vm_compute; congruence|vm_compute; reflexivity].
  - apply (proj2 (copy_constructor_shares_and_stays_empty untyped)). reflexivity.
Defined.

(** C10, the claim as it was stated fails here: the source was made by the
    constructor without a type list; the copy constructor makes no
    collection, and the source is not marked as finished. *)
Lemma copy_of_a_collection_without_types_fails :
  let other := ColumnDataCollection_untyped 0 in
  ColumnDataCollection_copy other =
    (Fail (InternalException "Assertion triggered: !types.empty()"), other) /\
  (forall this, (ColumnDataCollection_copy other).1 <> Ok this) /\
  finished_append (ColumnDataCollection_copy other).2 = false.
Proof.
  split; [reflexivity|]. split; [intros this; discriminate|reflexivity].
Qed.


(** ** The further properties, checked *)

Lemma Scan_witness :
  let this := collection_of (Primitive INT64) [counting_chunk 5; counting_chunk 7] in
  (forall n,
      Scan_trace n this (InitializeScan_columns this [0] ALLOW_ZERO_COPY) =
      map (fun chunk => Ok (Some chunk)) (take n (scanned_chunks this [0]))
      ++ replicate (n - length (scanned_chunks this [0])) (Ok None)) /\
  map sc_size (scanned_chunks this [0]) = concat (counts_of this) /\
  ChunkCount this = Ok (length (scanned_chunks this [0])).
Proof.
  intros this.
  apply (Scan_hands_out_every_chunk_in_order this [0] ALLOW_ZERO_COPY).
  apply all_present_check. vm_compute. reflexivity.
Defined.

Lemma GetRows_witness :
  let this := collection_of (Primitive INT64) [counting_chunk 5; counting_chunk 7] in
  exists rows,
    GetRows this = Ok rows /\
    rows = create_rows (scanned_chunks this (seq 0 (ColumnCount this))) 0 /\
    length rows = Count this /\
    forall i, i < Count this ->
      exists row,
        ColumnDataRowCollection_at rows i = Ok row /\
        RowIndex row = i /\
        row_index row < sc_size (row_chunk row).
Proof.
  intros this. apply (GetRows_numbers_every_row this).
  - apply all_present_check. vm_compute. reflexivity.
  - vm_compute. reflexivity.
Defined.

Lemma Combine_scan_witness :
  let this := collection_of (Primitive INT64) [counting_chunk 5] in
  let other := collection_of (Primitive INT64) [counting_chunk 7] in
  let this' := (Combine false this other).1.2 in
  scanned_chunks this' [0] = scanned_chunks this [0] ++ scanned_chunks other [0] /\
  ChunkCount this' =
    Ok (length (scanned_chunks this [0]) + length (scanned_chunks other [0])) /\
  forall n,
    Scan_trace n this' (InitializeScan_columns this' [0] ALLOW_ZERO_COPY) =
    map (fun chunk => Ok (Some chunk))
      (take n (scanned_chunks this [0] ++ scanned_chunks other [0]))
    ++ replicate
         (n - (length (scanned_chunks this [0]) + length (scanned_chunks other [0])))
         (Ok None).
Proof.
  intros this other this'.
  apply (Combine_scans_this_then_the_peer false this other this'
           (Combine false this other).2 [0] ALLOW_ZERO_COPY).
  - vm_compute. reflexivity.
  - vm_compute. lia.
  - apply all_present_check. vm_compute. reflexivity.
  - apply all_present_check. vm_compute. reflexivity.
Defined.

Lemma Verify_witness :
  let this := collection_of (Primitive INT64) [counting_chunk 5; counting_chunk 7] in
  let h :=
    Appended (Appended (Constructed 0 [Primitive INT64]) (counting_chunk 5))
      (counting_chunk 7) in
  (Forall (fun s => exists seg,
             s = Some seg /\ sum_list (chunk_counts seg) = seg_count seg)
     (segments this) /\
   sum_list (map segment_rows (segments this)) = Count this) /\
  well_typed h /\
  exists this', replay (H := standard_build) true h = Some this' /\
                Verify true this' = Ok tt.
Proof.
  intros this h.
  destruct (Verify_accepts_when_the_counts_add_up (H := standard_build))
    as (Hiff & _ & Hhistory).
  assert (well_typed h) as Hh.
  { simpl. repeat split; try done; repeat econstructor. }
  split; [|split; [exact Hh|]].
  - apply Hiff. vm_compute. reflexivity.
  - apply (Hhistory ltac:(vm_compute; lia) true h Hh).
Defined.

Lemma Reset_witness :
  let this := collection_of (Primitive INT64) [counting_chunk 5] in
  (forall n,
      Scan_trace n (Reset this) (InitializeScan_columns (Reset this) [0] ALLOW_ZERO_COPY)
      = replicate n (Ok None)) /\
  (exists this',
      Append_chunk (H := standard_build) (Reset this) (counting_chunk 7) = (Ok tt, this') /\
      Count this' = 7 /\
      length (segments this') = 1) /\
  (exists msg,
      Append_chunk (H := standard_build)
        (Reset (with_finished_append true this)) (counting_chunk 7)
      = (Fail (InternalException msg), Reset (with_finished_append true this))).
Proof.
  intros this.
  destruct (Reset_empties_the_collection (H := standard_build) this)
    as (_ & Hscan & Happend & _).
  destruct (Reset_empties_the_collection (H := standard_build)
              (with_finished_append true this)) as (_ & _ & _ & Hfinished).
  split; [intros n; apply Hscan|]. split.
  - apply (Happend ltac:(vm_compute; lia) (counting_chunk 7)).
    + vm_compute. reflexivity.
    + repeat econstructor.
    + repeat econstructor.
  - apply (Hfinished eq_refl (counting_chunk 7)).
Defined.

Lemma copy_finishes_witness :
  let other := int32_collection [Some 10%Z; Some 20%Z] in
  exists this other',
    ColumnDataCollection_copy other = (Ok this, other') /\
    (forall state,
        exists msg,
          InitializeAppend other' state = (Fail (InternalException msg), other', state)) /\
    (forall state input,
        exists msg,
          Append (H := standard_build) other' state input
          = (Fail (InternalException msg), other', state)) /\
    (forall input,
        exists msg,
          Append_chunk (H := standard_build) other' input
          = (Fail (InternalException msg), other')) /\
    finished_append this = false /\
    exists this',
      Append_chunk (H := standard_build) this (fixed_chunk INT32 [Some 1%Z]) = (Ok tt, this') /\
      Count this' = 1.
Proof.
  intros other.
  destruct (copy_constructor_finishes_the_source (H := standard_build) other)
    as (this & other' & E & Hinit & Happend & Hchunk & Hfin & Hcopy).
  { split; [vm_compute; congruence|vm_compute; reflexivity]. }
  exists this, other'. split; [exact E|]. split; [exact Hinit|]. split; [exact Happend|].
  split; [exact Hchunk|]. split; [exact Hfin|].
  apply (Hcopy ltac:(vm_compute; lia) (fixed_chunk INT32 [Some 1%Z])).
  repeat econstructor.
Defined.

Lemma InitializeAppend_witness :
  let this := empty_collection (Primitive INT64) in
  let state := {| as_vector_data := [] |} in
  exists this1 seg,
    InitializeAppend this state =
      (Ok tt, this1,
       {| as_vector_data :=
            resize (length (types this)) default_format (as_vector_data state) |}) /\
    (forall state',
        InitializeAppend this1 state' =
          (Ok tt, this1,
           {| as_vector_data :=
                resize (length (types this)) default_format (as_vector_data state') |})) /\
    Count this1 = Count this /\
    length (segments this1) = 1 /\
    last (segments this1) = Some (Some seg) /\
    chunk_counts seg = [0] /\ ChunkCount this1 = Ok 1.
Proof.
  intros this state.
  destruct (InitializeAppend_twice_is_once this state)
    as (this1 & seg & E & Hagain & Hcount & _ & Hlen & Hlast & _ & Hfirst & _).
  - reflexivity.
  - intros s Hs. vm_compute in Hs. discriminate.
  - exists this1, seg. split; [exact E|]. split; [exact Hagain|]. split; [exact Hcount|].
    split; [exact Hlen|]. split; [exact Hlast|]. apply Hfirst. reflexivity.
Defined.

Lemma FetchChunk_witness :
  let this := collection_of (Primitive INT64) [counting_chunk 5; counting_chunk 7] in
  match scanned_chunks this (Chunks this) !! 0 with
  | Some chunk =>
      FetchChunk this 0 = Ok chunk /\ FetchChunk_loop (segments this) 0 = Ok chunk
  | None =>
      FetchChunk this 0 =
        Fail (InternalException "Assertion triggered: chunk_idx < ChunkCount()") /\
      FetchChunk_loop (segments this) 0 =
        Fail (InternalException "Failed to find chunk in ColumnDataCollection")
  end.
Proof.
  intros this.
  assert (forallb (fun s : option ColumnDataCollectionSegment =>
                     match s with
                     | Some seg => length (seg_types seg) =? ColumnCount this
                     | None => true
                     end) (segments this) = true) as Hcheck
      by (vm_compute; reflexivity).
  refine (FetchChunk_is_the_chunk_of_the_scan this _ _ 0).
  - (apply all_present_check; vm_compute; reflexivity).
  - (apply Forall_forall; intros s Hs seg ->; apply list_elem_of_In in Hs;
    apply Nat.eqb_eq; exact (proj1 (forallb_forall _ _) Hcheck _ Hs)).
Defined.

Lemma InitializeScanChunk_witness :
  let this := collection_of (Primitive INT64) [counting_chunk 5] in
  InitializeScanChunk_state this (InitializeScan_columns this [] ALLOW_ZERO_COPY) =
    Fail (InternalException "Assertion triggered: !state.column_ids.empty()") /\
  InitializeScanChunk_state this (InitializeScan_columns this [0; 3] ALLOW_ZERO_COPY) =
    Fail (InternalException "Assertion triggered: column_idx < types.size()") /\
  (exists chunk_types,
      InitializeScanChunk_state this (InitializeScan_columns this [0; 0] ALLOW_ZERO_COPY)
      = Ok chunk_types /\
      length chunk_types = 2 /\
      forall k i, [0; 0] !! k = Some i -> chunk_types !! k = Types this !! i) /\
  InitializeScanChunk_state this (InitializeScan this ALLOW_ZERO_COPY)
  = Ok (InitializeScanChunk this).
Proof.
  intros this.
  assert (ColumnCount this = 1) as Hcolumns by (vm_compute; reflexivity).
  split; [|split; [|split]].
  - apply (InitializeScanChunk_projects_the_schema this
             (InitializeScan_columns this [] ALLOW_ZERO_COPY)). reflexivity.
  - apply (InitializeScanChunk_projects_the_schema this
             (InitializeScan_columns this [0; 3] ALLOW_ZERO_COPY)); [discriminate|].
    apply Exists_cons_tl, Exists_cons_hd. rewrite Hcolumns. lia.
  - apply (InitializeScanChunk_projects_the_schema this
             (InitializeScan_columns this [0; 0] ALLOW_ZERO_COPY)); [discriminate|].
    rewrite Hcolumns. repeat constructor.
  - apply (InitializeScanChunk_projects_the_schema this
             (InitializeScan this ALLOW_ZERO_COPY)).
    assert (Types this = [Primitive INT64]) as -> by (vm_compute; reflexivity).
    discriminate.
Defined.

Lemma chunk_iteration_witness :
  let this := collection_of (Primitive INT64) [counting_chunk 5; counting_chunk 7] in
  let garbage := InitializeScan_columns this [7] DISALLOW_ZERO_COPY in
  exists it end_it chunk_types,
    ColumnDataChunkIterator_new (Some this) [0] garbage = Ok it /\
    ColumnDataChunkIterator_new None [] garbage = Ok end_it /\
    InitializeScanChunk_state this (InitializeScan_columns this [0] ALLOW_ZERO_COPY)
    = Ok chunk_types /\
    ColumnDataChunkIterator_neq it end_it = true /\
    Chunks_loop (S (length (scanned_chunks this [0]))) this it end_it [] =
    Ok (match scanned_chunks this [0] with
        | [] => [DataChunk_Initialize chunk_types]
        | chunks => chunks
        end).
Proof.
  intros this garbage.
  assert (ColumnCount this = 1) as Hcolumns by (vm_compute; reflexivity).
  apply (chunk_iteration_sees_every_chunk this [0] garbage garbage).
  - apply all_present_check. vm_compute. reflexivity.
  - discriminate.
  - rewrite Hcolumns. repeat constructor.
Defined.

Lemma Rows_witness :
  let this := collection_of (Primitive INT64) [counting_chunk 5; counting_chunk 7] in
  let garbage := InitializeScan_columns this [7] DISALLOW_ZERO_COPY in
  exists begin_it end_it rows,
    Rows_begin this garbage = Ok begin_it /\
    Rows_end garbage = Ok end_it /\
    GetRows this = Ok rows /\
    Rows_loop (Count this) this begin_it end_it [] = Ok rows /\
    (Count this = 0 -> rows = [] /\ ColumnDataRowIterator_neq begin_it end_it = false).
Proof.
  intros this garbage.
  assert (concat (counts_of this) = [12]) as Hcounts by (vm_compute; reflexivity).
  apply (Rows_and_GetRows_agree this garbage garbage).
  - apply all_present_check. vm_compute. reflexivity.
  - rewrite Hcounts. repeat constructor.
  - rewrite Hcounts. vm_compute. reflexivity.
Defined.

Lemma parallel_scan_witness :
  let this := collection_of (Primitive INT64) [counting_chunk 1000; counting_chunk 1000] in
  let lstate := {| l_handles := []; l_properties := ALLOW_ZERO_COPY;
                   current_segment_index := 0; l_current_row_index := 0 |} in
  let workers := [0; 1; 1; 0] in
  exists results state' lstates',
    parallel_trace this workers (InitializeScan_columns this [0] ALLOW_ZERO_COPY)
      [lstate; lstate]
    = (results, state', lstates') /\
    map fst results = workers /\
    map snd results =
      Scan_trace (length workers) this (InitializeScan_columns this [0] ALLOW_ZERO_COPY) /\
    map snd results =
      map (fun chunk => Ok (Some chunk)) (take (length workers) (scanned_chunks this [0]))
      ++ replicate (length workers - length (scanned_chunks this [0])) (Ok None).
Proof.
  intros this lstate workers.
  apply (parallel_scan_hands_out_every_chunk_once this [0] ALLOW_ZERO_COPY workers
           [lstate; lstate]).
  - apply all_present_check. vm_compute. reflexivity.
  - repeat constructor.
Defined.

Lemma GetCopyFunction_witness :
  (exists f,
      GetCopyFunction (ListType (StructType [("a"%string, Primitive INT32);
                                             ("b"%string, Primitive VARCHAR)])) = Ok f /\
      mirrors (ListType (StructType [("a"%string, Primitive INT32);
                                     ("b"%string, Primitive VARCHAR)])) f) /\
  (exists msg,
      GetCopyFunction (ListType (Primitive INVALID)) = Fail (InternalException msg)).
Proof.
  split.
  - apply (GetCopyFunction_mirrors_the_type
             (ListType (StructType [("a"%string, Primitive INT32);
                                    ("b"%string, Primitive VARCHAR)]))).
    reflexivity.
  - apply (GetCopyFunction_mirrors_the_type (ListType (Primitive INVALID))). reflexivity.
Defined.

Lemma constructors_witness :
  (ColumnDataCollection_shared 0 [] =
     Fail (InternalException "Assertion triggered: !types.empty()") /\
   ColumnDataCollection_context 0 [] =
     Fail (InternalException "Assertion triggered: !types.empty()")) /\
  (exists msg,
      ColumnDataCollection_shared 0 [Primitive INT64; Primitive INVALID]
      = Fail (InternalException msg) /\
      ColumnDataCollection_context 0 [Primitive INT64; Primitive INVALID]
      = Fail (InternalException msg)) /\
  (exists this,
      ColumnDataCollection_shared 0 [Primitive INT64; Primitive VARCHAR] = Ok this /\
      ColumnDataCollection_context 0 [Primitive INT64; Primitive VARCHAR] = Ok this /\
      allocator this = 0 /\
      Types this = [Primitive INT64; Primitive VARCHAR] /\
      Forall2 mirrors [Primitive INT64; Primitive VARCHAR] (copy_functions this) /\
      Count this = 0 /\
      segments this = [] /\
      finished_append this = false /\
      ChunkCount this = Ok 0 /\
      GetRows this = Ok []) /\
  (exists msg this',
      Append_chunk (H := standard_build) (ColumnDataCollection_untyped 0) (counting_chunk 5)
      = (Fail (InternalException msg), this') /\
      Count this' = 0) /\
  (exists this',
      Append_chunk (H := standard_build) (ColumnDataCollection_untyped 0)
        {| dc_data := []; dc_size := 5; dc_strings := fun _ => [] |} = (Ok tt, this') /\
      Count this' = 5).
Proof.
  split; [|split; [|split; [|split]]].
  - apply (constructors_accept_supported_schemas (H := standard_build) 0 []). reflexivity.
  - apply (constructors_accept_supported_schemas (H := standard_build) 0
             [Primitive INT64; Primitive INVALID]); [discriminate|reflexivity].
  - apply (constructors_accept_supported_schemas (H := standard_build) 0
             [Primitive INT64; Primitive VARCHAR]); [discriminate|reflexivity].
  - apply (constructors_accept_supported_schemas (H := standard_build) 0 []
             ). simpl. discriminate.
  - destruct (constructors_accept_supported_schemas (H := standard_build) 0 [])
      as (_ & _ & _ & _ & Hempty).
    apply (Hempty ltac:(vm_compute; lia)
             {| dc_data := []; dc_size := 5; dc_strings := fun _ => [] |}).
    reflexivity.
Defined.

Lemma appended_values_witness :
  let ts := [Primitive INT64; Primitive VARCHAR] in
  let h := Combined (Appended (Constructed 0 ts) (mixed_chunk 3))
             (Appended (Appended (Constructed 1 ts) (mixed_chunk 2)) (mixed_chunk 1)) in
  exists this rows,
    replay (H := standard_build) true h = Some this /\
    Types this = history_types h /\
    GetRows this = Ok rows /\
    length rows = sum_list (map dc_size (appended_chunks h)) /\
    forall c, c < ColumnCount this ->
      column_values this c =
        concat (map (fun input => input_column input c) (appended_chunks h)) /\
      map (fun row => ColumnDataRow_GetValue row c) rows = map Ok (column_values this c).
Proof.
  intros ts h.
  assert (forall n, chunk_typed ts (mixed_chunk n)) as Hchunk.
  { intros n. constructor; [|constructor; [|constructor]].
    - exists INT64. split; [done|]. split; [done|]. intros k _ _. simpl. discriminate.
    - exists VARCHAR. split; [done|]. split; [done|]. intros k _ _.
      destruct k as [|[|k]]; simpl; done. }
  assert (Forall flat ts) as Hflat.
  { constructor; [by exists INT64|]. constructor; [by exists VARCHAR|constructor]. }
  apply (appended_values_are_scanned (H := standard_build) true h).
  - vm_compute. lia.
  - simpl. split; [split; [split; [discriminate|exact Hflat]|apply Hchunk]|].
    split; [|reflexivity].
    split; [split; [split; [discriminate|exact Hflat]|apply Hchunk]|apply Hchunk].
Defined.

Lemma Rows_empty_chunk_witness :
  let this := behind_an_empty_chunk 5 in
  let any_state := InitializeScan_columns this [7] DISALLOW_ZERO_COPY in
  counts_of this = [[0]; [5]] /\
  exists begin_it end_it rows,
    Rows_begin this any_state = Ok begin_it /\
    Rows_end any_state = Ok end_it /\
    Rows_loop (length rows) this begin_it end_it [] = Ok rows /\
    rows = visited_rows (scanned_chunks this (seq 0 (ColumnCount this))) 0 /\
    length rows =
      Count this + length (filter (fun n => n = 0) (concat (counts_of this))) /\
    (Forall (fun n => 0 < n) (concat (counts_of this)) -> GetRows this = Ok rows) /\
    forall row, row ∈ rows ->
      row_index row < sc_size (row_chunk row) \/
      (sc_size (row_chunk row) = 0 /\ row_index row = 0 /\
       forall c, c < length (sc_data (row_chunk row)) ->
         ColumnDataRow_GetValue row c =
         Fail (InternalException "Assertion triggered: row_index < chunk.size()")).
Proof.
  intros this any_state. split; [vm_compute; reflexivity|].
  apply (Rows_sees_a_row_in_every_chunk_without_rows this any_state any_state).
  - apply all_present_check. vm_compute. reflexivity.
  - vm_compute. reflexivity.
  - vm_compute. lia.
Defined.

Lemma ResultEquals_shapes_witness :
  let ts := [Primitive INT64; Primitive VARCHAR] in
  let hl := Appended (Constructed 0 ts) (mixed_chunk 2) in
  let hr := Combined (Appended (Constructed 1 ts) (mixed_chunk 1))
              (Appended (Constructed 2 ts) (mixed_chunk 1)) in
  exists left right,
    replay (H := standard_build) true hl = Some left /\
    replay (H := standard_build) true hr = Some right /\
    ResultEquals Value_eqb left right (Message "") =
    Ok (if negb (ColumnCount left =? ColumnCount right)
        then (false, Message "Column count mismatch")
        else if negb (Count left =? Count right)
             then (false, Message "Row count mismatch")
             else (true, Message "")).
Proof.
  intros ts hl hr.
  assert (forall n, chunk_typed ts (mixed_chunk n)) as Hchunk.
  { intros n. constructor; [|constructor; [|constructor]].
    - exists INT64. split; [done|]. split; [done|]. intros k _ _. simpl. discriminate.
    - exists VARCHAR. split; [done|]. split; [done|]. intros k _ _.
      destruct k as [|[|k]]; simpl; done. }
  assert (Forall flat ts) as Hflat.
  { constructor; [by exists INT64|]. constructor; [by exists VARCHAR|constructor]. }
  apply (ResultEquals_only_tells_shapes_apart (H := standard_build) true hl hr
           Value_eqb (Message "")).
  - vm_compute. lia.
  - simpl. split; [split; [discriminate|exact Hflat]|apply Hchunk].
  - simpl. split; [split; [split; [discriminate|exact Hflat]|apply Hchunk]|].
    split; [|reflexivity]. split; [split; [discriminate|exact Hflat]|apply Hchunk].
  - apply Value_eqb_refl.
Defined.

Lemma appended_structs_witness :
  let ts := [StructType [("id", Primitive INT64);
                         ("tag", StructType [("name", Primitive VARCHAR)])];
             Primitive INT64] in
  let h := Combined (Appended (Constructed 0 ts) (struct_chunk 3))
             (Appended (Appended (Constructed 1 ts) (struct_chunk 2)) (struct_chunk 1)) in
  chunk_column (struct_chunk 3) 0 =
    [VStruct [VFixed 0; VStruct [VString (String.list_byte_of_string "a")]];
     VNull;
     VStruct [VFixed 2; VStruct [VNull]]] /\
  exists this rows,
    replay (H := standard_build) true h = Some this /\
    Types this = history_types h /\
    GetRows this = Ok rows /\
    length rows = sum_list (map dc_size (appended_chunks h)) /\
    forall c, c < ColumnCount this ->
      column_values this c =
        concat (map (fun input => chunk_column input c) (appended_chunks h)) /\
      map (fun row => ColumnDataRow_GetValue row c) rows = map Ok (column_values this c).
Proof.
  intros ts h. split; [vm_compute; reflexivity|].
  assert (forall n, plain_chunk ts (struct_chunk n)) as Hchunk.
  { intros n.
    assert (forall t, vector_typed n (Primitive INT64)
                        (mkVector (Primitive INT64)
                           {| uvf_sel := fun i => i; uvf_validity := None;
                              uvf_data := fun i => CFixed (Z.of_nat i) |} 0 t)) as Hcounting.
    { intros t. constructor; [done|]. intros k _ _. simpl. discriminate. }
    constructor; [|constructor; [apply Hcounting|constructor]].
    constructor; [done|done|].
    constructor; [apply Hcounting|]. constructor; [|constructor].
    constructor; [done|done|]. constructor; [|constructor].
    constructor; [done|]. intros k _ _. destruct k as [|[|k]]; simpl; done. }
  assert (Forall (fun t => plain t = true) ts) as Hplain.
  { constructor; [done|]. constructor; [done|constructor]. }
  apply (appended_structs_are_scanned (H := standard_build) true h).
  - vm_compute. lia.
  - simpl. split; [split; [split; [discriminate|exact Hplain]|apply Hchunk]|].
    split; [|reflexivity].
    split; [split; [split; [discriminate|exact Hplain]|apply Hchunk]|apply Hchunk].
Defined.

Lemma long_copies_witness :
  let seg := first_chunk_segment [Primitive INT64] in
  let source :=
    mkVector (Primitive INT64)
      {| uvf_sel := fun i => i; uvf_validity := None;
         uvf_data := fun i => CFixed (Z.of_nat i) |} 0 [] in
  exists f seg',
    GetCopyFunction (Primitive INT64) = Ok f /\
    call_copy_function (H := standard_build) f caller_memory 0 (VectorFormat source) source
      0 2500 seg
    = (Ok tt, seg') /\
    wf_segment (H := standard_build) seg' /\
    read_vector (Primitive INT64) seg' 0 =
      [] ++ map (source_value caller_memory (VectorFormat source)) (seq 0 2500) /\
    sum_list (chain_counts seg' 0) = length ([] : list Value) + 2500 /\
    Forall (fun c => c = 1024) (removelast (chain_counts seg' 0)) /\
    length (chain_counts seg' 0) <= (length ([] : list Value) + 2500) / 1024 + 1 /\
    forall i, i < length (vector_data seg) -> i <> 0 ->
      vector_data seg' !! i = vector_data seg !! i /\ blocks seg' !! i = blocks seg !! i.
Proof.
  intros seg source.
  apply (long_copies_chain_vectors (H := standard_build) INT64 caller_memory source 0 []
           0 2500 seg).
  - vm_compute. lia.
  - apply (wf_first_chunk (H := standard_build)).
  - reflexivity.
  - eexists. split; [reflexivity|]. split; [reflexivity|]. split; [reflexivity|].
    intros ext. reflexivity.
  - intros k _ _. simpl. discriminate.
Defined.

Lemma lists_read_back_witness :
  let windows := [{| cw_source := list_vector; cw_offset := 0; cw_count := 2 |};
                  {| cw_source := list_vector; cw_offset := 2; cw_count := 1 |}] in
  let seg := new_segment [ListType (Primitive INT32)] in
  concat (map (fun w => map (list_source_value caller_memory (cw_source w))
                          (seq (cw_offset w) (cw_count w))) windows) =
    [VList [VFixed 1; VFixed 2; VFixed 3]; VList []; VList [VFixed 4; VFixed 5]] /\
  exists f index seg1 seg2,
    GetCopyFunction (ListType (Primitive INT32)) = Ok f /\
    allocate_column (ListType (Primitive INT32)) seg = (Ok index, seg1) /\
    copy_windows (H := standard_build) f caller_memory index windows seg1 = (Ok tt, seg2) /\
    wf_segment (H := standard_build) seg2 /\
    read_vector (ListType (Primitive INT32)) seg2 index =
      concat (map (fun w => map (list_source_value caller_memory (cw_source w))
                              (seq (cw_offset w) (cw_count w))) windows).
Proof.
  intros windows seg. split; [vm_compute; reflexivity|].
  assert (forall offset count, 0 < count ->
            list_window INT32
              {| cw_source := list_vector; cw_offset := offset; cw_count := count |})
    as Hwindow.
  { intros offset count Hcount. split; [exact Hcount|].
    eexists. split; [reflexivity|]. split.
    - intros k _ _. simpl. discriminate.
    - intros k _ _. simpl. destruct k as [|[|i]]; eexists; (split; [reflexivity|]);
        vm_compute; discriminate. }
  apply (lists_read_back (H := standard_build) INT32 caller_memory windows seg).
  - vm_compute. lia.
  - apply (wf_new_segment (H := standard_build)).
  - reflexivity.
  - constructor; [apply Hwindow; lia|]. constructor; [apply Hwindow; lia|constructor].
  - vm_compute. lia.
  - vm_compute. reflexivity.
Defined.
